(** * Amazeing: grid model, path engine, undo history and level generator

    A shallow embedding of the JavaScript sources

      - [Helpers.js]        (posEquals, areAdjacent, deepClone)
      - [Grid.js]           (class Grid)
      - [GameState.js]      (class GameState, the singleton session state)
      - [PathManager.js]    (class PathManager)
      - [GameController.js] (loadLevel)
      - [LevelGenerator.js] (class LevelGenerator)

    followed by the properties of the specification that were checked
    against it.

    Conventions of the embedding.
      - JavaScript numbers that hold coordinates, point numbers and counters
        are integers here ([Z]); array indices are [nat] once they are known
        to be in range.
      - A position key, the string [`${row},${col}`], is the pair [(row, col)]:
        the encoding is injective on integers.
      - A JavaScript [Set] is the list of its elements in insertion order,
        without duplicates; a [Map] is an association list in insertion
        order.
      - A [TypeError] (reading a property of [undefined] or [null]) is the
        outcome [Throw] of the monad [js].
      - [Math.random()] is a read of an oracle: an infinite sequence of
        naturals and a cursor into it.  [Math.floor(Math.random() * n)]
        is the oracle value reduced to the range the expression can take.
      - Observers ([_notify]) only call rendering code and are left out. *)

From Stdlib Require Import ZArith List Bool Lia Arith PeanoNat Permutation.
From Stdlib Require String Ascii DecimalString DecimalZ DecimalPos.
Import ListNotations.
Open Scope Z_scope.

Set Warnings "-notation-for-abbreviation".

(* ================================================================== *)
(** * Part I: the program                                              *)
(* ================================================================== *)

(** ** Exceptions *)

Inductive js (A : Type) : Type :=
| Ret (a : A)
| Throw.
Arguments Ret {A} a.
Arguments Throw {A}.

Definition bind {A B : Type} (m : js A) (k : A -> js B) : js B :=
  match m with
  | Ret a => k a
  | Throw => Throw
  end.

Notation "x <- m ;; k" := (bind m (fun x => k))
  (at level 61, m at next level, right associativity).

(** [arr.forEach(x => body)] where the body may throw and updates [s]. *)
Fixpoint forEach {A S : Type} (body : S -> A -> js S) (arr : list A) (s : S)
  : js S :=
  match arr with
  | [] => Ret s
  | x :: rest => s' <- body s x ;; forEach body rest s'
  end.

(** ** Arrays *)

(** A grid position [{row, col}]. *)
Notation Pos := (Z * Z)%type (only parsing).

Definition pos_eqb (p q : Pos) : bool :=
  (fst p =? fst q) && (snd p =? snd q).

(** [arr[i]] for an integer [i]: [undefined] out of range. *)
Definition at_index {A : Type} (arr : list A) (i : Z) : option A :=
  if i <? 0 then None else nth_error arr (Z.to_nat i).

(** [arr.findIndex(pred)]: the first index where [pred] holds, or -1. *)
Fixpoint findIndex {A : Type} (pred : A -> bool) (arr : list A) : Z :=
  match arr with
  | [] => -1
  | x :: rest =>
      if pred x then 0
      else let i := findIndex pred rest in
           if i =? -1 then -1 else i + 1
  end.

(** The relative index of [slice] and [splice]: a negative argument counts
    from the end, and the result is clamped to [0 .. length]. *)
Definition relIndex (len : Z) (i : Z) : nat :=
  Z.to_nat (if i <? 0 then Z.max (len + i) 0 else Z.min i len).

(** [arr.slice(start)] *)
Definition slice_from {A : Type} (arr : list A) (start : Z) : list A :=
  skipn (relIndex (Z.of_nat (length arr)) start) arr.

(** [arr.slice(start, end)] *)
Definition slice {A : Type} (arr : list A) (start stop : Z) : list A :=
  let len := Z.of_nat (length arr) in
  let k := relIndex len start in
  let e := relIndex len stop in
  firstn (e - k)%nat (skipn k arr).

(** [arr.splice(start)]: what stays in the array, and what is removed. *)
Definition splice_from {A : Type} (arr : list A) (start : Z)
  : list A * list A :=
  let k := relIndex (Z.of_nat (length arr)) start in
  (firstn k arr, skipn k arr).

(** The values of [i] in [for (let i = 0; i < n; i++)]. *)
Definition range (n : Z) : list Z :=
  map Z.of_nat (seq 0 (Z.to_nat n)).

(** [arr[i] = f(arr[i])] for an index in range; nothing otherwise. *)
Fixpoint upd_nth {A : Type} (n : nat) (f : A -> A) (l : list A) : list A :=
  match l, n with
  | [], _ => []
  | x :: r, O => f x :: r
  | x :: r, S m => x :: upd_nth m f r
  end.

(** ** Sets and maps *)

Section JsSet.
Context {K : Type}.
Variable eqb : K -> K -> bool.

Definition set_has (s : list K) (k : K) : bool := existsb (eqb k) s.

Definition set_add (s : list K) (k : K) : list K :=
  if set_has s k then s else s ++ [k].

Definition set_delete (s : list K) (k : K) : list K :=
  filter (fun x => negb (eqb k x)) s.

(** Two sets with the same elements. *)
Definition set_equal (s1 s2 : list K) : bool :=
  forallb (set_has s2) s1 && forallb (set_has s1) s2.

Context {V : Type}.

Fixpoint map_get (m : list (K * V)) (k : K) : option V :=
  match m with
  | [] => None
  | (k', v) :: rest => if eqb k k' then Some v else map_get rest k
  end.

Fixpoint map_set (m : list (K * V)) (k : K) (v : V) : list (K * V) :=
  match m with
  | [] => [(k, v)]
  | (k', v') :: rest =>
      if eqb k k' then (k', v) :: rest else (k', v') :: map_set rest k v
  end.
End JsSet.

(** ** Helpers.js *)

Definition posEquals (pos1 pos2 : Pos) : bool :=
  (fst pos1 =? fst pos2) && (snd pos1 =? snd pos2).

Definition areAdjacent (pos1 pos2 : Pos) : bool :=
  let rowDiff := Z.abs (fst pos1 - fst pos2) in
  let colDiff := Z.abs (snd pos1 - snd pos2) in
  ((rowDiff =? 1) && (colDiff =? 0)) || ((rowDiff =? 0) && (colDiff =? 1)).

(** The other helpers of [Helpers.js].  Strings are [String.string]s of
    characters; [dateHash] only reads the UTF-16 code units of its argument,
    which is given as the list of them. *)
Module Helpers.
Import Ascii String.

(** [String(n)], as in [`${n}`] and [n.toString()], for an integer [n]
    that JavaScript prints without an exponent: the decimal digits, and a
    [-] in front of a negative number. *)
Definition toString (n : Z) : string :=
  DecimalString.NilZero.string_of_int (Z.to_int n).

(** [Number(s)] for a string [s] that is a decimal integer literal with an
    optional [-] in front.  [None] covers every other string: what
    JavaScript makes of it ([NaN], a fraction, the value of the empty
    string) is not described here. *)
Definition Number (s : string) : option Z :=
  option_map Z.of_int (DecimalString.NilZero.int_of_string s).

(** [s.padStart(targetLength, pad)] for a one-character [pad]. *)
Definition padStart (targetLength : nat) (pad : ascii) (s : string) : string :=
  string_of_list_ascii (repeat pad (targetLength - length s)) ++ s.

Definition colon : ascii := ":".
Definition comma : ascii := ",".
Definition zero : ascii := "0".

(** [Number.MAX_SAFE_INTEGER], 2^53 - 1. *)
Definition MAX_SAFE_INTEGER : Z := 9007199254740991.

(** [formatTime(seconds)] for a number of seconds that is a safe integer,
    one of absolute value at most [MAX_SAFE_INTEGER].  There the code's
    arithmetic on doubles is the one on integers: the rounded quotient
    [seconds / 60] has the floor of the exact quotient (a quotient that is
    not an integer is at least 1/60 away from the next one, more than the
    rounding error below 2^48), [%] is exact, and both fields print
    without an exponent.  [None] covers every other number (a fraction, a
    larger integer, [NaN]): what the code prints for it is not described
    here. *)
Definition formatTime (seconds : Z) : option string :=
  if Z.abs seconds <=? MAX_SAFE_INTEGER then
    let mins := seconds / 60 in       (* Math.floor(seconds / 60) *)
    let secs := Z.rem seconds 60 in   (* seconds % 60 *)
    Some (append (padStart 2 zero (toString mins))
                 (String colon (padStart 2 zero (toString secs))))
  else None.

Definition posKey (row col : Z) : string :=
  toString row ++ String comma (toString col).

(** [s.split(sep)] for a one-character separator. *)
Fixpoint split (sep : ascii) (s : string) : list string :=
  match s with
  | EmptyString => [EmptyString]
  | String c rest =>
      if Ascii.eqb c sep then EmptyString :: split sep rest
      else match split sep rest with
           | [] => [String c EmptyString]
           | field :: fields => String c field :: fields
           end
  end.

(** [const [row, col] = key.split(',').map(Number)]: the first two
    fields; [None] when one of them is missing or is not an integer
    literal. *)
Definition parseKey (key : string) : option Pos :=
  match map Number (split comma key) with
  | Some row :: Some col :: _ => Some (row, col)
  | _ => None
  end.

Definition clamp (value min max : Z) : Z :=
  Z.min (Z.max value min) max.

(** [ToInt32]: the operands and the result of [<<] and [&] are signed
    32-bit integers. *)
Definition toInt32 (x : Z) : Z := (x + 2 ^ 31) mod 2 ^ 32 - 2 ^ 31.

(** The subtraction and the addition of the loop body are exact: their
    operands are below 2^32 in absolute value. *)
Definition dateHash (dateString : list Z) : Z :=
  Z.abs
    (fold_left
       (fun hash char =>
          let hash := (toInt32 (Z.shiftl (toInt32 hash) 5) - hash) + char in
          Z.land (toInt32 hash) (toInt32 hash))
       dateString 0).

End Helpers.

(** ** Level data *)

Record Point : Type := mkPoint {
  number : Z;
  p_row : Z;
  p_col : Z
}.

Record Segment : Type := mkSegment {
  seg_from : Z;
  seg_to : Z;
  seg_path : list Pos
}.

Record Level : Type := mkLevel {
  lv_size : Z;
  lv_points : list Point;
  lv_obstacles : list Pos;
  lv_solution : list Segment
}.

(** A drawn path: [{number, cells}]. *)
Record Path : Type := mkPath {
  path_number : Z;
  path_cells : list Pos
}.

(** ** Grid.js *)

Module Grid.

Record Cell : Type := mkCell {
  row : Z;
  col : Z;
  occupied : bool;
  pathNumber : option Z;
  isPoint : bool;
  pointNumber : option Z
}.

Record t : Type := mk {
  size : Z;
  cells : list (list Cell);
  points : list (Pos * Z)
}.

Definition _createGrid (size : Z) : list (list Cell) :=
  map (fun row =>
         map (fun col => mkCell row col false None false None)
             (range size))
      (range size).

(** [new Grid(size)] *)
Definition new (size : Z) : t := mk size (_createGrid size) [].

Definition isValidPosition (g : t) (row col : Z) : bool :=
  (0 <=? row) && (row <? size g) && (0 <=? col) && (col <? size g).

(** [this.cells[row][col]]: throws when the row is missing, and is
    [undefined] when only the column is. *)
Definition getCell (g : t) (row col : Z) : js (option Cell) :=
  if negb (isValidPosition g row col) then Ret None
  else match at_index (cells g) row with
       | None => Throw
       | Some r => Ret (at_index r col)
       end.

(** Assignment to the fields of the cell object stored at a position. *)
Definition withCell (g : t) (row col : Z) (f : Cell -> Cell) : t :=
  mk (size g)
     (upd_nth (Z.to_nat row) (upd_nth (Z.to_nat col) f) (cells g))
     (points g).

Definition isCellAvailable (g : t) (row col : Z) : js bool :=
  cell <- getCell g row col ;;
  Ret (match cell with
       | Some c => negb (occupied c)
       | None => false
       end).

Definition occupyCell (g : t) (row col : Z) (n : Z) : js t :=
  cell <- getCell g row col ;;
  match cell with
  | Some _ =>
      Ret (withCell g row col
             (fun c => mkCell (Grid.row c) (Grid.col c) true (Some n)
                              (isPoint c) (pointNumber c)))
  | None => Ret g
  end.

Definition releaseCell (g : t) (row col : Z) : js t :=
  cell <- getCell g row col ;;
  match cell with
  | Some c =>
      if negb (isPoint c) then
        Ret (withCell g row col
               (fun c => mkCell (Grid.row c) (Grid.col c) false None
                                (isPoint c) (pointNumber c)))
      else Ret g
  | None => Ret g
  end.

Definition setPoint (g : t) (row col : Z) (n : Z) : js t :=
  cell <- getCell g row col ;;
  match cell with
  | Some _ =>
      let g' := withCell g row col
                  (fun c => mkCell (Grid.row c) (Grid.col c) (occupied c)
                                   (pathNumber c) true (Some n)) in
      Ret (mk (size g') (cells g') (map_set pos_eqb (points g') (row, col) n))
  | None => Ret g
  end.

(** [this.points.get(key) || null]: a stored 0 is falsy. *)
Definition getPointAt (g : t) (row col : Z) : option Z :=
  match map_get pos_eqb (points g) (row, col) with
  | Some n => if n =? 0 then None else Some n
  | None => None
  end.

Definition isPointAt (g : t) (row col : Z) : js bool :=
  cell <- getCell g row col ;;
  Ret (match cell with
       | Some c => isPoint c
       | None => false
       end).

Definition getNeighbors (g : t) (row col : Z) : list Pos :=
  filter (fun pos => isValidPosition g (fst pos) (snd pos))
         (map (fun d => (row + fst d, col + snd d))
              [(-1, 0); (1, 0); (0, -1); (0, 1)]).

(** Both branches of the source clear the cell in the same way. *)
Definition reset (g : t) : t :=
  mk (size g)
     (map (map (fun c => mkCell (row c) (col c) false None
                                (isPoint c) (pointNumber c)))
          (cells g))
     (points g).

Definition initializePoints (g : t) (pts : list Point) : js t :=
  forEach (fun g p => setPoint g (p_row p) (p_col p) (number p))
          pts
          (mk (size g) (_createGrid (size g)) []).

Definition rebuildFromPaths (g : t) (paths : list Path) : js t :=
  forEach (fun g path =>
             forEach (fun g cell =>
                        occupyCell g (fst cell) (snd cell) (path_number path))
                     (path_cells path) g)
          paths
          (reset g).

End Grid.

(** ** GameState.js *)

Module GameState.

Inductive Status : Type := IDLE | DRAWING | PAUSED | COMPLETED.

(** A history entry, as built by [saveSnapshot]. *)
Record Snapshot : Type := mkSnapshot {
  s_paths : list Path;
  s_occupiedCells : list Pos;
  s_currentNumber : Z;
  s_connectedPoints : list Z
}.

(** The fields of [_state] that the game logic reads or writes.  The
    level id, the theme, the timer fields and the hint counter are only
    used by the user interface. *)
Record t : Type := mk {
  levelData : option Level;
  gridSize : Z;
  occupiedCells : list Pos;
  paths : list Path;
  currentPath : option Path;
  points : list Point;
  totalPoints : Z;
  connectedPoints : list Z;
  currentNumber : Z;
  gameState : Status;
  isComplete : bool;
  history : list Snapshot;
  maxHistory : Z
}.

(** The state built by the constructor. *)
Definition new : t :=
  mk None 6 [] [] None [] 0 [] 1 IDLE false [] 50.

Definition reset (s : t) : t :=
  mk (levelData s) (gridSize s) [] [] None (points s) (totalPoints s)
     [] 1 IDLE false [] (maxHistory s).

Definition loadLevel (s : t) (lv : Level) : t :=
  reset (mk (Some lv) (lv_size lv) (occupiedCells s) (paths s)
            (currentPath s) (lv_points lv)
            (Z.of_nat (length (lv_points lv)))
            (connectedPoints s) (currentNumber s) (gameState s)
            (isComplete s) (history s) (maxHistory s)).

Definition startPath (s : t) (row col : Z) (pointNumber : Z) : t :=
  mk (levelData s) (gridSize s)
     (set_add pos_eqb (occupiedCells s) (row, col))
     (paths s)
     (Some (mkPath pointNumber [(row, col)]))
     (points s) (totalPoints s) (connectedPoints s) (currentNumber s)
     DRAWING (isComplete s) (history s) (maxHistory s).

Definition extendPath (s : t) (row col : Z) : t :=
  match currentPath s with
  | None => s
  | Some cp =>
      mk (levelData s) (gridSize s)
         (set_add pos_eqb (occupiedCells s) (row, col))
         (paths s)
         (Some (mkPath (path_number cp) (path_cells cp ++ [(row, col)])))
         (points s) (totalPoints s) (connectedPoints s) (currentNumber s)
         (gameState s) (isComplete s) (history s) (maxHistory s)
  end.

Definition truncatePath (s : t) (fromIndex : Z) : t :=
  match currentPath s with
  | None => s
  | Some cp =>
      let '(kept, removed) := splice_from (path_cells cp) (fromIndex + 1) in
      mk (levelData s) (gridSize s)
         (fold_left (set_delete pos_eqb) removed (occupiedCells s))
         (paths s)
         (Some (mkPath (path_number cp) kept))
         (points s) (totalPoints s) (connectedPoints s) (currentNumber s)
         (gameState s) (isComplete s) (history s) (maxHistory s)
  end.

(** [deepClone] goes through JSON: for arrays of records of numbers the
    copy has the same contents and shares nothing with the original. *)
Definition deepClone (ps : list Path) : list Path :=
  map (fun p => mkPath (path_number p) (map (fun c => c) (path_cells p))) ps.

Definition saveSnapshot (s : t) : t :=
  let snapshot := mkSnapshot (deepClone (paths s)) (occupiedCells s)
                             (currentNumber s) (connectedPoints s) in
  let pushed := history s ++ [snapshot] in
  let history' := if Z.of_nat (length pushed) >? maxHistory s
                  then tl pushed (* shift() *)
                  else pushed in
  mk (levelData s) (gridSize s) (occupiedCells s) (paths s)
     (currentPath s) (points s) (totalPoints s) (connectedPoints s)
     (currentNumber s) (gameState s) (isComplete s) history'
     (maxHistory s).

Definition _checkCompletion (s : t) : t :=
  if Z.of_nat (length (connectedPoints s)) =? totalPoints s then
    mk (levelData s) (gridSize s) (occupiedCells s) (paths s)
       (currentPath s) (points s) (totalPoints s) (connectedPoints s)
       (currentNumber s) COMPLETED true (history s) (maxHistory s)
  else s.

Definition completePath (s : t) (endRow endCol : Z) : t :=
  match currentPath s with
  | None => s
  | Some cp =>
      (* add the final cell *)
      let cp1 := mkPath (path_number cp)
                        (path_cells cp ++ [(endRow, endCol)]) in
      let s1 :=
        mk (levelData s) (gridSize s)
           (set_add pos_eqb (occupiedCells s) (endRow, endCol))
           (paths s) (Some cp1) (points s) (totalPoints s)
           (connectedPoints s) (currentNumber s) (gameState s)
           (isComplete s) (history s) (maxHistory s) in
      (* save to history before committing *)
      let s2 := saveSnapshot s1 in
      (* move the current path to the completed paths *)
      let completedPath := cp1 in
      let connected :=
        set_add Z.eqb
          (set_add Z.eqb (connectedPoints s2) (path_number completedPath))
          (path_number completedPath + 1) in
      _checkCompletion
        (mk (levelData s2) (gridSize s2) (occupiedCells s2)
            (paths s2 ++ [completedPath])
            None (points s2) (totalPoints s2) connected
            (path_number completedPath + 1)
            IDLE (isComplete s2) (history s2) (maxHistory s2))
  end.

Definition cancelPath (s : t) : t :=
  match currentPath s with
  | None => s
  | Some cp =>
      mk (levelData s) (gridSize s)
         (fold_left (set_delete pos_eqb) (tl (path_cells cp))
                    (occupiedCells s))
         (paths s) None (points s) (totalPoints s) (connectedPoints s)
         (currentNumber s) IDLE (isComplete s) (history s) (maxHistory s)
  end.

Definition isCellOccupied (s : t) (row col : Z) : bool :=
  set_has pos_eqb (occupiedCells s) (row, col).

Definition getPointAt (s : t) (row col : Z) : option Point :=
  find (fun p => (p_row p =? row) && (p_col p =? col)) (points s).

Definition getCurrentPathEnd (s : t) : option Pos :=
  match currentPath s with
  | None => None
  | Some cp =>
      if (length (path_cells cp) =? 0)%nat then None
      else at_index (path_cells cp) (Z.of_nat (length (path_cells cp)) - 1)
  end.

Definition findInCurrentPath (s : t) (row col : Z) : Z :=
  match currentPath s with
  | None => -1
  | Some cp =>
      findIndex (fun c => (fst c =? row) && (snd c =? col)) (path_cells cp)
  end.

(** [history.pop()] followed by the restore; [None] is the [false]
    result, which leaves the state as it is. *)
Definition undo (s : t) : option t :=
  match rev (history s) with
  | [] => None
  | snapshot :: older =>
      Some (mk (levelData s) (gridSize s)
               (s_occupiedCells snapshot)
               (s_paths snapshot)
               None (points s) (totalPoints s)
               (s_connectedPoints snapshot)
               (s_currentNumber snapshot)
               IDLE (isComplete s) (rev older) (maxHistory s))
  end.

Definition canUndo (s : t) : bool :=
  (0 <? length (history s))%nat.

End GameState.

(** ** PathManager.js and GameController.loadLevel *)

Inductive Reason : Type :=
| not_a_point | wrong_point | already_drawing
| no_active_path | no_path_end | same_cell | not_adjacent
| invalid_cell | cell_occupied.

(** The result objects [{success, reason?, completed?, backtracked?}]. *)
Inductive Result : Type :=
| Failure (reason : Reason)
| Success
| SuccessCompleted
| SuccessBacktracked.

Definition success (r : Result) : bool :=
  match r with
  | Failure _ => false
  | _ => true
  end.

(** The singleton [gameState] together with the grid that the path manager
    holds. *)
Record Session : Type := mkSession {
  gs : GameState.t;
  grid : Grid.t
}.

Module PathManager.

Definition tryStartPath (s : Session) (row col : Z) : js (Result * Session) :=
  match Grid.getPointAt (grid s) row col with
  | None => Ret (Failure not_a_point, s)
  | Some point =>
      if negb (point =? GameState.currentNumber (gs s)) then
        Ret (Failure wrong_point, s)
      else
        match GameState.currentPath (gs s) with
        | Some _ => Ret (Failure already_drawing, s)
        | None =>
            let gs' := GameState.startPath (gs s) row col point in
            g' <- Grid.occupyCell (grid s) row col point ;;
            Ret (Success, mkSession gs' g')
        end
  end.

Definition tryExtendPath (s : Session) (row col : Z) : js (Result * Session) :=
  match GameState.currentPath (gs s) with
  | None => Ret (Failure no_active_path, s)
  | Some cp =>
      match GameState.getCurrentPathEnd (gs s) with
      | None => Ret (Failure no_path_end, s)
      | Some pathEnd =>
          if posEquals pathEnd (row, col) then Ret (Failure same_cell, s)
          else if negb (areAdjacent pathEnd (row, col)) then
            Ret (Failure not_adjacent, s)
          else
            let existingIndex :=
              GameState.findInCurrentPath (gs s) row col in
            if negb (existingIndex =? -1) then
              (* backtracking: truncate the path to this position *)
              let cellsToRemove :=
                slice_from (path_cells cp) (existingIndex + 1) in
              g' <- forEach (fun g cell =>
                               Grid.releaseCell g (fst cell) (snd cell))
                            cellsToRemove (grid s) ;;
              Ret (SuccessBacktracked,
                   mkSession (GameState.truncatePath (gs s) existingIndex) g')
            else
              cell <- Grid.getCell (grid s) row col ;;
              match cell with
              | None => Ret (Failure invalid_cell, s)
              | Some cell =>
                  let targetNumber := GameState.currentNumber (gs s) + 1 in
                  if Grid.isPoint cell &&
                     match Grid.pointNumber cell with
                     | Some n => n =? targetNumber
                     | None => false
                     end
                  then
                    (* complete the path *)
                    let gs' := GameState.completePath (gs s) row col in
                    let n := match GameState.currentPath gs' with
                             | Some p => if path_number p =? 0
                                         then targetNumber - 1
                                         else path_number p
                             | None => targetNumber - 1
                             end in
                    g' <- Grid.occupyCell (grid s) row col n ;;
                    Ret (SuccessCompleted, mkSession gs' g')
                  else if Grid.occupied cell ||
                          (Grid.isPoint cell &&
                           negb match Grid.pointNumber cell with
                                | Some n => n =? targetNumber
                                | None => false
                                end)
                  then Ret (Failure cell_occupied, s)
                  else
                    let gs' := GameState.extendPath (gs s) row col in
                    match GameState.currentPath gs' with
                    | None => Throw
                    | Some p =>
                        g' <- Grid.occupyCell (grid s) row col
                                              (path_number p) ;;
                        Ret (Success, mkSession gs' g')
                    end
              end
      end
  end.

Definition cancelPath (s : Session) : js Session :=
  match GameState.currentPath (gs s) with
  | None => Ret s
  | Some cp =>
      (* every cell but the first one, which is a numbered point *)
      g' <- forEach (fun g cell => Grid.releaseCell g (fst cell) (snd cell))
                    (tl (path_cells cp)) (grid s) ;;
      Ret (mkSession (GameState.cancelPath (gs s)) g')
  end.

Definition undo (s : Session) : js (bool * Session) :=
  if negb (GameState.canUndo (gs s)) then Ret (false, s)
  else
    match GameState.undo (gs s) with
    | None => Ret (false, s)
    | Some gs' =>
        g1 <- Grid.initializePoints (Grid.reset (grid s))
                                    (GameState.points gs') ;;
        g2 <- Grid.rebuildFromPaths g1 (GameState.paths gs') ;;
        Ret (true, mkSession gs' g2)
    end.

Definition reset (s : Session) : js Session :=
  let gs' := GameState.reset (gs s) in
  g' <- Grid.initializePoints (Grid.reset (grid s)) (GameState.points gs') ;;
  Ret (mkSession gs' g').

(** The loop of [getHint] that finds how far the path being drawn follows
    the solution: [i] is the loop index, the two lists are what is left of
    [currentCells] and [solutionCells] from index [i] on. *)
Fixpoint matchLoop (i : Z) (currentCells solutionCells : list Pos)
         (matchIndex : Z) : Z :=
  match currentCells, solutionCells with
  | c :: currentRest, sc :: solutionRest =>
      if posEquals c sc then matchLoop (i + 1) currentRest solutionRest i
      else matchIndex
  | _, _ => matchIndex
  end.

(** [getHint]: [None] is [null].  A level without a [solution] behaves as
    one with an empty solution: both give [null]. *)
Definition getHint (s : Session) : option (list Pos) :=
  match GameState.levelData (gs s) with
  | None => None
  | Some levelData =>
      let currentNum := GameState.currentNumber (gs s) in
      match find (fun sg => seg_from sg =? currentNum)
                 (lv_solution levelData) with
      | None => None
      | Some solutionPath =>
          match GameState.currentPath (gs s) with
          | Some cp =>
              let currentCells := path_cells cp in
              let solutionCells := seg_path solutionPath in
              let matchIndex := matchLoop 0 currentCells solutionCells 0 in
              let hintCells :=
                slice solutionCells (matchIndex + 1) (matchIndex + 4) in
              if (0 <? length hintCells)%nat then Some hintCells else None
          | None => Some (slice (seg_path solutionPath) 0 3)
          end
      end
  end.

(** The loop of [validatePath] over the pairs of consecutive cells. *)
Fixpoint allAdjacent (cells : list Pos) : bool :=
  match cells with
  | a :: (b :: _) as rest => areAdjacent a b && allAdjacent rest
  | _ => true
  end.

(** [validatePath]: [path] is [None] for [null]; the point numbers are
    compared with [!==], so [null] differs from every number. *)
Definition validatePath (s : Session) (path : option Path) (targetNumber : Z)
  : bool :=
  match path with
  | None => false
  | Some path =>
      let cells := path_cells path in
      if (length cells <? 2)%nat then false
      else
        match at_index cells 0,
              at_index cells (Z.of_nat (length cells) - 1) with
        | Some start, Some finish =>
            let startPoint :=
              Grid.getPointAt (grid s) (fst start) (snd start) in
            if negb match startPoint with
                    | Some n => n =? path_number path
                    | None => false
                    end
            then false
            else
              let endPoint :=
                Grid.getPointAt (grid s) (fst finish) (snd finish) in
              if negb match endPoint with
                      | Some n => n =? targetNumber
                      | None => false
                      end
              then false
              else allAdjacent cells
        | _, _ => false
        end
  end.

End PathManager.

(** The part of [GameController.loadLevel] that builds the session, its
    statements up to [gameState.loadLevel(levelData)]: a new grid with the
    level's points, and the level loaded into the game state.
    [gameState.loadLevel] overwrites every field kept here except
    [maxHistory], which only the constructor sets, so the state of before
    the call does not matter.  The statements that follow in the method
    (theme, renderer, preview of the artwork, level name, timer, input
    handler, modals, the daily flag) do not touch the session and are not
    described.  They can throw on level data, and so can [new Grid] for a
    size of 2^32 or more: [loadLevel lv = Ret s] says which session these
    statements build, not that the method returns. *)
Definition loadLevel (levelData : Level) : js Session :=
  g <- Grid.initializePoints (Grid.new (lv_size levelData))
                             (lv_points levelData) ;;
  Ret (mkSession (GameState.loadLevel GameState.new levelData) g).

(** ** Sessions: the operations the controller invokes, in any order *)

Inductive Op : Type :=
| OpStart (row col : Z)
| OpExtend (row col : Z)
| OpCancel
| OpUndo
| OpReset.

Definition step (s : Session) (op : Op) : js Session :=
  match op with
  | OpStart row col =>
      r <- PathManager.tryStartPath s row col ;; Ret (snd r)
  | OpExtend row col =>
      r <- PathManager.tryExtendPath s row col ;; Ret (snd r)
  | OpCancel => PathManager.cancelPath s
  | OpUndo => r <- PathManager.undo s ;; Ret (snd r)
  | OpReset => PathManager.reset s
  end.

Fixpoint run (s : Session) (ops : list Op) : js Session :=
  match ops with
  | [] => Ret s
  | op :: rest => s' <- step s op ;; run s' rest
  end.

(** The states a session on level [lv] can be in. *)
Inductive reachable (lv : Level) : Session -> Prop :=
| reach_load : forall s, loadLevel lv = Ret s -> reachable lv s
| reach_step : forall s op s',
    reachable lv s -> step s op = Ret s' -> reachable lv s'.

(** ** GameController.js and InputHandler.js: the pointer events *)

(** The handlers of the pointer events and of the buttons, as far as they
    change the session and the fields of the input handler.  What they
    also drive reads the game state and does not change it, and is left
    out: the renderer, the timer, the stored progress and the dialogs. *)

Module GameController.

Definition isStatus (a b : GameState.Status) : bool :=
  match a, b with
  | GameState.IDLE, GameState.IDLE
  | GameState.DRAWING, GameState.DRAWING
  | GameState.PAUSED, GameState.PAUSED
  | GameState.COMPLETED, GameState.COMPLETED => true
  | _, _ => false
  end.

Definition _onDragStart (s : Session) (row col : Z) : js Session :=
  if isStatus (GameState.gameState (gs s)) GameState.COMPLETED then Ret s
  else r <- PathManager.tryStartPath s row col ;; Ret (snd r).

(** The second component tells whether the [levelComplete] event was
    raised: [_checkCompletion] runs only inside [completePath], after the
    status was set to [IDLE]. *)
Definition _onDragMove (s : Session) (row col : Z) : js (Session * bool) :=
  if negb (isStatus (GameState.gameState (gs s)) GameState.DRAWING)
  then Ret (s, false)
  else
    r <- PathManager.tryExtendPath s row col ;;
    Ret (snd r,
         match fst r with
         | SuccessCompleted =>
             isStatus (GameState.gameState (gs (snd r))) GameState.COMPLETED
         | _ => false
         end).

Definition _onDragEnd (s : Session) : js Session :=
  if isStatus (GameState.gameState (gs s)) GameState.DRAWING
  then PathManager.cancelPath s
  else Ret s.

(** The session together with the fields of the input handler. *)
Record App : Type := mkApp {
  session : Session;
  isActive : bool;
  lastCell : option Pos;
  enabled : bool
}.

(** What the user does: the pointer events carry the cell under the
    pointer, as [_getCellFromEvent] finds it, if there is one. *)
Inductive Event : Type :=
| PointerDown (cell : option Pos)
| PointerMove (cell : option Pos)
| PointerUp
| ClickReset
| ClickUndo.

Definition _handleStart (a : App) (cell : option Pos) : js App :=
  if negb (enabled a) then Ret a
  else
    match cell with
    | None => Ret a
    | Some c =>
        s' <- _onDragStart (session a) (fst c) (snd c) ;;
        Ret (mkApp s' true (Some c) (enabled a))
    end.

(** On [levelComplete] the controller disables the input handler. *)
Definition _handleMove (a : App) (cell : option Pos) : js App :=
  if negb (isActive a) || negb (enabled a) then Ret a
  else
    match cell with
    | None => Ret a
    | Some c =>
        if match lastCell a with
           | Some l => (fst c =? fst l) && (snd c =? snd l)
           | None => false
           end
        then Ret a
        else
          r <- _onDragMove (session a) (fst c) (snd c) ;;
          if snd r then Ret (mkApp (fst r) false None false)
          else Ret (mkApp (fst r) (isActive a) (Some c) (enabled a))
    end.

Definition _handleEnd (a : App) : js App :=
  if negb (isActive a) then Ret a
  else
    s' <- _onDragEnd (session a) ;;
    Ret (mkApp s' false None (enabled a)).

(** [reset()]: the path manager is reset and the input enabled. *)
Definition reset (a : App) : js App :=
  s' <- PathManager.reset (session a) ;;
  Ret (mkApp s' (isActive a) (lastCell a) true).

Definition undo (a : App) : js App :=
  r <- PathManager.undo (session a) ;;
  Ret (mkApp (snd r) (isActive a) (lastCell a) (enabled a)).

(** [loadLevel] on a controller whose input handler was just built. *)
Definition start (levelData : Level) : js App :=
  s <- loadLevel levelData ;;
  Ret (mkApp s false None true).

Definition handle (a : App) (e : Event) : js App :=
  match e with
  | PointerDown cell => _handleStart a cell
  | PointerMove cell => _handleMove a cell
  | PointerUp => _handleEnd a
  | ClickReset => reset a
  | ClickUndo => undo a
  end.

Fixpoint handleAll (a : App) (es : list Event) : js App :=
  match es with
  | [] => Ret a
  | e :: rest => a' <- handle a e ;; handleAll a' rest
  end.

End GameController.

(** ** LevelGenerator.js *)

Module LevelGenerator.

(** The value of [Math.floor(Math.random() * n)] when the draw is [x]:
    the product lies in [0, n) for a positive [n], is 0 for [n = 0], and
    lies in (n, 0] for a negative [n]. *)
Definition randFloor (x : nat) (n : Z) : Z :=
  if 0 <? n then Z.of_nat x mod n
  else if n =? 0 then 0
  else - (Z.of_nat x mod (1 - n)).

(** The value of [Math.random() < 0.3] when the draw is [x]. *)
Definition randBelow03 (x : nat) : bool := (x mod 10 <? 3)%nat.

Definition maxIterations : Z := 50000.

(** The search state: the [visited] set, the [path] array, the counter
    object [state] and the cursor of the random source. *)
Record DfsState : Type := mkDfs {
  visited : list Pos;
  path : list Pos;
  iterations : Z;
  cursor : nat
}.

Definition swap {A : Type} (i j : nat) (arr : list A) : list A :=
  match nth_error arr i, nth_error arr j with
  | Some x, Some y => upd_nth j (fun _ => x) (upd_nth i (fun _ => y) arr)
  | _, _ => arr
  end.

(** The loop of [_getNeighbors]'s caller that tries the candidates in
    turn: [call] is the recursive invocation, [None] is a recursion that
    ran out of fuel. *)
Fixpoint tryEach {S : Type} (call : Pos -> S -> option (bool * S))
         (candidates : list Pos) (st : S) : option (bool * S) :=
  match candidates with
  | [] => Some (false, st)
  | next :: rest =>
      match call next st with
      | None => None
      | Some (true, st') => Some (true, st')
      | Some (false, st') => tryEach call rest st'
      end
  end.

(** Stable insertion by a key: [Array.prototype.sort] is stable. *)
Fixpoint insertBy {A : Type} (key : A -> Z) (x : A) (sorted : list A)
  : list A :=
  match sorted with
  | [] => [x]
  | y :: rest =>
      if key x <? key y then x :: y :: rest
      else y :: insertBy key x rest
  end.

Definition sortBy {A : Type} (key : A -> Z) (arr : list A) : list A :=
  fold_left (fun sorted x => insertBy key x sorted) arr [].

Section WithRandom.

(** The sequence of draws of [Math.random()]. *)
Variable random : nat -> nat.

Fixpoint shuffleFrom {A : Type} (i : nat) (arr : list A) (k : nat)
  : list A * nat :=
  match i with
  | O => (arr, k)
  | S i' =>
      let j := Z.to_nat (randFloor (random k) (Z.of_nat i + 1)) in
      shuffleFrom i' (swap i j arr) (S k)
  end.

Definition _shuffle {A : Type} (arr : list A) (k : nat) : list A * nat :=
  shuffleFrom (length arr - 1) arr k.

(** The [while] loop of [_generateObstacles]; [remaining] is
    [maxObstacles * 10 - attempts]. *)
Fixpoint obstacleLoop (size maxObstacles : Z) (remaining : nat)
         (obstacles obstacleSet : list Pos) (k : nat)
  : list Pos * nat :=
  match remaining with
  | O => (obstacles, k)
  | S remaining' =>
      if Z.of_nat (length obstacles) <? maxObstacles then
        let row := randFloor (random k) (size - 2) + 1 in
        let col := randFloor (random (S k)) (size - 2) + 1 in
        let key := (row, col) in
        let avoidCells :=
          fold_left (set_add pos_eqb)
            [(0, 0); (0, size - 1); (size - 1, 0); (size - 1, size - 1)]
            [] in
        if negb (set_has pos_eqb obstacleSet key) &&
           negb (set_has pos_eqb avoidCells key)
        then obstacleLoop size maxObstacles remaining'
                          (obstacles ++ [key])
                          (set_add pos_eqb obstacleSet key) (S (S k))
        else obstacleLoop size maxObstacles remaining'
                          obstacles obstacleSet (S (S k))
      else (obstacles, k)
  end.

Definition _generateObstacles (size maxObstacles : Z) (k : nat)
  : list Pos * nat :=
  obstacleLoop size maxObstacles (Z.to_nat (maxObstacles * 10)) [] [] k.

Definition _createGrid (size : Z) (obstacles : list Pos)
  : list (list Z) :=
  let obstacleSet := fold_left (set_add pos_eqb) obstacles [] in
  map (fun row =>
         map (fun col =>
                if set_has pos_eqb obstacleSet (row, col) then -1 else 0)
             (range size))
      (range size).

(** [grid[nr][nc] !== -1] behind the bounds test of [_getNeighbors];
    a missing entry is [undefined], which differs from -1. *)
Definition notBlocked (grid : list (list Z)) (nr nc : Z) : bool :=
  match at_index grid nr with
  | Some r =>
      match at_index r nc with
      | Some v => negb (v =? -1)
      | None => true
      end
  | None => true
  end.

Definition _getNeighbors (grid : list (list Z)) (size row col : Z)
           (visited : list Pos) : list Pos :=
  filter (fun n =>
            let '(nr, nc) := n in
            (0 <=? nr) && (nr <? size) && (0 <=? nc) && (nc <? size) &&
            notBlocked grid nr nc &&
            negb (set_has pos_eqb visited (nr, nc)))
         (map (fun d => (row + fst d, col + snd d))
              [(-1, 0); (1, 0); (0, -1); (0, 1)]).

(** [_hamiltonianDFS], with the depth of the recursion bounded by
    [fuel]; [None] when the bound is reached. *)
Fixpoint dfs (fuel : nat) (grid : list (list Z)) (size row col : Z)
         (target : Z) (st : DfsState) {struct fuel}
  : option (bool * DfsState) :=
  match fuel with
  | O => None
  | S fuel' =>
      let st := mkDfs (visited st) (path st) (iterations st + 1)
                      (cursor st) in
      if iterations st >? maxIterations then Some (false, st)
      else
        let key := (row, col) in
        let st := mkDfs (set_add pos_eqb (visited st) key)
                        (path st ++ [(row, col)])
                        (iterations st) (cursor st) in
        if Z.of_nat (length (path st)) =? target then Some (true, st)
        else
          let neighbors :=
            _getNeighbors grid size row col (visited st) in
          let neighbors :=
            sortBy (fun a => Z.of_nat (length
                      (_getNeighbors grid size (fst a) (snd a)
                                     (visited st))))
                   neighbors in
          let '(neighbors, k) :=
            if (1 <? length neighbors)%nat then
              if randBelow03 (random (cursor st))
              then _shuffle neighbors (S (cursor st))
              else (neighbors, S (cursor st))
            else (neighbors, cursor st) in
          let st := mkDfs (visited st) (path st) (iterations st) k in
          match tryEach (fun next st =>
                           dfs fuel' grid size (fst next) (snd next)
                               target st)
                        neighbors st with
          | None => None
          | Some (true, st') => Some (true, st')
          | Some (false, st') =>
              (* backtrack *)
              Some (false,
                    mkDfs (set_delete pos_eqb (visited st') key)
                          (removelast (path st'))
                          (iterations st') (cursor st'))
          end
  end.

(** Every level of the recursion below the cap has counted one step more
    than the level above it, so this depth is never exceeded (lemma
    [dfs_total]). *)
Definition dfsFuel (st : DfsState) : nat :=
  S (Z.to_nat (maxIterations - iterations st)).

Definition _hamiltonianDFS (grid : list (list Z)) (size row col : Z)
           (target : Z) (st : DfsState) : bool * DfsState :=
  match dfs (dfsFuel st) grid size row col target st with
  | Some r => r
  | None => (false, st)
  end.

(** The loop over the start points of [_findHamiltonianPath]. *)
Fixpoint tryStarts (grid : list (list Z)) (size totalCells : Z)
         (startPoints : list Pos) (k : nat)
  : js (option (list Pos) * nat) :=
  match startPoints with
  | [] => Ret (None, k)
  | start :: rest =>
      match at_index grid (fst start) with
      | None => Throw
      | Some r =>
          if match at_index r (snd start) with
             | Some v => v =? -1
             | None => false
             end
          then tryStarts grid size totalCells rest k
          else
            let '(found, st) :=
              _hamiltonianDFS grid size (fst start) (snd start)
                              totalCells (mkDfs [] [] 0 k) in
            if found then Ret (Some (path st), cursor st)
            else tryStarts grid size totalCells rest (cursor st)
      end
  end.

Definition _findHamiltonianPath (grid : list (list Z)) (size : Z)
           (obstacles : list Pos) (k : nat)
  : js (option (list Pos) * nat) :=
  let totalCells := size * size - Z.of_nat (length obstacles) in
  let startPoints :=
    [(0, 0); (0, size - 1); (size - 1, 0); (size - 1, size - 1)] in
  let '(startPoints, k) := _shuffle startPoints k in
  tryStarts grid size totalCells startPoints k.

Definition _placePoints (path : list Pos) (numPoints : Z)
  : js (list Point) :=
  let pathLength := Z.of_nat (length path) in
  let spacing := pathLength / numPoints in
  forEach (fun points i =>
             let index :=
               if i =? 0 then 0
               else if i =? numPoints - 1 then pathLength - 1
               else i * spacing in
             match at_index path index with
             | None => Throw
             | Some cell =>
                 Ret (points ++ [mkPoint (i + 1) (fst cell) (snd cell)])
             end)
          (range numPoints) [].

Definition _createSolution (path : list Pos) (points : list Point)
  : list Segment :=
  let pointIndices :=
    map (fun point =>
           findIndex (fun p => (fst p =? p_row point) &&
                               (snd p =? p_col point)) path)
        points in
  map (fun i =>
         match at_index pointIndices i, at_index pointIndices (i + 1) with
         | Some startIdx, Some endIdx =>
             mkSegment (i + 1) (i + 2) (slice path startIdx (endIdx + 1))
         | _, _ => mkSegment (i + 1) (i + 2) []
         end)
      (range (Z.of_nat (length points) - 1)).

(** The result carries the cursor of the random source after the
    attempt.  The theme and the level id, which are picked with one draw
    each, and the name and the difficulty are left out of the level. *)
Definition _tryGenerateLevel (size numPoints maxObstacles : Z) (k : nat)
  : js (option Level * nat) :=
  let '(obstacles, k) := _generateObstacles size maxObstacles k in
  let grid := _createGrid size obstacles in
  r <- _findHamiltonianPath grid size obstacles k ;;
  match r with
  | (None, k) => Ret (None, k)
  | (Some path, k) =>
      points <- _placePoints path numPoints ;;
      let solution := _createSolution path points in
      Ret (Some (mkLevel size points obstacles solution), S (S k))
  end.

(** The [for] loop of [generate]; [attempts] is [50 - attempt]. *)
Fixpoint attemptLoop (attempts : nat) (size numPoints maxObstacles : Z)
         (k : nat) : js (option Level * nat) :=
  match attempts with
  | O => _tryGenerateLevel size numPoints 0 k
  | S attempts' =>
      r <- _tryGenerateLevel size numPoints maxObstacles k ;;
      match r with
      | (Some result, k) => Ret (Some result, k)
      | (None, k) => attemptLoop attempts' size numPoints maxObstacles k
      end
  end.

(** [generate]: [maxObstacles] is the value of the floating-point
    expression [Math.floor(totalCells * (obstaclePercent / 100))]. *)
Definition generate (size numPoints maxObstacles : Z) (k : nat)
  : js (option Level * nat) :=
  attemptLoop 50 size numPoints maxObstacles k.

End WithRandom.

End LevelGenerator.

(** ** LevelManager.js *)

Module LevelManager.

(** A level pack; the [levels] array can be missing in a pack file. *)
Record Pack : Type := mkPack {
  levels : option (list Level)
}.

(** The fields of the level manager that select a level. *)
Record t : Type := mk {
  packs : list Pack;
  currentPackIndex : Z;
  currentLevelIndex : Z
}.

Definition getLevel (m : t) (packIndex levelIndex : Z) : js (option Level) :=
  if (packIndex <? 0) || (packIndex >=? Z.of_nat (length (packs m)))
  then Ret None
  else
    match at_index (packs m) packIndex with
    | None => Throw
    | Some pack =>
        match levels pack with
        | None => Ret None
        | Some ls =>
            if (levelIndex <? 0) || (levelIndex >=? Z.of_nat (length ls))
            then Ret None
            else Ret (at_index ls levelIndex)
        end
    end.

Definition getCurrentLevel (m : t) : js (option Level) :=
  getLevel m (currentPackIndex m) (currentLevelIndex m).

(** [getNextLevel]: the level returned and the manager with its new
    position.  Reading [pack.levels.length] throws when the pack or its
    [levels] array is missing.  The new position is also written to the
    storage, which is left out. *)
Definition getNextLevel (m : t) : js (option Level * t) :=
  match at_index (packs m) (currentPackIndex m) with
  | None => Throw
  | Some pack =>
      match levels pack with
      | None => Throw
      | Some ls =>
          if currentLevelIndex m + 1 <? Z.of_nat (length ls) then
            let m' := mk (packs m) (currentPackIndex m)
                         (currentLevelIndex m + 1) in
            lv <- getCurrentLevel m' ;; Ret (lv, m')
          else if currentPackIndex m + 1 <? Z.of_nat (length (packs m)) then
            let m' := mk (packs m) (currentPackIndex m + 1) 0 in
            lv <- getCurrentLevel m' ;; Ret (lv, m')
          else Ret (None, m)
      end
  end.

Definition setCurrentLevel (m : t) (packIndex levelIndex : Z) : t :=
  mk (packs m) packIndex levelIndex.

(** [packs.flatMap(pack => pack.levels)]: a pack without [levels]
    contributes one [undefined] entry. *)
Definition allLevels (m : t) : list (option Level) :=
  flat_map (fun pack =>
              match levels pack with
              | Some ls => map (@Some Level) ls
              | None => [None]
              end)
           (packs m).

(** [getDailyPuzzle], for the date string [today]: the level that is
    copied; its [id] and [name], which the copy replaces, are not part of
    [Level].  [None] is a copy of [undefined], which has no level data. *)
Definition getDailyPuzzle (m : t) (today : list Z) : option Level :=
  let hash := Helpers.dateHash today in
  let all := allLevels m in
  if (length all =? 0)%nat then None   (* [hash % 0] is [NaN] *)
  else
    match at_index all (Z.rem hash (Z.of_nat (length all))) with
    | Some (Some level) => Some level
    | _ => None
    end.

Definition getTotalLevels (m : t) : Z :=
  fold_left (fun sum pack =>
               sum + match levels pack with
                     | Some ls => Z.of_nat (length ls)
                     | None => 0
                     end)
            (packs m) 0.

End LevelManager.

(* ================================================================== *)
(** * Part II: the vocabulary of the specification                     *)
(* ================================================================== *)
(** ** Views of the grid *)

(** The cell object stored at a position, if any. *)
Definition cellAt (g : Grid.t) (p : Pos) : option Grid.Cell :=
  match at_index (Grid.cells g) (fst p) with
  | Some r => at_index r (snd p)
  | None => None
  end.

Definition valid (g : Grid.t) (p : Pos) : bool :=
  Grid.isValidPosition g (fst p) (snd p).

Definition occ (g : Grid.t) (p : Pos) : bool :=
  match cellAt g p with
  | Some c => Grid.occupied c
  | None => false
  end.

Definition isPt (g : Grid.t) (p : Pos) : bool :=
  match cellAt g p with
  | Some c => Grid.isPoint c
  | None => false
  end.

(** The cell matrix is [size] by [size], as the constructor builds it. *)
Definition grid_wf (g : Grid.t) : Prop :=
  length (Grid.cells g) = Z.to_nat (Grid.size g) /\
  Forall (fun r => length r = Z.to_nat (Grid.size g)) (Grid.cells g).

Definition markOccupied (n : Z) (c : Grid.Cell) : Grid.Cell :=
  Grid.mkCell (Grid.row c) (Grid.col c) true (Some n)
              (Grid.isPoint c) (Grid.pointNumber c).

Definition markFree (c : Grid.Cell) : Grid.Cell :=
  Grid.mkCell (Grid.row c) (Grid.col c) false None
              (Grid.isPoint c) (Grid.pointNumber c).

Definition markPoint (n : Z) (c : Grid.Cell) : Grid.Cell :=
  Grid.mkCell (Grid.row c) (Grid.col c) (Grid.occupied c)
              (Grid.pathNumber c) true (Some n).

(** What is fixed when a level is loaded: the size, the point flags of the
    cells and the map of the points. *)
Definition pointLayer (g : Grid.t)
  : Z * list (list (bool * option Z)) * list (Pos * Z) :=
  (Grid.size g,
   map (map (fun c => (Grid.isPoint c, Grid.pointNumber c))) (Grid.cells g),
   Grid.points g).

(** ** Levels and paths *)

Definition inGrid (lv : Level) (p : Pos) : bool :=
  (0 <=? fst p) && (fst p <? lv_size lv) &&
  (0 <=? snd p) && (snd p <? lv_size lv).

Definition isLevelPoint (lv : Level) (p : Pos) : bool :=
  existsb (fun pt => pos_eqb (p_row pt, p_col pt) p) (lv_points lv).

Definition isObstacle (lv : Level) (p : Pos) : bool :=
  existsb (fun o => pos_eqb o p) (lv_obstacles lv).

(** The cells of a path that are not its two endpoints. *)
Definition interior (cells : list Pos) : list Pos := removelast (tl cells).

(** A committed path runs between two point cells, inside the grid, and
    crosses no point cell in between. *)
Definition PathOK (lv : Level) (p : Path) : Prop :=
  exists a mid b,
    path_cells p = a :: mid ++ [b] /\
    isLevelPoint lv a = true /\ isLevelPoint lv b = true /\
    NoDup mid /\
    (forall c, In c (path_cells p) -> inGrid lv c = true) /\
    (forall c, In c mid -> isLevelPoint lv c = false).

Definition PathsOK (lv : Level) (ps : list Path) : Prop :=
  (forall p, In p ps -> PathOK lv p) /\
  (forall i j p q, i <> j ->
     nth_error ps i = Some p -> nth_error ps j = Some q ->
     forall c, In c (interior (path_cells p)) -> ~ In c (path_cells q)).

(** The path being drawn starts on a point cell and continues over free,
    distinct cells that no committed path uses; all of it is marked. *)
Definition ActiveOK (lv : Level) (g : Grid.t) (ps : list Path) (cp : Path)
  : Prop :=
  exists a rest,
    path_cells cp = a :: rest /\
    inGrid lv a = true /\ isLevelPoint lv a = true /\
    NoDup rest /\
    (forall c, In c rest ->
       inGrid lv c = true /\ isLevelPoint lv c = false /\
       forall q, In q ps -> ~ In c (path_cells q)) /\
    (forall c, In c (a :: rest) -> occ g c = true).

(** What stays true of the grid of a session on level [lv]. *)
Record GridOK (lv : Level) (g : Grid.t) : Prop := mkGridOK {
  gok_wf : grid_wf g;
  gok_size : Grid.size g = lv_size lv;
  gok_isPt : forall q, isPt g q = isLevelPoint lv q && inGrid lv q;
  gok_map : forall q n,
    map_get pos_eqb (Grid.points g) q = Some n ->
    isLevelPoint lv q = true /\ inGrid lv q = true
}.

(** The invariant of a session on level [lv]. *)
Record Inv (lv : Level) (s : Session) : Prop := mkInv {
  inv_grid : GridOK lv (grid s);
  inv_points : GameState.points (gs s) = lv_points lv;
  inv_maxHistory : GameState.maxHistory (gs s) = 50;
  inv_history_len : (length (GameState.history (gs s)) <= 50)%nat;
  inv_paths : PathsOK lv (GameState.paths (gs s));
  inv_paths_occ : forall p c,
    In p (GameState.paths (gs s)) -> In c (path_cells p) ->
    occ (grid s) c = true;
  inv_history : forall snap,
    In snap (GameState.history (gs s)) ->
    PathsOK lv (GameState.s_paths snap);
  inv_active : forall cp,
    GameState.currentPath (gs s) = Some cp ->
    ActiveOK lv (grid s) (GameState.paths (gs s)) cp
}.

(** The entry that a commit of the path being drawn pushes, and the history
    after the push. *)
Definition commitSnapshot (s : GameState.t) (endCell : Pos)
  : GameState.Snapshot :=
  GameState.mkSnapshot
    (GameState.deepClone (GameState.paths s))
    (set_add pos_eqb (GameState.occupiedCells s) endCell)
    (GameState.currentNumber s)
    (GameState.connectedPoints s).

Definition pushBounded (h : list GameState.Snapshot) (snap : GameState.Snapshot)
           (cap : Z) : list GameState.Snapshot :=
  if Z.of_nat (length (h ++ [snap])) >? cap then tl (h ++ [snap])
  else h ++ [snap].

(** ** Concrete levels and sessions used as examples *)

(** A 3 by 3 level without obstacles: point 1 at (0,0), point 2 at (0,2). *)
Definition plainLevel : Level :=
  mkLevel 3 [mkPoint 1 0 0; mkPoint 2 0 2] [] [].

(** The same level with an obstacle between the two points, at (0,1). *)
Definition obstacleLevel : Level :=
  mkLevel 3 [mkPoint 1 0 0; mkPoint 2 0 2] [(0, 1)] [].

Definition emptySession : Session :=
  mkSession GameState.new (Grid.new 0).

(** The session after loading a level and performing the operations. *)
Definition sessionAfter (lv : Level) (ops : list Op) : Session :=
  match (s <- loadLevel lv ;; run s ops) with
  | Ret s => s
  | Throw => emptySession
  end.

(** [tryStart(0,0)], [tryExtend(0,1)]: a path is being drawn. *)
Definition drawing2 : Session :=
  Eval vm_compute in sessionAfter plainLevel [OpStart 0 0; OpExtend 0 1].

(** ... then [tryExtend(0,2)]: the path 1 -> 2 is committed. *)
Definition committed3 : Session :=
  Eval vm_compute in
    sessionAfter plainLevel [OpStart 0 0; OpExtend 0 1; OpExtend 0 2].

(** ... then [undo()]. *)
Definition undone3 : Session :=
  Eval vm_compute in
    sessionAfter plainLevel [OpStart 0 0; OpExtend 0 1; OpExtend 0 2; OpUndo].

(** [tryStart(0,0)], [tryExtend(0,1)], [tryExtend(1,1)], [tryExtend(1,0)]:
    the end (1,0) of the path being drawn touches its first cell. *)
Definition drawing4 : Session :=
  Eval vm_compute in
    sessionAfter plainLevel
      [OpStart 0 0; OpExtend 0 1; OpExtend 1 1; OpExtend 1 0].

(** The level with the obstacle, freshly loaded, and after the strokes
    [tryStart(0,0)], [tryExtend(0,1)], [tryExtend(0,2)]. *)
Definition loadedObstacle : Session :=
  Eval vm_compute in sessionAfter obstacleLevel [].

Definition crossing3 : Session :=
  Eval vm_compute in
    sessionAfter obstacleLevel [OpStart 0 0; OpExtend 0 1; OpExtend 0 2].

(** ** The search of the level generator *)

(** The candidates of one step of [_hamiltonianDFS], in the order in which
    they are tried, and the cursor of the random source after the step. *)
Definition orderedNeighbors (random : nat -> nat) (grid : list (list Z))
           (size row col : Z) (visited : list Pos) (cursor : nat)
  : list Pos * nat :=
  let neighbors := LevelGenerator._getNeighbors grid size row col visited in
  let neighbors :=
    LevelGenerator.sortBy
      (fun a => Z.of_nat (length
         (LevelGenerator._getNeighbors grid size (fst a) (snd a) visited)))
      neighbors in
  if (1 <? length neighbors)%nat then
    if LevelGenerator.randBelow03 (random cursor)
    then LevelGenerator._shuffle random neighbors (S cursor)
    else (neighbors, S cursor)
  else (neighbors, cursor).

Definition inBounds (size : Z) (c : Pos) : bool :=
  (0 <=? fst c) && (fst c <? size) && (0 <=? snd c) && (snd c <? size).

(** A cell that the search may enter. *)
Definition freeCell (grid : list (list Z)) (size : Z) (c : Pos) : bool :=
  inBounds size c && LevelGenerator.notBlocked grid (fst c) (snd c).

(** Consecutive cells are 4-adjacent. *)
Fixpoint chain (p : list Pos) : Prop :=
  match p with
  | a :: (b :: _) as rest => areAdjacent a b = true /\ chain rest
  | _ => True
  end.

(** A simple walk over free cells. *)
Definition Walk (grid : list (list Z)) (size : Z) (p : list Pos) : Prop :=
  NoDup p /\ (forall c, In c p -> freeCell grid size c = true) /\ chain p.

(** How often a cell occurs on a path. *)
Definition countOf (c : Pos) (p : list Pos) : nat :=
  length (filter (pos_eqb c) p).

(** A path that visits every cell of the [size] by [size] grid that is not
    an obstacle, exactly once and by steps between 4-adjacent cells. *)
Definition Hamiltonian (size : Z) (obstacles : list Pos) (p : list Pos)
  : Prop :=
  (forall c, inBounds size c = true -> set_has pos_eqb obstacles c = false ->
             countOf c p = 1%nat) /\
  (forall c, In c p ->
             inBounds size c = true /\ set_has pos_eqb obstacles c = false) /\
  chain p /\
  Z.of_nat (length p) = size * size - Z.of_nat (length obstacles).

(** What a run of the search leaves behind: on success the path is a
    longer simple walk of the requested length, on failure the visited set
    and the path are those of before the run. *)
Definition dfsOutcome (grid : list (list Z)) (size target : Z)
           (before : list Pos) (b : bool) (st' : LevelGenerator.DfsState)
  : Prop :=
  if b then
    LevelGenerator.visited st' = LevelGenerator.path st' /\
    Walk grid size (LevelGenerator.path st') /\
    Z.of_nat (length (LevelGenerator.path st')) = target /\
    (length before < length (LevelGenerator.path st'))%nat
  else
    LevelGenerator.visited st' = before /\ LevelGenerator.path st' = before.

(** ** The points and the segments of a generated level *)

(** The path index that [_placePoints] gives to the point of loop index
    [i]. *)
Definition pointIndex (numPoints pathLength i : Z) : Z :=
  if i =? 0 then 0
  else if i =? numPoints - 1 then pathLength - 1
  else i * (pathLength / numPoints).

Definition pointsOn (path : list Pos) (numPoints : Z) : list Point :=
  map (fun i =>
         let cell := nth (Z.to_nat (pointIndex numPoints
                                      (Z.of_nat (length path)) i))
                         path (0, 0) in
         mkPoint (i + 1) (fst cell) (snd cell))
      (range numPoints).

(** The cursor of the random source after [n] attempts of [generate] that
    all returned [null]; [None] when one of them did not. *)
Fixpoint failedAttempts (random : nat -> nat) (size numPoints maxObstacles : Z)
         (n : nat) (k : nat) : option nat :=
  match n with
  | O => Some k
  | S n' =>
      match LevelGenerator._tryGenerateLevel random size numPoints
                                             maxObstacles k with
      | Ret (None, k') =>
          failedAttempts random size numPoints maxObstacles n' k'
      | _ => None
      end
  end.

(** The segments joined end to end, every junction cell taken once. *)
Definition joinSegments (segs : list (list Pos)) : list Pos :=
  match segs with
  | [] => []
  | s :: rest => s ++ concat (map (@tl Pos) rest)
  end.

(** ** Random sources used in the examples *)

(** Every draw is 0: the candidates are shuffled at every step. *)
Definition alwaysZero : nat -> nat := fun _ => 0%nat.

(** Every draw is 5: the candidates are never shuffled. *)
Definition alwaysFive : nat -> nat := fun _ => 5%nat.

(** The level that [generate] returns for a 3 by 3 grid with two points and
    no obstacle when every draw is 5, and the cursor of the random source
    after the call. *)
Definition level3 : Level :=
  Eval vm_compute in
    match LevelGenerator.generate alwaysFive 3 2 0 0 with
    | Ret (Some lv, _) => lv
    | _ => mkLevel 0 [] [] []
    end.

Definition cursor3 : nat :=
  Eval vm_compute in
    match LevelGenerator.generate alwaysFive 3 2 0 0 with
    | Ret (_, k) => k
    | Throw => O
    end.

(** ** Strings and hashes *)

(** Every character of a string satisfies a test. *)
Fixpoint strForall (P : Ascii.ascii -> bool) (s : String.string) : bool :=
  match s with
  | String.EmptyString => true
  | String.String c rest => P c && strForall P rest
  end.

(** A decimal digit or the minus sign. *)
Definition isNumeral (c : Ascii.ascii) : bool :=
  let n := Ascii.nat_of_ascii c in
  ((48 <=? n) && (n <=? 57))%nat || (n =? 45)%nat.

(** The polynomial [c0 * 31^(n-1) + c1 * 31^(n-2) + ... + c(n-1)] of the
    code units of a string. *)
Definition polyHash (codes : list Z) : Z :=
  fold_left (fun h c => 31 * h + c) codes 0.

(** ** The progress of a session *)

(** The grid that [GameController.loadLevel] builds for a level. *)
Definition loadedGrid (lv : Level) : Grid.t :=
  match Grid.initializePoints (Grid.new (lv_size lv)) (lv_points lv) with
  | Ret g => g
  | Throw => Grid.new 0
  end.

(** The numbers 1, 2, ..., k in this order. *)
Definition numbersFrom1 (k : nat) : list Z :=
  map (fun i => i + 1) (range (Z.of_nat k)).

(** The committed paths are numbered 1, 2, ..., k in the order of their
    commits, the next path to draw is number k + 1, and the connected
    points are those that the committed paths join. *)
Record Counted (ps : list Path) (currentNumber : Z) (connected : list Z)
  : Prop := mkCounted {
  cnt_paths : map path_number ps = numbersFrom1 (length ps);
  cnt_current : currentNumber = Z.of_nat (length ps) + 1;
  cnt_connected :
    connected = match ps with
                | [] => []
                | _ :: _ => numbersFrom1 (S (length ps))
                end
}.

(** A path that starts on the point of its number, ends on the point of
    the number [target], and moves by steps between 4-adjacent cells. *)
Definition Linked (g : Grid.t) (p : Path) (target : Z) : Prop :=
  exists a mid b,
    path_cells p = a :: mid ++ [b] /\
    Grid.getPointAt g (fst a) (snd a) = Some (path_number p) /\
    Grid.getPointAt g (fst b) (snd b) = Some target /\
    chain (path_cells p).

(** What the game state records of the progress through a level. *)
Record Progress (lv : Level) (s : Session) : Prop := mkProgress {
  pr_layer : pointLayer (grid s) = pointLayer (loadedGrid lv);
  pr_level : GameState.levelData (gs s) = Some lv;
  pr_total :
    GameState.totalPoints (gs s) = Z.of_nat (length (lv_points lv));
  pr_counted :
    Counted (GameState.paths (gs s)) (GameState.currentNumber (gs s))
            (GameState.connectedPoints (gs s));
  pr_linked : forall p,
    In p (GameState.paths (gs s)) ->
    Linked (loadedGrid lv) p (path_number p + 1);
  pr_history : forall snap,
    In snap (GameState.history (gs s)) ->
    Counted (GameState.s_paths snap) (GameState.s_currentNumber snap)
            (GameState.s_connectedPoints snap) /\
    (forall p, In p (GameState.s_paths snap) ->
               Linked (loadedGrid lv) p (path_number p + 1)) /\
    (forall p c, In p (GameState.s_paths snap) -> In c (path_cells p) ->
                 In c (GameState.s_occupiedCells snap));
  pr_active : forall cp,
    GameState.currentPath (gs s) = Some cp ->
    exists a rest,
      path_cells cp = a :: rest /\
      path_number cp = GameState.currentNumber (gs s) /\
      Grid.getPointAt (loadedGrid lv) (fst a) (snd a) =
        Some (path_number cp) /\
      chain (path_cells cp);
  pr_status :
    GameState.gameState (gs s) = GameState.DRAWING <->
    GameState.currentPath (gs s) <> None;
  pr_completed :
    GameState.gameState (gs s) = GameState.COMPLETED ->
    GameState.isComplete (gs s) = true /\
    Z.of_nat (length (GameState.connectedPoints (gs s))) =
      GameState.totalPoints (gs s) /\
    GameState.paths (gs s) <> [];
  pr_occupied : forall c,
    occ (grid s) c = true ->
    In c (GameState.occupiedCells (gs s)) /\
    (isLevelPoint lv c = true \/
     (exists p, In p (GameState.paths (gs s)) /\ In c (path_cells p)) \/
     (exists cp, GameState.currentPath (gs s) = Some cp /\
                 In c (path_cells cp)))
}.

(** ** Hints *)

(** The number of leading cells that two paths have in common. *)
Fixpoint commonPrefix (a b : list Pos) : nat :=
  match a, b with
  | x :: a', y :: b' => if pos_eqb x y then S (commonPrefix a' b') else O
  | _, _ => O
  end.

(** A level with a solution, and a session on it in which the first two
    cells of the solution have been drawn. *)
Definition hintLevel : Level :=
  mkLevel 3 [mkPoint 1 0 0; mkPoint 2 0 2] []
          [mkSegment 1 2 [(0, 0); (1, 0); (1, 1); (1, 2); (0, 2)]].

Definition hintSession : Session :=
  Eval vm_compute in sessionAfter hintLevel [OpStart 0 0; OpExtend 1 0].

(** ** The order of the candidates *)

(** The keys of a list never decrease from one element to the next. *)
Fixpoint ascending {A : Type} (key : A -> Z) (l : list A) : Prop :=
  match l with
  | a :: (b :: _) as rest => key a <= key b /\ ascending key rest
  | _ => True
  end.

(** ** Drawing a solution *)

(** The strokes that draw one path: [tryStartPath] on its first cell, then
    [tryExtendPath] on each of the other cells in turn. *)
Definition playCells (cells : list Pos) : list Op :=
  match cells with
  | [] => []
  | a :: rest =>
      OpStart (fst a) (snd a) :: map (fun c => OpExtend (fst c) (snd c)) rest
  end.

(** The strokes that draw the solution of a level, segment by segment. *)
Definition playSolution (lv : Level) : list Op :=
  flat_map (fun sg => playCells (seg_path sg)) (lv_solution lv).

(** A path [p] with the points of a level on it: [ix i] is the index on
    [p] of the point number [i + 1].  The point and the solution segment
    that this gives, and the states of a session in which the first [m]
    segments are committed, and in which a stroke has moreover covered the
    first [j + 1] cells of the next segment. *)
Definition pointOn (p : list Pos) (ix : nat -> nat) (i : nat) : Point :=
  mkPoint (Z.of_nat i + 1) (fst (nth (ix i) p (0, 0)))
          (snd (nth (ix i) p (0, 0))).

Definition segmentCells (p : list Pos) (ix : nat -> nat) (m : nat)
  : list Pos :=
  firstn (ix (S m) - ix m + 1) (skipn (ix m) p).

Definition CommittedUpTo (lv : Level) (p : list Pos) (ix : nat -> nat)
           (m : nat) (s : Session) : Prop :=
  reachable lv s /\
  GameState.currentPath (gs s) = None /\
  map path_cells (GameState.paths (gs s)) =
    map (segmentCells p ix) (seq 0 m).

Definition DrawingAt (lv : Level) (p : list Pos) (ix : nat -> nat)
           (m j : nat) (s : Session) : Prop :=
  reachable lv s /\
  (exists cp, GameState.currentPath (gs s) = Some cp /\
              path_cells cp = firstn (S j) (skipn (ix m) p)) /\
  map path_cells (GameState.paths (gs s)) =
    map (segmentCells p ix) (seq 0 m).

(** ** The levels of the packs, in order *)

Definition packLevels (pack : LevelManager.Pack) : list Level :=
  match LevelManager.levels pack with
  | Some ls => ls
  | None => []
  end.

(** All levels, pack after pack. *)
Definition flatLevels (m : LevelManager.t) : list Level :=
  flat_map packLevels (LevelManager.packs m).

(** The rank of the current level among all levels. *)
Definition flatIndex (m : LevelManager.t) : Z :=
  Z.of_nat (length (flat_map packLevels
                      (firstn (Z.to_nat (LevelManager.currentPackIndex m))
                              (LevelManager.packs m)))) +
  LevelManager.currentLevelIndex m.

(** The current position names a level of a pack. *)
Definition validPosition (m : LevelManager.t) : Prop :=
  exists pack,
    at_index (LevelManager.packs m) (LevelManager.currentPackIndex m) =
      Some pack /\
    0 <= LevelManager.currentLevelIndex m <
      Z.of_nat (length (packLevels pack)).

(** Two packs of two levels and one level. *)
Definition samplePacks : LevelManager.t :=
  LevelManager.mk
    [LevelManager.mkPack (Some [plainLevel; obstacleLevel]);
     LevelManager.mkPack (Some [hintLevel])]
    0 1.

(** ** The controller between two events *)

(** What holds of the session and the input handler after any sequence of
    events on level [lv]. *)
Record Settled (lv : Level) (a : GameController.App) : Prop := mkSettled {
  st_reachable : reachable lv (GameController.session a);
  st_rest :
    GameController.isActive a = false ->
    GameState.currentPath (gs (GameController.session a)) = None;
  st_completed :
    GameState.gameState (gs (GameController.session a)) =
      GameState.COMPLETED ->
    GameController.enabled a = false;
  st_disabled :
    GameController.enabled a = false ->
    GameController.isActive a = false /\
    GameState.isComplete (gs (GameController.session a)) = true
}.

(** ** Dragging along the solution *)

(** The events of one drag along the cells of a path: the pointer goes
    down on the first cell, moves over each of the others in turn and is
    lifted. *)
Definition dragCells (cells : list Pos) : list GameController.Event :=
  match cells with
  | [] => []
  | a :: rest =>
      GameController.PointerDown (Some a) ::
      map (fun c => GameController.PointerMove (Some c)) rest ++
      [GameController.PointerUp]
  end.

(** One drag for each segment of the solution of a level. *)
Definition dragSolution (lv : Level) : list GameController.Event :=
  flat_map (fun sg => dragCells (seg_path sg)) (lv_solution lv).

(** The controller during a drag that has covered the first [j + 1] cells
    of segment [m], and between two drags when [m] segments are committed,
    on a level of [N] points. *)
Definition Dragging (lv : Level) (p : list Pos) (ix : nat -> nat)
           (m j : nat) (a : GameController.App) : Prop :=
  DrawingAt lv p ix m j (GameController.session a) /\
  GameController.isActive a = true /\
  GameController.enabled a = true /\
  GameController.lastCell a = Some (nth (ix m + j) p (0, 0)).

Definition Between (lv : Level) (p : list Pos) (ix : nat -> nat) (N : nat)
           (m : nat) (a : GameController.App) : Prop :=
  CommittedUpTo lv p ix m (GameController.session a) /\
  GameController.isActive a = false /\
  GameState.gameState (gs (GameController.session a)) =
    (if (S m =? N)%nat then GameState.COMPLETED else GameState.IDLE) /\
  GameController.enabled a = negb (S m =? N)%nat.

(** The controller after loading a level and handling the events. *)
Definition appAfter (lv : Level) (es : list GameController.Event)
  : GameController.App :=
  match (a <- GameController.start lv ;; GameController.handleAll a es) with
  | Ret a => a
  | Throw => GameController.mkApp emptySession false None false
  end.

(** One drag from point 1 to point 2 of the plain level. *)
Definition plainDrag : list GameController.Event :=
  dragCells [(0, 0); (0, 1); (0, 2)].

Definition completedApp : GameController.App :=
  Eval vm_compute in appAfter plainLevel plainDrag.

(* ================================================================== *)
(** * Part III: the path engine                                        *)
(* ================================================================== *)

(** ** Arrays, sets and the exception monad *)

Lemma bind_ret_inv : forall (A B : Type) (m : js A) (k : A -> js B) (b : B),
  bind m k = Ret b -> exists a, m = Ret a /\ k a = Ret b.
Proof.
  intros A B [a|] k b H; simpl in H; [eauto | discriminate].
Qed.

Lemma existsb_same : forall (A : Type) (f g : A -> bool) (l : list A),
  (forall x, f x = g x) -> existsb f l = existsb g l.
Proof.
  intros A f g l H; induction l as [|x l IH]; simpl; [reflexivity|].
  rewrite H, IH; reflexivity.
Qed.

Lemma length_upd_nth : forall (A : Type) (f : A -> A) (l : list A) (n : nat),
  length (upd_nth n f l) = length l.
Proof.
  induction l as [|x l IH]; intros [|n]; simpl; auto.
Qed.

Lemma nth_error_upd_nth : forall (A : Type) (f : A -> A) (l : list A) (n m : nat),
  nth_error (upd_nth n f l) m =
  if Nat.eqb n m then option_map f (nth_error l m) else nth_error l m.
Proof.
  induction l as [|x l IH]; intros [|n] [|m]; simpl; auto;
    try (destruct (Nat.eqb n m); reflexivity).
Qed.

Lemma Forall_upd_nth : forall (A : Type) (P : A -> Prop) (f : A -> A),
  (forall x, P x -> P (f x)) ->
  forall (l : list A) (n : nat), Forall P l -> Forall P (upd_nth n f l).
Proof.
  intros A P f Hf; induction l as [|x l IH]; intros [|n] H; simpl; auto;
    inversion H; subst; constructor; auto.
Qed.

Lemma pos_eqb_eq : forall p q : Pos, pos_eqb p q = true <-> p = q.
Proof.
  intros [a b] [c d]; unfold pos_eqb; simpl.
  rewrite andb_true_iff, !Z.eqb_eq. split.
  - intros [-> ->]; reflexivity.
  - intros H; inversion H; auto.
Qed.

Lemma pos_eqb_refl : forall p : Pos, pos_eqb p p = true.
Proof. intros p; apply pos_eqb_eq; reflexivity. Qed.

Lemma pos_eqb_neq : forall p q : Pos, pos_eqb p q = false <-> p <> q.
Proof.
  intros p q; split; intros H.
  - intros E; apply pos_eqb_eq in E; congruence.
  - destruct (pos_eqb p q) eqn:E; auto. apply pos_eqb_eq in E; contradiction.
Qed.

Lemma pos_eq_dec : forall p q : Pos, {p = q} + {p <> q}.
Proof.
  intros p q; destruct (pos_eqb p q) eqn:E.
  - left; apply pos_eqb_eq; assumption.
  - right; apply pos_eqb_neq; assumption.
Qed.

Lemma set_has_In : forall (s : list Pos) (p : Pos),
  set_has pos_eqb s p = true <-> In p s.
Proof.
  intros s p; unfold set_has. rewrite existsb_exists. split.
  - intros [x [Hx E]]; apply pos_eqb_eq in E; subst; assumption.
  - intros H; exists p; split; [assumption | apply pos_eqb_refl].
Qed.

Lemma set_has_false : forall (s : list Pos) (p : Pos),
  set_has pos_eqb s p = false <-> ~ In p s.
Proof.
  intros s p; split; intros H.
  - intros HI; apply set_has_In in HI; congruence.
  - destruct (set_has pos_eqb s p) eqn:E; auto.
    apply set_has_In in E; contradiction.
Qed.

Lemma In_set_add : forall (s : list Pos) (p q : Pos),
  In q (set_add pos_eqb s p) <-> q = p \/ In q s.
Proof.
  intros s p q; unfold set_add.
  destruct (set_has pos_eqb s p) eqn:E.
  - apply set_has_In in E. split; [auto | intros [->|H]; auto].
  - rewrite in_app_iff; simpl. split.
    + intros [H|[H|[]]]; auto.
    + intros [H|H]; auto.
Qed.

Lemma In_set_delete : forall (s : list Pos) (p q : Pos),
  In q (set_delete pos_eqb s p) <-> In q s /\ q <> p.
Proof.
  intros s p q; unfold set_delete. rewrite filter_In, negb_true_iff, pos_eqb_neq.
  split; intros [H1 H2]; split; auto.
Qed.

Lemma In_fold_set_delete : forall (ds s : list Pos) (q : Pos),
  In q (fold_left (set_delete pos_eqb) ds s) <-> In q s /\ ~ In q ds.
Proof.
  induction ds as [|d ds IH]; intros s q; simpl.
  - tauto.
  - rewrite IH, In_set_delete. split.
    + intros [[H1 H2] H3]; split; auto. intros [E|E]; auto.
    + intros [H1 H2]; repeat split; auto.
Qed.

(** ** The grid *)

Lemma at_index_Some : forall (A : Type) (l : list A) (i : Z),
  0 <= i < Z.of_nat (length l) -> exists x, at_index l i = Some x.
Proof.
  intros A l i H; unfold at_index.
  destruct (Z.ltb_spec i 0); [lia|].
  destruct (nth_error l (Z.to_nat i)) eqn:E; [eauto|].
  apply nth_error_None in E; lia.
Qed.

Lemma at_index_upd_nth : forall (A : Type) (f : A -> A) (l : list A) (i j : Z),
  0 <= i ->
  at_index (upd_nth (Z.to_nat i) f l) j =
  if i =? j then option_map f (at_index l j) else at_index l j.
Proof.
  intros A f l i j Hi; unfold at_index.
  destruct (Z.ltb_spec j 0).
  - destruct (Z.eqb_spec i j); [lia | reflexivity].
  - rewrite nth_error_upd_nth.
    destruct (Z.eqb_spec i j) as [->|N].
    + rewrite Nat.eqb_refl; reflexivity.
    + destruct (Nat.eqb_spec (Z.to_nat i) (Z.to_nat j)); [lia | reflexivity].
Qed.

Lemma valid_bounds : forall (g : Grid.t) (p : Pos),
  valid g p = true <->
  0 <= fst p < Grid.size g /\ 0 <= snd p < Grid.size g.
Proof.
  intros g [r c]; unfold valid, Grid.isValidPosition; simpl.
  rewrite !andb_true_iff, !Z.leb_le, !Z.ltb_lt. lia.
Qed.

Lemma cellAt_valid : forall (g : Grid.t) (p : Pos),
  grid_wf g -> valid g p = true -> exists c, cellAt g p = Some c.
Proof.
  intros g p [Hl Hr] Hv. apply valid_bounds in Hv. unfold cellAt.
  destruct (@at_index_Some _ (Grid.cells g) (fst p)) as [r Er]; [lia|].
  rewrite Er.
  assert (length r = Z.to_nat (Grid.size g)) as Hlen.
  { rewrite Forall_forall in Hr. apply Hr.
    unfold at_index in Er. destruct (fst p <? 0); [discriminate|].
    eapply nth_error_In; eauto. }
  apply at_index_Some. lia.
Qed.

Lemma getCell_wf : forall (g : Grid.t) (r c : Z),
  grid_wf g ->
  Grid.getCell g r c = Ret (if valid g (r, c) then cellAt g (r, c) else None).
Proof.
  intros g r c Hwf. unfold Grid.getCell, valid; simpl.
  destruct (Grid.isValidPosition g r c) eqn:Hv; simpl; [|reflexivity].
  destruct (@cellAt_valid g (r, c) Hwf Hv) as [cell Hc].
  unfold cellAt in *; simpl in *.
  destruct (at_index (Grid.cells g) r); [reflexivity | discriminate].
Qed.

Lemma withCell_wf : forall (g : Grid.t) (r c : Z) (f : Grid.Cell -> Grid.Cell),
  grid_wf g -> grid_wf (Grid.withCell g r c f).
Proof.
  intros g r c f [Hl Hr]; unfold grid_wf, Grid.withCell; simpl. split.
  - rewrite length_upd_nth; assumption.
  - apply Forall_upd_nth; [|assumption].
    intros x Hx; rewrite length_upd_nth; assumption.
Qed.

Lemma cellAt_withCell : forall (g : Grid.t) (r c : Z) (f : Grid.Cell -> Grid.Cell) (q : Pos),
  0 <= r -> 0 <= c ->
  cellAt (Grid.withCell g r c f) q =
  if pos_eqb (r, c) q then option_map f (cellAt g q) else cellAt g q.
Proof.
  intros g r c f [qr qc] Hr Hc. unfold cellAt, Grid.withCell, pos_eqb; simpl.
  rewrite at_index_upd_nth by assumption.
  destruct (Z.eqb_spec r qr) as [->|N]; simpl.
  - destruct (at_index (Grid.cells g) qr) as [rw|]; simpl.
    + rewrite at_index_upd_nth by assumption.
      destruct (c =? qc); reflexivity.
    + destruct (c =? qc); reflexivity.
  - reflexivity.
Qed.

Lemma map_upd_nth_id : forall (A B : Type) (h : A -> B) (f : A -> A),
  (forall x, h (f x) = h x) ->
  forall (l : list A) (n : nat), map h (upd_nth n f l) = map h l.
Proof.
  intros A B h f Hf; induction l as [|x l IH]; intros [|n]; simpl; auto.
  - rewrite Hf; reflexivity.
  - rewrite IH; reflexivity.
Qed.

Lemma pointLayer_withCell : forall (g : Grid.t) (r c : Z) (f : Grid.Cell -> Grid.Cell),
  (forall x, Grid.isPoint (f x) = Grid.isPoint x) ->
  (forall x, Grid.pointNumber (f x) = Grid.pointNumber x) ->
  pointLayer (Grid.withCell g r c f) = pointLayer g.
Proof.
  intros g r c f H1 H2; unfold pointLayer, Grid.withCell; simpl.
  rewrite map_upd_nth_id; [reflexivity|].
  intros rw. apply map_upd_nth_id. intros x; rewrite H1, H2; reflexivity.
Qed.

Lemma pointLayer_size : forall g g' : Grid.t,
  pointLayer g' = pointLayer g -> Grid.size g' = Grid.size g.
Proof. unfold pointLayer; intros g g' H; inversion H; reflexivity. Qed.

Lemma pointLayer_points : forall g g' : Grid.t,
  pointLayer g' = pointLayer g -> Grid.points g' = Grid.points g.
Proof. unfold pointLayer; intros g g' H; inversion H; reflexivity. Qed.

Lemma pointLayer_valid : forall (g g' : Grid.t) (p : Pos),
  pointLayer g' = pointLayer g -> valid g' p = valid g p.
Proof.
  intros g g' p H; unfold valid, Grid.isValidPosition.
  rewrite (pointLayer_size _ _ H); reflexivity.
Qed.

Lemma at_index_map : forall (A B : Type) (h : A -> B) (l : list A) (i : Z),
  at_index (map h l) i = option_map h (at_index l i).
Proof.
  intros A B h l i; unfold at_index. destruct (i <? 0); [reflexivity|].
  apply nth_error_map.
Qed.

Lemma pointLayer_cell : forall (g g' : Grid.t) (p : Pos),
  pointLayer g' = pointLayer g ->
  option_map (fun c => (Grid.isPoint c, Grid.pointNumber c)) (cellAt g' p) =
  option_map (fun c => (Grid.isPoint c, Grid.pointNumber c)) (cellAt g p).
Proof.
  intros g g' p H. unfold pointLayer in H. inversion H as [[Hs Hc Hp]].
  assert (forall m : list (list Grid.Cell),
    option_map (fun c => (Grid.isPoint c, Grid.pointNumber c))
      (match at_index m (fst p) with
       | Some r => at_index r (snd p) | None => None end) =
    match at_index (map (map (fun c => (Grid.isPoint c, Grid.pointNumber c))) m)
                   (fst p) with
    | Some r => at_index r (snd p) | None => None end) as E.
  { intros m. rewrite at_index_map. destruct (at_index m (fst p)); simpl.
    - rewrite at_index_map; reflexivity.
    - reflexivity. }
  unfold cellAt. rewrite !E, Hc. reflexivity.
Qed.

Lemma pointLayer_isPt : forall (g g' : Grid.t) (p : Pos),
  pointLayer g' = pointLayer g -> isPt g' p = isPt g p.
Proof.
  intros g g' p H. apply (pointLayer_cell _ _ p) in H. unfold isPt.
  destruct (cellAt g' p), (cellAt g p); simpl in H; try discriminate;
    [inversion H; auto | reflexivity].
Qed.

Lemma occupyCell_spec : forall (g : Grid.t) (r c n : Z),
  grid_wf g ->
  exists g', Grid.occupyCell g r c n = Ret g' /\ grid_wf g' /\
             pointLayer g' = pointLayer g /\
             forall q, occ g' q =
                       if pos_eqb (r, c) q && valid g (r, c) then true
                       else occ g q.
Proof.
  intros g r c n Hwf. unfold Grid.occupyCell. rewrite getCell_wf by assumption.
  simpl. destruct (valid g (r, c)) eqn:Hv.
  - destruct (cellAt_valid _ _ Hwf Hv) as [cell Hc]. rewrite Hc.
    eexists; split; [reflexivity|]. split; [apply withCell_wf; assumption|].
    split; [apply pointLayer_withCell; reflexivity|].
    apply valid_bounds in Hv; simpl in Hv.
    intros q. unfold occ. rewrite cellAt_withCell by lia.
    destruct (pos_eqb (r, c) q) eqn:E; simpl; [|reflexivity].
    apply pos_eqb_eq in E; subst q. rewrite Hc; reflexivity.
  - exists g. repeat split; try apply Hwf.
    intros q; rewrite andb_false_r; reflexivity.
Qed.

Lemma releaseCell_spec : forall (g : Grid.t) (r c : Z),
  grid_wf g ->
  exists g', Grid.releaseCell g r c = Ret g' /\ grid_wf g' /\
             pointLayer g' = pointLayer g /\
             forall q, occ g' q =
                       if pos_eqb (r, c) q && valid g (r, c) &&
                          negb (isPt g (r, c))
                       then false else occ g q.
Proof.
  intros g r c Hwf. unfold Grid.releaseCell. rewrite getCell_wf by assumption.
  simpl. destruct (valid g (r, c)) eqn:Hv.
  - destruct (cellAt_valid _ _ Hwf Hv) as [cell Hc]. rewrite Hc.
    unfold isPt; rewrite Hc.
    destruct (Grid.isPoint cell); simpl.
    + exists g. repeat split; try apply Hwf.
      intros q; rewrite andb_false_r; reflexivity.
    + eexists; split; [reflexivity|]. split; [apply withCell_wf; assumption|].
      split; [apply pointLayer_withCell; reflexivity|].
      apply valid_bounds in Hv; simpl in Hv.
      intros q. unfold occ. rewrite cellAt_withCell by lia.
      rewrite !andb_true_r.
      destruct (pos_eqb (r, c) q) eqn:E; simpl; [|reflexivity].
      apply pos_eqb_eq in E; subst q. rewrite Hc; reflexivity.
  - exists g. repeat split; try apply Hwf.
    intros q; rewrite andb_false_r; reflexivity.
Qed.

Lemma releaseAll_spec : forall (cs : list Pos) (g : Grid.t),
  grid_wf g ->
  exists g', forEach (fun g cell => Grid.releaseCell g (fst cell) (snd cell))
                     cs g = Ret g' /\
             grid_wf g' /\ pointLayer g' = pointLayer g /\
             forall q, occ g' q =
                       if existsb (fun p => pos_eqb p q && valid g p &&
                                            negb (isPt g p)) cs
                       then false else occ g q.
Proof.
  induction cs as [|[r c] cs IH]; intros g Hwf; simpl.
  - exists g; repeat split; try apply Hwf.
  - destruct (releaseCell_spec g r c Hwf) as [g1 [E1 [W1 [L1 O1]]]].
    rewrite E1; simpl.
    destruct (IH g1 W1) as [g2 [E2 [W2 [L2 O2]]]].
    exists g2. split; [assumption|]. split; [assumption|].
    split; [congruence|].
    intros q. rewrite O2, O1.
    assert (forall p, valid g1 p = valid g p) as HV
      by (intros; apply pointLayer_valid; assumption).
    assert (forall p, isPt g1 p = isPt g p) as HP
      by (intros; apply pointLayer_isPt; assumption).
    rewrite (existsb_same _ _ (fun p => pos_eqb p q && valid g p && negb (isPt g p))).
    2:{ intros p; rewrite HV, HP; reflexivity. }
    destruct (pos_eqb (r, c) q && valid g (r, c) && negb (isPt g (r, c)));
      simpl; [|reflexivity].
    destruct (existsb _ cs); reflexivity.
Qed.

Lemma occupyAll_spec : forall (n : Z) (cs : list Pos) (g : Grid.t),
  grid_wf g ->
  exists g', forEach (fun g cell => Grid.occupyCell g (fst cell) (snd cell) n)
                     cs g = Ret g' /\
             grid_wf g' /\ pointLayer g' = pointLayer g /\
             forall q, occ g' q =
                       if existsb (fun p => pos_eqb p q && valid g p) cs
                       then true else occ g q.
Proof.
  intros n; induction cs as [|[r c] cs IH]; intros g Hwf; simpl.
  - exists g; repeat split; try apply Hwf.
  - destruct (occupyCell_spec g r c n Hwf) as [g1 [E1 [W1 [L1 O1]]]].
    rewrite E1; simpl.
    destruct (IH g1 W1) as [g2 [E2 [W2 [L2 O2]]]].
    exists g2. split; [assumption|]. split; [assumption|].
    split; [congruence|].
    intros q. rewrite O2, O1.
    rewrite (existsb_same _ _ (fun p => pos_eqb p q && valid g p)).
    2:{ intros p; rewrite (pointLayer_valid _ _ p L1); reflexivity. }
    destruct (pos_eqb (r, c) q && valid g (r, c)); simpl; [|reflexivity].
    destruct (existsb _ cs); reflexivity.
Qed.

Lemma length_range : forall n : Z, length (range n) = Z.to_nat n.
Proof. intros n; unfold range; rewrite length_map, length_seq; reflexivity. Qed.

Lemma createGrid_wf : forall (size : Z) (pts : list (Pos * Z)),
  grid_wf (Grid.mk size (Grid._createGrid size) pts).
Proof.
  intros size pts; unfold grid_wf, Grid._createGrid; simpl. split.
  - rewrite length_map; apply length_range.
  - apply Forall_forall. intros r Hr. apply in_map_iff in Hr.
    destruct Hr as [x [<- _]]. rewrite length_map; apply length_range.
Qed.

Lemma createGrid_cell : forall (size : Z) (pts : list (Pos * Z)) (q : Pos) (c : Grid.Cell),
  cellAt (Grid.mk size (Grid._createGrid size) pts) q = Some c ->
  Grid.occupied c = false /\ Grid.isPoint c = false.
Proof.
  intros size pts q c; unfold cellAt, Grid._createGrid; simpl.
  rewrite at_index_map. destruct (at_index (range size) (fst q)); simpl;
    [|discriminate].
  rewrite at_index_map. destruct (at_index (range size) (snd q)); simpl;
    [|discriminate].
  intros H; inversion H; subst; simpl; auto.
Qed.

Lemma map_get_set : forall (m : list (Pos * Z)) (k q : Pos) (v : Z),
  map_get pos_eqb (map_set pos_eqb m k v) q =
  if pos_eqb q k then Some v else map_get pos_eqb m q.
Proof.
  induction m as [|[k' v'] m IH]; intros k q v; simpl.
  - reflexivity.
  - destruct (pos_eqb k k') eqn:E; simpl.
    + apply pos_eqb_eq in E; subst k'.
      destruct (pos_eqb q k); reflexivity.
    + rewrite IH. destruct (pos_eqb q k') eqn:E1, (pos_eqb q k) eqn:E2;
        try reflexivity.
      apply pos_eqb_eq in E1, E2; subst. rewrite pos_eqb_refl in E; discriminate.
Qed.

Lemma cellAt_cells : forall (g1 g2 : Grid.t) (q : Pos),
  Grid.cells g1 = Grid.cells g2 -> cellAt g1 q = cellAt g2 q.
Proof. intros g1 g2 q H; unfold cellAt; rewrite H; reflexivity. Qed.

Lemma setPoint_spec : forall (g : Grid.t) (r c n : Z),
  grid_wf g ->
  exists g', Grid.setPoint g r c n = Ret g' /\ grid_wf g' /\
             Grid.size g' = Grid.size g /\
             (forall q, occ g' q = occ g q) /\
             (forall q, isPt g' q =
                        (pos_eqb (r, c) q && valid g (r, c)) || isPt g q) /\
             (forall q, map_get pos_eqb (Grid.points g') q =
                        if pos_eqb q (r, c) && valid g (r, c) then Some n
                        else map_get pos_eqb (Grid.points g) q).
Proof.
  intros g r c n Hwf. unfold Grid.setPoint. rewrite getCell_wf by assumption.
  simpl. destruct (valid g (r, c)) eqn:Hv.
  - destruct (cellAt_valid _ _ Hwf Hv) as [cell Hc]. rewrite Hc.
    apply valid_bounds in Hv; simpl in Hv.
    set (G' := Grid.mk (Grid.size g)
                 (Grid.cells (Grid.withCell g r c (markPoint n)))
                 (map_set pos_eqb (Grid.points g) (r, c) n)).
    assert (forall q, cellAt G' q =
              if pos_eqb (r, c) q then option_map (markPoint n) (cellAt g q)
              else cellAt g q) as HC.
    { intros q. rewrite <- cellAt_withCell by lia.
      apply cellAt_cells; reflexivity. }
    exists G'. split; [reflexivity|].
    split; [apply (withCell_wf g r c _ Hwf)|]. split; [reflexivity|].
    split; [|split].
    + intros q. unfold occ. rewrite HC.
      destruct (pos_eqb (r, c) q); [|reflexivity].
      destruct (cellAt g q); reflexivity.
    + intros q. unfold isPt. rewrite HC, andb_true_r.
      destruct (pos_eqb (r, c) q) eqn:E; simpl; [|reflexivity].
      apply pos_eqb_eq in E; subst q. rewrite Hc; reflexivity.
    + intros q; simpl. rewrite map_get_set, andb_true_r. reflexivity.
  - exists g. repeat split; try apply Hwf.
    + intros q; rewrite andb_false_r; reflexivity.
    + intros q; rewrite andb_false_r; reflexivity.
Qed.

Lemma setPoints_spec : forall (pts : list Point) (g : Grid.t),
  grid_wf g ->
  exists g', forEach (fun g p => Grid.setPoint g (p_row p) (p_col p) (number p))
                     pts g = Ret g' /\
             grid_wf g' /\ Grid.size g' = Grid.size g /\
             (forall q, occ g' q = occ g q) /\
             (forall q, isPt g' q =
                existsb (fun pt => pos_eqb (p_row pt, p_col pt) q) pts &&
                valid g q || isPt g q) /\
             (forall q n, map_get pos_eqb (Grid.points g') q = Some n ->
                existsb (fun pt => pos_eqb (p_row pt, p_col pt) q) pts &&
                valid g q = true \/
                map_get pos_eqb (Grid.points g) q = Some n).
Proof.
  induction pts as [|pt pts IH]; intros g Hwf; simpl.
  - exists g; repeat split; try apply Hwf; auto.
  - destruct (setPoint_spec g (p_row pt) (p_col pt) (number pt) Hwf)
      as [g1 [E1 [W1 [S1 [O1 [P1 M1]]]]]].
    rewrite E1; simpl.
    destruct (IH g1 W1) as [g2 [E2 [W2 [S2 [O2 [P2 M2]]]]]].
    assert (forall p, valid g1 p = valid g p) as HV.
    { intros p; unfold valid, Grid.isValidPosition; rewrite S1; reflexivity. }
    exists g2. split; [assumption|]. split; [assumption|].
    split; [congruence|]. split; [intros; congruence|]. split.
    + intros q. rewrite P2, P1, HV.
      destruct (pos_eqb (p_row pt, p_col pt) q) eqn:E; simpl.
      * apply pos_eqb_eq in E; rewrite E.
        destruct (existsb _ pts), (valid g q), (isPt g q); reflexivity.
      * reflexivity.
    + intros q n Hq. destruct (M2 q n Hq) as [H|H].
      * left. rewrite HV in H. apply andb_true_iff in H. destruct H as [H1 H2].
        rewrite H1, H2, orb_true_r; reflexivity.
      * rewrite M1 in H.
        destruct (pos_eqb q (p_row pt, p_col pt)) eqn:E; simpl in H.
        -- apply pos_eqb_eq in E; rewrite <- E in *. rewrite pos_eqb_refl; simpl.
           destruct (valid g q); [left; reflexivity | right; assumption].
        -- right; assumption.
Qed.

Lemma initializePoints_size : forall (g g' : Grid.t) (pts : list Point),
  Grid.size g = Grid.size g' ->
  Grid.initializePoints g pts = Grid.initializePoints g' pts.
Proof.
  intros g g' pts H; unfold Grid.initializePoints; rewrite H; reflexivity.
Qed.

Lemma inGrid_valid : forall (lv : Level) (g : Grid.t) (q : Pos),
  Grid.size g = lv_size lv -> valid g q = inGrid lv q.
Proof.
  intros lv g q H; unfold valid, inGrid, Grid.isValidPosition; rewrite H.
  reflexivity.
Qed.

(** The grid that [initializePoints] builds for a level. *)
Lemma initializePoints_spec : forall (lv : Level) (g : Grid.t),
  Grid.size g = lv_size lv ->
  exists g0, Grid.initializePoints g (lv_points lv) = Ret g0 /\
             grid_wf g0 /\ Grid.size g0 = lv_size lv /\
             (forall q, occ g0 q = false) /\
             (forall q, isPt g0 q = isLevelPoint lv q && inGrid lv q) /\
             (forall q n, map_get pos_eqb (Grid.points g0) q = Some n ->
                isLevelPoint lv q = true /\ inGrid lv q = true).
Proof.
  intros lv g Hs. unfold Grid.initializePoints.
  set (gi := Grid.mk (Grid.size g) (Grid._createGrid (Grid.size g)) []).
  destruct (setPoints_spec (lv_points lv) gi (createGrid_wf _ _))
    as [g0 [E [W [S [O [P M]]]]]].
  assert (forall q, valid gi q = inGrid lv q) as HV
    by (intros q; apply inGrid_valid; exact Hs).
  exists g0. split; [exact E|]. split; [exact W|].
  split; [rewrite S; exact Hs|]. split; [|split].
  - intros q. rewrite O. unfold occ.
    destruct (cellAt gi q) eqn:Ec; [|reflexivity].
    apply createGrid_cell in Ec; tauto.
  - intros q. rewrite P, HV.
    assert (isPt gi q = false) as ->.
    { unfold isPt. destruct (cellAt gi q) eqn:Ec; [|reflexivity].
      apply createGrid_cell in Ec; tauto. }
    rewrite orb_false_r; reflexivity.
  - intros q n Hq. destruct (M q n Hq) as [H|H].
    + rewrite HV in H. apply andb_true_iff in H. exact H.
    + discriminate.
Qed.

Lemma reset_spec : forall g : Grid.t,
  grid_wf g ->
  grid_wf (Grid.reset g) /\ pointLayer (Grid.reset g) = pointLayer g /\
  forall q, occ (Grid.reset g) q = false.
Proof.
  intros g [Hl Hr]. split; [|split].
  - unfold grid_wf, Grid.reset; simpl. split.
    + rewrite length_map; assumption.
    + apply Forall_forall. intros r Hin. apply in_map_iff in Hin.
      destruct Hin as [x [<- Hx]]. rewrite length_map.
      rewrite Forall_forall in Hr; apply Hr; assumption.
  - unfold pointLayer, Grid.reset; simpl. rewrite map_map.
    f_equal. f_equal. apply map_ext. intros r. rewrite map_map.
    apply map_ext. intros c; reflexivity.
  - intros q. unfold occ, cellAt, Grid.reset; simpl.
    rewrite at_index_map. destruct (at_index (Grid.cells g) (fst q)); simpl;
      [|reflexivity].
    rewrite at_index_map. destruct (at_index l (snd q)); reflexivity.
Qed.

Lemma rebuildFromPaths_spec : forall (paths : list Path) (g : Grid.t),
  grid_wf g ->
  exists g', Grid.rebuildFromPaths g paths = Ret g' /\
             grid_wf g' /\ pointLayer g' = pointLayer g /\
             forall q, occ g' q =
                       existsb (fun p => existsb (fun c => pos_eqb c q && valid g c)
                                                 (path_cells p)) paths.
Proof.
  intros paths g Hwf. unfold Grid.rebuildFromPaths.
  destruct (reset_spec g Hwf) as [W0 [L0 O0]].
  assert (forall (ps : list Path) (g1 : Grid.t),
    grid_wf g1 ->
    exists g', forEach (fun g path =>
                 forEach (fun g cell =>
                            Grid.occupyCell g (fst cell) (snd cell)
                                            (path_number path))
                         (path_cells path) g) ps g1 = Ret g' /\
               grid_wf g' /\ pointLayer g' = pointLayer g1 /\
               forall q, occ g' q =
                 existsb (fun p => existsb (fun c => pos_eqb c q && valid g1 c)
                                           (path_cells p)) ps || occ g1 q) as H.
  { induction ps as [|p ps IH]; intros g1 W1; simpl.
    - exists g1; repeat split; try apply W1.
    - destruct (occupyAll_spec (path_number p) (path_cells p) g1 W1)
        as [g2 [E2 [W2 [L2 O2]]]].
      rewrite E2; simpl.
      destruct (IH g2 W2) as [g3 [E3 [W3 [L3 O3]]]].
      exists g3. split; [assumption|]. split; [assumption|].
      split; [congruence|].
      intros q. rewrite O3, O2.
      rewrite (existsb_same _ _
        (fun p => existsb (fun c => pos_eqb c q && valid g1 c) (path_cells p))).
      2:{ intros p'. apply existsb_same. intros c.
          rewrite (pointLayer_valid _ _ c L2); reflexivity. }
      destruct (existsb (fun c => pos_eqb c q && valid g1 c) (path_cells p));
        simpl; [apply orb_true_r | reflexivity]. }
  destruct (H paths (Grid.reset g) W0) as [g' [E [W [L O]]]].
  exists g'. split; [assumption|]. split; [assumption|].
  split; [congruence|].
  intros q. rewrite O, O0, orb_false_r.
  apply existsb_same. intros p. apply existsb_same. intros c.
  rewrite (pointLayer_valid _ _ c L0); reflexivity.
Qed.

Lemma GridOK_layer : forall (lv : Level) (g g' : Grid.t),
  GridOK lv g -> grid_wf g' -> pointLayer g' = pointLayer g -> GridOK lv g'.
Proof.
  intros lv g g' [W S P M] W' L. constructor.
  - exact W'.
  - rewrite (pointLayer_size _ _ L); exact S.
  - intros q; rewrite (pointLayer_isPt _ _ q L); apply P.
  - intros q n; rewrite (pointLayer_points _ _ L); apply M.
Qed.

Lemma GridOK_valid : forall (lv : Level) (g : Grid.t) (q : Pos),
  GridOK lv g -> valid g q = inGrid lv q.
Proof. intros lv g q H; apply inGrid_valid; apply H. Qed.

(** ** Arrays: findIndex, slice and splice *)

Lemma findIndex_first : forall (A : Type) (pred : A -> bool) (l : list A) (i : nat) (x : A),
  nth_error l i = Some x -> pred x = true ->
  (forall j y, (j < i)%nat -> nth_error l j = Some y -> pred y = false) ->
  findIndex pred l = Z.of_nat i.
Proof.
  intros A pred; induction l as [|y l IH]; intros [|i] x Hn Hp Hb; simpl in *;
    try discriminate.
  - inversion Hn; subst. rewrite Hp; reflexivity.
  - rewrite (Hb O y) by (auto; lia).
    rewrite (IH i x Hn Hp).
    + destruct (Z.eqb_spec (Z.of_nat i) (-1)); lia.
    + intros j z Hj Hz. apply (Hb (S j) z); [lia | exact Hz].
Qed.

Lemma findIndex_none : forall (A : Type) (pred : A -> bool) (l : list A),
  (forall y, In y l -> pred y = false) -> findIndex pred l = -1.
Proof.
  intros A pred; induction l as [|y l IH]; intros H; simpl; [reflexivity|].
  rewrite (H y) by (left; reflexivity).
  rewrite IH by (intros z Hz; apply H; right; exact Hz). reflexivity.
Qed.

Lemma findIndex_found : forall (A : Type) (pred : A -> bool) (l : list A),
  findIndex pred l <> -1 ->
  exists i x, findIndex pred l = Z.of_nat i /\ nth_error l i = Some x /\
              pred x = true /\
              forall j y, (j < i)%nat -> nth_error l j = Some y -> pred y = false.
Proof.
  intros A pred; induction l as [|y l IH]; simpl; intros H; [congruence|].
  destruct (pred y) eqn:E.
  - exists O, y. repeat split; auto. intros j z Hj; lia.
  - destruct (Z.eqb_spec (findIndex pred l) (-1)) as [E1|E1]; [congruence|].
    destruct (IH E1) as [i [x [Hi [Hn [Hp Hb]]]]].
    exists (S i), x. repeat split; auto; [lia|].
    intros [|j] z Hj Hz; simpl in Hz.
    + inversion Hz; subst; exact E.
    + apply (Hb j z); [lia | exact Hz].
Qed.

Lemma findIndex_absent : forall (A : Type) (pred : A -> bool) (l : list A),
  findIndex pred l = -1 -> forall y, In y l -> pred y = false.
Proof.
  intros A pred l H y Hy.
  destruct (pred y) eqn:E; [|reflexivity]. exfalso.
  apply In_nth_error in Hy. destruct Hy as [n Hn].
  revert l H Hn. induction n as [|n IH]; intros [|z l] H Hn; simpl in *;
    try discriminate.
  - inversion Hn; subst. rewrite E in H; discriminate.
  - destruct (pred z); [discriminate|].
    destruct (Z.eqb_spec (findIndex pred l) (-1)) as [E1|E1].
    + apply (IH l E1 Hn).
    + assert (-1 <= findIndex pred l).
      { clear. induction l as [|w l IHl]; simpl; [lia|].
        destruct (pred w); [lia|].
        destruct (Z.eqb_spec (findIndex pred l) (-1)); lia. }
      lia.
Qed.

Lemma relIndex_nat : forall (len : Z) (k : nat),
  Z.of_nat k <= len -> relIndex len (Z.of_nat k) = k.
Proof.
  intros len k H; unfold relIndex.
  destruct (Z.ltb_spec (Z.of_nat k) 0); lia.
Qed.

Lemma NoDup_nth_error_neq : forall (A : Type) (l : list A) (i j : nat) (x y : A),
  NoDup l -> nth_error l i = Some x -> nth_error l j = Some y -> i <> j ->
  x <> y.
Proof.
  intros A l i j x y Hnd Hi Hj Hij E; subst y.
  apply Hij. apply (proj1 (NoDup_nth_error l) Hnd).
  - apply nth_error_Some; congruence.
  - congruence.
Qed.

Lemma NoDup_firstn_skipn : forall (A : Type) (l : list A) (k : nat) (x : A),
  NoDup l -> In x (firstn k l) -> ~ In x (skipn k l).
Proof.
  intros A l k x Hnd H1 H2.
  rewrite <- (firstn_skipn k l) in Hnd.
  apply NoDup_app_remove_l in Hnd as Hs.
  revert Hnd H1 H2. generalize (firstn k l) (skipn k l).
  induction l0 as [|y l0 IH]; intros l1 Hnd H1 H2; simpl in *; [contradiction|].
  inversion Hnd; subst. destruct H1 as [->|H1].
  - apply H3. apply in_or_app; right; exact H2.
  - apply (IH l1); auto.
Qed.

Lemma In_skipn : forall (A : Type) (l : list A) (k : nat) (x : A),
  In x (skipn k l) -> In x l.
Proof.
  intros A l k x H. rewrite <- (firstn_skipn k l). apply in_or_app; right; exact H.
Qed.

Lemma In_firstn : forall (A : Type) (l : list A) (k : nat) (x : A),
  In x (firstn k l) -> In x l.
Proof.
  intros A l k x H. rewrite <- (firstn_skipn k l). apply in_or_app; left; exact H.
Qed.

Lemma deepClone_id : forall ps : list Path, GameState.deepClone ps = ps.
Proof.
  induction ps as [|[n cs] ps IH]; simpl; [reflexivity|].
  unfold GameState.deepClone in *; simpl. rewrite map_id, IH; reflexivity.
Qed.

(** ** The path being drawn *)

Lemma ActiveOK_NoDup : forall lv g ps cp,
  ActiveOK lv g ps cp -> NoDup (path_cells cp).
Proof.
  intros lv g ps cp [a [rest [E [_ [Ha [Hnd [Hr _]]]]]]]. rewrite E.
  constructor; [|exact Hnd].
  intros Hin. destruct (Hr a Hin) as [_ [Hf _]]. congruence.
Qed.

Lemma at_index_last : forall (A : Type) (l : list A) (d : A),
  l <> [] -> at_index l (Z.of_nat (length l) - 1) = Some (last l d).
Proof.
  intros A l d Hne. unfold at_index.
  destruct l as [|x l]; [congruence|].
  destruct (Z.ltb_spec (Z.of_nat (length (x :: l)) - 1) 0) as [H|H];
    [cbn [length] in H; lia|].
  replace (Z.to_nat (Z.of_nat (length (x :: l)) - 1)) with (length l)
    by (cbn [length]; lia).
  clear. revert x. induction l as [|y l IH]; intros x; [reflexivity|].
  simpl length. change (nth_error (x :: y :: l) (S (length l)))
    with (nth_error (y :: l) (length l)).
  rewrite IH. reflexivity.
Qed.

Lemma getCurrentPathEnd_last : forall (s : GameState.t) (cp : Path),
  GameState.currentPath s = Some cp -> path_cells cp <> [] ->
  GameState.getCurrentPathEnd s = Some (last (path_cells cp) (0, 0)).
Proof.
  intros s cp H Hne. unfold GameState.getCurrentPathEnd. rewrite H.
  destruct (path_cells cp) as [|x l] eqn:E; [congruence|].
  simpl Nat.eqb. cbv iota. apply at_index_last. discriminate.
Qed.

Lemma nth_error_last : forall (A : Type) (l : list A) (d : A),
  l <> [] -> nth_error l (length l - 1) = Some (last l d).
Proof.
  intros A l d Hne. pose proof (at_index_last _ l d Hne) as H.
  unfold at_index in H.
  destruct (Z.ltb_spec (Z.of_nat (length l) - 1) 0) as [H0|H0];
    [discriminate|].
  replace (length l - 1)%nat with (Z.to_nat (Z.of_nat (length l) - 1)) by lia.
  exact H.
Qed.

Lemma posEquals_pos_eqb : forall p q : Pos, posEquals p q = pos_eqb p q.
Proof. reflexivity. Qed.

Lemma findInCurrentPath_index : forall (s : GameState.t) (cp : Path) (i : nat) (row col : Z),
  GameState.currentPath s = Some cp -> NoDup (path_cells cp) ->
  nth_error (path_cells cp) i = Some (row, col) ->
  GameState.findInCurrentPath s row col = Z.of_nat i.
Proof.
  intros s cp i row col H Hnd Hn. unfold GameState.findInCurrentPath.
  rewrite H. apply (findIndex_first _ _ _ _ _ Hn).
  - simpl. rewrite !Z.eqb_refl; reflexivity.
  - intros j y Hj Hy.
    assert (y <> (row, col)) as Hne
      by (apply (NoDup_nth_error_neq _ _ _ _ _ _ Hnd Hy Hn); lia).
    apply pos_eqb_neq in Hne. exact Hne.
Qed.

Lemma findInCurrentPath_absent : forall (s : GameState.t) (cp : Path) (row col : Z),
  GameState.currentPath s = Some cp ->
  GameState.findInCurrentPath s row col = -1 ->
  ~ In (row, col) (path_cells cp).
Proof.
  intros s cp row col H Hf Hin. unfold GameState.findInCurrentPath in Hf.
  rewrite H in Hf.
  pose proof (findIndex_absent _ _ _ Hf _ Hin) as E. simpl in E.
  rewrite !Z.eqb_refl in E; discriminate.
Qed.

(** Backtracking: the outcome of [tryExtendPath] on a cell that the path
    being drawn already holds before its end. *)
Lemma backtrack_spec : forall lv s cp row col i,
  Inv lv s ->
  GameState.currentPath (gs s) = Some cp ->
  nth_error (path_cells cp) i = Some (row, col) ->
  (S i < length (path_cells cp))%nat ->
  areAdjacent (last (path_cells cp) (0, 0)) (row, col) = true ->
  exists g',
    PathManager.tryExtendPath s row col =
      Ret (SuccessBacktracked,
           mkSession
             (GameState.mk
                (GameState.levelData (gs s)) (GameState.gridSize (gs s))
                (fold_left (set_delete pos_eqb) (skipn (S i) (path_cells cp))
                           (GameState.occupiedCells (gs s)))
                (GameState.paths (gs s))
                (Some (mkPath (path_number cp) (firstn (S i) (path_cells cp))))
                (GameState.points (gs s)) (GameState.totalPoints (gs s))
                (GameState.connectedPoints (gs s))
                (GameState.currentNumber (gs s)) (GameState.gameState (gs s))
                (GameState.isComplete (gs s)) (GameState.history (gs s))
                (GameState.maxHistory (gs s)))
             g') /\
    grid_wf g' /\ pointLayer g' = pointLayer (grid s) /\
    (forall q, In q (skipn (S i) (path_cells cp)) -> occ g' q = false) /\
    (forall q, ~ In q (skipn (S i) (path_cells cp)) ->
               occ g' q = occ (grid s) q).
Proof.
  intros lv s cp row col i HI Hcp Hn Hlt Hadj.
  pose proof (inv_active _ _ HI cp Hcp) as HA.
  pose proof (ActiveOK_NoDup _ _ _ _ HA) as Hnd.
  assert (path_cells cp <> []) as Hne
    by (intros E; rewrite E in Hlt; simpl in Hlt; lia).
  unfold PathManager.tryExtendPath. rewrite Hcp.
  rewrite (getCurrentPathEnd_last _ _ Hcp Hne).
  assert (posEquals (last (path_cells cp) (0, 0)) (row, col) = false) as ->.
  { rewrite posEquals_pos_eqb. apply pos_eqb_neq.
    apply (NoDup_nth_error_neq _ _ _ _ _ _ Hnd
             (nth_error_last _ _ (0, 0) Hne) Hn). lia. }
  rewrite Hadj. simpl negb. cbv iota.
  rewrite (findInCurrentPath_index _ _ _ _ _ Hcp Hnd Hn).
  destruct (Z.eqb_spec (Z.of_nat i) (-1)) as [E|_]; [lia|]. simpl negb. cbv iota.
  assert (slice_from (path_cells cp) (Z.of_nat i + 1) =
          skipn (S i) (path_cells cp)) as ->.
  { unfold slice_from. replace (Z.of_nat i + 1) with (Z.of_nat (S i)) by lia.
    rewrite relIndex_nat by lia. reflexivity. }
  destruct (releaseAll_spec (skipn (S i) (path_cells cp)) (grid s)
              (gok_wf _ _ (inv_grid _ _ HI))) as [g' [E [W [L O]]]].
  rewrite E. simpl bind.
  exists g'. split.
  - unfold GameState.truncatePath. rewrite Hcp. unfold splice_from.
    replace (Z.of_nat i + 1) with (Z.of_nat (S i)) by lia.
    rewrite relIndex_nat by lia. reflexivity.
  - split; [exact W|]. split; [exact L|].
    destruct HA as [a [rest [Ec [Ha [Hpa [Hndr [Hr Ho]]]]]]].
    assert (forall q, In q (skipn (S i) (path_cells cp)) ->
              valid (grid s) q = true /\ isPt (grid s) q = false) as Hrem.
    { intros q Hq. rewrite Ec in Hq. simpl in Hq.
      apply In_skipn in Hq. destruct (Hr q Hq) as [H1 [H2 _]].
      rewrite (GridOK_valid lv _ _ (inv_grid _ _ HI)).
      rewrite (gok_isPt _ _ (inv_grid _ _ HI)), H1, H2. auto. }
    split.
    + intros q Hq. rewrite O.
      assert (existsb (fun p => pos_eqb p q && valid (grid s) p &&
                                negb (isPt (grid s) p))
                      (skipn (S i) (path_cells cp)) = true) as ->; [|reflexivity].
      apply existsb_exists. exists q. split; [exact Hq|].
      destruct (Hrem q Hq) as [-> ->]. rewrite pos_eqb_refl; reflexivity.
    + intros q Hq. rewrite O.
      assert (existsb (fun p => pos_eqb p q && valid (grid s) p &&
                                negb (isPt (grid s) p))
                      (skipn (S i) (path_cells cp)) = false) as ->; [|reflexivity].
      destruct (existsb _ _) eqn:Ex; [|reflexivity].
      apply existsb_exists in Ex. destruct Ex as [p [Hp Hb]].
      apply andb_true_iff in Hb. destruct Hb as [Hb _].
      apply andb_true_iff in Hb. destruct Hb as [Hb _].
      apply pos_eqb_eq in Hb; subst p. contradiction.
Qed.

(** ** GameState: the fields after each operation *)

Lemma completePath_fields : forall (s : GameState.t) (cp : Path) (row col : Z),
  GameState.currentPath s = Some cp ->
  let s' := GameState.completePath s row col in
  GameState.paths s' =
    GameState.paths s ++ [mkPath (path_number cp) (path_cells cp ++ [(row, col)])] /\
  GameState.currentPath s' = None /\
  GameState.history s' =
    pushBounded (GameState.history s) (commitSnapshot s (row, col))
                (GameState.maxHistory s) /\
  GameState.points s' = GameState.points s /\
  GameState.maxHistory s' = GameState.maxHistory s /\
  GameState.currentNumber s' = path_number cp + 1 /\
  GameState.occupiedCells s' =
    set_add pos_eqb (GameState.occupiedCells s) (row, col) /\
  GameState.connectedPoints s' =
    set_add Z.eqb (set_add Z.eqb (GameState.connectedPoints s) (path_number cp))
            (path_number cp + 1).
Proof.
  intros s cp row col H. unfold GameState.completePath. rewrite H.
  unfold GameState._checkCompletion, GameState.saveSnapshot. simpl.
  match goal with |- context [if ?b then _ else _] => destruct b end;
    simpl; repeat split; reflexivity.
Qed.

Lemma extendPath_fields : forall (s : GameState.t) (cp : Path) (row col : Z),
  GameState.currentPath s = Some cp ->
  GameState.extendPath s row col =
  GameState.mk (GameState.levelData s) (GameState.gridSize s)
     (set_add pos_eqb (GameState.occupiedCells s) (row, col))
     (GameState.paths s)
     (Some (mkPath (path_number cp) (path_cells cp ++ [(row, col)])))
     (GameState.points s) (GameState.totalPoints s)
     (GameState.connectedPoints s) (GameState.currentNumber s)
     (GameState.gameState s) (GameState.isComplete s) (GameState.history s)
     (GameState.maxHistory s).
Proof.
  intros s cp row col H. unfold GameState.extendPath. rewrite H. reflexivity.
Qed.

Lemma ActiveOK_nonempty : forall lv g ps cp,
  ActiveOK lv g ps cp -> path_cells cp <> [].
Proof.
  intros lv g ps cp [a [rest [E _]]]. rewrite E; discriminate.
Qed.

Lemma occ_cellAt_true : forall (g : Grid.t) (q : Pos) (c : Grid.Cell),
  cellAt g q = Some c -> occ g q = Grid.occupied c.
Proof. intros g q c H; unfold occ; rewrite H; reflexivity. Qed.

Lemma isPt_cellAt : forall (g : Grid.t) (q : Pos) (c : Grid.Cell),
  cellAt g q = Some c -> isPt g q = Grid.isPoint c.
Proof. intros g q c H; unfold isPt; rewrite H; reflexivity. Qed.

(** The outcomes of [tryExtendPath] in a session that satisfies the
    invariant. *)
Lemma tryExtendPath_cases : forall lv s row col,
  Inv lv s ->
  (exists reason,
     PathManager.tryExtendPath s row col = Ret (Failure reason, s)) \/
  (exists cp i g',
     GameState.currentPath (gs s) = Some cp /\
     nth_error (path_cells cp) i = Some (row, col) /\
     (S i < length (path_cells cp))%nat /\
     PathManager.tryExtendPath s row col =
       Ret (SuccessBacktracked,
            mkSession (GameState.truncatePath (gs s) (Z.of_nat i)) g') /\
     GameState.truncatePath (gs s) (Z.of_nat i) =
       GameState.mk
         (GameState.levelData (gs s)) (GameState.gridSize (gs s))
         (fold_left (set_delete pos_eqb) (skipn (S i) (path_cells cp))
                    (GameState.occupiedCells (gs s)))
         (GameState.paths (gs s))
         (Some (mkPath (path_number cp) (firstn (S i) (path_cells cp))))
         (GameState.points (gs s)) (GameState.totalPoints (gs s))
         (GameState.connectedPoints (gs s))
         (GameState.currentNumber (gs s)) (GameState.gameState (gs s))
         (GameState.isComplete (gs s)) (GameState.history (gs s))
         (GameState.maxHistory (gs s)) /\
     grid_wf g' /\ pointLayer g' = pointLayer (grid s) /\
     (forall q, In q (skipn (S i) (path_cells cp)) -> occ g' q = false) /\
     (forall q, ~ In q (skipn (S i) (path_cells cp)) ->
                occ g' q = occ (grid s) q)) \/
  (exists cp g',
     GameState.currentPath (gs s) = Some cp /\
     inGrid lv (row, col) = true /\ isLevelPoint lv (row, col) = true /\
     ~ In (row, col) (path_cells cp) /\
     PathManager.tryExtendPath s row col =
       Ret (SuccessCompleted,
            mkSession (GameState.completePath (gs s) row col) g') /\
     grid_wf g' /\ pointLayer g' = pointLayer (grid s) /\
     (forall q, occ g' q = if pos_eqb (row, col) q then true
                           else occ (grid s) q)) \/
  (exists cp g',
     GameState.currentPath (gs s) = Some cp /\
     inGrid lv (row, col) = true /\ isLevelPoint lv (row, col) = false /\
     occ (grid s) (row, col) = false /\
     ~ In (row, col) (path_cells cp) /\
     PathManager.tryExtendPath s row col =
       Ret (Success, mkSession (GameState.extendPath (gs s) row col) g') /\
     grid_wf g' /\ pointLayer g' = pointLayer (grid s) /\
     (forall q, occ g' q = if pos_eqb (row, col) q then true
                           else occ (grid s) q)).
Proof.
  intros lv s row col HI.
  pose proof (inv_grid _ _ HI) as HG.
  destruct (GameState.currentPath (gs s)) as [cp|] eqn:Hcp.
  2:{ left. exists no_active_path. unfold PathManager.tryExtendPath.
      rewrite Hcp. reflexivity. }
  pose proof (inv_active _ _ HI cp Hcp) as HA.
  pose proof (ActiveOK_NoDup _ _ _ _ HA) as Hnd.
  pose proof (ActiveOK_nonempty _ _ _ _ HA) as Hne.
  pose proof (getCurrentPathEnd_last _ _ Hcp Hne) as Hend.
  destruct (posEquals (last (path_cells cp) (0, 0)) (row, col)) eqn:Heq.
  { left. exists same_cell. unfold PathManager.tryExtendPath.
    rewrite Hcp, Hend, Heq. reflexivity. }
  destruct (areAdjacent (last (path_cells cp) (0, 0)) (row, col)) eqn:Hadj.
  2:{ left. exists not_adjacent. unfold PathManager.tryExtendPath.
      rewrite Hcp, Hend, Heq, Hadj. reflexivity. }
  destruct (Z.eq_dec (GameState.findInCurrentPath (gs s) row col) (-1))
    as [Hfind|Hfind].
  2:{ (* backtracking *)
      right; left.
      unfold GameState.findInCurrentPath in Hfind. rewrite Hcp in Hfind.
      destruct (findIndex_found _ _ _ Hfind) as [i [x [Hi [Hn [Hp _]]]]].
      assert (x = (row, col)) as ->.
      { destruct x as [xr xc]; simpl in Hp.
        apply andb_true_iff in Hp. rewrite !Z.eqb_eq in Hp.
        destruct Hp; subst; reflexivity. }
      assert (S i < length (path_cells cp))%nat as Hlt.
      { assert (i < length (path_cells cp))%nat
          by (apply nth_error_Some; congruence).
        destruct (Nat.eq_dec i (length (path_cells cp) - 1)) as [E|E]; [|lia].
        exfalso. rewrite E, (nth_error_last _ _ (0, 0) Hne) in Hn.
        inversion Hn as [Hl]. rewrite Hl, posEquals_pos_eqb, pos_eqb_refl in Heq.
        discriminate. }
      destruct (backtrack_spec lv s cp row col i HI Hcp Hn Hlt Hadj)
        as [g' [E [W [L [O1 O2]]]]].
      assert (GameState.truncatePath (gs s) (Z.of_nat i) = 
              GameState.mk
         (GameState.levelData (gs s)) (GameState.gridSize (gs s))
         (fold_left (set_delete pos_eqb) (skipn (S i) (path_cells cp))
                    (GameState.occupiedCells (gs s)))
         (GameState.paths (gs s))
         (Some (mkPath (path_number cp) (firstn (S i) (path_cells cp))))
         (GameState.points (gs s)) (GameState.totalPoints (gs s))
         (GameState.connectedPoints (gs s))
         (GameState.currentNumber (gs s)) (GameState.gameState (gs s))
         (GameState.isComplete (gs s)) (GameState.history (gs s))
         (GameState.maxHistory (gs s))) as Htr.
      { unfold GameState.truncatePath. rewrite Hcp. unfold splice_from.
        replace (Z.of_nat i + 1) with (Z.of_nat (S i)) by lia.
        rewrite relIndex_nat by lia. reflexivity. }
      exists cp, i, g'. rewrite Htr.
      split; [reflexivity|]. split; [exact Hn|]. split; [exact Hlt|].
      split; [exact E|]. split; [reflexivity|]. split; [exact W|].
      split; [exact L|]. split; [exact O1 | exact O2]. }
  pose proof (findInCurrentPath_absent _ _ _ _ Hcp Hfind) as Hnin.
  assert (forall K : js (Result * Session),
    (cell <- Grid.getCell (grid s) row col ;;
     match cell with
     | None => Ret (Failure invalid_cell, s)
     | Some cell =>
         let targetNumber := GameState.currentNumber (gs s) + 1 in
         if Grid.isPoint cell &&
            match Grid.pointNumber cell with
            | Some n => n =? targetNumber
            | None => false
            end
         then
           let gs' := GameState.completePath (gs s) row col in
           let n := match GameState.currentPath gs' with
                    | Some p => if path_number p =? 0
                                then targetNumber - 1
                                else path_number p
                    | None => targetNumber - 1
                    end in
           g' <- Grid.occupyCell (grid s) row col n ;;
           Ret (SuccessCompleted, mkSession gs' g')
         else if Grid.occupied cell ||
                 (Grid.isPoint cell &&
                  negb match Grid.pointNumber cell with
                       | Some n => n =? targetNumber
                       | None => false
                       end)
         then Ret (Failure cell_occupied, s)
         else
           let gs' := GameState.extendPath (gs s) row col in
           match GameState.currentPath gs' with
           | None => Throw
           | Some p =>
               g' <- Grid.occupyCell (grid s) row col (path_number p) ;;
               Ret (Success, mkSession gs' g')
           end
     end) = K -> PathManager.tryExtendPath s row col = K) as Hred.
  { intros K HK. unfold PathManager.tryExtendPath.
    rewrite Hcp, Hend, Heq, Hadj, Hfind. exact HK. }
  rewrite getCell_wf in Hred by apply HG.
  rewrite (GridOK_valid lv _ _ HG) in Hred.
  destruct (inGrid lv (row, col)) eqn:Hin.
  2:{ left. exists invalid_cell. apply Hred. reflexivity. }
  assert (valid (grid s) (row, col) = true) as Hv
    by (rewrite (GridOK_valid lv _ _ HG); exact Hin).
  destruct (cellAt_valid _ _ (gok_wf _ _ HG) Hv) as [cell Hc].
  rewrite Hc in Hred. simpl bind in Hred.
  pose proof (isPt_cellAt _ _ _ Hc) as HP.
  rewrite (gok_isPt _ _ HG), Hin, andb_true_r in HP.
  pose proof (occ_cellAt_true _ _ _ Hc) as HO.
  destruct (Grid.isPoint cell &&
            match Grid.pointNumber cell with
            | Some n => n =? GameState.currentNumber (gs s) + 1
            | None => false
            end) eqn:Htarget.
  - (* the target point: the path is complete *)
    right; right; left.
    apply andb_true_iff in Htarget. destruct Htarget as [Hpt _].
    match type of Hred with
    | forall K, (g' <- Grid.occupyCell _ _ _ ?n ;; _) = K -> _ =>
        destruct (occupyCell_spec (grid s) row col n (gok_wf _ _ HG))
          as [g' [E [W [L O]]]]
    end.
    exists cp, g'. split; [reflexivity|]. split; [reflexivity|].
    split; [congruence|]. split; [exact Hnin|]. split.
    + apply Hred. rewrite E. reflexivity.
    + split; [exact W|]. split; [exact L|].
      intros q. rewrite O, Hv, andb_true_r. reflexivity.
  - destruct (Grid.occupied cell ||
              Grid.isPoint cell &&
              negb match Grid.pointNumber cell with
                   | Some n => n =? GameState.currentNumber (gs s) + 1
                   | None => false
                   end) eqn:Hocc.
    + left. exists cell_occupied. apply Hred. reflexivity.
    + right; right; right.
      apply orb_false_iff in Hocc. destruct Hocc as [Ho Hp2].
      assert (Grid.isPoint cell = false) as Hnp.
      { destruct (Grid.isPoint cell); [|reflexivity].
        simpl in Htarget, Hp2. rewrite Htarget in Hp2. discriminate. }
      rewrite (extendPath_fields _ _ _ _ Hcp) in Hred. simpl in Hred.
      destruct (occupyCell_spec (grid s) row col (path_number cp)
                  (gok_wf _ _ HG)) as [g' [E [W [L O]]]].
      exists cp, g'. split; [reflexivity|]. split; [reflexivity|].
      split; [congruence|]. split; [congruence|]. split; [exact Hnin|].
      split.
      * rewrite (extendPath_fields _ _ _ _ Hcp). apply Hred.
        rewrite E. reflexivity.
      * split; [exact W|]. split; [exact L|].
        intros q. rewrite O, Hv, andb_true_r. reflexivity.
Qed.

(** ** The invariant is kept by every operation *)

Lemma PathsOK_nil : forall lv, PathsOK lv [].
Proof.
  intros lv; split.
  - intros p [].
  - intros i j p q _ H; destruct i; discriminate.
Qed.

Lemma nth_error_snoc : forall (A : Type) (l : list A) (x y : A) (i : nat),
  nth_error (l ++ [x]) i = Some y ->
  nth_error l i = Some y \/ (i = length l /\ y = x).
Proof.
  intros A l x y i H.
  destruct (Nat.lt_ge_cases i (length l)) as [Hlt|Hge].
  - left. rewrite nth_error_app1 in H by exact Hlt. exact H.
  - right. rewrite nth_error_app2 in H by exact Hge.
    destruct (i - length l)%nat as [|k] eqn:E; simpl in H.
    + inversion H; subst. split; [lia | reflexivity].
    + destruct k; discriminate.
Qed.

Lemma interior_path : forall (a b : Pos) (mid : list Pos),
  interior (a :: mid ++ [b]) = mid.
Proof. intros; unfold interior; simpl tl. apply removelast_last. Qed.

Lemma PathsOK_snoc : forall lv ps P,
  PathsOK lv ps -> PathOK lv P ->
  (forall q c, In q ps -> In c (interior (path_cells P)) ->
               ~ In c (path_cells q)) ->
  (forall q c, In q ps -> In c (interior (path_cells q)) ->
               ~ In c (path_cells P)) ->
  PathsOK lv (ps ++ [P]).
Proof.
  intros lv ps P [H1 H2] HP HA HB. split.
  - intros p Hp. apply in_app_or in Hp. destruct Hp as [Hp|[<-|[]]]; auto.
  - intros i j p q Hij Hi Hj c Hc.
    apply nth_error_snoc in Hi, Hj.
    destruct Hi as [Hi|[Ei ->]], Hj as [Hj|[Ej ->]].
    + apply (H2 i j p q Hij Hi Hj c Hc).
    + apply (HB p c); [eapply nth_error_In; eauto | exact Hc].
    + apply (HA q c); [eapply nth_error_In; eauto | exact Hc].
    + congruence.
Qed.

Lemma NoDup_firstn : forall (A : Type) (l : list A) (k : nat),
  NoDup l -> NoDup (firstn k l).
Proof.
  intros A l k H. rewrite <- (firstn_skipn k l) in H.
  apply NoDup_app_remove_r in H. exact H.
Qed.

Lemma In_pushBounded : forall h snap cap x,
  In x (pushBounded h snap cap) -> In x h \/ x = snap.
Proof.
  intros h snap cap x H. unfold pushBounded in H.
  assert (In x (h ++ [snap])) as Hin.
  { destruct (Z.of_nat (length (h ++ [snap])) >? cap); [|exact H].
    destruct (h ++ [snap]); [exact H | right; exact H]. }
  apply in_app_or in Hin. destruct Hin as [Hin|[<-|[]]]; auto.
Qed.

Lemma length_pushBounded : forall h snap cap,
  (Z.of_nat (length h) <= cap) ->
  Z.of_nat (length (pushBounded h snap cap)) <= cap.
Proof.
  intros h snap cap H. unfold pushBounded.
  destruct (Z.gtb_spec (Z.of_nat (length (h ++ [snap]))) cap) as [G|G];
    [|exact G].
  rewrite length_app in G. simpl in G.
  destruct h as [|x h]; simpl in *; [lia|].
  rewrite length_app; simpl. lia.
Qed.

Lemma Inv_load : forall lv s, loadLevel lv = Ret s -> Inv lv s.
Proof.
  intros lv s H. unfold loadLevel in H.
  destruct (initializePoints_spec lv (Grid.new (lv_size lv)) eq_refl)
    as [g0 [E [W [S [O [P M]]]]]].
  rewrite E in H. simpl in H. inversion H; subst s; clear H.
  constructor; simpl.
  - constructor; assumption.
  - reflexivity.
  - reflexivity.
  - lia.
  - apply PathsOK_nil.
  - intros p c [].
  - intros snap [].
  - intros cp Hcp; discriminate.
Qed.

Lemma Inv_tryStartPath : forall lv s row col r s',
  Inv lv s -> PathManager.tryStartPath s row col = Ret (r, s') -> Inv lv s'.
Proof.
  intros lv s row col r s' HI H. unfold PathManager.tryStartPath in H.
  pose proof (inv_grid _ _ HI) as HG.
  destruct (Grid.getPointAt (grid s) row col) as [point|] eqn:Hp;
    [|inversion H; subst; exact HI].
  destruct (negb (point =? GameState.currentNumber (gs s)));
    [inversion H; subst; exact HI|].
  destruct (GameState.currentPath (gs s)) eqn:Hcp;
    [inversion H; subst; exact HI|].
  destruct (occupyCell_spec (grid s) row col point (gok_wf _ _ HG))
    as [g' [E [W [L O]]]].
  rewrite E in H. simpl in H. inversion H; subst r s'; clear H.
  assert (isLevelPoint lv (row, col) = true /\ inGrid lv (row, col) = true)
    as [Hlp Hin].
  { unfold Grid.getPointAt in Hp.
    destruct (map_get pos_eqb (Grid.points (grid s)) (row, col)) as [n|] eqn:Em;
      [|discriminate].
    apply (gok_map _ _ HG _ _ Em). }
  assert (forall q, occ (grid s) q = true -> occ g' q = true) as Hmono.
  { intros q Hq. rewrite O, Hq. destruct (_ && _); reflexivity. }
  constructor; simpl.
  - apply (GridOK_layer lv _ _ HG W L).
  - apply HI.
  - apply HI.
  - apply HI.
  - apply HI.
  - intros p c Hp' Hc. apply Hmono. apply (inv_paths_occ _ _ HI p c Hp' Hc).
  - apply HI.
  - intros cp Hcp'. inversion Hcp'; subst cp; clear Hcp'.
    exists (row, col), []. simpl.
    split; [reflexivity|]. split; [exact Hin|]. split; [exact Hlp|].
    split; [constructor|]. split; [intros c []|].
    intros c [<-|[]]. rewrite O, pos_eqb_refl, (GridOK_valid lv _ _ HG), Hin.
    reflexivity.
Qed.

Lemma PathOK_interior_not_point : forall lv p c,
  PathOK lv p -> In c (interior (path_cells p)) -> isLevelPoint lv c = false.
Proof.
  intros lv p c [a [mid [b [E [_ [_ [_ [_ Hm]]]]]]]] Hc.
  rewrite E, interior_path in Hc. apply Hm; exact Hc.
Qed.

Lemma Inv_tryExtendPath : forall lv s row col r s',
  Inv lv s -> PathManager.tryExtendPath s row col = Ret (r, s') -> Inv lv s'.
Proof.
  intros lv s row col r s' HI H.
  pose proof (inv_grid _ _ HI) as HG.
  destruct (tryExtendPath_cases lv s row col HI)
    as [[reason E] | [[cp [i [g' [Hcp [Hn [Hlt [E [Htr [W [L [O1 O2]]]]]]]]]]]
       | [[cp [g' [Hcp [Hin [Hlp [Hnin [E [W [L O]]]]]]]]]
         | [cp [g' [Hcp [Hin [Hlp [Hocc [Hnin [E [W [L O]]]]]]]]]]]]];
    rewrite E in H; inversion H; subst r s'; clear H.
  - exact HI.
  - (* backtracking *)
    pose proof (inv_active _ _ HI cp Hcp) as HA.
    pose proof (ActiveOK_NoDup _ _ _ _ HA) as Hnd.
    destruct HA as [a [rest [Ec [Ha [Hpa [Hndr [Hr Ho]]]]]]].
    rewrite Htr. constructor; simpl.
    + apply (GridOK_layer lv _ _ HG W L).
    + apply HI.
    + apply HI.
    + apply HI.
    + apply HI.
    + intros p c Hp Hc. rewrite O2; [apply (inv_paths_occ _ _ HI p c Hp Hc)|].
      intros Hin. rewrite Ec in Hin. simpl skipn in Hin.
      apply In_skipn in Hin.
      destruct (Hr c Hin) as [_ [_ Hq]]. apply (Hq p Hp Hc).
    + apply HI.
    + intros cp' Hcp'. inversion Hcp'; subst cp'; clear Hcp'. simpl.
      exists a, (firstn i rest). rewrite Ec. simpl firstn.
      split; [reflexivity|]. split; [exact Ha|]. split; [exact Hpa|].
      split; [apply NoDup_firstn; exact Hndr|]. split.
      * intros c Hc. apply In_firstn in Hc. apply (Hr c Hc).
      * intros c Hc. rewrite O2.
        -- apply Ho. destruct Hc as [<-|Hc]; [left; reflexivity|].
           right. apply In_firstn in Hc. exact Hc.
        -- apply NoDup_firstn_skipn; [exact Hnd|].
           rewrite Ec. simpl firstn. exact Hc.
  - (* the path is complete *)
    pose proof (inv_active _ _ HI cp Hcp) as HA.
    destruct HA as [a [rest [Ec [Ha [Hpa [Hndr [Hr Ho]]]]]]].
    destruct (completePath_fields (gs s) cp row col Hcp)
      as [Fp [Fc [Fh [Fpt [Fm [Fn [Fo Fcp]]]]]]].
    assert (forall q, occ (grid s) q = true -> occ g' q = true) as Hmono.
    { intros q Hq. rewrite O, Hq. destruct (pos_eqb _ _); reflexivity. }
    assert (PathOK lv (mkPath (path_number cp) (path_cells cp ++ [(row, col)])))
      as HP.
    { exists a, rest, (row, col). simpl. rewrite Ec.
      split; [reflexivity|]. split; [exact Hpa|]. split; [exact Hlp|].
      split; [exact Hndr|]. split.
      - intros c Hc. simpl in Hc. destruct Hc as [<-|Hc]; [exact Ha|].
        apply in_app_or in Hc. destruct Hc as [Hc|[<-|[]]]; [|exact Hin].
        apply (Hr c Hc).
      - intros c Hc. apply (Hr c Hc). }
    constructor; simpl.
    + apply (GridOK_layer lv _ _ HG W L).
    + rewrite Fpt. apply HI.
    + rewrite Fm. apply HI.
    + rewrite Fh. pose proof (inv_history_len _ _ HI) as Hl.
      pose proof (length_pushBounded (GameState.history (gs s))
                    (commitSnapshot (gs s) (row, col))
                    (GameState.maxHistory (gs s))) as X.
      rewrite (inv_maxHistory _ _ HI) in *. lia.
    + rewrite Fp. apply PathsOK_snoc.
      * apply HI.
      * exact HP.
      * intros q c Hq Hc. simpl in Hc. rewrite Ec in Hc.
        change ((a :: rest) ++ [(row, col)]) with (a :: rest ++ [(row, col)]) in Hc.
        rewrite interior_path in Hc.
        destruct (Hr c Hc) as [_ [_ X]]. apply (X q Hq).
      * intros q c Hq Hc Hin'. simpl in Hin'. rewrite Ec in Hin'.
        pose proof (PathOK_interior_not_point lv q c
                      (proj1 (inv_paths _ _ HI) q Hq) Hc) as Hnp.
        assert (In c (path_cells q)) as Hcq.
        { destruct (proj1 (inv_paths _ _ HI) q Hq)
            as [a' [mid' [b' [E' _]]]].
          rewrite E' in *. rewrite interior_path in Hc.
          right. apply in_or_app; left; exact Hc. }
        simpl in Hin'. destruct Hin' as [<-|Hin']; [congruence|].
        apply in_app_or in Hin'. destruct Hin' as [Hin'|[<-|[]]]; [|congruence].
        destruct (Hr c Hin') as [_ [_ X]]. apply (X q Hq Hcq).
    + rewrite Fp. intros p c Hp Hc. apply in_app_or in Hp.
      destruct Hp as [Hp|[<-|[]]].
      * apply Hmono. apply (inv_paths_occ _ _ HI p c Hp Hc).
      * simpl in Hc. apply in_app_or in Hc. destruct Hc as [Hc|[<-|[]]].
        -- apply Hmono. apply Ho. rewrite <- Ec. exact Hc.
        -- rewrite O, pos_eqb_refl. reflexivity.
    + rewrite Fh. intros snap Hs. apply In_pushBounded in Hs.
      destruct Hs as [Hs| ->].
      * apply (inv_history _ _ HI snap Hs).
      * simpl. rewrite deepClone_id. apply HI.
    + rewrite Fc. intros cp' Hcp'. discriminate.
  - (* one more cell *)
    pose proof (inv_active _ _ HI cp Hcp) as HA.
    destruct HA as [a [rest [Ec [Ha [Hpa [Hndr [Hr Ho]]]]]]].
    assert (forall q, occ (grid s) q = true -> occ g' q = true) as Hmono.
    { intros q Hq. rewrite O, Hq. destruct (pos_eqb _ _); reflexivity. }
    rewrite (extendPath_fields _ _ _ _ Hcp). constructor; simpl.
    + apply (GridOK_layer lv _ _ HG W L).
    + apply HI.
    + apply HI.
    + apply HI.
    + apply HI.
    + intros p c Hp Hc. apply Hmono. apply (inv_paths_occ _ _ HI p c Hp Hc).
    + apply HI.
    + intros cp' Hcp'. inversion Hcp'; subst cp'; clear Hcp'. simpl.
      exists a, (rest ++ [(row, col)]). rewrite Ec.
      split; [reflexivity|]. split; [exact Ha|]. split; [exact Hpa|].
      split; [|split].
      * apply NoDup_app; [exact Hndr | repeat constructor; intros [] |].
        intros x Hx [<-|[]]. apply Hnin. rewrite Ec. right; exact Hx.
      * intros c Hc. apply in_app_or in Hc. destruct Hc as [Hc|[<-|[]]].
        -- apply (Hr c Hc).
        -- split; [exact Hin|]. split; [exact Hlp|].
           intros q Hq Hcq.
           pose proof (inv_paths_occ _ _ HI q _ Hq Hcq). congruence.
      * intros c Hc.
        change (a :: rest ++ [(row, col)]) with ((a :: rest) ++ [(row, col)]) in Hc.
        apply in_app_or in Hc. destruct Hc as [Hc|[<-|[]]].
        -- apply Hmono. apply Ho. exact Hc.
        -- rewrite O, pos_eqb_refl. reflexivity.
Qed.

Lemma Inv_cancelPath : forall lv s s',
  Inv lv s -> PathManager.cancelPath s = Ret s' -> Inv lv s'.
Proof.
  intros lv s s' HI H. unfold PathManager.cancelPath in H.
  pose proof (inv_grid _ _ HI) as HG.
  destruct (GameState.currentPath (gs s)) as [cp|] eqn:Hcp;
    [|inversion H; subst; exact HI].
  destruct (releaseAll_spec (tl (path_cells cp)) (grid s) (gok_wf _ _ HG))
    as [g' [E [W [L O]]]].
  rewrite E in H. simpl in H. inversion H; subst s'; clear H.
  destruct (inv_active _ _ HI cp Hcp) as [a [rest [Ec [Ha [Hpa [Hndr [Hr Ho]]]]]]].
  unfold GameState.cancelPath. rewrite Hcp. constructor; simpl.
  - apply (GridOK_layer lv _ _ HG W L).
  - apply HI.
  - apply HI.
  - apply HI.
  - apply HI.
  - intros p c Hp Hc. rewrite O.
    destruct (existsb _ (tl (path_cells cp))) eqn:Ex.
    + exfalso. apply existsb_exists in Ex. destruct Ex as [x [Hx Hb]].
      rewrite Ec in Hx. simpl in Hx.
      apply andb_true_iff in Hb. destruct Hb as [Hb _].
      apply andb_true_iff in Hb. destruct Hb as [Hb _].
      apply pos_eqb_eq in Hb; subst x.
      destruct (Hr c Hx) as [_ [_ X]]. apply (X p Hp Hc).
    + apply (inv_paths_occ _ _ HI p c Hp Hc).
  - apply HI.
  - intros cp' Hcp'; discriminate.
Qed.

Lemma undo_fields : forall (s s' : GameState.t),
  GameState.undo s = Some s' ->
  exists snap older,
    GameState.history s = older ++ [snap] /\
    s' = GameState.mk (GameState.levelData s) (GameState.gridSize s)
           (GameState.s_occupiedCells snap) (GameState.s_paths snap) None
           (GameState.points s) (GameState.totalPoints s)
           (GameState.s_connectedPoints snap)
           (GameState.s_currentNumber snap)
           GameState.IDLE (GameState.isComplete s) older
           (GameState.maxHistory s).
Proof.
  intros s s' H. unfold GameState.undo in H.
  destruct (rev (GameState.history s)) as [|snap older] eqn:E; [discriminate|].
  inversion H; subst s'; clear H.
  exists snap, (rev older). split; [|reflexivity].
  rewrite <- (rev_involutive (GameState.history s)), E. reflexivity.
Qed.

Lemma PathOK_inGrid : forall lv p c,
  PathOK lv p -> In c (path_cells p) -> inGrid lv c = true.
Proof.
  intros lv p c [a [mid [b [_ [_ [_ [_ [H _]]]]]]]] Hc. apply H; exact Hc.
Qed.

(** The grid after [reset], [initializePoints] and [rebuildFromPaths]. *)
Lemma regrid_spec : forall lv g ps,
  GridOK lv g -> PathsOK lv ps ->
  exists g1 g2,
    Grid.initializePoints (Grid.reset g) (lv_points lv) = Ret g1 /\
    Grid.rebuildFromPaths g1 ps = Ret g2 /\
    GridOK lv g2 /\
    (forall q, occ g1 q = false) /\ GridOK lv g1 /\
    (forall q, occ g2 q = existsb (fun p => existsb (pos_eqb q) (path_cells p)) ps).
Proof.
  intros lv g ps HG HP.
  assert (Grid.size (Grid.reset g) = lv_size lv) as Hs
    by (simpl; apply HG).
  destruct (initializePoints_spec lv (Grid.reset g) Hs)
    as [g1 [E1 [W1 [S1 [O1 [P1 M1]]]]]].
  assert (GridOK lv g1) as HG1 by (constructor; assumption).
  destruct (rebuildFromPaths_spec ps g1 W1) as [g2 [E2 [W2 [L2 O2]]]].
  exists g1, g2. split; [exact E1|]. split; [exact E2|].
  split; [apply (GridOK_layer lv _ _ HG1 W2 L2)|].
  split; [exact O1|]. split; [exact HG1|].
  intros q. rewrite O2.
  assert (forall (l : list Path),
    (forall p, In p l -> PathOK lv p) ->
    existsb (fun p => existsb (fun c => pos_eqb c q && valid g1 c)
                              (path_cells p)) l =
    existsb (fun p => existsb (pos_eqb q) (path_cells p)) l) as X.
  { induction l as [|p l IH]; intros Hl; simpl; [reflexivity|].
    rewrite IH by (intros p' Hp'; apply Hl; right; exact Hp').
    f_equal.
    assert (forall c, In c (path_cells p) -> inGrid lv c = true) as Hin
      by (intros c Hc; apply (PathOK_inGrid lv p c); [apply Hl; left; reflexivity | exact Hc]).
    revert Hin. generalize (path_cells p).
    induction l0 as [|c l0 IH0]; intros Hin; simpl; [reflexivity|].
    rewrite IH0 by (intros c' Hc'; apply Hin; right; exact Hc').
    rewrite (GridOK_valid lv _ _ HG1), (Hin c) by (left; reflexivity).
    rewrite andb_true_r. f_equal.
    destruct (pos_eqb c q) eqn:E, (pos_eqb q c) eqn:E'; try reflexivity.
    - apply pos_eqb_eq in E; subst. rewrite pos_eqb_refl in E'; discriminate.
    - apply pos_eqb_eq in E'; subst. rewrite pos_eqb_refl in E; discriminate. }
  apply X. apply HP.
Qed.

Lemma occ_paths_true : forall (ps : list Path) (p : Path) (c : Pos),
  In p ps -> In c (path_cells p) ->
  existsb (fun p => existsb (pos_eqb c) (path_cells p)) ps = true.
Proof.
  intros ps p c Hp Hc. apply existsb_exists. exists p. split; [exact Hp|].
  apply existsb_exists. exists c. split; [exact Hc | apply pos_eqb_refl].
Qed.

Lemma Inv_undo : forall lv s r s',
  Inv lv s -> PathManager.undo s = Ret (r, s') -> Inv lv s'.
Proof.
  intros lv s r s' HI H. unfold PathManager.undo in H.
  destruct (negb (GameState.canUndo (gs s))); [inversion H; subst; exact HI|].
  destruct (GameState.undo (gs s)) as [gs'|] eqn:Hu;
    [|inversion H; subst; exact HI].
  destruct (undo_fields _ _ Hu) as [snap [older [Eh Egs]]].
  assert (In snap (GameState.history (gs s))) as Hsnap
    by (rewrite Eh; apply in_or_app; right; left; reflexivity).
  pose proof (inv_history _ _ HI snap Hsnap) as HP.
  destruct (regrid_spec lv (grid s) (GameState.s_paths snap) (inv_grid _ _ HI) HP)
    as [g1 [g2 [E1 [E2 [HG2 [_ [_ O2]]]]]]].
  assert (GameState.points gs' = lv_points lv) as Hpts
    by (rewrite Egs; simpl; apply HI).
  assert (GameState.paths gs' = GameState.s_paths snap) as Hps
    by (rewrite Egs; reflexivity).
  rewrite Hpts, E1 in H. simpl in H. rewrite Hps, E2 in H. simpl in H.
  inversion H; subst r s'; clear H.
  constructor; simpl.
  - exact HG2.
  - exact Hpts.
  - rewrite Egs; simpl. apply HI.
  - rewrite Egs; simpl. pose proof (inv_history_len _ _ HI) as Hl.
    rewrite Eh, length_app in Hl. simpl in Hl. lia.
  - rewrite Hps. exact HP.
  - rewrite Hps. intros p c Hp Hc. rewrite O2.
    apply (occ_paths_true _ p c Hp Hc).
  - rewrite Egs; simpl. intros x Hx. apply (inv_history _ _ HI).
    rewrite Eh. apply in_or_app; left; exact Hx.
  - rewrite Egs; simpl. intros cp Hcp; discriminate.
Qed.

Lemma Inv_reset : forall lv s s',
  Inv lv s -> PathManager.reset s = Ret s' -> Inv lv s'.
Proof.
  intros lv s s' HI H. unfold PathManager.reset in H.
  destruct (regrid_spec lv (grid s) [] (inv_grid _ _ HI) (PathsOK_nil lv))
    as [g1 [g2 [E1 [_ [_ [O1 [HG1 _]]]]]]].
  assert (GameState.points (GameState.reset (gs s)) = lv_points lv) as Hpts
    by (simpl; apply HI).
  rewrite Hpts, E1 in H. simpl in H. inversion H; subst s'; clear H.
  constructor; simpl.
  - exact HG1.
  - apply HI.
  - apply HI.
  - lia.
  - apply PathsOK_nil.
  - intros p c [].
  - intros snap [].
  - intros cp Hcp; discriminate.
Qed.

Lemma Inv_step : forall lv s op s',
  Inv lv s -> step s op = Ret s' -> Inv lv s'.
Proof.
  intros lv s op s' HI H. destruct op as [row col|row col| | |]; simpl in H.
  - apply bind_ret_inv in H. destruct H as [[r s1] [H1 H2]].
    inversion H2; subst. apply (Inv_tryStartPath lv s row col r _ HI H1).
  - apply bind_ret_inv in H. destruct H as [[r s1] [H1 H2]].
    inversion H2; subst. apply (Inv_tryExtendPath lv s row col r _ HI H1).
  - apply (Inv_cancelPath lv s s' HI H).
  - apply bind_ret_inv in H. destruct H as [[r s1] [H1 H2]].
    inversion H2; subst. apply (Inv_undo lv s r _ HI H1).
  - apply (Inv_reset lv s s' HI H).
Qed.

Lemma reachable_Inv : forall lv s, reachable lv s -> Inv lv s.
Proof.
  intros lv s H. induction H as [s H | s op s' _ IH H].
  - apply Inv_load; exact H.
  - apply (Inv_step lv s op s' IH H).
Qed.

Lemma reachable_run : forall lv ops s s',
  reachable lv s -> run s ops = Ret s' -> reachable lv s'.
Proof.
  intros lv ops; induction ops as [|op ops IH]; intros s s' Hr H; simpl in H.
  - inversion H; subst; exact Hr.
  - apply bind_ret_inv in H. destruct H as [s1 [H1 H2]].
    apply (IH s1 s'); [|exact H2]. apply (reach_step lv s op s1 Hr H1).
Qed.

Lemma reachable_sessionAfter : forall lv ops s,
  (s <- loadLevel lv ;; run s ops) = Ret s -> reachable lv s.
Proof.
  intros lv ops s H. apply bind_ret_inv in H. destruct H as [s0 [H0 H1]].
  apply (reachable_run lv ops s0 s); [|exact H1].
  apply reach_load; exact H0.
Qed.

Lemma reachable_drawing2 : reachable plainLevel drawing2.
Proof.
  apply (reachable_sessionAfter plainLevel [OpStart 0 0; OpExtend 0 1]).
  vm_compute. reflexivity.
Qed.

(** ** Undo after a commit *)

Lemma last_pushBounded : forall h snap cap,
  1 <= cap -> exists older, pushBounded h snap cap = older ++ [snap].
Proof.
  intros h snap cap H. unfold pushBounded.
  destruct (Z.gtb_spec (Z.of_nat (length (h ++ [snap]))) cap) as [G|G].
  - destruct h as [|x h].
    + simpl in G. lia.
    + exists h. reflexivity.
  - exists h; reflexivity.
Qed.

Lemma undo_last : forall (s : GameState.t) older snap,
  GameState.history s = older ++ [snap] ->
  GameState.undo s =
  Some (GameState.mk (GameState.levelData s) (GameState.gridSize s)
          (GameState.s_occupiedCells snap) (GameState.s_paths snap) None
          (GameState.points s) (GameState.totalPoints s)
          (GameState.s_connectedPoints snap)
          (GameState.s_currentNumber snap)
          GameState.IDLE (GameState.isComplete s) older
          (GameState.maxHistory s)).
Proof.
  intros s older snap H. unfold GameState.undo.
  rewrite H, rev_app_distr. simpl. rewrite rev_involutive. reflexivity.
Qed.

(** What [undo] restores right after a commit: the committed paths, the
    connected points and the current number of before the completing call,
    and the occupied set with the completing cell added. *)
Lemma undo_after_completePath : forall (s : GameState.t) cp row col,
  GameState.currentPath s = Some cp -> 1 <= GameState.maxHistory s ->
  exists s',
    GameState.undo (GameState.completePath s row col) = Some s' /\
    GameState.paths s' = GameState.paths s /\
    GameState.connectedPoints s' = GameState.connectedPoints s /\
    GameState.currentNumber s' = GameState.currentNumber s /\
    GameState.currentPath s' = None /\
    GameState.occupiedCells s' =
      set_add pos_eqb (GameState.occupiedCells s) (row, col).
Proof.
  intros s cp row col Hcp Hm.
  destruct (completePath_fields s cp row col Hcp)
    as [_ [_ [Fh _]]].
  destruct (last_pushBounded (GameState.history s)
              (commitSnapshot s (row, col)) (GameState.maxHistory s) Hm)
    as [older Eo].
  rewrite Eo in Fh. rewrite (undo_last _ _ _ Fh).
  eexists; split; [reflexivity|]. simpl.
  rewrite deepClone_id. repeat split; reflexivity.
Qed.

(** C1 fails on the code: on the 3 by 3 level with point 1 at (0,0) and
    point 2 at (0,2), after tryStart(0,0) and tryExtend(0,1) the occupied
    set is {(0,0), (0,1)}; tryExtend(0,2) commits the path and undo() then
    restores the committed paths, the connected points and the current
    number, but the occupied set that it restores holds the completing
    cell (0,2) too: it is not the set of just before the completing
    call. *)
Theorem undo_after_commit_occupied_set :
  reachable plainLevel drawing2 /\
  GameState.occupiedCells (gs drawing2) = [(0, 0); (0, 1)] /\
  PathManager.tryExtendPath drawing2 0 2 = Ret (SuccessCompleted, committed3) /\
  PathManager.undo committed3 = Ret (true, undone3) /\
  GameState.paths (gs undone3) = GameState.paths (gs drawing2) /\
  GameState.connectedPoints (gs undone3) =
    GameState.connectedPoints (gs drawing2) /\
  GameState.currentNumber (gs undone3) = GameState.currentNumber (gs drawing2) /\
  GameState.occupiedCells (gs undone3) = [(0, 0); (0, 1); (0, 2)] /\
  set_equal pos_eqb (GameState.occupiedCells (gs undone3))
            (GameState.occupiedCells (gs drawing2)) = false.
Proof.
  split; [exact reachable_drawing2|]. repeat split; vm_compute; reflexivity.
Qed.

(** C1 as amended: in every reachable state, [undo] right after a commit
    succeeds and restores the committed paths, the connected points and
    the current number of just before the completing [tryExtendPath]; the
    occupied set that it restores is the one of the snapshot, which
    [completePath] takes after it has added the completing cell and before
    it commits the path: the set of before the call with the completing
    cell added.  No path is being drawn afterwards, and the grid, rebuilt
    from the restored paths, marks their cells and no other. *)
Theorem undo_after_commit_restores : forall lv s row col s1,
  reachable lv s ->
  PathManager.tryExtendPath s row col = Ret (SuccessCompleted, s1) ->
  exists s2,
    PathManager.undo s1 = Ret (true, s2) /\
    GameState.paths (gs s2) = GameState.paths (gs s) /\
    GameState.connectedPoints (gs s2) = GameState.connectedPoints (gs s) /\
    GameState.currentNumber (gs s2) = GameState.currentNumber (gs s) /\
    GameState.occupiedCells (gs s2) =
      set_add pos_eqb (GameState.occupiedCells (gs s)) (row, col) /\
    GameState.currentPath (gs s2) = None /\
    (forall q, occ (grid s2) q =
               existsb (fun p => existsb (pos_eqb q) (path_cells p))
                       (GameState.paths (gs s))).
Proof.
  intros lv s row col s1 Hr H.
  pose proof (reachable_Inv lv s Hr) as HI.
  assert (reachable lv s1) as Hr1.
  { apply (reach_step lv s (OpExtend row col) s1 Hr).
    cbn [step]. rewrite H. reflexivity. }
  pose proof (reachable_Inv lv s1 Hr1) as HI1.
  destruct (tryExtendPath_cases lv s row col HI)
    as [[reason E]
       |[(cp & i & g' & _ & _ & _ & E & _)
        |[(cp & g' & Hcp & _ & _ & _ & E & _)
         |(cp & g' & _ & _ & _ & _ & _ & E & _)]]];
    rewrite E in H; try discriminate.
  injection H as <-.
  destruct (undo_after_completePath (gs s) cp row col Hcp)
    as (gs2 & Hu & Hps & Hcn & Hnum & Hnone & Hocc).
  { rewrite (inv_maxHistory _ _ HI). lia. }
  destruct (undo_fields _ _ Hu) as (snap & older & Eh & Egs).
  assert (GameState.points gs2 = lv_points lv) as Hpts.
  { rewrite Egs. cbn [GameState.points]. apply (inv_points _ _ HI1). }
  destruct (regrid_spec lv g' (GameState.paths (gs s))
              (inv_grid _ _ HI1) (inv_paths _ _ HI))
    as (g1 & g2 & E1 & E2 & _ & _ & _ & O2).
  exists (mkSession gs2 g2).
  split.
  - unfold PathManager.undo. cbn [gs grid].
    unfold GameState.canUndo. rewrite Eh, length_app. cbn [length].
    replace (0 <? length older + 1)%nat with true
      by (symmetry; apply Nat.ltb_lt; lia).
    cbn [negb]. rewrite Hu, Hpts, E1. cbn [bind].
    rewrite Hps, E2. reflexivity.
  - cbn [gs grid]. repeat split; assumption.
Qed.

(** The amended C1 on the plain level: the commit of the path from (0,0)
    to (0,2) and its undo. *)
Lemma undo_after_commit_restores_witness :
  reachable plainLevel drawing2 /\
  PathManager.tryExtendPath drawing2 0 2 = Ret (SuccessCompleted, committed3) /\
  exists s2,
    PathManager.undo committed3 = Ret (true, s2) /\
    GameState.paths (gs s2) = GameState.paths (gs drawing2) /\
    GameState.occupiedCells (gs s2) =
      set_add pos_eqb (GameState.occupiedCells (gs drawing2)) (0, 2).
Proof.
  assert (PathManager.tryExtendPath drawing2 0 2 =
          Ret (SuccessCompleted, committed3)) as H
    by (vm_compute; reflexivity).
  split; [exact reachable_drawing2|]. split; [exact H|].
  destruct (undo_after_commit_restores plainLevel drawing2 0 2 committed3
              reachable_drawing2 H)
    as (s2 & H1 & H2 & _ & _ & H3 & _).
  exists s2. split; [exact H1|]. split; [exact H2 | exact H3].
Defined.

(** ** The grid holds no obstacles *)

(** C2 fails on the code: on the level with an obstacle at (0,1),
    occupyCell(0, 1, 1) marks the obstacle cell as occupied by path 1. *)
Lemma occupyCell_marks_obstacle :
  loadLevel obstacleLevel = Ret loadedObstacle /\
  isObstacle obstacleLevel (0, 1) = true /\
  occ (grid loadedObstacle) (0, 1) = false /\
  exists g',
    Grid.occupyCell (grid loadedObstacle) 0 1 1 = Ret g' /\
    occ g' (0, 1) = true /\
    option_map Grid.pathNumber (cellAt g' (0, 1)) = Some (Some 1).
Proof.
  split; [vm_compute; reflexivity|].
  split; [reflexivity|]. split; [reflexivity|].
  eexists. split; [vm_compute; reflexivity|]. split; reflexivity.
Qed.

Lemma upd_nth_same : forall (A : Type) (f : A -> A) (l : list A) (n : nat),
  (forall x, nth_error l n = Some x -> f x = x) -> upd_nth n f l = l.
Proof.
  intros A f. induction l as [|x l IH]; intros n H; [destruct n; reflexivity|].
  destruct n as [|n]; cbn [upd_nth].
  - rewrite (H x eq_refl). reflexivity.
  - rewrite IH; [reflexivity|]. intros y Hy. apply H. exact Hy.
Qed.

(** [withCell] with a function that fixes the cell at the position leaves
    the grid as it is. *)
Lemma withCell_same : forall (g : Grid.t) (r c : Z) (f : Grid.Cell -> Grid.Cell)
    (x : Grid.Cell),
  cellAt g (r, c) = Some x -> f x = x -> Grid.withCell g r c f = g.
Proof.
  intros g r c f x Hx Hf. unfold cellAt in Hx. cbn [fst snd] in Hx.
  destruct (at_index (Grid.cells g) r) as [rw|] eqn:Er; [|discriminate].
  unfold Grid.withCell. destruct g as [sz cs pts]. cbn [Grid.size Grid.cells
    Grid.points] in *. f_equal.
  apply upd_nth_same. intros rw' Hrw'.
  unfold at_index in Er, Hx.
  destruct (r <? 0); [discriminate|]. destruct (c <? 0); [discriminate|].
  assert (rw' = rw) as -> by congruence.
  apply upd_nth_same. intros y Hy.
  assert (y = x) as -> by congruence. exact Hf.
Qed.

Lemma markOccupied_same : forall (n : Z) (c : Grid.Cell),
  markOccupied n c = c <->
  Grid.occupied c = true /\ Grid.pathNumber c = Some n.
Proof.
  intros n [r cl o pn ip ptn]. unfold markOccupied. cbn. split.
  - intros H. injection H as <- <-. split; reflexivity.
  - intros [-> ->]. reflexivity.
Qed.

(** C2 as amended: in every session, [occupyCell(row, col, n)] returns
    without an error; it marks any cell inside the grid as occupied by path
    [n], whether or not the level lists it as an obstacle, and changes no
    other cell; outside the grid it does nothing.  The grid is left as it
    was exactly when the position is outside the grid or the cell is
    already marked as occupied by path [n]. *)
Theorem occupyCell_marks_any_cell : forall lv s row col n,
  reachable lv s ->
  exists g',
    Grid.occupyCell (grid s) row col n = Ret g' /\
    (inGrid lv (row, col) = true ->
       exists c, cellAt (grid s) (row, col) = Some c /\
                 cellAt g' (row, col) = Some (markOccupied n c) /\
                 occ g' (row, col) = true) /\
    (inGrid lv (row, col) = false -> g' = grid s) /\
    (forall q, q <> (row, col) -> cellAt g' q = cellAt (grid s) q) /\
    (g' = grid s <->
     inGrid lv (row, col) = false \/
     exists c, cellAt (grid s) (row, col) = Some c /\
               Grid.occupied c = true /\ Grid.pathNumber c = Some n).
Proof.
  intros lv s row col n Hr.
  pose proof (inv_grid _ _ (reachable_Inv lv s Hr)) as HG.
  unfold Grid.occupyCell. rewrite getCell_wf by apply HG.
  rewrite (GridOK_valid lv _ _ HG).
  destruct (inGrid lv (row, col)) eqn:Hin.
  - assert (valid (grid s) (row, col) = true) as Hv
      by (rewrite (GridOK_valid lv _ _ HG); exact Hin).
    destruct (cellAt_valid _ _ (gok_wf _ _ HG) Hv) as [c Hc].
    rewrite Hc. simpl. eexists. split; [reflexivity|].
    apply valid_bounds in Hv. simpl in Hv.
    change (fun c0 : Grid.Cell =>
              Grid.mkCell (Grid.row c0) (Grid.col c0) true (Some n)
                          (Grid.isPoint c0) (Grid.pointNumber c0))
      with (markOccupied n).
    assert (cellAt (Grid.withCell (grid s) row col (markOccupied n)) (row, col)
            = Some (markOccupied n c)) as X.
    { rewrite cellAt_withCell by lia. rewrite pos_eqb_refl, Hc. reflexivity. }
    split; [|split; [|split]].
    + intros _. exists c. split; [reflexivity|].
      split; [exact X|]. unfold occ. rewrite X. reflexivity.
    + discriminate.
    + intros q Hq. rewrite cellAt_withCell by lia.
      destruct (pos_eqb (row, col) q) eqn:E; [|reflexivity].
      apply pos_eqb_eq in E. congruence.
    + split.
      * intros Hsame. right. exists c. split; [reflexivity|].
        apply markOccupied_same. rewrite Hsame in X. congruence.
      * intros [Hf|(c' & Hc' & Ho & Hp)]; [discriminate|].
        assert (c' = c) as -> by congruence.
        apply (withCell_same _ _ _ _ c Hc).
        apply markOccupied_same. split; assumption.
  - simpl. exists (grid s). split; [reflexivity|]. split; [discriminate|].
    split; [reflexivity|]. split; [reflexivity|].
    split; [intros _; left; reflexivity | reflexivity].
Qed.

(** The amended C2 on the freshly loaded level with the obstacle, at the
    obstacle cell. *)
Lemma occupyCell_marks_any_cell_witness :
  reachable obstacleLevel loadedObstacle /\
  exists g',
    Grid.occupyCell (grid loadedObstacle) 0 1 7 = Ret g' /\
    (inGrid obstacleLevel (0, 1) = true ->
       exists c, cellAt (grid loadedObstacle) (0, 1) = Some c /\
                 cellAt g' (0, 1) = Some (markOccupied 7 c) /\
                 occ g' (0, 1) = true) /\
    (inGrid obstacleLevel (0, 1) = false -> g' = grid loadedObstacle) /\
    (forall q, q <> (0, 1) -> cellAt g' q = cellAt (grid loadedObstacle) q) /\
    (g' = grid loadedObstacle <->
     inGrid obstacleLevel (0, 1) = false \/
     exists c, cellAt (grid loadedObstacle) (0, 1) = Some c /\
               Grid.occupied c = true /\ Grid.pathNumber c = Some 7).
Proof.
  split.
  - apply reach_load. vm_compute. reflexivity.
  - apply (occupyCell_marks_any_cell obstacleLevel loadedObstacle 0 1 7).
    apply reach_load. vm_compute. reflexivity.
Defined.

(** ** Committed paths *)

(** C3 fails on the code: on the level with an obstacle at (0,1), the
    strokes tryStart(0,0), tryExtend(0,1), tryExtend(0,2) commit a path
    whose only inner cell is the obstacle cell. *)
Lemma committed_path_crosses_obstacle :
  reachable obstacleLevel crossing3 /\
  GameState.paths (gs crossing3) = [mkPath 1 [(0, 0); (0, 1); (0, 2)]] /\
  In (0, 1) (interior [(0, 0); (0, 1); (0, 2)]) /\
  isObstacle obstacleLevel (0, 1) = true.
Proof.
  split.
  - apply (reachable_sessionAfter obstacleLevel
             [OpStart 0 0; OpExtend 0 1; OpExtend 0 2]).
    vm_compute. reflexivity.
  - split; [reflexivity|]. split; [left; reflexivity | reflexivity].
Qed.

(** C3 as amended: in every state reachable from a freshly loaded level,
    the inner (non-endpoint) cells of the committed paths are pairwise
    disjoint across paths -- an inner cell of one path is no cell at all of
    another -- and a cell of a committed path that is the cell of a point of
    the level is the first or the last cell of that path.  Nothing keeps a
    path off the cells that the level lists as obstacles. *)
Theorem committed_paths_disjoint : forall lv s,
  reachable lv s ->
  (forall i j p q c,
     i <> j ->
     nth_error (GameState.paths (gs s)) i = Some p ->
     nth_error (GameState.paths (gs s)) j = Some q ->
     In c (interior (path_cells p)) ->
     ~ In c (path_cells q)) /\
  (forall p c,
     In p (GameState.paths (gs s)) -> In c (interior (path_cells p)) ->
     isLevelPoint lv c = false) /\
  (forall p c,
     In p (GameState.paths (gs s)) -> In c (path_cells p) ->
     isLevelPoint lv c = true ->
     Some c = hd_error (path_cells p) \/ c = last (path_cells p) c).
Proof.
  intros lv s Hr. pose proof (reachable_Inv lv s Hr) as HI.
  destruct (inv_paths _ _ HI) as [H1 H2].
  split; [|split].
  - intros i j p q c Hij Hi Hj Hc. apply (H2 i j p q Hij Hi Hj c Hc).
  - intros p c Hp Hc.
    apply (PathOK_interior_not_point lv p c (H1 p Hp) Hc).
  - intros p c Hp Hc Hpt.
    destruct (H1 p Hp) as [a [mid [b [E [_ [_ [_ [_ Hm]]]]]]]].
    rewrite E in *. simpl in Hc. destruct Hc as [<-|Hc].
    + left; reflexivity.
    + apply in_app_or in Hc. destruct Hc as [Hc|[<-|[]]].
      * rewrite (Hm c Hc) in Hpt. discriminate.
      * right. change (b :: mid ++ [b]) with ((b :: mid) ++ [b]).
        change (a :: mid ++ [b]) with ((a :: mid) ++ [b]).
        rewrite last_last. reflexivity.
Qed.

(** The amended C3 on the plain level after one committed path. *)
Lemma committed_paths_disjoint_witness :
  reachable plainLevel committed3 /\
  (forall p c,
     In p (GameState.paths (gs committed3)) -> In c (interior (path_cells p)) ->
     isLevelPoint plainLevel c = false).
Proof.
  split.
  - apply (reachable_sessionAfter plainLevel
             [OpStart 0 0; OpExtend 0 1; OpExtend 0 2]).
    vm_compute. reflexivity.
  - apply (committed_paths_disjoint plainLevel committed3).
    apply (reachable_sessionAfter plainLevel
             [OpStart 0 0; OpExtend 0 1; OpExtend 0 2]).
    vm_compute. reflexivity.
Defined.

(** ** Backtracking *)

(** C8: in a reachable state whose path being drawn holds (row, col) at an
    index [i] before its end, and whose end is 4-adjacent to (row, col),
    [tryExtendPath] succeeds flagged [backtracked]; the path is cut down to
    its first [i + 1] cells; exactly the cells after index [i] lose their
    occupancy, in the grid and in the occupied set of the game state; every
    other cell, among them the kept prefix, keeps its occupancy; and the
    committed paths, the history, the current number and the connected
    points stay as they are. *)
Theorem tryExtendPath_backtracks : forall lv s cp row col i,
  reachable lv s ->
  GameState.currentPath (gs s) = Some cp ->
  nth_error (path_cells cp) i = Some (row, col) ->
  (S i < length (path_cells cp))%nat ->
  areAdjacent (last (path_cells cp) (0, 0)) (row, col) = true ->
  exists s',
    PathManager.tryExtendPath s row col = Ret (SuccessBacktracked, s') /\
    GameState.currentPath (gs s') =
      Some (mkPath (path_number cp) (firstn (S i) (path_cells cp))) /\
    (forall q, In q (skipn (S i) (path_cells cp)) ->
       occ (grid s') q = false /\ ~ In q (GameState.occupiedCells (gs s'))) /\
    (forall q, ~ In q (skipn (S i) (path_cells cp)) ->
       occ (grid s') q = occ (grid s) q /\
       (In q (GameState.occupiedCells (gs s')) <->
        In q (GameState.occupiedCells (gs s)))) /\
    (forall q, In q (firstn (S i) (path_cells cp)) ->
       ~ In q (skipn (S i) (path_cells cp)) /\ occ (grid s') q = true) /\
    pointLayer (grid s') = pointLayer (grid s) /\
    GameState.paths (gs s') = GameState.paths (gs s) /\
    GameState.history (gs s') = GameState.history (gs s) /\
    GameState.currentNumber (gs s') = GameState.currentNumber (gs s) /\
    GameState.connectedPoints (gs s') = GameState.connectedPoints (gs s).
Proof.
  intros lv s cp row col i Hr Hcp Hn Hlt Hadj.
  pose proof (reachable_Inv lv s Hr) as HI.
  destruct (backtrack_spec lv s cp row col i HI Hcp Hn Hlt Hadj)
    as [g' [E [W [L [O1 O2]]]]].
  pose proof (inv_active _ _ HI cp Hcp) as HA.
  pose proof (ActiveOK_NoDup _ _ _ _ HA) as Hnd.
  eexists. split; [exact E|].
  cbn [gs grid GameState.currentPath GameState.occupiedCells GameState.paths
       GameState.history GameState.currentNumber GameState.connectedPoints].
  split; [reflexivity|]. split; [|split; [|split]].
  - intros q Hq. split; [apply O1; exact Hq|].
    rewrite In_fold_set_delete. tauto.
  - intros q Hq. split; [apply O2; exact Hq|].
    rewrite In_fold_set_delete. tauto.
  - intros q Hq.
    pose proof (NoDup_firstn_skipn _ _ _ _ Hnd Hq) as Hnot.
    split; [exact Hnot|]. rewrite (O2 q Hnot).
    destruct HA as [a [rest [Ec [_ [_ [_ [_ Ho]]]]]]].
    apply Ho. rewrite <- Ec. apply In_firstn in Hq. exact Hq.
  - repeat split; try reflexivity. exact L.
Qed.

(** C8 on the plain level: the path (0,0), (0,1), (1,1), (1,0) steps back
    onto its first cell. *)
Lemma tryExtendPath_backtracks_witness :
  reachable plainLevel drawing4 /\
  GameState.currentPath (gs drawing4) =
    Some (mkPath 1 [(0, 0); (0, 1); (1, 1); (1, 0)]) /\
  exists s',
    PathManager.tryExtendPath drawing4 0 0 = Ret (SuccessBacktracked, s') /\
    GameState.currentPath (gs s') = Some (mkPath 1 [(0, 0)]).
Proof.
  split; [|split; [reflexivity|]].
  - apply (reachable_sessionAfter plainLevel
             [OpStart 0 0; OpExtend 0 1; OpExtend 1 1; OpExtend 1 0]).
    vm_compute. reflexivity.
  - destruct (tryExtendPath_backtracks plainLevel drawing4
                (mkPath 1 [(0, 0); (0, 1); (1, 1); (1, 0)]) 0 0 0%nat)
      as [s' [E [Hc _]]].
    + apply (reachable_sessionAfter plainLevel
               [OpStart 0 0; OpExtend 0 1; OpExtend 1 1; OpExtend 1 0]).
      vm_compute. reflexivity.
    + reflexivity.
    + reflexivity.
    + simpl. lia.
    + reflexivity.
    + exists s'. split; [exact E | exact Hc].
Defined.

(** ** The undo history *)

Lemma pushBounded_50 : forall h snap,
  (length h <= 50)%nat ->
  pushBounded h snap 50 =
  if (length h <? 50)%nat then h ++ [snap] else tl h ++ [snap].
Proof.
  intros h snap H. unfold pushBounded. rewrite length_app. simpl length.
  destruct (Nat.ltb_spec (length h) 50) as [L|L];
    destruct (Z.gtb_spec (Z.of_nat (length h + 1)) 50) as [G|G]; try lia.
  - reflexivity.
  - destruct h as [|x h]; [simpl in L; lia | reflexivity].
Qed.

Lemma tryStartPath_history : forall s row col r s',
  PathManager.tryStartPath s row col = Ret (r, s') ->
  GameState.history (gs s') = GameState.history (gs s).
Proof.
  intros s row col r s' H. unfold PathManager.tryStartPath in H.
  destruct (Grid.getPointAt (grid s) row col); [|inversion H; reflexivity].
  destruct (negb _); [inversion H; reflexivity|].
  destruct (GameState.currentPath (gs s)); [inversion H; reflexivity|].
  apply bind_ret_inv in H. destruct H as [g' [_ H]].
  inversion H; reflexivity.
Qed.

Lemma cancelPath_history : forall s s',
  PathManager.cancelPath s = Ret s' ->
  GameState.history (gs s') = GameState.history (gs s).
Proof.
  intros s s' H. unfold PathManager.cancelPath in H.
  destruct (GameState.currentPath (gs s)) eqn:Hcp; [|inversion H; reflexivity].
  apply bind_ret_inv in H. destruct H as [g' [_ H]].
  inversion H; subst s'. simpl. unfold GameState.cancelPath. rewrite Hcp.
  reflexivity.
Qed.

(** C9: in every reachable state the history holds at most 50 snapshots.
    A completing [tryExtendPath] pushes exactly one snapshot on top (at the
    end of the array), dropping the oldest one (the first) when 50 are
    already held; every other outcome of [tryExtendPath], and every
    [tryStartPath] and [cancelPath], leaves the history as it is; [undo]
    removes the most recent snapshot and restores the state from it, and
    returns [false] when the history is empty. *)
Theorem history_is_bounded_stack : forall lv s,
  reachable lv s ->
  (length (GameState.history (gs s)) <= 50)%nat /\
  (forall row col r s',
     PathManager.tryExtendPath s row col = Ret (r, s') ->
     GameState.history (gs s') =
     match r with
     | SuccessCompleted =>
         let h := GameState.history (gs s) in
         let snap := commitSnapshot (gs s) (row, col) in
         if (length h <? 50)%nat then h ++ [snap] else tl h ++ [snap]
     | _ => GameState.history (gs s)
     end) /\
  (forall row col r s',
     PathManager.tryStartPath s row col = Ret (r, s') ->
     GameState.history (gs s') = GameState.history (gs s)) /\
  (forall s',
     PathManager.cancelPath s = Ret s' ->
     GameState.history (gs s') = GameState.history (gs s)) /\
  (forall older snap,
     GameState.history (gs s) = older ++ [snap] ->
     exists s',
       PathManager.undo s = Ret (true, s') /\
       GameState.history (gs s') = older /\
       GameState.paths (gs s') = GameState.s_paths snap /\
       GameState.occupiedCells (gs s') = GameState.s_occupiedCells snap /\
       GameState.currentNumber (gs s') = GameState.s_currentNumber snap /\
       GameState.connectedPoints (gs s') = GameState.s_connectedPoints snap) /\
  (GameState.history (gs s) = [] -> PathManager.undo s = Ret (false, s)).
Proof.
  intros lv s Hr. pose proof (reachable_Inv lv s Hr) as HI.
  pose proof (inv_history_len _ _ HI) as Hlen.
  split; [exact Hlen|]. split; [|split; [|split; [|split]]].
  - intros row col r s' H.
    destruct (tryExtendPath_cases lv s row col HI)
      as [[reason E] | [[cp [i [g' [Hcp [Hn [Hlt [E [Htr _]]]]]]]]
         | [[cp [g' [Hcp [_ [_ [_ [E _]]]]]]]
           | [cp [g' [Hcp [_ [_ [_ [_ [E _]]]]]]]]]]];
      rewrite E in H; inversion H; subst r s'; clear H.
    + reflexivity.
    + rewrite Htr. reflexivity.
    + cbn [gs]. destruct (completePath_fields (gs s) cp row col Hcp)
        as [_ [_ [Fh _]]].
      rewrite Fh, (inv_maxHistory _ _ HI). apply pushBounded_50. exact Hlen.
    + cbn [gs]. rewrite (extendPath_fields _ _ _ _ Hcp). reflexivity.
  - intros row col r s' H. apply (tryStartPath_history s row col r s' H).
  - intros s' H. apply (cancelPath_history s s' H).
  - intros older snap Eh.
    assert (In snap (GameState.history (gs s))) as Hsnap
      by (rewrite Eh; apply in_or_app; right; left; reflexivity).
    destruct (regrid_spec lv (grid s) (GameState.s_paths snap)
                (inv_grid _ _ HI) (inv_history _ _ HI snap Hsnap))
      as [g1 [g2 [E1 [E2 _]]]].
    unfold PathManager.undo, GameState.canUndo.
    rewrite (undo_last _ _ _ Eh), Eh, length_app. simpl length.
    destruct (Nat.ltb_spec 0 (length older + 1)) as [_|X]; [|lia].
    cbn [negb GameState.points GameState.paths].
    rewrite (inv_points _ _ HI), E1. simpl bind. rewrite E2. simpl bind.
    eexists. split; [reflexivity|]. repeat split; reflexivity.
  - intros Eh. unfold PathManager.undo, GameState.canUndo. rewrite Eh.
    reflexivity.
Qed.

(** C9 on the plain level after one committed path. *)
Lemma history_is_bounded_stack_witness :
  reachable plainLevel committed3 /\
  (length (GameState.history (gs committed3)) <= 50)%nat.
Proof.
  split.
  - apply (reachable_sessionAfter plainLevel
             [OpStart 0 0; OpExtend 0 1; OpExtend 0 2]).
    vm_compute. reflexivity.
  - apply (history_is_bounded_stack plainLevel committed3).
    apply (reachable_sessionAfter plainLevel
             [OpStart 0 0; OpExtend 0 1; OpExtend 0 2]).
    vm_compute. reflexivity.
Defined.

(** ** Totality of tryExtendPath *)

(** C10: in every reachable state and for all integer coordinates,
    [tryExtendPath] returns a result and a state: it never throws.  When a
    path is being drawn and the target lies outside the grid, is 4-adjacent
    to the end of the path, differs from it and is not on the path, the
    result is the failure [invalid_cell] and the state (path, occupancy and
    everything else) is unchanged. *)
Theorem tryExtendPath_total : forall lv s row col,
  reachable lv s ->
  (exists r s', PathManager.tryExtendPath s row col = Ret (r, s')) /\
  (forall cp,
     GameState.currentPath (gs s) = Some cp ->
     Grid.isValidPosition (grid s) row col = false ->
     areAdjacent (last (path_cells cp) (0, 0)) (row, col) = true ->
     (row, col) <> last (path_cells cp) (0, 0) ->
     ~ In (row, col) (path_cells cp) ->
     PathManager.tryExtendPath s row col = Ret (Failure invalid_cell, s)).
Proof.
  intros lv s row col Hr. pose proof (reachable_Inv lv s Hr) as HI.
  split.
  - destruct (tryExtendPath_cases lv s row col HI)
      as [[reason E] | [[cp [i [g' [_ [_ [_ [E _]]]]]]]
         | [[cp [g' [_ [_ [_ [_ [E _]]]]]]]
           | [cp [g' [_ [_ [_ [_ [_ [E _]]]]]]]]]]]; eauto.
  - intros cp Hcp Hv Hadj Hne Hnin.
    pose proof (inv_active _ _ HI cp Hcp) as HA.
    pose proof (ActiveOK_nonempty _ _ _ _ HA) as Hnz.
    unfold PathManager.tryExtendPath.
    rewrite Hcp, (getCurrentPathEnd_last _ _ Hcp Hnz).
    assert (posEquals (last (path_cells cp) (0, 0)) (row, col) = false) as ->.
    { rewrite posEquals_pos_eqb. apply pos_eqb_neq. congruence. }
    rewrite Hadj. cbn [negb].
    assert (GameState.findInCurrentPath (gs s) row col = -1) as ->.
    { unfold GameState.findInCurrentPath. rewrite Hcp.
      apply findIndex_none. intros [yr yc] Hy. simpl.
      destruct (Z.eqb_spec yr row) as [->|]; [|reflexivity].
      destruct (Z.eqb_spec yc col) as [->|]; [|reflexivity].
      contradiction. }
    cbn [Z.eqb negb]. unfold Grid.getCell. rewrite Hv. reflexivity.
Qed.

(** C10 on the plain level: from the end (0,1) of the path to the cell
    (-1,1) above the grid. *)
Lemma tryExtendPath_total_witness :
  reachable plainLevel drawing2 /\
  PathManager.tryExtendPath drawing2 (-1) 1 = Ret (Failure invalid_cell, drawing2).
Proof.
  split.
  - apply (reachable_sessionAfter plainLevel [OpStart 0 0; OpExtend 0 1]).
    vm_compute. reflexivity.
  - apply (proj2 (tryExtendPath_total plainLevel drawing2 (-1) 1
                    (reachable_sessionAfter plainLevel
                       [OpStart 0 0; OpExtend 0 1] drawing2 eq_refl))
             (mkPath 1 [(0, 0); (0, 1)])).
    + reflexivity.
    + reflexivity.
    + reflexivity.
    + discriminate.
    + simpl. intros [H|[H|[]]]; discriminate.
Defined.

(* ================================================================== *)
(** * Part IV: the level generator                                     *)
(* ================================================================== *)

Import LevelGenerator.

(** ** The depth-first search: one step *)

Lemma dfs_S : forall random fuel grid size row col target st,
  dfs random (S fuel) grid size row col target st =
  if iterations st + 1 >? maxIterations then
    Some (false, mkDfs (visited st) (path st) (iterations st + 1) (cursor st))
  else
    let v := set_add pos_eqb (visited st) (row, col) in
    let p := path st ++ [(row, col)] in
    if Z.of_nat (length p) =? target then
      Some (true, mkDfs v p (iterations st + 1) (cursor st))
    else
      let '(neighbors, k) :=
        orderedNeighbors random grid size row col v (cursor st) in
      match tryEach (fun next st =>
                       dfs random fuel grid size (fst next) (snd next) target st)
                    neighbors (mkDfs v p (iterations st + 1) k) with
      | None => None
      | Some (true, st') => Some (true, st')
      | Some (false, st') =>
          Some (false, mkDfs (set_delete pos_eqb (visited st') (row, col))
                             (removelast (path st'))
                             (iterations st') (cursor st'))
      end.
Proof. intros. reflexivity. Qed.

(** ** The step counter *)

Lemma tryEach_total : forall (call : Z * Z -> DfsState -> option (bool * DfsState))
    (lb : Z) (cands : list (Z * Z)) (st : DfsState),
  (forall n st, lb <= iterations st ->
     exists b st', call n st = Some (b, st') /\
                   iterations st + 1 <= iterations st') ->
  lb <= iterations st ->
  exists b st', tryEach call cands st = Some (b, st') /\
                iterations st <= iterations st'.
Proof.
  intros call lb cands; induction cands as [|n cands IH]; intros st Hc Hlb;
    simpl.
  - exists false, st. split; [reflexivity | lia].
  - destruct (Hc n st Hlb) as [b [st1 [E Hit]]]. rewrite E.
    destruct b.
    + exists true, st1. split; [reflexivity | lia].
    + destruct (IH st1 Hc) as [b' [st2 [E2 Hit2]]]; [lia|].
      exists b', st2. split; [exact E2 | lia].
Qed.

(** The recursion returns whenever its depth bound is at least the number
    of steps that the cap still allows, plus one. *)
Lemma dfs_total : forall random grid size target fuel row col st,
  (S (Z.to_nat (maxIterations - iterations st)) <= fuel)%nat ->
  exists b st', dfs random fuel grid size row col target st = Some (b, st') /\
                iterations st + 1 <= iterations st'.
Proof.
  intros random grid size target; induction fuel as [|fuel IH];
    intros row col st Hf; [lia|].
  rewrite dfs_S.
  destruct (Z.gtb_spec (iterations st + 1) maxIterations) as [G|G].
  - eexists; eexists; split; [reflexivity | simpl; lia].
  - cbv zeta.
    destruct (Z.of_nat (length (path st ++ [(row, col)])) =? target).
    + eexists; eexists; split; [reflexivity | simpl; lia].
    + destruct (orderedNeighbors random grid size row col
                  (set_add pos_eqb (visited st) (row, col)) (cursor st))
        as [neighbors k].
      destruct (tryEach_total
                  (fun next st0 =>
                     dfs random fuel grid size (fst next) (snd next) target st0)
                  (iterations st + 1) neighbors
                  (mkDfs (set_add pos_eqb (visited st) (row, col))
                         (path st ++ [(row, col)]) (iterations st + 1) k))
        as [b [st' [E Hit]]].
      * intros n st0 Hlb. apply IH. lia.
      * simpl; lia.
      * rewrite E. simpl in Hit. destruct b.
        -- eexists; eexists; split; [reflexivity | lia].
        -- eexists; eexists; split; [reflexivity | simpl; lia].
Qed.

Lemma tryEach_more : forall (call call' : Z * Z -> DfsState -> option (bool * DfsState))
    (cands : list (Z * Z)) (st : DfsState) r,
  (forall n st r, call n st = Some r -> call' n st = Some r) ->
  tryEach call cands st = Some r -> tryEach call' cands st = Some r.
Proof.
  intros call call' cands; induction cands as [|n cands IH]; intros st r Hc H;
    simpl in *; [exact H|].
  destruct (call n st) as [[b st1]|] eqn:E; [|discriminate].
  rewrite (Hc n st _ E). destruct b; [exact H | apply IH; assumption].
Qed.

(** A deeper bound does not change the result. *)
Lemma dfs_more_fuel : forall random grid size target fuel fuel' row col st r,
  dfs random fuel grid size row col target st = Some r ->
  (fuel <= fuel')%nat ->
  dfs random fuel' grid size row col target st = Some r.
Proof.
  intros random grid size target; induction fuel as [|fuel IH];
    intros fuel' row col st r H Hle; [discriminate|].
  destruct fuel' as [|fuel']; [lia|].
  rewrite dfs_S in *.
  destruct (iterations st + 1 >? maxIterations); [exact H|].
  cbv zeta in *.
  destruct (Z.of_nat (length (path st ++ [(row, col)])) =? target); [exact H|].
  destruct (orderedNeighbors random grid size row col
              (set_add pos_eqb (visited st) (row, col)) (cursor st))
    as [neighbors k].
  destruct (tryEach _ neighbors _) as [[b st']|] eqn:E; [|discriminate].
  rewrite (tryEach_more _
             (fun next st0 =>
                dfs random fuel' grid size (fst next) (snd next) target st0)
             _ _ _ (fun n st0 r0 Hr => IH fuel' (fst n) (snd n) st0 r0 Hr
                                          (proj2 (Nat.succ_le_mono _ _) Hle))
             E).
  exact H.
Qed.

Lemma tryEach_true_below_cap : forall (call : Z * Z -> DfsState -> option (bool * DfsState))
    (cands : list (Z * Z)) (st st' : DfsState),
  (forall n st st', call n st = Some (true, st') ->
                    iterations st' <= maxIterations) ->
  tryEach call cands st = Some (true, st') ->
  iterations st' <= maxIterations.
Proof.
  intros call cands; induction cands as [|n cands IH]; intros st st' Hc H;
    simpl in H; [discriminate|].
  destruct (call n st) as [[b st1]|] eqn:E; [|discriminate].
  destruct b.
  - inversion H; subst. apply (Hc n st st' E).
  - apply (IH st1 st' Hc H).
Qed.

(** A search that succeeds has not passed the cap. *)
Lemma dfs_true_below_cap : forall random grid size target fuel row col st st',
  dfs random fuel grid size row col target st = Some (true, st') ->
  iterations st' <= maxIterations.
Proof.
  intros random grid size target; induction fuel as [|fuel IH];
    intros row col st st' H; [discriminate|].
  rewrite dfs_S in H.
  destruct (Z.gtb_spec (iterations st + 1) maxIterations) as [G|G];
    [discriminate|].
  cbv zeta in H.
  destruct (Z.of_nat (length (path st ++ [(row, col)])) =? target).
  - inversion H; subst; simpl. exact G.
  - destruct (orderedNeighbors random grid size row col
                (set_add pos_eqb (visited st) (row, col)) (cursor st))
      as [neighbors k].
    destruct (tryEach _ neighbors _) as [[b st1]|] eqn:E; [|discriminate].
    destruct b; [|discriminate]. inversion H; subst.
    apply (tryEach_true_below_cap _ _ _ _
             (fun n s0 s1 Hs => IH (fst n) (snd n) s0 s1 Hs) E).
Qed.

(** ** The candidates of a step *)

Lemma In_insertBy : forall (A : Type) (key : A -> Z) (x y : A) (l : list A),
  In y (insertBy key x l) -> y = x \/ In y l.
Proof.
  intros A key x y; induction l as [|z l IH]; simpl; intros H.
  - destruct H as [<-|[]]; auto.
  - destruct (key x <? key z); simpl in H.
    + destruct H as [<-|H]; auto.
    + destruct H as [<-|H]; auto. destruct (IH H); auto.
Qed.

Lemma length_insertBy : forall (A : Type) (key : A -> Z) (x : A) (l : list A),
  length (insertBy key x l) = S (length l).
Proof.
  intros A key x; induction l as [|z l IH]; simpl; [reflexivity|].
  destruct (key x <? key z); simpl; [reflexivity | rewrite IH; reflexivity].
Qed.

Lemma sortBy_spec : forall (A : Type) (key : A -> Z) (l : list A),
  (forall y, In y (sortBy key l) -> In y l) /\
  length (sortBy key l) = length l.
Proof.
  intros A key l. unfold sortBy.
  assert (forall (l acc : list A),
    (forall y, In y (fold_left (fun s x => insertBy key x s) l acc) ->
               In y l \/ In y acc) /\
    length (fold_left (fun s x => insertBy key x s) l acc) =
    (length l + length acc)%nat) as H.
  { clear l. induction l as [|x l IH]; intros acc; simpl.
    - split; [auto | reflexivity].
    - destruct (IH (insertBy key x acc)) as [H1 H2]. split.
      + intros y Hy. destruct (H1 y Hy) as [H|H]; auto.
        apply In_insertBy in H. destruct H as [->|H]; auto.
      + rewrite H2, length_insertBy. lia. }
  destruct (H l []) as [H1 H2]. split.
  - intros y Hy. destruct (H1 y Hy) as [Hl|[]]; exact Hl.
  - rewrite H2. simpl. lia.
Qed.

Lemma In_upd_nth_const : forall (A : Type) (x y : A) (l : list A) (n : nat),
  In y (upd_nth n (fun _ => x) l) -> y = x \/ In y l.
Proof.
  intros A x y; induction l as [|z l IH]; intros [|n] H; simpl in *; auto.
  - destruct H as [<-|H]; auto.
  - destruct H as [<-|H]; auto. destruct (IH n H); auto.
Qed.

Lemma swap_spec : forall (A : Type) (i j : nat) (l : list A),
  (forall y, In y (swap i j l) -> In y l) /\ length (swap i j l) = length l.
Proof.
  intros A i j l. unfold swap.
  destruct (nth_error l i) as [x|] eqn:Ei; [|auto].
  destruct (nth_error l j) as [y|] eqn:Ej; [|auto].
  split.
  - intros z Hz. apply In_upd_nth_const in Hz. destruct Hz as [->|Hz].
    + eapply nth_error_In; eauto.
    + apply In_upd_nth_const in Hz. destruct Hz as [->|Hz]; auto.
      eapply nth_error_In; eauto.
  - rewrite !length_upd_nth. reflexivity.
Qed.

Lemma shuffleFrom_spec : forall (random : nat -> nat) (A : Type) (i : nat)
    (l : list A) (k : nat),
  (forall y, In y (fst (shuffleFrom random i l k)) -> In y l) /\
  length (fst (shuffleFrom random i l k)) = length l.
Proof.
  intros random A; induction i as [|i IH]; intros l k; cbn [shuffleFrom fst].
  - auto.
  - destruct (IH (swap (S i)
                (Z.to_nat (randFloor (random k) (Z.of_nat (S i) + 1))) l)
                (S k)) as [H1 H2].
    destruct (swap_spec A (S i)
                (Z.to_nat (randFloor (random k) (Z.of_nat (S i) + 1))) l)
      as [S1 S2].
    split.
    + intros y Hy. apply S1. apply H1. exact Hy.
    + rewrite H2, S2. reflexivity.
Qed.

Lemma getNeighbors_In : forall grid size row col visited n,
  In n (_getNeighbors grid size row col visited) ->
  freeCell grid size n = true /\ ~ In n visited /\
  areAdjacent (row, col) n = true.
Proof.
  intros grid size row col visited [nr nc] H.
  unfold _getNeighbors in H. apply filter_In in H. destruct H as [Hin Hf].
  rewrite !andb_true_iff in Hf.
  destruct Hf as [[[[[H1 H2] H3] H4] H5] H6].
  split; [|split].
  - unfold freeCell, inBounds; simpl. rewrite H1, H2, H3, H4, H5. reflexivity.
  - apply negb_true_iff in H6. apply set_has_false in H6. exact H6.
  - simpl in Hin. unfold areAdjacent; simpl.
    destruct Hin as [E|[E|[E|[E|[]]]]]; inversion E; subst;
      repeat match goal with
      | |- context [Z.abs ?x] =>
          let v := fresh "v" in
          remember (Z.abs x) as v eqn:Hv;
          assert (v = 0 \/ v = 1) as [->| ->] by lia
      end; try reflexivity; lia.
Qed.

Lemma getNeighbors_length : forall grid size row col visited,
  (length (_getNeighbors grid size row col visited) <= 4)%nat.
Proof.
  intros. unfold _getNeighbors.
  etransitivity; [apply filter_length_le|]. simpl. lia.
Qed.

Lemma orderedNeighbors_spec : forall random grid size row col vis k,
  (forall n, In n (fst (orderedNeighbors random grid size row col vis k)) ->
             In n (_getNeighbors grid size row col vis)) /\
  (length (fst (orderedNeighbors random grid size row col vis k)) <= 4)%nat.
Proof.
  intros random grid size row col vis k. unfold orderedNeighbors.
  set (ns := _getNeighbors grid size row col vis).
  set (key := fun a : Z * Z => Z.of_nat (length
                (_getNeighbors grid size (fst a) (snd a) vis))).
  destruct (sortBy_spec _ key ns) as [S1 S2].
  pose proof (getNeighbors_length grid size row col vis) as HL.
  fold ns in HL.
  destruct (1 <? length (sortBy key ns))%nat.
  - destruct (randBelow03 (random k)).
    + unfold _shuffle.
      destruct (shuffleFrom_spec random _ (length (sortBy key ns) - 1)
                  (sortBy key ns) (S k)) as [H1 H2].
      split; [intros n Hn; apply S1, H1, Hn | rewrite H2, S2; exact HL].
    + simpl. split; [exact S1 | rewrite S2; exact HL].
  - simpl. split; [exact S1 | rewrite S2; exact HL].
Qed.

(** ** How far the counter can run *)

Lemma tryEach_count : forall (call : Z * Z -> DfsState -> option (bool * DfsState))
    (cands : list (Z * Z)) (st : DfsState) b st',
  (forall n s b s', call n s = Some (b, s') ->
     iterations s' - iterations s <=
     1 + 4 * (Z.min (iterations s') maxIterations -
              Z.min (iterations s) maxIterations)) ->
  tryEach call cands st = Some (b, st') ->
  iterations st' - iterations st <=
  Z.of_nat (length cands) +
  4 * (Z.min (iterations st') maxIterations -
       Z.min (iterations st) maxIterations).
Proof.
  intros call cands; induction cands as [|n cands IH]; intros st b st' Hc H;
    simpl tryEach in H.
  - inversion H; subst. cbn [length]. lia.
  - destruct (call n st) as [[b1 st1]|] eqn:E; [|discriminate].
    pose proof (Hc n st b1 st1 E) as H1.
    cbn [length]. destruct b1.
    + inversion H; subst. lia.
    + pose proof (IH st1 b st' Hc H) as H2. lia.
Qed.

Lemma dfs_count : forall random grid size target fuel row col st b st',
  dfs random fuel grid size row col target st = Some (b, st') ->
  iterations st' - iterations st <=
  1 + 4 * (Z.min (iterations st') maxIterations -
           Z.min (iterations st) maxIterations).
Proof.
  intros random grid size target; induction fuel as [|fuel IH];
    intros row col st b st' H; [discriminate|].
  rewrite dfs_S in H.
  destruct (Z.gtb_spec (iterations st + 1) maxIterations) as [G|G].
  - inversion H; subst; cbn [iterations]. lia.
  - cbv zeta in H.
    destruct (Z.of_nat (length (path st ++ [(row, col)])) =? target).
    + inversion H; subst; cbn [iterations]. lia.
    + pose proof (orderedNeighbors_spec random grid size row col
                    (set_add pos_eqb (visited st) (row, col)) (cursor st))
        as [_ HL].
      destruct (orderedNeighbors random grid size row col
                  (set_add pos_eqb (visited st) (row, col)) (cursor st))
        as [neighbors k].
      simpl fst in HL.
      destruct (tryEach _ neighbors _) as [[b1 st1]|] eqn:E; [|discriminate].
      pose proof (tryEach_count _ _ _ _ _
                    (fun n s b0 s' Hs => IH (fst n) (snd n) s b0 s' Hs) E)
        as HC.
      cbn [iterations] in HC.
      destruct b1; inversion H; subst; cbn [iterations]; lia.
Qed.

(** ** The path of the search is a simple walk over free cells *)

Lemma chain_snoc : forall (p : list (Z * Z)) (a b : Z * Z),
  chain (p ++ [a]) -> areAdjacent a b = true -> chain ((p ++ [a]) ++ [b]).
Proof.
  induction p as [|x p IH]; intros a b H Hab.
  - simpl. auto.
  - destruct p as [|y p].
    + simpl in *. destruct H as [H1 _]. auto.
    + simpl in H. destruct H as [H1 H2].
      change (((x :: y :: p) ++ [a]) ++ [b])
        with (x :: ((y :: p) ++ [a]) ++ [b]).
      change (chain (x :: ((y :: p) ++ [a]) ++ [b]))
        with (areAdjacent x y = true /\ chain (((y :: p) ++ [a]) ++ [b])).
      split; [exact H1|]. apply IH; assumption.
Qed.

Lemma NoDup_snoc : forall (A : Type) (p : list A) (x : A),
  NoDup p -> ~ In x p -> NoDup (p ++ [x]).
Proof.
  intros A p x Hp Hx. apply NoDup_app; [exact Hp | repeat constructor; intros [] |].
  intros y Hy [<-|[]]. contradiction.
Qed.

Lemma NoDup_snoc_inv : forall (A : Type) (p : list A) (x : A),
  NoDup (p ++ [x]) -> NoDup p /\ ~ In x p.
Proof.
  intros A p x H. split.
  - apply NoDup_app_remove_r in H. exact H.
  - apply NoDup_remove_2 in H. rewrite app_nil_r in H. exact H.
Qed.

Lemma set_add_fresh : forall (s : list (Z * Z)) (k : Z * Z),
  ~ In k s -> set_add pos_eqb s k = s ++ [k].
Proof.
  intros s k H. unfold set_add. apply set_has_false in H. rewrite H.
  reflexivity.
Qed.

Lemma set_delete_last : forall (s : list (Z * Z)) (k : Z * Z),
  ~ In k s -> set_delete pos_eqb (s ++ [k]) k = s.
Proof.
  intros s k H. unfold set_delete. rewrite filter_app. simpl.
  rewrite pos_eqb_refl. simpl. rewrite app_nil_r.
  induction s as [|x s IH]; simpl; [reflexivity|].
  destruct (pos_eqb k x) eqn:E.
  - apply pos_eqb_eq in E; subst. exfalso; apply H; left; reflexivity.
  - simpl. rewrite IH; [reflexivity|]. intros Hin; apply H; right; exact Hin.
Qed.

Lemma Walk_snoc : forall grid size p k n,
  Walk grid size (p ++ [k]) ->
  freeCell grid size n = true -> ~ In n (p ++ [k]) ->
  areAdjacent k n = true ->
  Walk grid size ((p ++ [k]) ++ [n]).
Proof.
  intros grid size p k n [H1 [H2 H3]] Hf Hn Ha. split; [|split].
  - apply NoDup_snoc; assumption.
  - intros c Hc. apply in_app_or in Hc. destruct Hc as [Hc|[<-|[]]]; auto.
  - apply chain_snoc; assumption.
Qed.

Lemma tryEach_walk : forall grid size target row col
    (call : Z * Z -> DfsState -> option (bool * DfsState)) (pk : list (Z * Z)),
  (forall n st b st',
     visited st = pk -> path st = pk ->
     In n (_getNeighbors grid size row col pk) ->
     call n st = Some (b, st') ->
     dfsOutcome grid size target pk b st') ->
  forall (cands : list (Z * Z)) (st : DfsState) b st',
  visited st = pk -> path st = pk ->
  (forall n, In n cands -> In n (_getNeighbors grid size row col pk)) ->
  tryEach call cands st = Some (b, st') ->
  dfsOutcome grid size target pk b st'.
Proof.
  intros grid size target row col call pk Hc.
  induction cands as [|n cands IH]; intros st b st' Hv Hp Hin H; simpl in H.
  - injection H as Hb Hs. rewrite <- Hb, <- Hs. split; assumption.
  - destruct (call n st) as [[b1 st1]|] eqn:E; [|discriminate].
    pose proof (Hc n st b1 st1 Hv Hp (Hin n (or_introl eq_refl)) E) as H1.
    destruct b1.
    + injection H as Hb Hs. rewrite <- Hb, <- Hs. exact H1.
    + destruct H1 as [Hv1 Hp1].
      apply (IH st1 b st' Hv1 Hp1); [|exact H].
      intros m Hm. apply Hin. right; exact Hm.
Qed.

Lemma dfs_walk : forall random grid size target fuel row col st b st',
  visited st = path st ->
  Walk grid size (path st ++ [(row, col)]) ->
  dfs random fuel grid size row col target st = Some (b, st') ->
  dfsOutcome grid size target (path st) b st'.
Proof.
  intros random grid size target; induction fuel as [|fuel IH];
    intros row col st b st' Hvp HW H; [discriminate|].
  rewrite dfs_S in H.
  destruct (iterations st + 1 >? maxIterations).
  { inversion H; subst. split; [exact Hvp | reflexivity]. }
  cbv zeta in H.
  destruct (NoDup_snoc_inv _ _ _ (proj1 HW)) as [Hnd Hk].
  assert (set_add pos_eqb (visited st) (row, col) = path st ++ [(row, col)])
    as Hadd by (rewrite Hvp; apply set_add_fresh; exact Hk).
  rewrite Hadd in H.
  destruct (Z.eqb_spec (Z.of_nat (length (path st ++ [(row, col)]))) target)
    as [Et|Et].
  { inversion H; subst. split; [reflexivity|]. split; [exact HW|].
    split; [reflexivity|]. simpl. rewrite length_app. simpl. lia. }
  pose proof (orderedNeighbors_spec random grid size row col
                (path st ++ [(row, col)]) (cursor st)) as [HN _].
  destruct (orderedNeighbors random grid size row col
              (path st ++ [(row, col)]) (cursor st)) as [neighbors k].
  simpl fst in HN.
  destruct (tryEach _ neighbors _) as [[b1 st1]|] eqn:E; [|discriminate].
  assert (dfsOutcome grid size target (path st ++ [(row, col)]) b1 st1) as HO.
  { apply (tryEach_walk grid size target row col
             (fun next s0 =>
                dfs random fuel grid size (fst next) (snd next) target s0)
             (path st ++ [(row, col)]))
      with (cands := neighbors)
           (st := mkDfs (path st ++ [(row, col)]) (path st ++ [(row, col)])
                        (iterations st + 1) k);
      [|reflexivity|reflexivity|exact HN|exact E].
    intros n s0 b0 s1 Hv0 Hp0 Hn Hcall.
    rewrite <- Hp0.
    apply (IH (fst n) (snd n) s0 b0 s1); [congruence| |exact Hcall].
    rewrite Hp0. destruct (getNeighbors_In _ _ _ _ _ _ Hn) as [Hf [Hv Ha]].
    rewrite <- surjective_pairing. apply Walk_snoc; assumption. }
  destruct b1; inversion H; subst.
  - destruct HO as [Ho1 [Ho2 [Ho3 Ho4]]].
    split; [exact Ho1|]. split; [exact Ho2|]. split; [exact Ho3|].
    rewrite length_app in Ho4. simpl in Ho4. lia.
  - destruct HO as [Hv1 Hp1]. split; simpl.
    + rewrite Hv1. apply set_delete_last; exact Hk.
    + rewrite Hp1. apply removelast_last.
Qed.

(** ** From the search to the level *)

Lemma hamiltonianDFS_dfs : forall random grid size row col target st,
  dfs random (dfsFuel st) grid size row col target st =
  Some (_hamiltonianDFS random grid size row col target st).
Proof.
  intros random grid size row col target st. unfold _hamiltonianDFS.
  destruct (dfs_total random grid size target (dfsFuel st) row col st)
    as [b [st' [E _]]]; [unfold dfsFuel; lia|].
  rewrite E. reflexivity.
Qed.

Lemma at_index_range : forall (n i : Z),
  at_index (range n) i = if (0 <=? i) && (i <? n) then Some i else None.
Proof.
  intros n i. unfold at_index, range.
  destruct (Z.ltb_spec i 0) as [H|H].
  - destruct (Z.leb_spec 0 i); [lia | reflexivity].
  - destruct (Z.leb_spec 0 i); [|lia]. simpl.
    rewrite nth_error_map.
    destruct (Z.ltb_spec i n) as [L|L].
    + rewrite nth_error_nth' with (d := O) by (rewrite length_seq; lia).
      rewrite seq_nth by lia. simpl. f_equal. lia.
    + destruct (nth_error (seq 0 (Z.to_nat n)) (Z.to_nat i)) eqn:E;
        [|reflexivity].
      assert (nth_error (seq 0 (Z.to_nat n)) (Z.to_nat i) <> None) as X
        by congruence.
      apply nth_error_Some in X. rewrite length_seq in X. lia.
Qed.

Lemma In_fold_set_add : forall (l acc : list (Z * Z)) (q : Z * Z),
  In q (fold_left (set_add pos_eqb) l acc) <-> In q l \/ In q acc.
Proof.
  induction l as [|x l IH]; intros acc q; simpl.
  - tauto.
  - rewrite IH, In_set_add. split; intros [H|H]; auto.
    + destruct H; auto.
    + destruct H; auto.
Qed.

(** The value of a cell of the generator's grid. *)
Lemma createGrid_at : forall size obstacles r,
  at_index (_createGrid size obstacles) r =
  if (0 <=? r) && (r <? size) then
    Some (map (fun col =>
                 if set_has pos_eqb
                      (fold_left (set_add pos_eqb) obstacles []) (r, col)
                 then -1 else 0) (range size))
  else None.
Proof.
  intros size obstacles r. unfold _createGrid.
  rewrite at_index_map, at_index_range.
  destruct ((0 <=? r) && (r <? size)); reflexivity.
Qed.

Lemma createGrid_notBlocked : forall size obstacles c,
  inBounds size c = true ->
  notBlocked (_createGrid size obstacles) (fst c) (snd c) =
  negb (set_has pos_eqb obstacles c).
Proof.
  intros size obstacles [r c] H. unfold inBounds in H. simpl in *.
  rewrite !andb_true_iff in H. destruct H as [[[H1 H2] H3] H4].
  unfold notBlocked. rewrite createGrid_at, H1, H2. simpl.
  rewrite at_index_map, at_index_range, H3, H4. simpl.
  assert (set_has pos_eqb (fold_left (set_add pos_eqb) obstacles []) (r, c) =
          set_has pos_eqb obstacles (r, c)) as ->.
  { destruct (set_has pos_eqb obstacles (r, c)) eqn:E.
    - apply set_has_In. apply In_fold_set_add. left. apply set_has_In. exact E.
    - apply set_has_false. intros Hin. apply In_fold_set_add in Hin.
      destruct Hin as [Hin|[]]. apply set_has_In in Hin. congruence. }
  destruct (set_has pos_eqb obstacles (r, c)); reflexivity.
Qed.

(** The loop over the start points returns a walk of the requested
    length. *)
Lemma tryStarts_walk : forall random size obstacles total starts k p k',
  (forall s, In s starts ->
     (0 <=? fst s) && (fst s <? size) = true -> inBounds size s = true) ->
  tryStarts random (_createGrid size obstacles) size total starts k =
    Ret (Some p, k') ->
  Walk (_createGrid size obstacles) size p /\ Z.of_nat (length p) = total /\
  (0 < length p)%nat.
Proof.
  intros random size obstacles total starts; induction starts as [|s starts IH];
    intros k p k' Hs H; simpl in H; [discriminate|].
  rewrite createGrid_at in H.
  destruct ((0 <=? fst s) && (fst s <? size)) eqn:Hr; [|discriminate].
  pose proof (Hs s (or_introl eq_refl) Hr) as Hb.
  assert (forall s', In s' starts ->
            (0 <=? fst s') && (fst s' <? size) = true ->
            inBounds size s' = true) as Hs'
    by (intros s' Hin; apply Hs; right; exact Hin).
  match type of H with
  | (if ?c then _ else _) = _ => destruct c eqn:Hblocked
  end; [apply (IH k p k' Hs' H)|].
  destruct (_hamiltonianDFS random (_createGrid size obstacles) size
              (fst s) (snd s) total (mkDfs [] [] 0 k)) as [found st] eqn:E.
  destruct found; [|apply (IH _ p k' Hs' H)].
  inversion H; subst p k'; clear H.
  pose proof (hamiltonianDFS_dfs random (_createGrid size obstacles) size
                (fst s) (snd s) total (mkDfs [] [] 0 k)) as Hd.
  rewrite E in Hd.
  apply dfs_walk in Hd; [|reflexivity|].
  - destruct Hd as [_ [HW [HL HP]]]. simpl in HP.
    split; [exact HW|]. split; [exact HL | exact HP].
  - simpl. split; [|split].
    + repeat constructor. intros [].
    + intros c [<-|[]]. rewrite <- surjective_pairing.
      unfold freeCell. rewrite Hb. simpl.
      unfold notBlocked. rewrite createGrid_at, Hr.
      destruct (at_index _ (snd s)) as [v|]; [|reflexivity].
      rewrite Hblocked. reflexivity.
    + exact I.
Qed.

Lemma In_range : forall (n i : Z), In i (range n) <-> 0 <= i < n.
Proof.
  intros n i. unfold range. rewrite in_map_iff. split.
  - intros [x [<- Hx]]. apply in_seq in Hx. lia.
  - intros H. exists (Z.to_nat i). split; [lia|]. apply in_seq. lia.
Qed.

Lemma countOf_NoDup : forall (p : list (Z * Z)) (c : Z * Z),
  NoDup p -> In c p -> countOf c p = 1%nat.
Proof.
  unfold countOf. induction p as [|x p IH]; intros c Hnd Hin; [contradiction|].
  inversion Hnd; subst. simpl.
  destruct (pos_eqb c x) eqn:E.
  - apply pos_eqb_eq in E; subst x. simpl. f_equal.
    assert (filter (pos_eqb c) p = []) as ->; [|reflexivity].
    clear IH Hnd Hin H2. induction p as [|y p IHp]; simpl; [reflexivity|].
    destruct (pos_eqb c y) eqn:E.
    + apply pos_eqb_eq in E; subst. exfalso; apply H1; left; reflexivity.
    + apply IHp. intros Hin; apply H1; right; exact Hin.
  - apply IH; [assumption|]. destruct Hin as [->|Hin]; [|exact Hin].
    rewrite pos_eqb_refl in E; discriminate.
Qed.

(** A walk of the right length over the generator's grid covers it. *)
Lemma Walk_Hamiltonian : forall size obstacles p,
  0 <= size ->
  NoDup obstacles ->
  (forall o, In o obstacles -> inBounds size o = true) ->
  Walk (_createGrid size obstacles) size p ->
  Z.of_nat (length p) = size * size - Z.of_nat (length obstacles) ->
  Hamiltonian size obstacles p.
Proof.
  intros size obstacles p Hsz Hnd Hob [Hp [Hfree Hch]] Hlen.
  set (all := list_prod (range size) (range size)).
  assert (forall c, In c all <-> inBounds size c = true) as Hall.
  { intros [r c]. unfold all. rewrite in_prod_iff, !In_range.
    unfold inBounds; simpl. rewrite !andb_true_iff, !Z.leb_le, !Z.ltb_lt. lia. }
  assert (forall c, In c p ->
            inBounds size c = true /\ set_has pos_eqb obstacles c = false)
    as Hcells.
  { intros c Hc. pose proof (Hfree c Hc) as Hf. unfold freeCell in Hf.
    apply andb_true_iff in Hf. destruct Hf as [Hb Hn]. split; [exact Hb|].
    rewrite (createGrid_notBlocked size obstacles c Hb) in Hn.
    apply negb_true_iff in Hn. exact Hn. }
  set (free := filter (fun c => negb (set_has pos_eqb obstacles c)) all).
  set (blocked := filter (set_has pos_eqb obstacles) all).
  assert (length blocked + length free = Z.to_nat size * Z.to_nat size)%nat
    as Hsum.
  { unfold blocked, free. rewrite filter_length. unfold all.
    rewrite length_prod, length_range. reflexivity. }
  assert (length obstacles <= length blocked)%nat as Hob2.
  { apply NoDup_incl_length; [exact Hnd|]. intros o Ho.
    unfold blocked. apply filter_In. split.
    - apply Hall. apply Hob; exact Ho.
    - apply set_has_In; exact Ho. }
  assert (incl p free) as Hincl.
  { intros c Hc. destruct (Hcells c Hc) as [Hb Hn].
    unfold free. apply filter_In. split; [apply Hall; exact Hb|].
    rewrite Hn; reflexivity. }
  assert (incl free p) as Hcover.
  { apply NoDup_length_incl; [exact Hp| |exact Hincl]. nia. }
  split; [|split; [|split]].
  - intros c Hb Hn. apply countOf_NoDup; [exact Hp|].
    apply Hcover. unfold free. apply filter_In. split; [apply Hall; exact Hb|].
    rewrite Hn; reflexivity.
  - exact Hcells.
  - exact Hch.
  - exact Hlen.
Qed.

(** ** The obstacles *)

Lemma randFloor_range : forall (x : nat) (n : Z),
  0 < n -> 0 <= randFloor x n < n.
Proof.
  intros x n H. unfold randFloor.
  destruct (Z.ltb_spec 0 n); [|lia]. apply Z.mod_pos_bound. exact H.
Qed.

Lemma randFloor_zero : forall x : nat, randFloor x 0 = 0.
Proof. intros x; reflexivity. Qed.

Lemma obstacleLoop_spec : forall random size maxObstacles remaining obstacles k,
  2 <= size ->
  NoDup obstacles ->
  (forall o, In o obstacles -> inBounds size o = true) ->
  let r := obstacleLoop random size maxObstacles remaining obstacles obstacles k in
  NoDup (fst r) /\ (forall o, In o (fst r) -> inBounds size o = true).
Proof.
  intros random size maxObstacles; induction remaining as [|rem IH];
    intros obstacles k Hsz Hnd Hin; cbn [obstacleLoop].
  - simpl. auto.
  - cbv zeta.
    destruct (Z.of_nat (length obstacles) <? maxObstacles); [|simpl; auto].
    set (row := randFloor (random k) (size - 2) + 1).
    set (col := randFloor (random (S k)) (size - 2) + 1).
    assert (1 <= row < size /\ 1 <= col < size) as [Hr Hc].
    { unfold row, col. destruct (Z.eq_dec size 2) as [->|Hne].
      - change (2 - 2) with 0. rewrite !randFloor_zero. lia.
      - pose proof (randFloor_range (random k) (size - 2)).
        pose proof (randFloor_range (random (S k)) (size - 2)). lia. }
    destruct (set_has pos_eqb obstacles (row, col)) eqn:Ehas; simpl negb;
      cbn [andb].
    + apply IH; assumption.
    + destruct (negb (set_has pos_eqb _ (row, col))).
      * apply set_has_false in Ehas.
        rewrite (set_add_fresh obstacles (row, col) Ehas).
        apply IH; [exact Hsz | apply NoDup_snoc; assumption |].
        intros o Ho. apply in_app_or in Ho. destruct Ho as [Ho|[<-|[]]];
          [apply Hin; exact Ho|].
        unfold inBounds; simpl.
        rewrite !andb_true_iff, !Z.leb_le, !Z.ltb_lt. lia.
      * apply IH; assumption.
Qed.

Lemma generateObstacles_spec : forall random size maxObstacles k,
  2 <= size ->
  NoDup (fst (_generateObstacles random size maxObstacles k)) /\
  (forall o, In o (fst (_generateObstacles random size maxObstacles k)) ->
             inBounds size o = true).
Proof.
  intros random size maxObstacles k Hsz. unfold _generateObstacles.
  apply (obstacleLoop_spec random size maxObstacles _ [] k Hsz).
  - constructor.
  - intros o [].
Qed.

Lemma findHamiltonianPath_walk : forall random size obstacles k p k',
  _findHamiltonianPath random (_createGrid size obstacles) size obstacles k =
    Ret (Some p, k') ->
  Walk (_createGrid size obstacles) size p /\
  Z.of_nat (length p) = size * size - Z.of_nat (length obstacles) /\
  (0 < length p)%nat.
Proof.
  intros random size obstacles k p k' H. unfold _findHamiltonianPath in H.
  cbv zeta in H.
  pose proof (shuffleFrom_spec random _
                (length [(0, 0); (0, size - 1); (size - 1, 0);
                         (size - 1, size - 1)] - 1)
                [(0, 0); (0, size - 1); (size - 1, 0); (size - 1, size - 1)] k)
    as [Hin _].
  unfold _shuffle in H.
  destruct (shuffleFrom random _ _ k) as [starts k1].
  simpl fst in Hin.
  apply (tryStarts_walk random size obstacles _ starts k1 p k'); [|exact H].
  intros s Hs Hr. apply Hin in Hs.
  rewrite andb_true_iff, Z.leb_le, Z.ltb_lt in Hr.
  unfold inBounds. rewrite !andb_true_iff, !Z.leb_le, !Z.ltb_lt.
  simpl in Hs. destruct Hs as [<-|[<-|[<-|[<-|[]]]]]; simpl in *; lia.
Qed.

Lemma placePoints_loop : forall (path : list (Z * Z)) (index : Z -> Z)
    (ixs : list Z) (acc : list Point),
  (forall i, In i ixs -> 0 <= index i < Z.of_nat (length path)) ->
  forEach (fun points i =>
             match at_index path (index i) with
             | None => Throw
             | Some cell =>
                 Ret (points ++ [mkPoint (i + 1) (fst cell) (snd cell)])
             end) ixs acc =
  Ret (acc ++ map (fun i =>
                     let cell := nth (Z.to_nat (index i)) path (0, 0) in
                     mkPoint (i + 1) (fst cell) (snd cell)) ixs).
Proof.
  intros path index; induction ixs as [|i ixs IH]; intros acc Hi; simpl.
  - rewrite app_nil_r. reflexivity.
  - pose proof (Hi i (or_introl eq_refl)) as Hb.
    unfold at_index at 1. destruct (Z.ltb_spec (index i) 0); [lia|].
    rewrite nth_error_nth' with (d := (0, 0)) by lia. simpl bind.
    rewrite IH by (intros j Hj; apply Hi; right; exact Hj).
    rewrite <- app_assoc. reflexivity.
Qed.

Lemma pointIndex_bounds : forall numPoints len i,
  0 <= i < numPoints -> 1 <= len ->
  0 <= pointIndex numPoints len i < len.
Proof.
  intros numPoints len i Hi Hl. unfold pointIndex.
  destruct (Z.eqb_spec i 0); [lia|].
  destruct (Z.eqb_spec i (numPoints - 1)); [lia|].
  pose proof (Z.mul_div_le len numPoints ltac:(lia)) as H1.
  pose proof (Z.div_pos len numPoints ltac:(lia) ltac:(lia)) as H2.
  nia.
Qed.

Lemma placePoints_spec : forall (path : list (Z * Z)) (numPoints : Z),
  (0 < length path)%nat ->
  _placePoints path numPoints = Ret (pointsOn path numPoints).
Proof.
  intros p numPoints Hl.
  apply (placePoints_loop p (pointIndex numPoints (Z.of_nat (length p)))
           (range numPoints) []).
  intros i Hi. apply In_range in Hi. apply pointIndex_bounds; lia.
Qed.

(** What one successful attempt returns. *)
Lemma tryGenerateLevel_spec : forall random size numPoints maxObstacles k lv k',
  _tryGenerateLevel random size numPoints maxObstacles k = Ret (Some lv, k') ->
  exists p,
    Hamiltonian size (lv_obstacles lv) p /\
    lv_size lv = size /\
    lv_points lv = pointsOn p numPoints /\
    lv_solution lv = _createSolution p (lv_points lv) /\
    NoDup p /\ (0 < length p)%nat.
Proof.
  intros random size numPoints maxObstacles k lv k' H.
  unfold _tryGenerateLevel in H.
  pose proof (generateObstacles_spec random size maxObstacles k) as HG.
  destruct (_generateObstacles random size maxObstacles k) as [obstacles k1].
  simpl fst in HG.
  apply bind_ret_inv in H. destruct H as [[[p|] k2] [Hf H]]; [|discriminate].
  destruct (findHamiltonianPath_walk _ _ _ _ _ _ Hf) as [HW [HL HP]].
  rewrite (placePoints_spec p numPoints HP) in H. simpl in H.
  inversion H; subst lv k'; clear H. simpl.
  exists p.
  assert (1 <= size) as Hsz.
  { destruct p as [|c p]; [simpl in HP; lia|].
    destruct HW as [_ [Hfree _]].
    pose proof (Hfree c (or_introl eq_refl)) as Hc. unfold freeCell in Hc.
    apply andb_true_iff in Hc. destruct Hc as [Hc _]. unfold inBounds in Hc.
    rewrite !andb_true_iff, !Z.leb_le, !Z.ltb_lt in Hc. lia. }
  assert (NoDup obstacles /\
          (forall o, In o obstacles -> inBounds size o = true)) as [Hnd Hin].
  { destruct (Z.eq_dec size 1) as [->|Hne].
    - assert (obstacles = []) as ->
        by (destruct obstacles; [reflexivity | cbn [length] in HL; lia]).
      split; [constructor | intros o []].
    - apply HG. lia. }
  split; [apply Walk_Hamiltonian; try assumption; lia|].
  split; [reflexivity|]. split; [reflexivity|]. split; [reflexivity|].
  split; [apply HW | exact HP].
Qed.

Lemma attemptLoop_some : forall random size numPoints maxObstacles n k lv k',
  attemptLoop random n size numPoints maxObstacles k = Ret (Some lv, k') ->
  exists mo k1,
    _tryGenerateLevel random size numPoints mo k1 = Ret (Some lv, k').
Proof.
  intros random size numPoints maxObstacles; induction n as [|n IH];
    intros k lv k' H; simpl in H.
  - exists 0, k. exact H.
  - apply bind_ret_inv in H. destruct H as [[[r|] k1] [Ht H]].
    + inversion H; subst. exists maxObstacles, k. exact Ht.
    + apply (IH k1 lv k' H).
Qed.

Lemma attemptLoop_attempts : forall random size numPoints maxObstacles n k,
  (exists m k1,
     (m < n)%nat /\
     failedAttempts random size numPoints maxObstacles m k = Some k1 /\
     (forall k2, _tryGenerateLevel random size numPoints maxObstacles k1 <>
                 Ret (None, k2)) /\
     attemptLoop random n size numPoints maxObstacles k =
       _tryGenerateLevel random size numPoints maxObstacles k1) \/
  (exists kn,
     failedAttempts random size numPoints maxObstacles n k = Some kn /\
     attemptLoop random n size numPoints maxObstacles k =
       _tryGenerateLevel random size numPoints 0 kn).
Proof.
  intros random size numPoints maxObstacles; induction n as [|n IH]; intros k.
  - right. exists k. split; reflexivity.
  - cbn [attemptLoop failedAttempts].
    destruct (_tryGenerateLevel random size numPoints maxObstacles k)
      as [[[lv|] k1]|] eqn:E.
    + left. exists O, k. split; [lia|]. split; [reflexivity|].
      split; [rewrite E; discriminate|]. rewrite E. reflexivity.
    + simpl bind. destruct (IH k1) as [[m [k2 [Hm [Hf [Hn Ha]]]]]|[kn [Hf Ha]]].
      * left. exists (S m), k2. split; [lia|].
        split; [cbn [failedAttempts]; rewrite E; exact Hf|].
        split; [exact Hn | exact Ha].
      * right. exists kn. split; [exact Hf | exact Ha].
    + left. exists O, k. split; [lia|]. split; [reflexivity|].
      split; [rewrite E; discriminate|]. rewrite E. reflexivity.
Qed.

(** ** The attempts of generate *)

(** C7: [generate] makes at most 50 attempts with obstacles and returns the
    outcome of the first one that does not return [null]; when all 50
    return [null] it makes exactly one more attempt, with zero obstacles,
    and returns its outcome, a level or [null].  Every search inside an
    attempt returns within the depth that the step cap allows, so
    [generate] does not loop. *)
Theorem generate_attempts : forall random size numPoints maxObstacles k,
  ((exists n k1,
      (n < 50)%nat /\
      failedAttempts random size numPoints maxObstacles n k = Some k1 /\
      (forall k2, _tryGenerateLevel random size numPoints maxObstacles k1 <>
                  Ret (None, k2)) /\
      generate random size numPoints maxObstacles k =
        _tryGenerateLevel random size numPoints maxObstacles k1) \/
   (exists k50,
      failedAttempts random size numPoints maxObstacles 50 k = Some k50 /\
      generate random size numPoints maxObstacles k =
        _tryGenerateLevel random size numPoints 0 k50)) /\
  (forall grid row col target st,
     dfs random (dfsFuel st) grid size row col target st =
     Some (_hamiltonianDFS random grid size row col target st)).
Proof.
  intros random size numPoints maxObstacles k. split.
  - apply attemptLoop_attempts.
  - intros. apply hamiltonianDFS_dfs.
Qed.

(** ** The step cap *)

(** C6 fails on the code: on the 6 by 6 grid with one obstacle at (1,2),
    the run from the corner (0,5) -- the first start point that
    [_findHamiltonianPath] tries when every draw is 0 -- fails with its
    step counter at 50017, above the cap of 50000. *)
Lemma dfs_counter_passes_cap :
  _shuffle alwaysZero [(0, 0); (0, 5); (5, 0); (5, 5)] 0 =
    ([(0, 5); (5, 0); (5, 5); (0, 0)], 3%nat) /\
  (let '(found, st) :=
     _hamiltonianDFS alwaysZero (_createGrid 6 [(1, 2)]) 6 0 5 35
                     (mkDfs [] [] 0 3) in
   (found, iterations st)) = (false, 50017) /\
  50017 > maxIterations.
Proof.
  split; [reflexivity|]. split; [vm_compute; reflexivity | reflexivity].
Qed.

(** C6 as amended: each run of the depth-first search (one per start
    corner, with a counter of its own) returns; an invocation made when the
    counter has reached 50000 fails at once and changes nothing but the
    counter; a run whose counter ends above 50000 reports failure; and the
    counter of a run that starts at 0 ends at 200001 at most. *)
Theorem dfs_step_cap : forall random grid size row col target st found st',
  _hamiltonianDFS random grid size row col target st = (found, st') ->
  dfs random (dfsFuel st) grid size row col target st = Some (found, st') /\
  (forall fuel, (dfsFuel st <= fuel)%nat ->
     dfs random fuel grid size row col target st = Some (found, st')) /\
  (maxIterations <= iterations st ->
     found = false /\
     st' = mkDfs (visited st) (path st) (iterations st + 1) (cursor st)) /\
  (maxIterations < iterations st' -> found = false) /\
  (iterations st = 0 -> iterations st' <= 4 * maxIterations + 1).
Proof.
  intros random grid size row col target st found st' H.
  pose proof (hamiltonianDFS_dfs random grid size row col target st) as Hd.
  rewrite H in Hd.
  split; [exact Hd|]. split; [|split; [|split]].
  - intros fuel Hf. apply (dfs_more_fuel _ _ _ _ _ _ _ _ _ _ Hd Hf).
  - intros Hcap. unfold dfsFuel in Hd. rewrite dfs_S in Hd.
    destruct (Z.gtb_spec (iterations st + 1) maxIterations) as [G|G]; [|lia].
    inversion Hd; subst. split; reflexivity.
  - intros Hover. destruct found; [|reflexivity].
    pose proof (dfs_true_below_cap _ _ _ _ _ _ _ _ _ Hd). lia.
  - intros H0. pose proof (dfs_count _ _ _ _ _ _ _ _ _ _ Hd) as Hc.
    unfold maxIterations in *. lia.
Qed.

(** The amended C6 on the 2 by 2 grid without obstacles. *)
Lemma dfs_step_cap_witness :
  exists st',
    _hamiltonianDFS alwaysFive (_createGrid 2 []) 2 0 0 4 (mkDfs [] [] 0 0) =
      (true, st') /\
    iterations st' <= 4 * maxIterations + 1.
Proof.
  eexists. split.
  - vm_compute. reflexivity.
  - apply (dfs_step_cap alwaysFive (_createGrid 2 []) 2 0 0 4
             (mkDfs [] [] 0 0) true).
    + vm_compute. reflexivity.
    + reflexivity.
Defined.

(** ** Points and segments *)

Lemma pointIndex_increasing : forall numPoints len i j,
  2 <= numPoints <= len -> 0 <= i -> i < j -> j < numPoints ->
  pointIndex numPoints len i < pointIndex numPoints len j.
Proof.
  intros numPoints len i j Hn Hi Hij Hj. unfold pointIndex.
  pose proof (Z.mul_div_le len numPoints ltac:(lia)) as H1.
  assert (1 <= len / numPoints) as H2
    by (apply Z.div_le_lower_bound; lia).
  destruct (Z.eqb_spec i 0); destruct (Z.eqb_spec j 0);
    destruct (Z.eqb_spec i (numPoints - 1));
    destruct (Z.eqb_spec j (numPoints - 1)); try lia; nia.
Qed.

Lemma firstn_plus : forall (A : Type) (n m : nat) (l : list A),
  firstn (n + m) l = firstn n l ++ firstn m (skipn n l).
Proof.
  intros A; induction n as [|n IH]; intros m l; simpl; [reflexivity|].
  destruct l as [|x l]; simpl.
  - rewrite firstn_nil. reflexivity.
  - rewrite IH. reflexivity.
Qed.

Lemma tl_firstn_skipn : forall (A : Type) (k b : nat) (l : list A),
  tl (firstn (S k) (skipn b l)) = firstn k (skipn (S b) l).
Proof.
  intros A k b l. revert l. induction b as [|b IH]; intros l.
  - destruct l; simpl; [rewrite firstn_nil|]; reflexivity.
  - destruct l as [|x l]; [simpl; rewrite firstn_nil; reflexivity|]. apply IH.
Qed.

Lemma slice_nat : forall (A : Type) (l : list A) (a b : nat),
  (a <= b)%nat -> (b <= length l)%nat ->
  slice l (Z.of_nat a) (Z.of_nat b) = firstn (b - a) (skipn a l).
Proof.
  intros A l a b Hab Hb. unfold slice.
  rewrite !relIndex_nat by lia. reflexivity.
Qed.

(** Two slices that meet at index [b] join into one slice. *)
Lemma slice_join : forall (A : Type) (l : list A) (a b c : nat),
  (a <= b)%nat -> (b <= c)%nat -> (c < length l)%nat ->
  slice l (Z.of_nat a) (Z.of_nat b + 1) ++
  tl (slice l (Z.of_nat b) (Z.of_nat c + 1)) =
  slice l (Z.of_nat a) (Z.of_nat c + 1).
Proof.
  intros A l a b c Hab Hbc Hc.
  replace (Z.of_nat b + 1) with (Z.of_nat (S b)) by lia.
  replace (Z.of_nat c + 1) with (Z.of_nat (S c)) by lia.
  rewrite !slice_nat by lia.
  replace (S c - b)%nat with (S (c - b)) by lia.
  rewrite tl_firstn_skipn.
  replace (S c - a)%nat with ((S b - a) + (c - b))%nat by lia.
  rewrite firstn_plus, skipn_skipn.
  replace (S b - a + a)%nat with (S b) by lia. reflexivity.
Qed.

Lemma range_S : forall m : nat,
  range (Z.of_nat (S m)) = range (Z.of_nat m) ++ [Z.of_nat m].
Proof.
  intros m. unfold range. rewrite !Nat2Z.id, seq_S, map_app. reflexivity.
Qed.

Lemma joinSegments_snoc : forall (segs : list (list (Z * Z))) (s : list (Z * Z)),
  segs <> [] -> joinSegments (segs ++ [s]) = joinSegments segs ++ tl s.
Proof.
  intros [|s0 rest] s H; [congruence|]. simpl.
  rewrite map_app, concat_app. simpl. rewrite app_nil_r, app_assoc.
  reflexivity.
Qed.

Lemma increasing_from_zero : forall (idx : Z -> Z) (n : nat),
  (forall i, 0 <= i < Z.of_nat n -> idx i < idx (i + 1)) ->
  idx 0 <= idx (Z.of_nat n).
Proof.
  intros idx; induction n as [|n IH]; intros H.
  - simpl. lia.
  - assert (idx 0 <= idx (Z.of_nat n)) as X
      by (apply IH; intros i Hi; apply H; lia).
    pose proof (H (Z.of_nat n) ltac:(lia)) as Y.
    replace (Z.of_nat (S n)) with (Z.of_nat n + 1) by lia. lia.
Qed.

(** The segments cut at increasing indices join into the slice between the
    first and the last index. *)
Lemma joinSegments_slices : forall (p : list (Z * Z)) (idx : Z -> Z) (m : nat),
  (forall i, 0 <= i <= Z.of_nat (S m) -> 0 <= idx i < Z.of_nat (length p)) ->
  (forall i, 0 <= i < Z.of_nat (S m) -> idx i < idx (i + 1)) ->
  joinSegments (map (fun i => slice p (idx i) (idx (i + 1) + 1))
                    (range (Z.of_nat (S m)))) =
  slice p (idx 0) (idx (Z.of_nat (S m)) + 1).
Proof.
  intros p idx; induction m as [|m IH]; intros Hb Hinc.
  - simpl. rewrite app_nil_r. reflexivity.
  - rewrite range_S, map_app. cbn [map].
    rewrite joinSegments_snoc.
    2:{ rewrite range_S, map_app. intros E. apply app_eq_nil in E.
        destruct E; discriminate. }
    rewrite IH;
      [| intros i Hi; apply Hb; lia | intros i Hi; apply Hinc; lia].
    pose proof (Hb 0 ltac:(lia)) as B0.
    pose proof (Hb (Z.of_nat (S m)) ltac:(lia)) as B1.
    pose proof (Hb (Z.of_nat (S (S m))) ltac:(lia)) as B2.
    assert (idx 0 <= idx (Z.of_nat (S m))) as Hle
      by (apply increasing_from_zero; intros i Hi; apply Hinc; lia).
    pose proof (Hinc (Z.of_nat (S m)) ltac:(lia)) as Hlt.
    replace (Z.of_nat (S m) + 1) with (Z.of_nat (S (S m))) in * by lia.
    pose proof (slice_join _ p (Z.to_nat (idx 0))
                  (Z.to_nat (idx (Z.of_nat (S m))))
                  (Z.to_nat (idx (Z.of_nat (S (S m)))))
                  ltac:(lia) ltac:(lia) ltac:(lia)) as J.
    rewrite !Z2Nat.id in J by lia. exact J.
Qed.

Lemma findIndex_nth : forall (p : list (Z * Z)) (i : nat),
  NoDup p -> (i < length p)%nat ->
  findIndex (fun q => (fst q =? fst (nth i p (0, 0))) &&
                      (snd q =? snd (nth i p (0, 0)))) p = Z.of_nat i.
Proof.
  intros p i Hnd Hi.
  assert (nth_error p i = Some (nth i p (0, 0))) as Hn
    by (apply nth_error_nth'; exact Hi).
  apply (findIndex_first _ _ _ _ _ Hn).
  - rewrite !Z.eqb_refl. reflexivity.
  - intros j y Hj Hy.
    assert (y <> nth i p (0, 0)) as Hne
      by (apply (NoDup_nth_error_neq _ _ _ _ _ _ Hnd Hy Hn); lia).
    apply pos_eqb_neq in Hne. exact Hne.
Qed.

(** The segments that [_createSolution] cuts for the points that
    [_placePoints] puts on a duplicate-free path. *)
Lemma createSolution_spec : forall (p : list (Z * Z)) (numPoints : Z),
  NoDup p -> 1 <= numPoints -> (0 < length p)%nat ->
  _createSolution p (pointsOn p numPoints) =
  map (fun i =>
         mkSegment (i + 1) (i + 2)
           (slice p (pointIndex numPoints (Z.of_nat (length p)) i)
                    (pointIndex numPoints (Z.of_nat (length p)) (i + 1) + 1)))
      (range (numPoints - 1)).
Proof.
  intros p numPoints Hnd Hn HL. unfold _createSolution. cbv zeta.
  set (idx := pointIndex numPoints (Z.of_nat (length p))).
  assert (map (fun point =>
                 findIndex (fun q => (fst q =? p_row point) &&
                                     (snd q =? p_col point)) p)
              (pointsOn p numPoints) =
          map idx (range numPoints)) as ->.
  { unfold pointsOn. rewrite map_map. apply map_ext_in. intros i Hi.
    apply In_range in Hi. cbn [p_row p_col]. fold idx.
    pose proof (pointIndex_bounds numPoints (Z.of_nat (length p)) i
                  ltac:(lia) ltac:(lia)) as Hb. fold idx in Hb.
    rewrite findIndex_nth by (assumption || lia). lia. }
  assert (Z.of_nat (length (pointsOn p numPoints)) = numPoints) as ->.
  { unfold pointsOn. rewrite length_map, length_range. lia. }
  apply map_ext_in. intros i Hi. apply In_range in Hi.
  rewrite !at_index_map, !at_index_range.
  destruct (Z.leb_spec 0 i); [|lia]. destruct (Z.ltb_spec i numPoints); [|lia].
  destruct (Z.leb_spec 0 (i + 1)); [|lia].
  destruct (Z.ltb_spec (i + 1) numPoints); [|lia].
  reflexivity.
Qed.

(** ** The recorded solution path *)

Lemma nondecreasing_from_zero : forall (idx : Z -> Z) (n : nat),
  (forall i, 0 <= i < Z.of_nat n -> idx i <= idx (i + 1)) ->
  idx 0 <= idx (Z.of_nat n).
Proof.
  intros idx; induction n as [|n IH]; intros H.
  - simpl. lia.
  - assert (idx 0 <= idx (Z.of_nat n)) as X
      by (apply IH; intros i Hi; apply H; lia).
    pose proof (H (Z.of_nat n) ltac:(lia)) as Y.
    replace (Z.of_nat (S n)) with (Z.of_nat n + 1) by lia. lia.
Qed.

(** The slices between indices that do not decrease join into the slice
    from the first index to the last. *)
Lemma joinSegments_slices_le : forall (p : list (Z * Z)) (idx : Z -> Z)
    (m : nat),
  (forall i, 0 <= i <= Z.of_nat (S m) -> 0 <= idx i < Z.of_nat (length p)) ->
  (forall i, 0 <= i < Z.of_nat (S m) -> idx i <= idx (i + 1)) ->
  joinSegments (map (fun i => slice p (idx i) (idx (i + 1) + 1))
                    (range (Z.of_nat (S m)))) =
  slice p (idx 0) (idx (Z.of_nat (S m)) + 1).
Proof.
  intros p idx; induction m as [|m IH]; intros Hb Hinc.
  - simpl. rewrite app_nil_r. reflexivity.
  - rewrite range_S, map_app. cbn [map].
    rewrite joinSegments_snoc.
    2:{ rewrite range_S, map_app. intros E. apply app_eq_nil in E.
        destruct E; discriminate. }
    rewrite IH;
      [| intros i Hi; apply Hb; lia | intros i Hi; apply Hinc; lia].
    pose proof (Hb 0 ltac:(lia)) as B0.
    pose proof (Hb (Z.of_nat (S m)) ltac:(lia)) as B1.
    pose proof (Hb (Z.of_nat (S (S m))) ltac:(lia)) as B2.
    assert (idx 0 <= idx (Z.of_nat (S m))) as Hle
      by (apply nondecreasing_from_zero; intros i Hi; apply Hinc; lia).
    pose proof (Hinc (Z.of_nat (S m)) ltac:(lia)) as Hlt.
    replace (Z.of_nat (S m) + 1) with (Z.of_nat (S (S m))) in * by lia.
    pose proof (slice_join _ p (Z.to_nat (idx 0))
                  (Z.to_nat (idx (Z.of_nat (S m))))
                  (Z.to_nat (idx (Z.of_nat (S (S m)))))
                  ltac:(lia) ltac:(lia) ltac:(lia)) as J.
    rewrite !Z2Nat.id in J by lia. exact J.
Qed.

Lemma pointIndex_nondecreasing : forall numPoints len i,
  2 <= numPoints -> 1 <= len -> 0 <= i < numPoints - 1 ->
  pointIndex numPoints len i <= pointIndex numPoints len (i + 1).
Proof.
  intros numPoints len i Hn Hl Hi.
  pose proof (pointIndex_bounds numPoints len i ltac:(lia) Hl) as B1.
  pose proof (pointIndex_bounds numPoints len (i + 1) ltac:(lia) Hl) as B2.
  unfold pointIndex in *.
  assert (0 <= len / numPoints) as Hq by (apply Z.div_pos; lia).
  destruct (Z.eqb_spec i 0); [lia|].
  destruct (Z.eqb_spec (i + 1) 0); [lia|].
  destruct (Z.eqb_spec i (numPoints - 1)); [lia|].
  destruct (Z.eqb_spec (i + 1) (numPoints - 1)); [lia | nia].
Qed.

(** The segments that [_createSolution] records for two points or more
    join into the path they were cut from. *)
Lemma solution_joins_to_path : forall (p : list (Z * Z)) (numPoints : Z),
  NoDup p -> 2 <= numPoints -> (0 < length p)%nat ->
  joinSegments (map seg_path (_createSolution p (pointsOn p numPoints))) = p.
Proof.
  intros p numPoints Hnd Hn Hl.
  rewrite (createSolution_spec p numPoints Hnd ltac:(lia) Hl).
  rewrite map_map. cbn [seg_path].
  set (len := Z.of_nat (length p)).
  set (idx := pointIndex numPoints len).
  replace (numPoints - 1) with (Z.of_nat (S (Z.to_nat (numPoints - 2))))
    by lia.
  rewrite (joinSegments_slices_le p idx (Z.to_nat (numPoints - 2))).
  - replace (Z.of_nat (S (Z.to_nat (numPoints - 2)))) with (numPoints - 1)
      by lia.
    assert (idx 0 = 0) as -> by reflexivity.
    assert (idx (numPoints - 1) = len - 1) as ->.
    { unfold idx, pointIndex.
      destruct (Z.eqb_spec (numPoints - 1) 0); [lia|].
      rewrite Z.eqb_refl. reflexivity. }
    replace (len - 1 + 1) with len by lia.
    change 0 with (Z.of_nat 0). unfold len.
    rewrite slice_nat by lia.
    rewrite Nat.sub_0_r. cbn [skipn]. apply firstn_all.
  - intros i Hi. apply pointIndex_bounds; lia.
  - intros i Hi. apply pointIndex_nondecreasing; lia.
Qed.

(** C4 fails on the code: asked for a single point on the 2 by 2 grid
    without obstacles, [generate] returns a level with no solution segment:
    the recorded solution path is empty, so it visits none of the four
    cells, (0,0) for one, and its length is 0, not 4. *)
Lemma single_point_level_records_no_path :
  exists lv k',
    generate alwaysFive 2 1 0 0 = Ret (Some lv, k') /\
    lv_size lv = 2 /\ lv_obstacles lv = [] /\
    lv_solution lv = [] /\
    inBounds (lv_size lv) (0, 0) = true /\
    set_has pos_eqb (lv_obstacles lv) (0, 0) = false /\
    countOf (0, 0) (joinSegments (map seg_path (lv_solution lv))) = 0%nat /\
    Z.of_nat (length (joinSegments (map seg_path (lv_solution lv)))) <>
      lv_size lv * lv_size lv - Z.of_nat (length (lv_obstacles lv)).
Proof.
  eexists. eexists.
  split; [vm_compute; reflexivity|].
  split; [reflexivity|]. split; [reflexivity|]. split; [reflexivity|].
  split; [reflexivity|]. split; [reflexivity|]. split; [reflexivity|].
  discriminate.
Qed.

(** C4 as amended: whenever [generate] returns a level for two points or
    more, the solution path that the level records, which is its solution
    segments joined with every junction cell taken once, visits every cell
    of the grid that is not an obstacle exactly once and no other cell,
    any two consecutive cells of it are 4-adjacent, and its length is
    size * size minus the number of obstacles. *)
Theorem generate_path_is_hamiltonian :
  forall random size numPoints maxObstacles k lv k',
  generate random size numPoints maxObstacles k = Ret (Some lv, k') ->
  2 <= numPoints ->
  let p := joinSegments (map seg_path (lv_solution lv)) in
  lv_size lv = size /\
  (forall c, inBounds (lv_size lv) c = true ->
             set_has pos_eqb (lv_obstacles lv) c = false ->
             countOf c p = 1%nat) /\
  (forall c, In c p ->
             inBounds (lv_size lv) c = true /\
             set_has pos_eqb (lv_obstacles lv) c = false) /\
  chain p /\
  Z.of_nat (length p) =
    lv_size lv * lv_size lv - Z.of_nat (length (lv_obstacles lv)).
Proof.
  intros random size numPoints maxObstacles k lv k' H Hn. cbv zeta.
  unfold generate in H.
  destruct (attemptLoop_some _ _ _ _ _ _ _ _ H) as [mo [k1 Ht]].
  destruct (tryGenerateLevel_spec _ _ _ _ _ _ _ Ht)
    as [p [HH [Hs [Hp [Hsol [Hnd Hl]]]]]].
  rewrite Hsol, Hp, (solution_joins_to_path p numPoints Hnd Hn Hl), Hs.
  split; [reflexivity | exact HH].
Qed.

(** The amended C4 on the 3 by 3 grid with two points and no obstacle. *)
Lemma generate_path_is_hamiltonian_witness :
  generate alwaysFive 3 2 0 0 = Ret (Some level3, cursor3) /\
  2 <= 2 /\
  chain (joinSegments (map seg_path (lv_solution level3))) /\
  Z.of_nat (length (joinSegments (map seg_path (lv_solution level3)))) =
    lv_size level3 * lv_size level3 -
    Z.of_nat (length (lv_obstacles level3)).
Proof.
  assert (generate alwaysFive 3 2 0 0 = Ret (Some level3, cursor3)) as H
    by (vm_compute; reflexivity).
  split; [exact H|]. split; [lia|].
  destruct (generate_path_is_hamiltonian alwaysFive 3 2 0 0 level3 cursor3 H
              ltac:(lia)) as (_ & _ & _ & Hc & Hlen).
  split; [exact Hc | exact Hlen].
Defined.

(** ** The points and the segments of a generated level *)

(** C5 fails on the code: asked for a single point on the 6 by 6 grid,
    [generate] returns a level whose path has 36 cells, whose only point,
    number 1, is the first cell (0,0) of the path and not its last cell
    (4,5), and which has no solution segment at all, so that the segments
    join into the empty path. *)
Lemma single_point_level_has_no_segments :
  exists lv k' p k1,
    generate alwaysFive 6 1 0 0 = Ret (Some lv, k') /\
    _findHamiltonianPath alwaysFive (_createGrid 6 []) 6 [] 0 =
      Ret (Some p, k1) /\
    length p = 36%nat /\
    _placePoints p 1 = Ret (lv_points lv) /\
    lv_points lv = [mkPoint 1 0 0] /\
    last p (0, 0) = (4, 5) /\
    lv_solution lv = [] /\
    joinSegments (map seg_path (lv_solution lv)) <> p.
Proof.
  eexists. eexists. eexists. eexists.
  split; [vm_compute; reflexivity|].
  split; [vm_compute; reflexivity|].
  split; [reflexivity|]. split; [reflexivity|]. split; [reflexivity|].
  split; [reflexivity|]. split; [reflexivity|]. discriminate.
Qed.

(** C5 as amended: whenever [generate] returns a level for a number of
    points between 2 and the length of the path, the points are numbered
    1 .. numPoints in this order; point [i + 1] sits on the path at the
    index [pointIndex numPoints length i], which is 0 for the first point,
    the final index for the last one and strictly increasing in between;
    segment [i] runs from point [i + 1] to point [i + 2] over the slice of
    the path between their indices, both included; and the segments, joined
    with every junction cell taken once, give back the path. *)
Theorem generate_points_and_segments :
  forall random size numPoints maxObstacles k lv k',
  generate random size numPoints maxObstacles k = Ret (Some lv, k') ->
  2 <= numPoints ->
  numPoints <=
    lv_size lv * lv_size lv - Z.of_nat (length (lv_obstacles lv)) ->
  exists p,
    let len := Z.of_nat (length p) in
    let idx := pointIndex numPoints len in
    _placePoints p numPoints = Ret (lv_points lv) /\
    len = lv_size lv * lv_size lv - Z.of_nat (length (lv_obstacles lv)) /\
    map number (lv_points lv) = map (fun i => i + 1) (range numPoints) /\
    (forall i, 0 <= i < numPoints ->
       exists pt, at_index (lv_points lv) i = Some pt /\
                  number pt = i + 1 /\
                  at_index p (idx i) = Some (p_row pt, p_col pt)) /\
    idx 0 = 0 /\ idx (numPoints - 1) = len - 1 /\
    (forall i j, 0 <= i -> i < j -> j < numPoints -> idx i < idx j) /\
    lv_solution lv =
      map (fun i => mkSegment (i + 1) (i + 2)
                              (slice p (idx i) (idx (i + 1) + 1)))
          (range (numPoints - 1)) /\
    joinSegments (map seg_path (lv_solution lv)) = p.
Proof.
  intros random size numPoints maxObstacles k lv k' H Hn2 HnL.
  unfold generate in H.
  destruct (attemptLoop_some _ _ _ _ _ _ _ _ H) as [mo [k1 Ht]].
  destruct (tryGenerateLevel_spec _ _ _ _ _ _ _ Ht)
    as [p [[_ [_ [_ Hlen]]] [Hs [Hp [Hsol [Hnd Hl]]]]]].
  exists p. cbv zeta.
  set (len := Z.of_nat (length p)) in *.
  set (idx := pointIndex numPoints len).
  rewrite Hs in *.
  assert (numPoints <= len) as HnL' by lia.
  assert (forall i, 0 <= i < numPoints -> 0 <= idx i < len) as Hb
    by (intros i Hi; apply pointIndex_bounds; lia).
  assert (forall i j, 0 <= i -> i < j -> j < numPoints -> idx i < idx j)
    as Hinc by (intros i j Hi Hij Hj; apply pointIndex_increasing; lia).
  assert (lv_solution lv =
          map (fun i => mkSegment (i + 1) (i + 2)
                                  (slice p (idx i) (idx (i + 1) + 1)))
              (range (numPoints - 1))) as Hsol'.
  { rewrite Hsol, Hp. apply createSolution_spec; [exact Hnd | lia | exact Hl]. }
  split; [rewrite Hp; apply placePoints_spec; exact Hl|].
  split; [exact Hlen|]. split; [|split; [|split; [|split; [|split; [|split]]]]].
  - rewrite Hp. unfold pointsOn. rewrite map_map. reflexivity.
  - intros i Hi. rewrite Hp. unfold pointsOn.
    rewrite at_index_map, at_index_range.
    destruct (Z.leb_spec 0 i); [|lia].
    destruct (Z.ltb_spec i numPoints); [|lia]. cbn [andb option_map].
    eexists. split; [reflexivity|]. split; [reflexivity|].
    cbn [p_row p_col]. rewrite <- surjective_pairing.
    fold len. fold idx. pose proof (Hb i Hi) as Hbi.
    unfold at_index. destruct (Z.ltb_spec (idx i) 0); [lia|].
    apply nth_error_nth'. lia.
  - unfold idx, pointIndex. reflexivity.
  - unfold idx, pointIndex.
    destruct (Z.eqb_spec (numPoints - 1) 0); [lia|].
    rewrite Z.eqb_refl. reflexivity.
  - exact Hinc.
  - exact Hsol'.
  - rewrite Hsol', map_map. cbn [seg_path].
    replace (numPoints - 1) with (Z.of_nat (S (Z.to_nat (numPoints - 2))))
      by lia.
    rewrite (joinSegments_slices p idx (Z.to_nat (numPoints - 2))).
    + replace (Z.of_nat (S (Z.to_nat (numPoints - 2)))) with (numPoints - 1)
        by lia.
      assert (idx 0 = 0) as -> by reflexivity.
      assert (idx (numPoints - 1) = len - 1) as ->.
      { unfold idx, pointIndex.
        destruct (Z.eqb_spec (numPoints - 1) 0); [lia|].
        rewrite Z.eqb_refl. reflexivity. }
      replace (len - 1 + 1) with len by lia.
      unfold slice. fold len.
      unfold relIndex. simpl (0 <? 0).  cbv iota.
      destruct (Z.ltb_spec len 0); [lia|].
      rewrite Z.min_id, Z.min_l by lia. unfold len.
      rewrite Nat2Z.id. simpl. rewrite Nat.sub_0_r. apply firstn_all.
    + intros i Hi. apply Hb. lia.
    + intros i Hi. apply Hinc; lia.
Qed.

(** The amended C5 on the 3 by 3 grid with two points and no obstacle. *)
Lemma generate_points_and_segments_witness :
  generate alwaysFive 3 2 0 0 = Ret (Some level3, cursor3) /\
  2 <= 2 /\
  2 <= lv_size level3 * lv_size level3 -
       Z.of_nat (length (lv_obstacles level3)) /\
  exists p,
    _placePoints p 2 = Ret (lv_points level3) /\
    joinSegments (map seg_path (lv_solution level3)) = p.
Proof.
  assert (generate alwaysFive 3 2 0 0 = Ret (Some level3, cursor3)) as H
    by (vm_compute; reflexivity).
  split; [exact H|]. split; [lia|]. split; [vm_compute; discriminate|].
  destruct (generate_points_and_segments alwaysFive 3 2 0 0 level3 cursor3 H)
    as [p [H1 [_ [_ [_ [_ [_ [_ [_ H2]]]]]]]]].
  - lia.
  - vm_compute. discriminate.
  - exists p. split; [exact H1 | exact H2].
Defined.

(* ================================================================== *)
(** * Part V: the rest of the program                                  *)
(* ================================================================== *)

(** ** Helpers.js *)

(** X1.  [areAdjacent] holds exactly between two cells at Manhattan
    distance 1; it is symmetric, and no cell is adjacent to itself or to a
    cell that [posEquals] identifies with it. *)
Theorem areAdjacent_manhattan : forall p q : Z * Z,
  (areAdjacent p q = true <->
   Z.abs (fst p - fst q) + Z.abs (snd p - snd q) = 1) /\
  areAdjacent p q = areAdjacent q p /\
  (posEquals p q = true -> areAdjacent p q = false).
Proof.
  intros [pr pc] [qr qc]. unfold areAdjacent, posEquals. cbn [fst snd].
  split; [|split].
  - rewrite orb_true_iff, !andb_true_iff, !Z.eqb_eq. lia.
  - replace (Z.abs (qr - pr)) with (Z.abs (pr - qr)) by lia.
    replace (Z.abs (qc - pc)) with (Z.abs (pc - qc)) by lia.
    reflexivity.
  - rewrite andb_true_iff, !Z.eqb_eq. intros [-> ->].
    rewrite !Z.sub_diag. reflexivity.
Qed.

(** X2.  [clamp]: with [min <= max] the result lies between the two
    bounds, is the value itself when that lies between them, and clamping
    twice changes nothing. *)
Theorem clamp_between : forall value min max : Z,
  min <= max ->
  min <= Helpers.clamp value min max <= max /\
  (min <= value <= max -> Helpers.clamp value min max = value) /\
  Helpers.clamp (Helpers.clamp value min max) min max =
    Helpers.clamp value min max.
Proof.
  intros value min max H. unfold Helpers.clamp. lia.
Qed.

Lemma clamp_between_witness :
  3 <= 9 /\ 3 <= Helpers.clamp 42 3 9 <= 9.
Proof.
  split; [lia | apply (clamp_between 42 3 9); lia].
Defined.

Lemma toInt32_range : forall x : Z,
  - 2 ^ 31 <= Helpers.toInt32 x < 2 ^ 31.
Proof.
  intros x. unfold Helpers.toInt32.
  pose proof (Z.mod_pos_bound (x + 2 ^ 31) (2 ^ 32) ltac:(lia)). lia.
Qed.

Lemma toInt32_mod : forall x : Z,
  exists k, Helpers.toInt32 x = x + k * 2 ^ 32.
Proof.
  intros x. unfold Helpers.toInt32.
  exists (- ((x + 2 ^ 31) / 2 ^ 32)).
  rewrite Z.mod_eq by lia. ring.
Qed.

Lemma toInt32_eq : forall x y k : Z,
  y = x + k * 2 ^ 32 -> - 2 ^ 31 <= y < 2 ^ 31 -> Helpers.toInt32 x = y.
Proof.
  intros x y k Hy Hr. unfold Helpers.toInt32.
  replace (x + 2 ^ 31) with ((y + 2 ^ 31) + (- k) * 2 ^ 32) by (subst y; ring).
  rewrite Z_mod_plus_full, Z.mod_small by lia. ring.
Qed.

Lemma dateHash_step : forall P h c : Z,
  h = Helpers.toInt32 P ->
  (let hash := (Helpers.toInt32 (Z.shiftl (Helpers.toInt32 h) 5) - h) + c in
   Z.land (Helpers.toInt32 hash) (Helpers.toInt32 hash)) =
  Helpers.toInt32 (31 * P + c).
Proof.
  intros P h c Hh. cbv zeta. rewrite Z.land_diag.
  rewrite Z.shiftl_mul_pow2 by lia.
  destruct (toInt32_mod P) as [k4 H4].
  destruct (toInt32_mod h) as [k2 H2].
  destruct (toInt32_mod (Helpers.toInt32 h * 2 ^ 5)) as [k3 H3].
  set (t := Helpers.toInt32 (Helpers.toInt32 h * 2 ^ 5) - h + c).
  destruct (toInt32_mod t) as [k1 H1].
  symmetry.
  apply (toInt32_eq _ _ (k1 + 32 * k2 + k3 + 31 * k4)).
  - rewrite H1. unfold t. rewrite H3, H2, Hh, H4. ring.
  - apply toInt32_range.
Qed.

Lemma dateHash_fold : forall (cs : list Z) (P h : Z),
  h = Helpers.toInt32 P ->
  fold_left
    (fun hash char =>
       let hash :=
         (Helpers.toInt32 (Z.shiftl (Helpers.toInt32 hash) 5) - hash) + char in
       Z.land (Helpers.toInt32 hash) (Helpers.toInt32 hash))
    cs h =
  Helpers.toInt32 (fold_left (fun h c => 31 * h + c) cs P).
Proof.
  induction cs as [|c cs IH]; intros P h Hh; cbn [fold_left].
  - exact Hh.
  - apply IH. apply dateHash_step. exact Hh.
Qed.

(** X3.  [dateHash] is the absolute value of the polynomial hash of the
    code units reduced to a signed 32-bit integer: the reductions made at
    every step of the loop give the same result as one reduction at the
    end.  The result lies between 0 and 2^31, both included. *)
Theorem dateHash_polynomial : forall codes : list Z,
  Helpers.dateHash codes = Z.abs (Helpers.toInt32 (polyHash codes)) /\
  0 <= Helpers.dateHash codes <= 2 ^ 31.
Proof.
  intros codes.
  assert (Helpers.dateHash codes = Z.abs (Helpers.toInt32 (polyHash codes)))
    as E.
  { unfold Helpers.dateHash, polyHash. f_equal.
    apply dateHash_fold. reflexivity. }
  split; [exact E|].
  rewrite E. pose proof (toInt32_range (polyHash codes)). lia.
Qed.

(** ** Position keys and the time display *)

Lemma Number_toString : forall n : Z,
  Helpers.Number (Helpers.toString n) = Some n.
Proof.
  intros n. unfold Helpers.Number, Helpers.toString.
  rewrite DecimalString.NilZero.isi.
  - cbn [option_map]. rewrite DecimalZ.of_to. reflexivity.
  - destruct n; cbn; try discriminate.
    intros H. injection H as H.
    exact (DecimalPos.Unsigned.to_uint_nonnil _ H).
  - destruct n; cbn; try discriminate.
    intros H. injection H as H.
    exact (DecimalPos.Unsigned.to_uint_nonnil _ H).
Qed.

Lemma strForall_append : forall (P : Ascii.ascii -> bool) (a b : String.string),
  strForall P (String.append a b) = strForall P a && strForall P b.
Proof.
  intros P a b. induction a as [|c a IH]; cbn [String.append strForall].
  - reflexivity.
  - rewrite IH. apply andb_assoc.
Qed.

Lemma numeral_string_of_uint : forall d : Decimal.uint,
  strForall isNumeral (DecimalString.NilEmpty.string_of_uint d) = true.
Proof.
  induction d; cbn [DecimalString.NilEmpty.string_of_uint strForall];
    rewrite ?IHd; reflexivity.
Qed.

Lemma numeral_toString : forall n : Z,
  strForall isNumeral (Helpers.toString n) = true.
Proof.
  intros n. unfold Helpers.toString, DecimalString.NilZero.string_of_int,
    DecimalString.NilZero.string_of_uint.
  destruct (Z.to_int n) as [d|d]; destruct d;
    cbn [strForall DecimalString.NilEmpty.string_of_uint];
    rewrite ?numeral_string_of_uint; reflexivity.
Qed.

Lemma split_single : forall (sep : Ascii.ascii) (s : String.string),
  strForall (fun c => negb (Ascii.eqb c sep)) s = true ->
  Helpers.split sep s = [s].
Proof.
  intros sep s. induction s as [|c s IH]; cbn [Helpers.split strForall].
  - reflexivity.
  - intros H. apply andb_true_iff in H as [Hc Hs].
    apply negb_true_iff in Hc. rewrite Hc, (IH Hs). reflexivity.
Qed.

Lemma split_append : forall (sep : Ascii.ascii) (a b : String.string),
  strForall (fun c => negb (Ascii.eqb c sep)) a = true ->
  Helpers.split sep (String.append a (String.String sep b)) =
  a :: Helpers.split sep b.
Proof.
  intros sep a b. induction a as [|c a IH];
    cbn [Helpers.split strForall String.append].
  - intros _. rewrite Ascii.eqb_refl. reflexivity.
  - intros H. apply andb_true_iff in H as [Hc Ha].
    apply negb_true_iff in Hc. rewrite Hc, (IH Ha). reflexivity.
Qed.

Lemma strForall_impl : forall (P Q : Ascii.ascii -> bool) (s : String.string),
  (forall c, P c = true -> Q c = true) ->
  strForall P s = true -> strForall Q s = true.
Proof.
  intros P Q s HPQ. induction s as [|c s IH]; cbn [strForall].
  - reflexivity.
  - intros H. apply andb_true_iff in H as [Hc Hs].
    rewrite (HPQ _ Hc), (IH Hs). reflexivity.
Qed.

Lemma numeral_not_sep : forall (sep c : Ascii.ascii),
  isNumeral sep = false -> isNumeral c = true ->
  negb (Ascii.eqb c sep) = true.
Proof.
  intros sep c Hs Hc. apply negb_true_iff.
  destruct (Ascii.eqb_spec c sep) as [->|]; congruence.
Qed.

Lemma toString_no_sep : forall (sep : Ascii.ascii) (n : Z),
  isNumeral sep = false ->
  strForall (fun c => negb (Ascii.eqb c sep)) (Helpers.toString n) = true.
Proof.
  intros sep n Hs.
  apply (strForall_impl isNumeral); [|apply numeral_toString].
  intros c. apply numeral_not_sep. exact Hs.
Qed.

(** X4.  [parseKey] undoes [posKey]: the key of a position splits at its
    one comma into the two numbers it was built from.  Hence two positions
    with the same key are the same position. *)
Theorem parseKey_posKey : forall row col : Z,
  Helpers.parseKey (Helpers.posKey row col) = Some (row, col) /\
  (forall row' col' : Z,
     Helpers.posKey row col = Helpers.posKey row' col' ->
     (row, col) = (row', col')).
Proof.
  assert (forall row col,
            Helpers.parseKey (Helpers.posKey row col) = Some (row, col)) as RT.
  { intros row col. unfold Helpers.parseKey, Helpers.posKey.
    rewrite split_append by (apply toString_no_sep; reflexivity).
    rewrite split_single by (apply toString_no_sep; reflexivity).
    cbn [map]. rewrite !Number_toString. reflexivity. }
  intros row col. split; [apply RT|].
  intros row' col' H.
  pose proof (RT row col) as H1. rewrite H, RT in H1.
  injection H1 as <- <-. reflexivity.
Qed.

(** The two-character field of a number that prints with one character. *)
Lemma Number_padded_digit : forall (c : Ascii.ascii) (n : Z),
  Helpers.Number (String.String c String.EmptyString) = Some n ->
  Helpers.Number (String.String Helpers.zero (String.String c String.EmptyString))
    = Some n.
Proof.
  intros c n.
  destruct c as [[] [] [] [] [] [] [] []]; vm_compute;
    intros H; try discriminate H; exact H.
Qed.

Lemma padStart_toString : forall n : Z,
  Helpers.Number (Helpers.padStart 2 Helpers.zero (Helpers.toString n)) = Some n /\
  (2 <= String.length (Helpers.padStart 2 Helpers.zero (Helpers.toString n)))%nat /\
  strForall isNumeral (Helpers.padStart 2 Helpers.zero (Helpers.toString n)) = true.
Proof.
  intros n. pose proof (Number_toString n) as HN.
  pose proof (numeral_toString n) as HD.
  unfold Helpers.padStart.
  destruct (Helpers.toString n) as [|c [|c2 rest]].
  - discriminate HN.
  - cbn. split; [apply Number_padded_digit; exact HN|].
    split; [lia|]. cbn [strForall] in HD. exact HD.
  - cbn [String.length Nat.sub repeat String.string_of_list_ascii String.append].
    split; [exact HN|]. split; [lia | exact HD].
Qed.

Lemma padStart_small : forall n : Z,
  0 <= n < 60 ->
  String.length (Helpers.padStart 2 Helpers.zero (Helpers.toString n)) = 2%nat.
Proof.
  intros n Hn.
  assert (forallb (fun i =>
            (String.length (Helpers.padStart 2 Helpers.zero (Helpers.toString i))
             =? 2)%nat) (range 60) = true) as H by (vm_compute; reflexivity).
  rewrite forallb_forall in H.
  apply Nat.eqb_eq. apply H. apply In_range. exact Hn.
Qed.

(** X5.  [formatTime] of a number of seconds that is a non-negative safe
    integer is a minutes field of at least two characters, a colon and a
    seconds field of exactly two characters: splitting at the colon and
    reading the two fields as numbers gives back the minutes and the
    seconds, so the display determines the time. *)
Theorem formatTime_fields : forall seconds : Z,
  0 <= seconds <= Helpers.MAX_SAFE_INTEGER ->
  exists mm ss : String.string,
    Helpers.formatTime seconds =
      Some (String.append mm (String.String Helpers.colon ss)) /\
    Helpers.split Helpers.colon
      (String.append mm (String.String Helpers.colon ss)) = [mm; ss] /\
    (2 <= String.length mm)%nat /\ String.length ss = 2%nat /\
    Helpers.Number mm = Some (seconds / 60) /\
    Helpers.Number ss = Some (seconds mod 60) /\
    seconds = 60 * (seconds / 60) + seconds mod 60.
Proof.
  intros seconds Hs. unfold Helpers.formatTime. cbv zeta.
  rewrite Z.abs_eq by lia.
  destruct (Z.leb_spec seconds Helpers.MAX_SAFE_INTEGER) as [_|X]; [|lia].
  rewrite Z.rem_mod_nonneg by lia.
  pose proof (Z.mod_pos_bound seconds 60 ltac:(lia)) as Hm.
  destruct (padStart_toString (seconds / 60)) as (N1 & L1 & D1).
  destruct (padStart_toString (seconds mod 60)) as (N2 & L2 & D2).
  eexists _, _. split; [reflexivity|].
  split.
  { rewrite split_append.
    - rewrite split_single; [reflexivity|].
      apply (strForall_impl isNumeral); [|exact D2].
      intros c. apply numeral_not_sep. reflexivity.
    - apply (strForall_impl isNumeral); [|exact D1].
      intros c. apply numeral_not_sep. reflexivity. }
  split; [exact L1|]. split; [apply padStart_small; exact Hm|].
  split; [exact N1|]. split; [exact N2|].
  apply Z.div_mod. lia.
Qed.

Lemma formatTime_fields_witness :
  0 <= 125 <= Helpers.MAX_SAFE_INTEGER /\
  exists mm ss : String.string,
    Helpers.formatTime 125 =
      Some (String.append mm (String.String Helpers.colon ss)) /\
    Helpers.Number mm = Some 2 /\ Helpers.Number ss = Some 5.
Proof.
  assert (0 <= 125 <= Helpers.MAX_SAFE_INTEGER) as H
    by (unfold Helpers.MAX_SAFE_INTEGER; lia).
  split; [exact H|].
  destruct (formatTime_fields 125 H)
    as (mm & ss & E & _ & _ & _ & N1 & N2 & _).
  exists mm, ss. split; [exact E|]. split; [exact N1 | exact N2].
Defined.

(** ** Grid.js *)

Lemma isPointAt_wf : forall (g : Grid.t) (r c : Z),
  grid_wf g ->
  Grid.isPointAt g r c = Ret (valid g (r, c) && isPt g (r, c)).
Proof.
  intros g r c Hwf. unfold Grid.isPointAt. rewrite (getCell_wf g r c Hwf).
  cbn [bind]. unfold isPt.
  destruct (valid g (r, c)) eqn:Hv; cbn [andb]; [|reflexivity].
  destruct (cellAt g (r, c)); reflexivity.
Qed.

Lemma isCellAvailable_wf : forall (g : Grid.t) (r c : Z),
  grid_wf g ->
  Grid.isCellAvailable g r c = Ret (valid g (r, c) && negb (occ g (r, c))).
Proof.
  intros g r c Hwf. unfold Grid.isCellAvailable.
  rewrite (getCell_wf g r c Hwf). cbn [bind]. unfold occ.
  destruct (valid g (r, c)) eqn:Hv; cbn [andb]; [|reflexivity].
  destruct (cellAt_valid g (r, c) Hwf Hv) as [cell Hc]. rewrite Hc.
  reflexivity.
Qed.

(** X6.  [Grid.getNeighbors] lists exactly the cells inside the grid that
    are 4-adjacent to the given position, each once; there are at most
    four of them. *)
Theorem Grid_getNeighbors_adjacent : forall (g : Grid.t) (row col : Z),
  (forall n : Z * Z,
     In n (Grid.getNeighbors g row col) <->
     Grid.isValidPosition g (fst n) (snd n) = true /\
     areAdjacent (row, col) n = true) /\
  NoDup (Grid.getNeighbors g row col) /\
  (length (Grid.getNeighbors g row col) <= 4)%nat.
Proof.
  intros g row col. unfold Grid.getNeighbors. cbn [map fst snd].
  split; [|split].
  - intros [a b]. rewrite filter_In. cbn [In fst snd].
    unfold areAdjacent. cbn [fst snd].
    rewrite orb_true_iff, !andb_true_iff, !Z.eqb_eq.
    split.
    + intros [H Hv]. split; [exact Hv|].
      destruct H as [H|[H|[H|[H|[]]]]]; injection H as <- <-; lia.
    + intros [Hv H]. split; [|exact Hv].
      assert ((a = row + -1 /\ b = col + 0) \/ (a = row + 1 /\ b = col + 0) \/
              (a = row + 0 /\ b = col + -1) \/ (a = row + 0 /\ b = col + 1))
        as C by lia.
      destruct C as [[-> ->]|[[-> ->]|[[-> ->]|[-> ->]]]]; auto.
  - apply NoDup_filter.
    repeat constructor; cbn [In]; intros H;
      repeat (destruct H as [H|H]; [injection H; lia|]); exact H.
  - etransitivity; [apply filter_length_le|]. cbn [length]. lia.
Qed.

(** X7.  [setPoint] followed by [getPointAt]: inside the grid the position
    is a point afterwards and [getPointAt] gives the number that was set,
    except that the number 0 reads back as [null]; outside the grid
    [setPoint] changes nothing; the points at other positions stay as they
    are. *)
Theorem setPoint_getPointAt : forall (g : Grid.t) (row col n : Z),
  grid_wf g ->
  exists g',
    Grid.setPoint g row col n = Ret g' /\
    (Grid.isValidPosition g row col = true ->
       Grid.getPointAt g' row col = (if n =? 0 then None else Some n) /\
       Grid.isPointAt g' row col = Ret true) /\
    (Grid.isValidPosition g row col = false -> g' = g) /\
    (forall r c, (r, c) <> (row, col) ->
       Grid.getPointAt g' r c = Grid.getPointAt g r c).
Proof.
  intros g row col n Hwf.
  destruct (setPoint_spec g row col n Hwf)
    as (g' & E & Hwf' & Hsz & _ & Hpt & Hmap).
  exists g'. split; [exact E|].
  change (Grid.isValidPosition g row col) with (valid g (row, col)).
  split; [|split].
  - intros Hv. split.
    + unfold Grid.getPointAt. rewrite Hmap, pos_eqb_refl, Hv. reflexivity.
    + rewrite (isPointAt_wf g' row col Hwf'), Hpt, pos_eqb_refl, Hv.
      unfold valid, Grid.isValidPosition in *. rewrite Hsz.
      cbn [fst snd] in *. rewrite Hv. reflexivity.
  - intros Hv. unfold Grid.setPoint in E.
    rewrite (getCell_wf g row col Hwf), Hv in E. cbn [bind] in E.
    injection E as <-. reflexivity.
  - intros r c Hne. unfold Grid.getPointAt. rewrite Hmap.
    destruct (pos_eqb (r, c) (row, col)) eqn:Heq.
    + apply pos_eqb_eq in Heq. contradiction.
    + reflexivity.
Qed.

Lemma setPoint_getPointAt_witness :
  grid_wf (Grid.new 3) /\
  exists g',
    Grid.setPoint (Grid.new 3) 1 2 7 = Ret g' /\
    Grid.getPointAt g' 1 2 = Some 7.
Proof.
  assert (grid_wf (Grid.new 3)) as Hwf.
  { split; [reflexivity | repeat constructor]. }
  split; [exact Hwf|].
  destruct (setPoint_getPointAt (Grid.new 3) 1 2 7 Hwf) as (g' & E & H & _).
  exists g'. split; [exact E|]. apply H. reflexivity.
Defined.

(** X8.  [releaseCell] never frees a numbered point: after [occupyCell] on
    a cell inside the grid the cell is not available, and a following
    [releaseCell] makes it available again exactly when it is not a
    point. *)
Theorem releaseCell_spares_points : forall (g : Grid.t) (row col n : Z),
  grid_wf g ->
  Grid.isValidPosition g row col = true ->
  exists g1 g2 point,
    Grid.occupyCell g row col n = Ret g1 /\
    Grid.isCellAvailable g1 row col = Ret false /\
    Grid.releaseCell g1 row col = Ret g2 /\
    Grid.isPointAt g row col = Ret point /\
    Grid.isCellAvailable g2 row col = Ret (negb point).
Proof.
  intros g row col n Hwf Hv.
  change (Grid.isValidPosition g row col) with (valid g (row, col)) in Hv.
  destruct (occupyCell_spec g row col n Hwf) as (g1 & E1 & Hwf1 & L1 & O1).
  destruct (releaseCell_spec g1 row col Hwf1) as (g2 & E2 & Hwf2 & L2 & O2).
  assert (valid g1 (row, col) = true) as Hv1
    by (rewrite (pointLayer_valid g g1 (row, col) L1); exact Hv).
  assert (valid g2 (row, col) = true) as Hv2
    by (rewrite (pointLayer_valid g1 g2 (row, col) L2); exact Hv1).
  exists g1, g2, (isPt g (row, col)).
  split; [exact E1|]. split.
  { rewrite (isCellAvailable_wf g1 row col Hwf1), Hv1, O1, pos_eqb_refl, Hv.
    reflexivity. }
  split; [exact E2|]. split.
  { rewrite (isPointAt_wf g row col Hwf), Hv. reflexivity. }
  rewrite (isCellAvailable_wf g2 row col Hwf2), Hv2, O2, pos_eqb_refl, Hv1.
  rewrite (pointLayer_isPt g g1 (row, col) L1).
  rewrite O1, pos_eqb_refl, Hv. cbn [andb].
  destruct (isPt g (row, col)); reflexivity.
Qed.

Lemma releaseCell_spares_points_witness :
  grid_wf (grid loadedObstacle) /\
  Grid.isValidPosition (grid loadedObstacle) 0 0 = true /\
  exists g1 g2,
    Grid.occupyCell (grid loadedObstacle) 0 0 1 = Ret g1 /\
    Grid.releaseCell g1 0 0 = Ret g2 /\
    Grid.isCellAvailable g2 0 0 = Ret false.
Proof.
  assert (grid_wf (grid loadedObstacle)) as Hwf.
  { split; [reflexivity | repeat constructor]. }
  split; [exact Hwf|]. split; [reflexivity|].
  destruct (releaseCell_spares_points (grid loadedObstacle) 0 0 1 Hwf eq_refl)
    as (g1 & g2 & point & E1 & _ & E2 & P & A).
  exists g1, g2. split; [exact E1|]. split; [exact E2|].
  rewrite A. vm_compute in P. injection P as <-. reflexivity.
Defined.

Lemma existsb_valid_cells : forall (g : Grid.t) (paths : list Path) (q : Z * Z),
  existsb (fun p => existsb (fun c => pos_eqb c q && valid g c) (path_cells p))
          paths =
  valid g q && existsb (fun p => existsb (pos_eqb q) (path_cells p)) paths.
Proof.
  intros g paths q.
  assert (forall cs, existsb (fun c => pos_eqb c q && valid g c) cs =
                     valid g q && existsb (pos_eqb q) cs) as Hin.
  { induction cs as [|c cs IH]; cbn [existsb].
    - rewrite andb_false_r. reflexivity.
    - rewrite IH. destruct (pos_eqb c q) eqn:E.
      + apply pos_eqb_eq in E. subst c. rewrite pos_eqb_refl.
        destruct (valid g q); reflexivity.
      + assert (pos_eqb q c = false) as E'.
        { apply pos_eqb_neq. apply pos_eqb_neq in E. congruence. }
        rewrite E'. reflexivity. }
  induction paths as [|p ps IH]; cbn [existsb].
  - rewrite andb_false_r. reflexivity.
  - rewrite IH, Hin. destruct (valid g q); reflexivity.
Qed.

(** X9.  [rebuildFromPaths] forgets what was occupied before: afterwards a
    cell inside the grid is available exactly when it lies on none of the
    given paths, point or not, and the numbered points are those of
    before. *)
Theorem rebuildFromPaths_available : forall (g : Grid.t) (paths : list Path),
  grid_wf g ->
  exists g',
    Grid.rebuildFromPaths g paths = Ret g' /\
    (forall row col,
       Grid.isCellAvailable g' row col =
       Ret (Grid.isValidPosition g row col &&
            negb (existsb (fun p => existsb (pos_eqb (row, col)) (path_cells p))
                          paths))) /\
    (forall row col, Grid.getPointAt g' row col = Grid.getPointAt g row col) /\
    (forall row col, Grid.isPointAt g' row col = Grid.isPointAt g row col).
Proof.
  intros g paths Hwf.
  destruct (rebuildFromPaths_spec paths g Hwf) as (g' & E & Hwf' & L & O).
  exists g'. split; [exact E|]. split; [|split].
  - intros row col. rewrite (isCellAvailable_wf g' row col Hwf').
    rewrite (pointLayer_valid g g' (row, col) L), O, existsb_valid_cells.
    change (Grid.isValidPosition g row col) with (valid g (row, col)).
    destruct (valid g (row, col)); reflexivity.
  - intros row col. unfold Grid.getPointAt.
    rewrite (pointLayer_points g g' L). reflexivity.
  - intros row col.
    rewrite (isPointAt_wf g' row col Hwf'), (isPointAt_wf g row col Hwf).
    rewrite (pointLayer_valid g g' (row, col) L).
    rewrite (pointLayer_isPt g g' (row, col) L). reflexivity.
Qed.

Lemma rebuildFromPaths_available_witness :
  grid_wf (grid committed3) /\
  exists g',
    Grid.rebuildFromPaths (grid committed3) [mkPath 1 [(1, 1); (1, 2)]] = Ret g' /\
    Grid.isCellAvailable g' 0 1 = Ret true /\
    Grid.isCellAvailable g' 1 1 = Ret false.
Proof.
  assert (grid_wf (grid committed3)) as Hwf.
  { split; [reflexivity | repeat constructor]. }
  split; [exact Hwf|].
  destruct (rebuildFromPaths_available (grid committed3)
              [mkPath 1 [(1, 1); (1, 2)]] Hwf) as (g' & E & A & _).
  exists g'. split; [exact E|]. split; rewrite A; reflexivity.
Defined.

(** ** The progress of a session *)

Lemma numbersFrom1_S : forall k : nat,
  numbersFrom1 (S k) = numbersFrom1 k ++ [Z.of_nat k + 1].
Proof.
  intros k. unfold numbersFrom1. rewrite range_S, map_app. reflexivity.
Qed.

Lemma length_numbersFrom1 : forall k : nat, length (numbersFrom1 k) = k.
Proof.
  intros k. unfold numbersFrom1. rewrite length_map, length_range. lia.
Qed.

Lemma In_numbersFrom1 : forall (k : nat) (x : Z),
  In x (numbersFrom1 k) <-> 1 <= x <= Z.of_nat k.
Proof.
  intros k x. unfold numbersFrom1. rewrite in_map_iff. split.
  - intros [i [<- Hi]]. apply In_range in Hi. lia.
  - intros H. exists (x - 1). split; [lia|]. apply In_range. lia.
Qed.

Lemma set_has_Z : forall (l : list Z) (x : Z),
  set_has Z.eqb l x = true <-> In x l.
Proof.
  intros l x. unfold set_has. rewrite existsb_exists. split.
  - intros [y [Hy E]]. apply Z.eqb_eq in E. subst y. exact Hy.
  - intros H. exists x. split; [exact H | apply Z.eqb_refl].
Qed.

Lemma set_add_Z_old : forall (l : list Z) (x : Z),
  In x l -> set_add Z.eqb l x = l.
Proof.
  intros l x H. unfold set_add.
  apply set_has_Z in H. rewrite H. reflexivity.
Qed.

Lemma set_add_Z_new : forall (l : list Z) (x : Z),
  ~ In x l -> set_add Z.eqb l x = l ++ [x].
Proof.
  intros l x H. unfold set_add.
  destruct (set_has Z.eqb l x) eqn:E; [|reflexivity].
  apply set_has_Z in E. contradiction.
Qed.

(** The connected points after the commit of path number [k + 1]. *)
Lemma connected_after_commit : forall k : nat,
  set_add Z.eqb
    (set_add Z.eqb
       (match k with O => [] | S _ => numbersFrom1 (S k) end)
       (Z.of_nat k + 1))
    (Z.of_nat k + 1 + 1) =
  numbersFrom1 (S (S k)).
Proof.
  intros k. destruct k as [|k].
  - reflexivity.
  - rewrite (set_add_Z_old (numbersFrom1 (S (S k))) (Z.of_nat (S k) + 1))
      by (apply In_numbersFrom1; lia).
    rewrite set_add_Z_new by (rewrite In_numbersFrom1; lia).
    rewrite (numbersFrom1_S (S (S k))). f_equal. f_equal. lia.
Qed.

Lemma Counted_nil : Counted [] 1 [].
Proof. constructor; reflexivity. Qed.

Lemma Counted_snoc : forall (ps : list Path) (n : Z) (connected : list Z)
    (cells : list (Z * Z)),
  Counted ps n connected ->
  Counted (ps ++ [mkPath n cells]) (n + 1)
          (set_add Z.eqb (set_add Z.eqb connected n) (n + 1)).
Proof.
  intros ps n connected cells [Hp Hn Hc].
  constructor.
  - rewrite map_app, length_app, Hp. cbn [map length path_number].
    rewrite Nat.add_1_r, numbersFrom1_S, Hn. reflexivity.
  - rewrite length_app. cbn [length]. lia.
  - rewrite Hc, Hn.
    replace (match ps with [] => [] | _ :: _ => numbersFrom1 (S (length ps)) end)
      with (match length ps with O => [] | S _ => numbersFrom1 (S (length ps)) end)
      by (destruct ps; reflexivity).
    rewrite connected_after_commit.
    rewrite length_app. cbn [length]. rewrite Nat.add_1_r.
    destruct (ps ++ [mkPath (Z.of_nat (length ps) + 1) cells]) eqn:E;
      [destruct ps; discriminate | reflexivity].
Qed.

(** *** The grid of a loaded level *)

Lemma loadedGrid_eq : forall (lv : Level) (g : Grid.t),
  Grid.size g = lv_size lv ->
  Grid.initializePoints g (lv_points lv) = Ret (loadedGrid lv).
Proof.
  intros lv g Hs.
  rewrite (initializePoints_size g (Grid.new (lv_size lv)) (lv_points lv))
    by (rewrite Hs; reflexivity).
  unfold loadedGrid.
  destruct (initializePoints_spec lv (Grid.new (lv_size lv)) eq_refl)
    as [g0 [E _]].
  rewrite E. reflexivity.
Qed.

Lemma loadLevel_grid : forall (lv : Level) (s : Session),
  loadLevel lv = Ret s ->
  s = mkSession (GameState.loadLevel GameState.new lv) (loadedGrid lv).
Proof.
  intros lv s H. unfold loadLevel in H.
  rewrite (loadedGrid_eq lv (Grid.new (lv_size lv)) eq_refl) in H.
  cbn [bind] in H. injection H as <-. reflexivity.
Qed.

(** The number stored in a cell is the one of the map of the points. *)
Lemma setPoint_numbers : forall (g g' : Grid.t) (r c n : Z),
  grid_wf g ->
  (forall q cell, cellAt g q = Some cell ->
     Grid.pointNumber cell = map_get pos_eqb (Grid.points g) q) ->
  Grid.setPoint g r c n = Ret g' ->
  grid_wf g' /\
  forall q cell, cellAt g' q = Some cell ->
    Grid.pointNumber cell = map_get pos_eqb (Grid.points g') q.
Proof.
  intros g g' r c n Hwf Hnum H.
  destruct (setPoint_spec g r c n Hwf) as (g1 & E & Hwf1 & _ & _ & _ & Hmap).
  rewrite E in H. injection H as <-. split; [exact Hwf1|].
  intros q cell Hq. rewrite Hmap.
  unfold Grid.setPoint in E. rewrite (getCell_wf g r c Hwf) in E.
  destruct (valid g (r, c)) eqn:Hv.
  - destruct (cellAt_valid g (r, c) Hwf Hv) as [c0 Hc0].
    rewrite Hc0 in E. cbn [bind] in E. injection E as <-.
    apply valid_bounds in Hv. cbn [fst snd] in Hv.
    match type of Hq with
    | cellAt ?G q = _ =>
        rewrite (cellAt_cells G (Grid.withCell g r c
                   (fun c1 => Grid.mkCell (Grid.row c1) (Grid.col c1)
                                (Grid.occupied c1) (Grid.pathNumber c1) true
                                (Some n))) q eq_refl) in Hq
    end.
    rewrite cellAt_withCell in Hq by lia.
    destruct (pos_eqb (r, c) q) eqn:Eq.
    + apply pos_eqb_eq in Eq. subst q. rewrite pos_eqb_refl. cbn [andb].
      rewrite Hc0 in Hq. cbn [option_map] in Hq. injection Hq as <-.
      reflexivity.
    + assert (pos_eqb q (r, c) = false) as Eq'.
      { apply pos_eqb_neq. apply pos_eqb_neq in Eq. congruence. }
      rewrite Eq'. cbn [andb]. apply Hnum. exact Hq.
  - cbn [bind] in E. injection E as <-.
    rewrite andb_false_r. apply Hnum. exact Hq.
Qed.

Lemma setPoints_numbers : forall (pts : list Point) (g g' : Grid.t),
  grid_wf g ->
  (forall q cell, cellAt g q = Some cell ->
     Grid.pointNumber cell = map_get pos_eqb (Grid.points g) q) ->
  forEach (fun g p => Grid.setPoint g (p_row p) (p_col p) (number p)) pts g
    = Ret g' ->
  forall q cell, cellAt g' q = Some cell ->
    Grid.pointNumber cell = map_get pos_eqb (Grid.points g') q.
Proof.
  induction pts as [|p pts IH]; intros g g' Hwf Hnum H; cbn [forEach] in H.
  - injection H as <-. exact Hnum.
  - apply bind_ret_inv in H. destruct H as [g1 [H1 H2]].
    destruct (setPoint_numbers g g1 _ _ _ Hwf Hnum H1) as [Hwf1 Hnum1].
    apply (IH g1 g' Hwf1 Hnum1 H2).
Qed.

Lemma loadedGrid_numbers : forall (lv : Level) (q : Z * Z) (cell : Grid.Cell),
  cellAt (loadedGrid lv) q = Some cell ->
  Grid.pointNumber cell = map_get pos_eqb (Grid.points (loadedGrid lv)) q.
Proof.
  intros lv q cell.
  pose proof (loadedGrid_eq lv (Grid.new (lv_size lv)) eq_refl) as E.
  unfold Grid.initializePoints in E.
  cbn [Grid.size Grid.new] in E.
  apply (setPoints_numbers (lv_points lv) _ _
           (createGrid_wf (lv_size lv) [])); [|exact E].
  intros q0 c0 Hq0. cbn [Grid.points map_get].
  unfold cellAt in Hq0. cbn [Grid.cells Grid.size Grid.new] in Hq0.
  unfold Grid._createGrid in Hq0.
  rewrite at_index_map in Hq0.
  destruct (at_index (range (lv_size lv)) (fst q0)); [|discriminate].
  cbn [option_map] in Hq0. rewrite at_index_map in Hq0.
  destruct (at_index (range (lv_size lv)) (snd q0)); [|discriminate].
  cbn [option_map] in Hq0. injection Hq0 as <-. reflexivity.
Qed.

(** A cell that carries a non-zero number in a session on [lv] is the
    point of this number on the loaded grid. *)
Lemma pointNumber_getPointAt : forall (lv : Level) (g : Grid.t) (q : Z * Z)
    (cell : Grid.Cell) (n : Z),
  pointLayer g = pointLayer (loadedGrid lv) ->
  cellAt g q = Some cell -> Grid.pointNumber cell = Some n -> n <> 0 ->
  Grid.getPointAt (loadedGrid lv) (fst q) (snd q) = Some n.
Proof.
  intros lv g q cell n L Hc Hn Hn0.
  pose proof (pointLayer_cell (loadedGrid lv) g q L) as Hl.
  rewrite Hc in Hl. cbn [option_map] in Hl.
  destruct (cellAt (loadedGrid lv) q) as [c0|] eqn:Hc0; [|discriminate].
  cbn [option_map] in Hl. injection Hl as _ Hl.
  pose proof (loadedGrid_numbers lv q c0 Hc0) as Hm.
  unfold Grid.getPointAt. destruct q as [qr qc]. cbn [fst snd].
  rewrite <- Hm, <- Hl, Hn.
  destruct (Z.eqb_spec n 0); [contradiction | reflexivity].
Qed.

(** *** What an extension has checked *)

Lemma tryExtendPath_adjacent : forall s row col r s' cp,
  PathManager.tryExtendPath s row col = Ret (r, s') ->
  success r = true ->
  GameState.currentPath (gs s) = Some cp ->
  exists pathEnd,
    GameState.getCurrentPathEnd (gs s) = Some pathEnd /\
    posEquals pathEnd (row, col) = false /\
    areAdjacent pathEnd (row, col) = true.
Proof.
  intros s row col r s' cp H Hr Hcp. unfold PathManager.tryExtendPath in H.
  rewrite Hcp in H.
  destruct (GameState.getCurrentPathEnd (gs s)) as [pathEnd|];
    [|injection H as <- _; discriminate].
  destruct (posEquals pathEnd (row, col)) eqn:E1;
    [injection H as <- _; discriminate|].
  destruct (areAdjacent pathEnd (row, col)) eqn:E2; cbn [negb] in H;
    [|injection H as <- _; discriminate].
  exists pathEnd. split; [reflexivity|]. split; assumption.
Qed.

Lemma tryExtendPath_completed_cell : forall s row col s',
  PathManager.tryExtendPath s row col = Ret (SuccessCompleted, s') ->
  exists cell,
    Grid.getCell (grid s) row col = Ret (Some cell) /\
    Grid.isPoint cell = true /\
    Grid.pointNumber cell = Some (GameState.currentNumber (gs s) + 1).
Proof.
  intros s row col s' H. unfold PathManager.tryExtendPath in H.
  destruct (GameState.currentPath (gs s)) as [cp|]; [|discriminate].
  destruct (GameState.getCurrentPathEnd (gs s)) as [pathEnd|]; [|discriminate].
  destruct (posEquals pathEnd (row, col)); [discriminate|].
  destruct (negb (areAdjacent pathEnd (row, col))); [discriminate|].
  destruct (negb (GameState.findInCurrentPath (gs s) row col =? -1)).
  { apply bind_ret_inv in H. destruct H as [g' [_ H]]. discriminate. }
  destruct (Grid.getCell (grid s) row col) as [[cell|]|];
    cbn [bind] in H; try discriminate.
  exists cell. split; [reflexivity|].
  destruct (Grid.isPoint cell &&
            match Grid.pointNumber cell with
            | Some n => n =? GameState.currentNumber (gs s) + 1
            | None => false
            end) eqn:Ht.
  - apply andb_true_iff in Ht. destruct Ht as [Hp Hn].
    split; [exact Hp|].
    destruct (Grid.pointNumber cell) as [n|]; [|discriminate].
    apply Z.eqb_eq in Hn. subst n. reflexivity.
  - destruct (Grid.occupied cell || _); [discriminate|].
    destruct (GameState.currentPath (GameState.extendPath (gs s) row col));
      [|discriminate].
    apply bind_ret_inv in H. destruct H as [g' [_ H]]. discriminate.
Qed.

(** *** Chains *)

Lemma chain_app_last : forall (cells : list (Z * Z)) (x : Z * Z),
  cells <> [] -> chain cells ->
  areAdjacent (last cells (0, 0)) x = true -> chain (cells ++ [x]).
Proof.
  intros cells x Hne Hc Ha.
  destruct (exists_last Hne) as [p [a E]]. subst cells.
  rewrite last_last in Ha. apply chain_snoc; assumption.
Qed.

Lemma chain_tail : forall (a : Z * Z) (l : list (Z * Z)),
  chain (a :: l) -> chain l.
Proof.
  intros a [|b l] H; [exact I | apply H].
Qed.

Lemma chain_firstn : forall (k : nat) (l : list (Z * Z)),
  chain l -> chain (firstn k l).
Proof.
  induction k as [|k IH]; intros l H; [exact I|].
  destruct l as [|a l]; [exact I|]. cbn [firstn].
  destruct l as [|b l]; [destruct k; exact I|].
  destruct k as [|k]; [exact I|]. cbn [firstn].
  destruct H as [Hab H]. split; [exact Hab|].
  apply (IH (b :: l) H).
Qed.

Lemma allAdjacent_chain : forall cells : list (Z * Z),
  PathManager.allAdjacent cells = true <-> chain cells.
Proof.
  induction cells as [|a [|b l] IH]; cbn [PathManager.allAdjacent chain].
  - tauto.
  - tauto.
  - rewrite andb_true_iff, IH. tauto.
Qed.

(** *** The state after a commit *)

Lemma completePath_status : forall (s : GameState.t) (cp : Path) (row col : Z),
  GameState.currentPath s = Some cp ->
  let s' := GameState.completePath s row col in
  GameState.levelData s' = GameState.levelData s /\
  GameState.totalPoints s' = GameState.totalPoints s /\
  (if Z.of_nat (length (GameState.connectedPoints s')) =?
      GameState.totalPoints s
   then GameState.gameState s' = GameState.COMPLETED /\
        GameState.isComplete s' = true
   else GameState.gameState s' = GameState.IDLE /\
        GameState.isComplete s' = GameState.isComplete s).
Proof.
  intros s cp row col Hcp. cbv zeta.
  unfold GameState.completePath. rewrite Hcp.
  unfold GameState._checkCompletion, GameState.saveSnapshot.
  cbn [GameState.connectedPoints GameState.totalPoints GameState.levelData
       GameState.gameState GameState.isComplete GameState.gridSize
       GameState.occupiedCells GameState.paths GameState.currentPath
       GameState.points GameState.currentNumber GameState.history
       GameState.maxHistory path_number path_cells].
  match goal with
  | |- context [Z.of_nat (length ?l) =? GameState.totalPoints s] =>
      destruct (Z.of_nat (length l) =? GameState.totalPoints s) eqn:E
  end;
    cbn [GameState.connectedPoints GameState.totalPoints GameState.levelData
         GameState.gameState GameState.isComplete]; rewrite ?E; auto.
Qed.

(** *** The progress record is kept by every operation *)

Lemma loadedGrid_spec : forall lv : Level,
  grid_wf (loadedGrid lv) /\ Grid.size (loadedGrid lv) = lv_size lv /\
  (forall q, occ (loadedGrid lv) q = false) /\
  GridOK lv (loadedGrid lv).
Proof.
  intros lv.
  destruct (initializePoints_spec lv (Grid.new (lv_size lv)) eq_refl)
    as [g0 [E [W [S [O [P M]]]]]].
  rewrite (loadedGrid_eq lv (Grid.new (lv_size lv)) eq_refl) in E.
  injection E as <-.
  split; [exact W|]. split; [exact S|]. split; [exact O|].
  constructor; assumption.
Qed.

Lemma Progress_load : forall lv s, loadLevel lv = Ret s -> Progress lv s.
Proof.
  intros lv s H. rewrite (loadLevel_grid lv s H).
  destruct (loadedGrid_spec lv) as (_ & _ & O & _).
  constructor; simpl.
  - reflexivity.
  - reflexivity.
  - reflexivity.
  - apply Counted_nil.
  - intros p [].
  - intros snap [].
  - intros cp Hcp; discriminate.
  - split; [discriminate | intros H0; contradiction H0; reflexivity].
  - discriminate.
  - intros c Hc. rewrite O in Hc. discriminate.
Qed.

Lemma Progress_tryStartPath : forall lv s row col r s',
  Inv lv s -> Progress lv s ->
  PathManager.tryStartPath s row col = Ret (r, s') -> Progress lv s'.
Proof.
  intros lv s row col r s' HI HP H. unfold PathManager.tryStartPath in H.
  pose proof (inv_grid _ _ HI) as HG.
  destruct (Grid.getPointAt (grid s) row col) as [point|] eqn:Hp;
    [|inversion H; subst; exact HP].
  destruct (negb (point =? GameState.currentNumber (gs s))) eqn:Hn;
    [inversion H; subst; exact HP|].
  destruct (GameState.currentPath (gs s)) eqn:Hcp;
    [inversion H; subst; exact HP|].
  destruct (occupyCell_spec (grid s) row col point (gok_wf _ _ HG))
    as [g' [E [W [L O]]]].
  rewrite E in H. simpl in H. inversion H; subst r s'; clear H.
  apply negb_false_iff, Z.eqb_eq in Hn.
  constructor; simpl.
  - rewrite L. apply HP.
  - apply HP.
  - apply HP.
  - apply HP.
  - apply HP.
  - apply HP.
  - intros cp Hcp'. inversion Hcp'; subst cp; clear Hcp'. simpl.
    exists (row, col), []. split; [reflexivity|]. split; [exact Hn|].
    split; [|exact I].
    unfold Grid.getPointAt in *.
    rewrite <- (pointLayer_points _ _ (pr_layer _ _ HP)). exact Hp.
  - split; [discriminate | reflexivity].
  - discriminate.
  - intros c Hc. rewrite O in Hc. rewrite In_set_add.
    destruct (pos_eqb (row, col) c && valid (grid s) (row, col)) eqn:Eq.
    + apply andb_true_iff in Eq. destruct Eq as [Eq _].
      apply pos_eqb_eq in Eq. subst c.
      split; [left; reflexivity|]. right; right.
      eexists. split; [reflexivity|]. left; reflexivity.
    + destruct (pr_occupied _ _ HP c Hc) as [Hin [Hd|[Hd|Hd]]].
      * split; [right; exact Hin | left; exact Hd].
      * split; [right; exact Hin | right; left; exact Hd].
      * destruct Hd as [cp [Hd _]]. rewrite Hcp in Hd. discriminate.
Qed.

Lemma Progress_tryExtendPath : forall lv s row col r s',
  Inv lv s -> Progress lv s ->
  PathManager.tryExtendPath s row col = Ret (r, s') -> Progress lv s'.
Proof.
  intros lv s row col r s' HI HP H.
  pose proof (inv_grid _ _ HI) as HG.
  pose proof H as H0.
  destruct (tryExtendPath_cases lv s row col HI)
    as [[reason E] | [[cp [i [g' [Hcp [Hn [Hlt [E [Htr [W [L [O1 O2]]]]]]]]]]]
       | [[cp [g' [Hcp [Hin [Hlp [Hnin [E [W [L O]]]]]]]]]
         | [cp [g' [Hcp [Hin [Hlp [Hocc [Hnin [E [W [L O]]]]]]]]]]]]];
    rewrite E in H; inversion H; subst r s'; clear H.
  - exact HP.
  - (* backtracking *)
    destruct (pr_active _ _ HP cp Hcp) as [a [rest [Ec [Hnum [Hpt Hch]]]]].
    rewrite Htr. constructor; simpl.
    + rewrite L. apply HP.
    + apply HP.
    + apply HP.
    + apply HP.
    + apply HP.
    + apply HP.
    + intros cp' Hcp'. inversion Hcp'; subst cp'; clear Hcp'. simpl.
      exists a, (firstn i rest). rewrite Ec. simpl firstn.
      split; [reflexivity|]. split; [exact Hnum|]. split; [exact Hpt|].
      change (a :: firstn i rest) with (firstn (S i) (a :: rest)).
      apply chain_firstn. rewrite <- Ec. exact Hch.
    + split; [discriminate|]. intros _. apply (pr_status _ _ HP).
      rewrite Hcp. discriminate.
    + apply (pr_completed _ _ HP).
    + intros c Hc.
      assert (~ In c (skipn (S i) (path_cells cp))) as Hns.
      { intros Hs. rewrite (O1 c Hs) in Hc. discriminate. }
      rewrite (O2 c Hns) in Hc.
      destruct (pr_occupied _ _ HP c Hc) as [Hio Hd].
      split; [apply In_fold_set_delete; split; assumption|].
      destruct Hd as [Hd|[Hd|Hd]]; [left; exact Hd | right; left; exact Hd |].
      right; right. destruct Hd as [cp0 [Hd Hc0]].
      rewrite Hcp in Hd. inversion Hd; subst cp0; clear Hd.
      eexists. split; [reflexivity|]. simpl.
      rewrite <- (firstn_skipn (S i) (path_cells cp)) in Hc0.
      apply in_app_or in Hc0. destruct Hc0 as [Hc0|Hc0];
        [exact Hc0 | contradiction].
  - (* the path is complete *)
    destruct (pr_active _ _ HP cp Hcp) as [a [rest [Ec [Hnum [Hpt Hch]]]]].
    destruct (completePath_fields (gs s) cp row col Hcp)
      as [Fp [Fc [Fh [Fpt [Fm [Fn [Fo Fcp]]]]]]].
    destruct (completePath_status (gs s) cp row col Hcp) as [Fl [Ft Fs]].
    pose proof (pr_counted _ _ HP) as HC.
    assert (path_cells cp <> []) as Hne by (rewrite Ec; discriminate).
    assert (Linked (loadedGrid lv)
              (mkPath (path_number cp) (path_cells cp ++ [(row, col)]))
              (path_number cp + 1)) as HL.
    { exists a, rest, (row, col). simpl. rewrite Ec.
      split; [reflexivity|]. split; [exact Hpt|]. split.
      - destruct (tryExtendPath_completed_cell s row col _ H0)
          as [cell [Hg [_ Hpn]]].
        rewrite (getCell_wf _ _ _ (gok_wf _ _ HG)) in Hg.
        destruct (valid (grid s) (row, col)); [|discriminate].
        injection Hg as Hg.
        apply (pointNumber_getPointAt lv (grid s) (row, col) cell
                 (path_number cp + 1) (pr_layer _ _ HP) Hg).
        + rewrite Hnum. exact Hpn.
        + rewrite Hnum, (cnt_current _ _ _ HC). lia.
      - rewrite <- Ec. apply chain_app_last; [exact Hne | exact Hch |].
        destruct (tryExtendPath_adjacent s row col _ _ cp H0 eq_refl Hcp)
          as [pathEnd [He [_ Ha]]].
        rewrite (getCurrentPathEnd_last _ _ Hcp Hne) in He.
        injection He as <-. exact Ha. }
    constructor; simpl.
    + rewrite L. apply HP.
    + rewrite Fl. apply HP.
    + rewrite Ft. apply HP.
    + rewrite Fp, Fn, Fcp, Hnum. apply Counted_snoc. exact HC.
    + rewrite Fp. intros p Hp. apply in_app_or in Hp.
      destruct Hp as [Hp|[<-|[]]]; [apply (pr_linked _ _ HP p Hp) | exact HL].
    + rewrite Fh. intros snap Hs. apply In_pushBounded in Hs.
      destruct Hs as [Hs| ->]; [apply (pr_history _ _ HP snap Hs)|].
      simpl. rewrite deepClone_id. split; [exact HC|].
      split; [apply (pr_linked _ _ HP)|].
      intros p c Hp Hc. apply In_set_add. right.
      apply (pr_occupied _ _ HP c). apply (inv_paths_occ _ _ HI p c Hp Hc).
    + rewrite Fc. discriminate.
    + rewrite Fc. split; [|intros X; contradiction X; reflexivity].
      intros X. destruct (_ =? _); destruct Fs as [Fs _]; congruence.
    + intros X. rewrite Ft.
      destruct (Z.of_nat _ =? GameState.totalPoints (gs s)) eqn:Eq;
        destruct Fs as [Fs Fi]; [|congruence].
      split; [exact Fi|]. split; [apply Z.eqb_eq; exact Eq|].
      rewrite Fp. destruct (GameState.paths (gs s)); discriminate.
    + intros c Hc. rewrite O in Hc. rewrite Fo, Fp, Fc, In_set_add.
      destruct (pos_eqb (row, col) c) eqn:Eq.
      * apply pos_eqb_eq in Eq. subst c. split; [left; reflexivity|].
        right; left. eexists. split; [apply in_or_app; right; left; reflexivity|].
        simpl. apply in_or_app; right; left; reflexivity.
      * destruct (pr_occupied _ _ HP c Hc) as [Hio Hd].
        split; [right; exact Hio|].
        destruct Hd as [Hd|[[p [Hp Hcp']]|[cp0 [Hd Hc0]]]].
        -- left; exact Hd.
        -- right; left. exists p. split; [apply in_or_app; left; exact Hp|].
           exact Hcp'.
        -- rewrite Hcp in Hd. inversion Hd; subst cp0; clear Hd.
           right; left. eexists.
           split; [apply in_or_app; right; left; reflexivity|].
           simpl. apply in_or_app; left; exact Hc0.
  - (* one more cell *)
    destruct (pr_active _ _ HP cp Hcp) as [a [rest [Ec [Hnum [Hpt Hch]]]]].
    assert (path_cells cp <> []) as Hne by (rewrite Ec; discriminate).
    rewrite (extendPath_fields _ _ _ _ Hcp). constructor; simpl.
    + rewrite L. apply HP.
    + apply HP.
    + apply HP.
    + apply HP.
    + apply HP.
    + apply HP.
    + intros cp' Hcp'. inversion Hcp'; subst cp'; clear Hcp'. simpl.
      exists a, (rest ++ [(row, col)]). rewrite Ec.
      split; [reflexivity|]. split; [exact Hnum|]. split; [exact Hpt|].
      rewrite <- Ec. apply chain_app_last; [exact Hne | exact Hch |].
      destruct (tryExtendPath_adjacent s row col _ _ cp H0 eq_refl Hcp)
        as [pathEnd [He [_ Ha]]].
      rewrite (getCurrentPathEnd_last _ _ Hcp Hne) in He.
      injection He as <-. exact Ha.
    + split; [discriminate|]. intros _. apply (pr_status _ _ HP).
      rewrite Hcp. discriminate.
    + apply (pr_completed _ _ HP).
    + intros c Hc. rewrite O in Hc. rewrite In_set_add.
      destruct (pos_eqb (row, col) c) eqn:Eq.
      * apply pos_eqb_eq in Eq. subst c. split; [left; reflexivity|].
        right; right. eexists. split; [reflexivity|]. simpl.
        apply in_or_app; right; left; reflexivity.
      * destruct (pr_occupied _ _ HP c Hc) as [Hio Hd].
        split; [right; exact Hio|].
        destruct Hd as [Hd|[Hd|[cp0 [Hd Hc0]]]];
          [left; exact Hd | right; left; exact Hd |].
        rewrite Hcp in Hd. inversion Hd; subst cp0; clear Hd.
        right; right. eexists. split; [reflexivity|]. simpl.
        apply in_or_app; left; exact Hc0.
Qed.

Lemma Progress_cancelPath : forall lv s s',
  Inv lv s -> Progress lv s ->
  PathManager.cancelPath s = Ret s' -> Progress lv s'.
Proof.
  intros lv s s' HI HP H. unfold PathManager.cancelPath in H.
  pose proof (inv_grid _ _ HI) as HG.
  destruct (GameState.currentPath (gs s)) as [cp|] eqn:Hcp;
    [|inversion H; subst; exact HP].
  destruct (releaseAll_spec (tl (path_cells cp)) (grid s) (gok_wf _ _ HG))
    as [g' [E [W [L O]]]].
  rewrite E in H. simpl in H. inversion H; subst s'; clear H.
  destruct (inv_active _ _ HI cp Hcp) as [a [rest [Ec [Ha [Hpa [Hndr [Hr Ho]]]]]]].
  unfold GameState.cancelPath. rewrite Hcp. constructor; simpl.
  - rewrite L. apply HP.
  - apply HP.
  - apply HP.
  - apply HP.
  - apply HP.
  - apply HP.
  - discriminate.
  - split; [discriminate | intros X; contradiction X; reflexivity].
  - discriminate.
  - intros c Hc. rewrite O in Hc.
    destruct (existsb _ (tl (path_cells cp))) eqn:Ex; [discriminate|].
    assert (~ In c (tl (path_cells cp))) as Hnt.
    { intros Hin. rewrite Ec in Hin. simpl in Hin.
      destruct (Hr c Hin) as [Hg [Hnp _]].
      assert (existsb (fun p => pos_eqb p c && valid (grid s) p &&
                                negb (isPt (grid s) p))
                      (tl (path_cells cp)) = true) as X.
      { apply existsb_exists. exists c. rewrite Ec. simpl.
        split; [exact Hin|].
        rewrite pos_eqb_refl, (GridOK_valid lv _ _ HG), Hg.
        rewrite (gok_isPt _ _ HG), Hnp. reflexivity. }
      rewrite X in Ex. discriminate. }
    destruct (pr_occupied _ _ HP c Hc) as [Hio Hd].
    split; [apply In_fold_set_delete; split; assumption|].
    destruct Hd as [Hd|[Hd|[cp0 [Hd Hc0]]]];
      [left; exact Hd | right; left; exact Hd |].
    rewrite Hcp in Hd. inversion Hd; subst cp0; clear Hd.
    left. rewrite Ec in Hc0, Hnt. simpl in Hc0, Hnt.
    destruct Hc0 as [<-|Hc0]; [exact Hpa | contradiction].
Qed.

Lemma Progress_undo : forall lv s r s',
  Inv lv s -> Progress lv s ->
  PathManager.undo s = Ret (r, s') -> Progress lv s'.
Proof.
  intros lv s r s' HI HP H. unfold PathManager.undo in H.
  destruct (negb (GameState.canUndo (gs s))); [inversion H; subst; exact HP|].
  destruct (GameState.undo (gs s)) as [gs'|] eqn:Hu;
    [|inversion H; subst; exact HP].
  destruct (undo_fields _ _ Hu) as [snap [older [Eh Egs]]].
  assert (In snap (GameState.history (gs s))) as Hsnap
    by (rewrite Eh; apply in_or_app; right; left; reflexivity).
  destruct (pr_history _ _ HP snap Hsnap) as [HC [HL HO]].
  assert (Grid.size (Grid.reset (grid s)) = lv_size lv) as Hsz
    by (simpl; apply (inv_grid _ _ HI)).
  assert (GameState.points gs' = lv_points lv) as Hpts
    by (rewrite Egs; simpl; apply HI).
  assert (GameState.paths gs' = GameState.s_paths snap) as Hps
    by (rewrite Egs; reflexivity).
  rewrite Hpts, (loadedGrid_eq lv _ Hsz) in H. simpl in H.
  destruct (loadedGrid_spec lv) as (W1 & _ & O1 & _).
  destruct (rebuildFromPaths_spec (GameState.s_paths snap) (loadedGrid lv) W1)
    as [g2 [E2 [W2 [L2 O2]]]].
  rewrite Hps, E2 in H. simpl in H. inversion H; subst r s'; clear H.
  rewrite Egs. constructor; simpl.
  - exact L2.
  - apply HP.
  - apply HP.
  - exact HC.
  - exact HL.
  - intros x Hx. apply (pr_history _ _ HP). rewrite Eh.
    apply in_or_app; left; exact Hx.
  - discriminate.
  - split; [discriminate | intros X; contradiction X; reflexivity].
  - discriminate.
  - intros c Hc. rewrite O2 in Hc. apply existsb_exists in Hc.
    destruct Hc as [p [Hp Hc]]. apply existsb_exists in Hc.
    destruct Hc as [c0 [Hc0 Hb]]. apply andb_true_iff in Hb.
    destruct Hb as [Hb _]. apply pos_eqb_eq in Hb. subst c0.
    split; [apply (HO p c Hp Hc0)|].
    right; left. exists p. split; assumption.
Qed.

Lemma Progress_reset : forall lv s s',
  Inv lv s -> Progress lv s ->
  PathManager.reset s = Ret s' -> Progress lv s'.
Proof.
  intros lv s s' HI HP H. unfold PathManager.reset in H.
  assert (Grid.size (Grid.reset (grid s)) = lv_size lv) as Hsz
    by (simpl; apply (inv_grid _ _ HI)).
  assert (GameState.points (GameState.reset (gs s)) = lv_points lv) as Hpts
    by (simpl; apply HI).
  rewrite Hpts, (loadedGrid_eq lv _ Hsz) in H. simpl in H.
  inversion H; subst s'; clear H.
  destruct (loadedGrid_spec lv) as (_ & _ & O & _).
  constructor; simpl.
  - reflexivity.
  - apply HP.
  - apply HP.
  - apply Counted_nil.
  - intros p [].
  - intros snap [].
  - discriminate.
  - split; [discriminate | intros X; contradiction X; reflexivity].
  - discriminate.
  - intros c Hc. rewrite O in Hc. discriminate.
Qed.

Lemma Progress_step : forall lv s op s',
  Inv lv s -> Progress lv s -> step s op = Ret s' -> Progress lv s'.
Proof.
  intros lv s op s' HI HP H. destruct op as [row col|row col| | |]; simpl in H.
  - apply bind_ret_inv in H. destruct H as [[r s1] [H1 H2]].
    inversion H2; subst. apply (Progress_tryStartPath lv s row col r _ HI HP H1).
  - apply bind_ret_inv in H. destruct H as [[r s1] [H1 H2]].
    inversion H2; subst. apply (Progress_tryExtendPath lv s row col r _ HI HP H1).
  - apply (Progress_cancelPath lv s s' HI HP H).
  - apply bind_ret_inv in H. destruct H as [[r s1] [H1 H2]].
    inversion H2; subst. apply (Progress_undo lv s r _ HI HP H1).
  - apply (Progress_reset lv s s' HI HP H).
Qed.

Lemma reachable_Progress : forall lv s, reachable lv s -> Progress lv s.
Proof.
  intros lv s H. induction H as [s H | s op s' Hr IH H].
  - apply Progress_load; exact H.
  - apply (Progress_step lv s op s' (reachable_Inv lv s Hr) IH H).
Qed.

(** ** Sessions: what the path manager guarantees *)

Lemma tryStartPath_total : forall lv s row col,
  Inv lv s -> exists r s', PathManager.tryStartPath s row col = Ret (r, s').
Proof.
  intros lv s row col HI. unfold PathManager.tryStartPath.
  destruct (Grid.getPointAt (grid s) row col) as [point|]; [|eauto].
  destruct (negb (point =? GameState.currentNumber (gs s))); [eauto|].
  destruct (GameState.currentPath (gs s)); [eauto|].
  destruct (occupyCell_spec (grid s) row col point
              (gok_wf _ _ (inv_grid _ _ HI))) as [g' [E _]].
  rewrite E. cbn [bind]. eauto.
Qed.

Lemma tryExtendPath_returns : forall lv s row col,
  Inv lv s -> exists r s', PathManager.tryExtendPath s row col = Ret (r, s').
Proof.
  intros lv s row col HI.
  destruct (tryExtendPath_cases lv s row col HI)
    as [[reason E] | [[cp [i [g' [_ [_ [_ [E _]]]]]]]
       | [[cp [g' [_ [_ [_ [_ [E _]]]]]]]
         | [cp [g' [_ [_ [_ [_ [_ [E _]]]]]]]]]]]; rewrite E; eauto.
Qed.

Lemma cancelPath_total : forall lv s,
  Inv lv s -> exists s', PathManager.cancelPath s = Ret s'.
Proof.
  intros lv s HI. unfold PathManager.cancelPath.
  destruct (GameState.currentPath (gs s)) as [cp|]; [|eauto].
  destruct (releaseAll_spec (tl (path_cells cp)) (grid s)
              (gok_wf _ _ (inv_grid _ _ HI))) as [g' [E _]].
  rewrite E. cbn [bind]. eauto.
Qed.

Lemma undo_total : forall lv s,
  Inv lv s -> exists r s', PathManager.undo s = Ret (r, s').
Proof.
  intros lv s HI. unfold PathManager.undo.
  destruct (negb (GameState.canUndo (gs s))); [eauto|].
  destruct (GameState.undo (gs s)) as [gs'|] eqn:Hu; [|eauto].
  destruct (undo_fields _ _ Hu) as [snap [older [Eh Egs]]].
  assert (Grid.size (Grid.reset (grid s)) = lv_size lv) as Hsz
    by (simpl; apply (inv_grid _ _ HI)).
  assert (GameState.points gs' = lv_points lv) as Hpts
    by (rewrite Egs; simpl; apply HI).
  rewrite Hpts, (loadedGrid_eq lv _ Hsz). cbn [bind].
  destruct (loadedGrid_spec lv) as (W1 & _).
  destruct (rebuildFromPaths_spec (GameState.paths gs') (loadedGrid lv) W1)
    as [g2 [E2 _]].
  rewrite E2. cbn [bind]. eauto.
Qed.

Lemma reset_total : forall lv s,
  Inv lv s -> exists s', PathManager.reset s = Ret s'.
Proof.
  intros lv s HI. unfold PathManager.reset.
  assert (Grid.size (Grid.reset (grid s)) = lv_size lv) as Hsz
    by (simpl; apply (inv_grid _ _ HI)).
  assert (GameState.points (GameState.reset (gs s)) = lv_points lv) as Hpts
    by (simpl; apply HI).
  rewrite Hpts, (loadedGrid_eq lv _ Hsz). cbn [bind]. eauto.
Qed.

Lemma step_total : forall lv s op,
  Inv lv s -> exists s', step s op = Ret s'.
Proof.
  intros lv s op HI. destruct op as [row col|row col| | |]; cbn [step].
  - destruct (tryStartPath_total lv s row col HI) as [r [s' E]].
    rewrite E. cbn [bind]. eauto.
  - destruct (tryExtendPath_returns lv s row col HI) as [r [s' E]].
    rewrite E. cbn [bind]. eauto.
  - apply (cancelPath_total lv s HI).
  - destruct (undo_total lv s HI) as [r [s' E]].
    rewrite E. cbn [bind]. eauto.
  - apply (reset_total lv s HI).
Qed.

Lemma run_total : forall lv ops s,
  reachable lv s -> exists s', run s ops = Ret s' /\ reachable lv s'.
Proof.
  intros lv ops. induction ops as [|op ops IH]; intros s Hr; cbn [run].
  - eauto.
  - destruct (step_total lv s op (reachable_Inv lv s Hr)) as [s1 E].
    rewrite E. cbn [bind]. apply IH. apply (reach_step lv s op s1 Hr E).
Qed.

(** X10.  No [TypeError] in a session: from the session that the loading
    of a level leaves, and from every session reached from it, any
    sequence of [tryStartPath], [tryExtendPath], [cancelPath], [undo] and
    [reset], with any arguments, is carried out without an exception, and
    the session it ends in is a reachable one again. *)
Theorem session_never_throws :
  forall (lv : Level) (s : Session) (ops : list Op),
  reachable lv s ->
  exists s', run s ops = Ret s' /\ reachable lv s'.
Proof.
  intros lv s ops Hr. apply (run_total lv ops s Hr).
Qed.

Lemma session_never_throws_witness :
  reachable plainLevel drawing2 /\
  exists s',
    run drawing2 [OpExtend 5 5; OpExtend 0 2; OpUndo; OpStart (-1) 7;
                  OpCancel; OpReset] = Ret s' /\
    reachable plainLevel s'.
Proof.
  split; [exact reachable_drawing2|].
  apply (session_never_throws plainLevel drawing2 _ reachable_drawing2).
Defined.

(** X11.  The status [DRAWING] and the path being drawn go together: in
    every reachable session the status is [DRAWING] exactly when there is
    a current path.  So [tryExtendPath] answers [no_active_path], leaving
    the session as it is, exactly when the status is not [DRAWING], and it
    never answers [no_path_end]. *)
Theorem drawing_iff_current_path : forall lv s,
  reachable lv s ->
  (GameState.gameState (gs s) = GameState.DRAWING <->
   GameState.currentPath (gs s) <> None) /\
  (forall row col,
     GameState.gameState (gs s) <> GameState.DRAWING ->
     PathManager.tryExtendPath s row col = Ret (Failure no_active_path, s)) /\
  (forall row col r s',
     GameState.gameState (gs s) = GameState.DRAWING ->
     PathManager.tryExtendPath s row col = Ret (r, s') ->
     r <> Failure no_active_path /\ r <> Failure no_path_end).
Proof.
  intros lv s Hr.
  pose proof (reachable_Inv lv s Hr) as HI.
  pose proof (reachable_Progress lv s Hr) as HP.
  pose proof (pr_status _ _ HP) as HS.
  split; [exact HS|]. split.
  - intros row col Hnd. unfold PathManager.tryExtendPath.
    destruct (GameState.currentPath (gs s)) as [cp|] eqn:Hcp; [|reflexivity].
    exfalso. apply Hnd. apply HS. discriminate.
  - intros row col r s' Hd H.
    destruct (GameState.currentPath (gs s)) as [cp|] eqn:Hcp.
    2:{ exfalso. apply (proj1 HS Hd). reflexivity. }
    pose proof (inv_active _ _ HI cp Hcp) as HA.
    pose proof (getCurrentPathEnd_last _ _ Hcp (ActiveOK_nonempty _ _ _ _ HA))
      as Hend.
    unfold PathManager.tryExtendPath in H. rewrite Hcp, Hend in H.
    destruct (posEquals _ _); [injection H as <- _; split; discriminate|].
    destruct (negb (areAdjacent _ _));
      [injection H as <- _; split; discriminate|].
    destruct (negb (_ =? -1)).
    { apply bind_ret_inv in H. destruct H as [g' [_ H]].
      injection H as <- _. split; discriminate. }
    apply bind_ret_inv in H. destruct H as [cell [_ H]].
    destruct cell as [cell|]; [|injection H as <- _; split; discriminate].
    destruct (Grid.isPoint cell && _).
    { apply bind_ret_inv in H. destruct H as [g' [_ H]].
      injection H as <- _. split; discriminate. }
    destruct (Grid.occupied cell || _);
      [injection H as <- _; split; discriminate|].
    destruct (GameState.currentPath (GameState.extendPath (gs s) row col));
      [|discriminate].
    apply bind_ret_inv in H. destruct H as [g' [_ H]].
    injection H as <- _. split; discriminate.
Qed.

Lemma drawing_iff_current_path_witness :
  reachable plainLevel drawing2 /\
  GameState.gameState (gs drawing2) = GameState.DRAWING /\
  GameState.currentPath (gs drawing2) <> None.
Proof.
  split; [exact reachable_drawing2|].
  assert (GameState.gameState (gs drawing2) = GameState.DRAWING) as H
    by reflexivity.
  split; [exact H|].
  apply (proj1 (drawing_iff_current_path plainLevel drawing2
                  reachable_drawing2)).
  exact H.
Defined.

(** X12.  The committed paths are numbered 1, 2, ..., k in the order of
    their commits, [currentNumber] is k + 1, the connected points are
    1, ..., k + 1 (none when k = 0), and the path being drawn, if any,
    carries the number [currentNumber]. *)
Theorem paths_numbered_in_order : forall lv s,
  reachable lv s ->
  let k := length (GameState.paths (gs s)) in
  map path_number (GameState.paths (gs s)) = numbersFrom1 k /\
  GameState.currentNumber (gs s) = Z.of_nat k + 1 /\
  GameState.connectedPoints (gs s) =
    (if (k =? 0)%nat then [] else numbersFrom1 (S k)) /\
  (forall cp, GameState.currentPath (gs s) = Some cp ->
              path_number cp = Z.of_nat k + 1).
Proof.
  intros lv s Hr k.
  pose proof (reachable_Progress lv s Hr) as HP.
  destruct (pr_counted _ _ HP) as [Hp Hn Hc].
  split; [exact Hp|]. split; [exact Hn|]. split.
  - rewrite Hc. subst k. destruct (GameState.paths (gs s)); reflexivity.
  - intros cp Hcp.
    destruct (pr_active _ _ HP cp Hcp) as [a [rest [_ [Hnum _]]]].
    rewrite Hnum. exact Hn.
Qed.

Lemma reachable_committed3 : reachable plainLevel committed3.
Proof.
  apply (reachable_sessionAfter plainLevel
           [OpStart 0 0; OpExtend 0 1; OpExtend 0 2]).
  vm_compute. reflexivity.
Qed.

Lemma paths_numbered_in_order_witness :
  reachable plainLevel committed3 /\
  map path_number (GameState.paths (gs committed3)) = [1] /\
  GameState.currentNumber (gs committed3) = 2 /\
  GameState.connectedPoints (gs committed3) = [1; 2].
Proof.
  split; [exact reachable_committed3|].
  destruct (paths_numbered_in_order plainLevel committed3 reachable_committed3)
    as (H1 & H2 & H3 & _).
  split; [exact H1|]. split; [exact H2 | exact H3].
Defined.

Lemma step_extend : forall s row col r s',
  PathManager.tryExtendPath s row col = Ret (r, s') ->
  step s (OpExtend row col) = Ret s'.
Proof.
  intros s row col r s' H. cbn [step]. rewrite H. reflexivity.
Qed.

Lemma connected_length : forall lv s,
  Progress lv s -> GameState.paths (gs s) <> [] ->
  length (GameState.connectedPoints (gs s)) =
  S (length (GameState.paths (gs s))).
Proof.
  intros lv s HP Hne. rewrite (cnt_connected _ _ _ (pr_counted _ _ HP)).
  destruct (GameState.paths (gs s)) as [|p ps]; [contradiction|].
  apply length_numbersFrom1.
Qed.

Lemma completed_paths : forall lv s,
  reachable lv s ->
  GameState.gameState (gs s) = GameState.COMPLETED ->
  GameState.isComplete (gs s) = true /\
  (length (GameState.paths (gs s)) + 1 = length (lv_points lv))%nat.
Proof.
  intros lv s Hr Hc.
  pose proof (reachable_Progress lv s Hr) as HP.
  destruct (pr_completed _ _ HP Hc) as [Hi [Hl Hne]].
  split; [exact Hi|].
  rewrite (pr_total _ _ HP), (connected_length lv s HP Hne) in Hl. lia.
Qed.

(** The status that a commit leaves. *)
Lemma commit_status : forall lv s row col s',
  reachable lv s ->
  PathManager.tryExtendPath s row col = Ret (SuccessCompleted, s') ->
  reachable lv s' /\
  gs s' = GameState.completePath (gs s) row col /\
  GameState.gameState (gs s') =
    (if (length (GameState.paths (gs s')) + 1 =? length (lv_points lv))%nat
     then GameState.COMPLETED else GameState.IDLE).
Proof.
  intros lv s row col s' Hr H.
  pose proof (reachable_Inv lv s Hr) as HI.
  assert (reachable lv s') as Hr'
    by (apply (reach_step lv s (OpExtend row col) s' Hr);
        apply (step_extend s row col _ s' H)).
  pose proof (reachable_Progress lv s' Hr') as HP'.
  destruct (tryExtendPath_cases lv s row col HI)
    as [[reason E] | [[cp [i [g' [Hcp [Hn [Hlt [E _]]]]]]]
       | [[cp [g' [Hcp [Hin [Hlp [Hnin [E _]]]]]]]
         | [cp [g' [Hcp [Hin [Hlp [Hocc [Hnin [E _]]]]]]]]]]];
    rewrite E in H; try discriminate H.
  injection H as <-. split; [exact Hr'|]. split; [reflexivity|].
  destruct (completePath_fields (gs s) cp row col Hcp) as [Fp _].
  destruct (completePath_status (gs s) cp row col Hcp) as [_ [_ Fs]].
  cbn [gs] in *.
  assert (GameState.paths (GameState.completePath (gs s) row col) <> [])
    as Hne by (rewrite Fp; destruct (GameState.paths (gs s)); discriminate).
  pose proof (connected_length lv _ HP' Hne) as Hl. cbn [gs] in Hl.
  pose proof (pr_total _ _ (reachable_Progress lv s Hr)) as Ht.
  rewrite Hl, Ht in Fs.
  destruct (Z.eqb_spec
              (Z.of_nat (S (length (GameState.paths
                                      (GameState.completePath (gs s) row col)))))
              (Z.of_nat (length (lv_points lv)))) as [Eq|Ne];
    destruct Fs as [Fs _]; rewrite Fs.
  - replace (_ =? _)%nat with true; [reflexivity|].
    symmetry. apply Nat.eqb_eq. lia.
  - replace (_ =? _)%nat with false; [reflexivity|].
    symmetry. apply Nat.eqb_neq. lia.
Qed.

(** X13.  When the level counts as completed.  A session whose status is
    [COMPLETED] has [isComplete] set and one committed path less than the
    level has points.  A commit sets the status to [COMPLETED] exactly
    when the committed paths, the new one included, are one less than the
    points of the level, and to [IDLE] otherwise. *)
Theorem level_completed_iff : forall lv s,
  reachable lv s ->
  (GameState.gameState (gs s) = GameState.COMPLETED ->
   GameState.isComplete (gs s) = true /\
   (length (GameState.paths (gs s)) + 1 = length (lv_points lv))%nat) /\
  (forall row col s',
     PathManager.tryExtendPath s row col = Ret (SuccessCompleted, s') ->
     (GameState.gameState (gs s') = GameState.COMPLETED <->
      (length (GameState.paths (gs s')) + 1 = length (lv_points lv))%nat) /\
     (GameState.gameState (gs s') <> GameState.COMPLETED ->
      GameState.gameState (gs s') = GameState.IDLE)).
Proof.
  intros lv s Hr. split; [apply (completed_paths lv s Hr)|].
  intros row col s' H.
  destruct (commit_status lv s row col s' Hr H) as (_ & _ & Hs).
  rewrite Hs.
  destruct (Nat.eqb_spec (length (GameState.paths (gs s')) + 1)
                         (length (lv_points lv))) as [Eq|Ne].
  - split; [|intros X; contradiction X; reflexivity].
    split; [intros _; exact Eq | reflexivity].
  - split; [|reflexivity]. split; [discriminate | intros X; contradiction].
Qed.

Lemma level_completed_iff_witness :
  reachable plainLevel committed3 /\
  GameState.gameState (gs committed3) = GameState.COMPLETED /\
  GameState.isComplete (gs committed3) = true.
Proof.
  split; [exact reachable_committed3|].
  assert (GameState.gameState (gs committed3) = GameState.COMPLETED) as H
    by reflexivity.
  split; [exact H|].
  apply (proj1 (level_completed_iff plainLevel committed3
                  reachable_committed3) H).
Defined.

(** *** [validatePath] *)

Lemma validatePath_Linked : forall (s : Session) (p : Path) (target : Z),
  PathManager.validatePath s (Some p) target = true <->
  Linked (grid s) p target.
Proof.
  intros s p target. unfold PathManager.validatePath, Linked.
  destruct (path_cells p) as [|a [|b' l]] eqn:Ec.
  - cbn. split; [discriminate|]. intros (a & mid & b & E & _). discriminate.
  - cbn. split; [discriminate|]. intros (a0 & mid & b & E & _).
    destruct mid; discriminate.
  - assert (a :: b' :: l <> []) as Hne by discriminate.
    assert (b' :: l <> []) as Hne' by discriminate.
    destruct (exists_last Hne') as [mid [b Em]].
    replace ((length (a :: b' :: l) <? 2)%nat) with false
      by (symmetry; apply Nat.ltb_ge; cbn [length]; lia).
    rewrite (at_index_last _ (a :: b' :: l) (0, 0) Hne).
    change (at_index (a :: b' :: l) 0) with (Some a).
    rewrite Em.
    assert (last (a :: mid ++ [b]) (0, 0) = b) as Hlast
      by (change (a :: mid ++ [b]) with ((a :: mid) ++ [b]); apply last_last).
    rewrite Hlast.
    split.
    + intros H.
      destruct (Grid.getPointAt (grid s) (fst a) (snd a)) as [n|] eqn:Hs;
        [|discriminate].
      destruct (n =? path_number p) eqn:En; [|discriminate].
      apply Z.eqb_eq in En. cbn [negb] in H.
      destruct (Grid.getPointAt (grid s) (fst b) (snd b)) as [m|] eqn:He;
        [|discriminate].
      destruct (m =? target) eqn:Em'; [|discriminate].
      apply Z.eqb_eq in Em'. cbn [negb] in H. apply allAdjacent_chain in H.
      exists a, mid, b. subst n m. auto.
    + intros (a0 & mid0 & b0 & E & Hs & He & Hc).
      assert (a0 = a /\ b0 = b) as [-> ->].
      { injection E as -> E.
        apply app_inj_tail in E. destruct E as [_ ->]. auto. }
      rewrite Hs, He, !Z.eqb_refl. cbn [negb].
      apply allAdjacent_chain. exact Hc.
Qed.

Lemma Linked_points : forall (g g' : Grid.t) (p : Path) (target : Z),
  Grid.points g' = Grid.points g -> Linked g p target -> Linked g' p target.
Proof.
  intros g g' p target E (a & mid & b & Ec & Hs & He & Hc).
  exists a, mid, b. unfold Grid.getPointAt in *. rewrite E. auto.
Qed.

(** X14.  [validatePath] accepts every path that the path manager has
    committed: each committed path of a reachable session passes the
    validation against the number that follows its own. *)
Theorem committed_paths_validate : forall lv s p,
  reachable lv s ->
  In p (GameState.paths (gs s)) ->
  PathManager.validatePath s (Some p) (path_number p + 1) = true.
Proof.
  intros lv s p Hr Hp.
  pose proof (reachable_Progress lv s Hr) as HP.
  apply validatePath_Linked.
  apply (Linked_points (loadedGrid lv)).
  - apply (pointLayer_points _ _ (pr_layer _ _ HP)).
  - apply (pr_linked _ _ HP p Hp).
Qed.

Lemma committed_paths_validate_witness :
  reachable plainLevel committed3 /\
  In (mkPath 1 [(0, 0); (0, 1); (0, 2)]) (GameState.paths (gs committed3)) /\
  PathManager.validatePath committed3 (Some (mkPath 1 [(0, 0); (0, 1); (0, 2)]))
                           2 = true.
Proof.
  split; [exact reachable_committed3|].
  assert (In (mkPath 1 [(0, 0); (0, 1); (0, 2)])
             (GameState.paths (gs committed3))) as H by (left; reflexivity).
  split; [exact H|].
  apply (committed_paths_validate plainLevel committed3 _
           reachable_committed3 H).
Defined.

(** X15.  What [validatePath] checks: it accepts a path exactly when the
    path has at least two cells, starts on the point that carries the
    number of the path, ends on the point that carries the target number,
    and every two consecutive cells are 4-adjacent; it rejects [null]. *)
Theorem validatePath_characterised :
  forall (s : Session) (path : option Path) (target : Z),
  PathManager.validatePath s path target = true <->
  exists p a mid b,
    path = Some p /\
    path_cells p = a :: mid ++ [b] /\
    Grid.getPointAt (grid s) (fst a) (snd a) = Some (path_number p) /\
    Grid.getPointAt (grid s) (fst b) (snd b) = Some target /\
    chain (path_cells p).
Proof.
  intros s [p|] target.
  - rewrite validatePath_Linked. unfold Linked. split.
    + intros (a & mid & b & H). exists p, a, mid, b. split; [reflexivity|].
      exact H.
    + intros (p0 & a & mid & b & E & H). injection E as <-.
      exists a, mid, b. exact H.
  - cbn. split; [discriminate|]. intros (p & a & mid & b & E & _).
    discriminate.
Qed.

(** X16.  [tryStartPath] succeeds exactly when no path is being drawn and
    the cell is the point whose number is one more than the number of
    committed paths.  A failure leaves the session as it is; a success
    starts a path of this number on the cell, sets the status to
    [DRAWING] and marks the cell on the grid, and touches neither the
    committed paths nor the history. *)
Theorem tryStartPath_succeeds_iff : forall lv s row col,
  reachable lv s ->
  exists r s',
    PathManager.tryStartPath s row col = Ret (r, s') /\
    (success r = true <->
     GameState.currentPath (gs s) = None /\
     Grid.getPointAt (grid s) row col =
       Some (Z.of_nat (length (GameState.paths (gs s))) + 1)) /\
    (success r = false -> s' = s) /\
    (success r = true ->
     GameState.currentPath (gs s') =
       Some (mkPath (Z.of_nat (length (GameState.paths (gs s))) + 1)
                    [(row, col)]) /\
     GameState.gameState (gs s') = GameState.DRAWING /\
     Grid.isCellAvailable (grid s') row col = Ret false /\
     GameState.paths (gs s') = GameState.paths (gs s) /\
     GameState.history (gs s') = GameState.history (gs s)).
Proof.
  intros lv s row col Hr.
  pose proof (reachable_Inv lv s Hr) as HI.
  pose proof (reachable_Progress lv s Hr) as HP.
  pose proof (inv_grid _ _ HI) as HG.
  pose proof (cnt_current _ _ _ (pr_counted _ _ HP)) as Hn.
  unfold PathManager.tryStartPath.
  destruct (Grid.getPointAt (grid s) row col) as [point|] eqn:Hp.
  2:{ exists (Failure not_a_point), s. split; [reflexivity|].
      split; [|split; [reflexivity | discriminate]].
      split; [discriminate | intros [_ X]; discriminate]. }
  destruct (Z.eqb_spec point (GameState.currentNumber (gs s))) as [Ep|Ep];
    cbn [negb].
  2:{ exists (Failure wrong_point), s. split; [reflexivity|].
      split; [|split; [reflexivity | discriminate]].
      split; [discriminate|]. intros [_ X]. injection X as X. congruence. }
  destruct (GameState.currentPath (gs s)) as [cp|] eqn:Hcp.
  { exists (Failure already_drawing), s. split; [reflexivity|].
    split; [|split; [reflexivity | discriminate]].
    split; [discriminate | intros [X _]; discriminate]. }
  destruct (occupyCell_spec (grid s) row col point (gok_wf _ _ HG))
    as [g' [E [W [L O]]]].
  rewrite E. cbn [bind].
  exists Success, (mkSession (GameState.startPath (gs s) row col point) g').
  split; [reflexivity|].
  assert (inGrid lv (row, col) = true) as Hin.
  { unfold Grid.getPointAt in Hp.
    destruct (map_get pos_eqb (Grid.points (grid s)) (row, col)) as [n|] eqn:Em;
      [|discriminate].
    apply (gok_map _ _ HG _ _ Em). }
  split; [|split; [discriminate|]].
  - split; [|reflexivity]. intros _. split; [reflexivity|]. congruence.
  - intros _. cbn [gs grid GameState.startPath GameState.currentPath
                    GameState.gameState GameState.paths GameState.history].
    split; [congruence|]. split; [reflexivity|].
    split; [|split; reflexivity].
    rewrite (isCellAvailable_wf g' row col W).
    rewrite O, pos_eqb_refl, (GridOK_valid lv _ _ HG), Hin.
    cbn [andb negb]. rewrite andb_false_r. reflexivity.
Qed.

Lemma reachable_plain : reachable plainLevel (sessionAfter plainLevel []).
Proof.
  apply (reachable_sessionAfter plainLevel []). vm_compute. reflexivity.
Qed.

Lemma tryStartPath_succeeds_iff_witness :
  reachable plainLevel (sessionAfter plainLevel []) /\
  exists r s',
    PathManager.tryStartPath (sessionAfter plainLevel []) 0 0 = Ret (r, s') /\
    (success r = true <->
     GameState.currentPath (gs (sessionAfter plainLevel [])) = None /\
     Grid.getPointAt (grid (sessionAfter plainLevel [])) 0 0 = Some 1).
Proof.
  split; [exact reachable_plain|].
  destruct (tryStartPath_succeeds_iff plainLevel (sessionAfter plainLevel [])
              0 0 reachable_plain) as (r & s' & E & H & _).
  exists r, s'. split; [exact E | exact H].
Defined.

(** X17.  [cancelPath] drops the stroke and nothing else: the current path
    is gone and the status is [IDLE]; the committed paths, the current
    number, the connected points and the history are untouched; every
    cell of the stroke but the first is free again, on the grid and in the
    set of occupied cells; every other cell is as before, and the first
    cell, a numbered point, stays occupied. *)
Theorem cancelPath_releases_stroke : forall lv s cp,
  reachable lv s ->
  GameState.currentPath (gs s) = Some cp ->
  exists s' start,
    PathManager.cancelPath s = Ret s' /\
    hd_error (path_cells cp) = Some start /\
    GameState.currentPath (gs s') = None /\
    GameState.gameState (gs s') = GameState.IDLE /\
    GameState.paths (gs s') = GameState.paths (gs s) /\
    GameState.currentNumber (gs s') = GameState.currentNumber (gs s) /\
    GameState.connectedPoints (gs s') = GameState.connectedPoints (gs s) /\
    GameState.history (gs s') = GameState.history (gs s) /\
    (forall row col, In (row, col) (tl (path_cells cp)) ->
       occ (grid s') (row, col) = false /\
       GameState.isCellOccupied (gs s') row col = false) /\
    (forall row col, ~ In (row, col) (tl (path_cells cp)) ->
       occ (grid s') (row, col) = occ (grid s) (row, col) /\
       GameState.isCellOccupied (gs s') row col =
         GameState.isCellOccupied (gs s) row col) /\
    occ (grid s') start = true.
Proof.
  intros lv s cp Hr Hcp.
  pose proof (reachable_Inv lv s Hr) as HI.
  pose proof (inv_grid _ _ HI) as HG.
  pose proof (ActiveOK_NoDup _ _ _ _ (inv_active _ _ HI cp Hcp)) as Hnd.
  destruct (inv_active _ _ HI cp Hcp) as [a [rest [Ec [Ha [Hpa [Hndr [Hrest Ho]]]]]]].
  destruct (releaseAll_spec (tl (path_cells cp)) (grid s) (gok_wf _ _ HG))
    as [g' [E [W [L O]]]].
  unfold PathManager.cancelPath. rewrite Hcp, E. cbn [bind].
  exists (mkSession (GameState.cancelPath (gs s)) g'), a.
  unfold GameState.cancelPath. rewrite Hcp.
  cbn [gs grid GameState.currentPath GameState.gameState GameState.paths
       GameState.currentNumber GameState.connectedPoints GameState.history
       GameState.occupiedCells].
  split; [reflexivity|]. split; [rewrite Ec; reflexivity|].
  do 6 (split; [reflexivity|]).
  assert (forall q, In q (tl (path_cells cp)) ->
            existsb (fun p => pos_eqb p q && valid (grid s) p &&
                              negb (isPt (grid s) p))
                    (tl (path_cells cp)) = true) as Hex.
  { intros q Hq. apply existsb_exists. exists q. split; [exact Hq|].
    rewrite Ec in Hq. cbn [tl] in Hq.
    destruct (Hrest q Hq) as [Hg [Hnp _]].
    rewrite pos_eqb_refl, (GridOK_valid lv _ _ HG), Hg.
    rewrite (gok_isPt _ _ HG), Hnp. reflexivity. }
  assert (forall q, ~ In q (tl (path_cells cp)) ->
            existsb (fun p => pos_eqb p q && valid (grid s) p &&
                              negb (isPt (grid s) p))
                    (tl (path_cells cp)) = false) as Hnex.
  { intros q Hq. destruct (existsb _ _) eqn:X; [|reflexivity].
    exfalso. apply Hq. apply existsb_exists in X.
    destruct X as [x [Hx Hb]].
    apply andb_true_iff in Hb. destruct Hb as [Hb _].
    apply andb_true_iff in Hb. destruct Hb as [Hb _].
    apply pos_eqb_eq in Hb. subst x. exact Hx. }
  split; [|split].
  - intros row col Hq. split.
    + rewrite O, (Hex _ Hq). reflexivity.
    + unfold GameState.isCellOccupied.
      cbn [GameState.occupiedCells]. apply set_has_false.
      rewrite In_fold_set_delete. tauto.
  - intros row col Hq. split.
    + rewrite O, (Hnex _ Hq). reflexivity.
    + unfold GameState.isCellOccupied. cbn [GameState.occupiedCells].
      destruct (set_has pos_eqb (GameState.occupiedCells (gs s)) (row, col))
        eqn:X.
      * apply set_has_In. apply In_fold_set_delete. apply set_has_In in X.
        tauto.
      * apply set_has_false. apply set_has_false in X.
        rewrite In_fold_set_delete. tauto.
  - rewrite O, Hnex.
    + apply Ho. left; reflexivity.
    + rewrite Ec in Hnd |- *. cbn [tl]. inversion Hnd; assumption.
Qed.

Lemma cancelPath_releases_stroke_witness :
  reachable plainLevel drawing2 /\
  GameState.currentPath (gs drawing2) = Some (mkPath 1 [(0, 0); (0, 1)]) /\
  exists s',
    PathManager.cancelPath drawing2 = Ret s' /\
    occ (grid s') (0, 1) = false /\ occ (grid s') (0, 0) = true.
Proof.
  split; [exact reachable_drawing2|]. split; [reflexivity|].
  destruct (cancelPath_releases_stroke plainLevel drawing2
              (mkPath 1 [(0, 0); (0, 1)]) reachable_drawing2 eq_refl)
    as (s' & start & E & Hs & _ & _ & _ & _ & _ & _ & H1 & _ & H3).
  exists s'. split; [exact E|]. split.
  - apply (H1 0 1). left; reflexivity.
  - injection Hs as <-. exact H3.
Defined.

(** X18.  What is marked on the grid.  A cell that the grid marks as
    occupied is in the set of occupied cells of the game state; and a cell
    that is not a numbered point is marked exactly when it lies on a
    committed path or on the path being drawn: strokes that were cancelled,
    backtracked or undone leave no mark on such a cell. *)
Theorem occupied_cells_are_path_cells : forall lv s row col,
  reachable lv s ->
  Grid.isCellAvailable (grid s) row col =
    Ret (inGrid lv (row, col) && negb (occ (grid s) (row, col))) /\
  (occ (grid s) (row, col) = true ->
   GameState.isCellOccupied (gs s) row col = true) /\
  (isLevelPoint lv (row, col) = false ->
   (occ (grid s) (row, col) = true <->
    (exists p, In p (GameState.paths (gs s)) /\ In (row, col) (path_cells p)) \/
    (exists cp, GameState.currentPath (gs s) = Some cp /\
                In (row, col) (path_cells cp)))).
Proof.
  intros lv s row col Hr.
  pose proof (reachable_Inv lv s Hr) as HI.
  pose proof (reachable_Progress lv s Hr) as HP.
  pose proof (inv_grid _ _ HI) as HG.
  split; [|split].
  - rewrite (isCellAvailable_wf _ row col (gok_wf _ _ HG)).
    rewrite (GridOK_valid lv _ _ HG). reflexivity.
  - intros Ho. unfold GameState.isCellOccupied. apply set_has_In.
    apply (pr_occupied _ _ HP _ Ho).
  - intros Hnp. split.
    + intros Ho. destruct (pr_occupied _ _ HP _ Ho) as [_ [Hd|[Hd|Hd]]].
      * congruence.
      * left; exact Hd.
      * right; exact Hd.
    + intros [[p [Hp Hc]]|[cp [Hcp Hc]]].
      * apply (inv_paths_occ _ _ HI p _ Hp Hc).
      * destruct (inv_active _ _ HI cp Hcp)
          as [a [rest [Ec [_ [_ [_ [_ Ho]]]]]]].
        apply Ho. rewrite <- Ec. exact Hc.
Qed.

Lemma occupied_cells_are_path_cells_witness :
  reachable plainLevel drawing2 /\
  Grid.isCellAvailable (grid drawing2) 0 1 = Ret false /\
  Grid.isCellAvailable (grid drawing2) 1 1 = Ret true.
Proof.
  split; [exact reachable_drawing2|].
  destruct (occupied_cells_are_path_cells plainLevel drawing2 0 1
              reachable_drawing2) as (H1 & _).
  destruct (occupied_cells_are_path_cells plainLevel drawing2 1 1
              reachable_drawing2) as (H2 & _).
  split; [exact H1 | exact H2].
Defined.

(** *** The two lookups of a point *)

Lemma setPoints_map_get : forall (pts : list Point) (g g' : Grid.t),
  grid_wf g ->
  (forall p, In p pts -> valid g (p_row p, p_col p) = true) ->
  NoDup (map (fun p => (p_row p, p_col p)) pts) ->
  forEach (fun g p => Grid.setPoint g (p_row p) (p_col p) (number p)) pts g
    = Ret g' ->
  forall q,
    map_get pos_eqb (Grid.points g') q =
    match find (fun p => (p_row p =? fst q) && (p_col p =? snd q)) pts with
    | Some p => Some (number p)
    | None => map_get pos_eqb (Grid.points g) q
    end.
Proof.
  induction pts as [|p pts IH]; intros g g' Hwf Hv Hnd H q;
    cbn [forEach] in H.
  - injection H as <-. reflexivity.
  - apply bind_ret_inv in H. destruct H as [g1 [H1 H2]].
    destruct (setPoint_spec g (p_row p) (p_col p) (number p) Hwf)
      as (g1' & E & Hwf1 & Hsz & _ & _ & Hmap).
    rewrite E in H1. injection H1 as ->.
    cbn [map] in Hnd. inversion Hnd as [|x l Hnin Hnd']; subst.
    assert (forall c, valid g1 c = valid g c) as Hvalid.
    { intros c. unfold valid, Grid.isValidPosition. rewrite Hsz. reflexivity. }
    rewrite (IH g1 g' Hwf1) ; [| |exact Hnd'|exact H2].
    2:{ intros p' Hp'. rewrite Hvalid. apply Hv. right; exact Hp'. }
    cbn [find]. rewrite Hmap, (Hv p) by (left; reflexivity).
    rewrite andb_true_r.
    destruct ((p_row p =? fst q) && (p_col p =? snd q)) eqn:Eq.
    + apply andb_true_iff in Eq. rewrite !Z.eqb_eq in Eq.
      destruct Eq as [Er Ecq].
      assert (q = (p_row p, p_col p)) as Hq
        by (destruct q; cbn [fst snd] in *; congruence).
      destruct (find _ pts) as [p'|] eqn:Ef.
      * exfalso. apply Hnin. apply find_some in Ef. destruct Ef as [Hin Hb].
        apply andb_true_iff in Hb. rewrite !Z.eqb_eq in Hb.
        apply in_map_iff. exists p'. split; [|exact Hin].
        rewrite Hq in Hb. cbn [fst snd] in Hb. destruct Hb. congruence.
      * rewrite Hq, pos_eqb_refl. reflexivity.
    + assert (pos_eqb q (p_row p, p_col p) = false) as Hne.
      { apply pos_eqb_neq. intros ->. cbn [fst snd] in Eq.
        rewrite !Z.eqb_refl in Eq. discriminate. }
      rewrite Hne. reflexivity.
Qed.

(** X19.  The grid and the game state agree on the points.  For a level
    whose points lie inside the grid, on pairwise different cells, and
    carry non-zero numbers, [Grid.getPointAt] gives in every reachable
    session the number of the point that [GameState.getPointAt] finds, and
    [null] where that finds none. *)
Theorem point_lookups_agree : forall lv s row col,
  reachable lv s ->
  NoDup (map (fun p => (p_row p, p_col p)) (lv_points lv)) ->
  (forall p, In p (lv_points lv) ->
     inGrid lv (p_row p, p_col p) = true /\ number p <> 0) ->
  Grid.getPointAt (grid s) row col =
  option_map number (GameState.getPointAt (gs s) row col).
Proof.
  intros lv s row col Hr Hnd Hpts.
  pose proof (reachable_Inv lv s Hr) as HI.
  pose proof (reachable_Progress lv s Hr) as HP.
  unfold Grid.getPointAt, GameState.getPointAt.
  rewrite (pointLayer_points _ _ (pr_layer _ _ HP)), (inv_points _ _ HI).
  pose proof (loadedGrid_eq lv (Grid.new (lv_size lv)) eq_refl) as E.
  unfold Grid.initializePoints in E. cbn [Grid.size Grid.new] in E.
  assert (forall p, In p (lv_points lv) ->
            valid (Grid.mk (lv_size lv) (Grid._createGrid (lv_size lv)) [])
                  (p_row p, p_col p) = true) as Hv.
  { intros p Hp. apply (proj1 (Hpts p Hp)). }
  rewrite (setPoints_map_get (lv_points lv) _ _
             (createGrid_wf (lv_size lv) []) Hv Hnd E (row, col)).
  cbn [fst snd Grid.points map_get].
  destruct (find _ (lv_points lv)) as [p|] eqn:Ef; [|reflexivity].
  cbn [option_map]. apply find_some in Ef.
  destruct (Hpts p (proj1 Ef)) as [_ Hn0].
  destruct (Z.eqb_spec (number p) 0); [contradiction | reflexivity].
Qed.

Lemma point_lookups_agree_witness :
  reachable plainLevel committed3 /\
  Grid.getPointAt (grid committed3) 0 2 =
  option_map number (GameState.getPointAt (gs committed3) 0 2).
Proof.
  split; [exact reachable_committed3|].
  apply (point_lookups_agree plainLevel committed3 0 2 reachable_committed3).
  - repeat constructor; cbn [In]; intros H;
      repeat (destruct H as [H|H]; [discriminate H|]); exact H.
  - intros p [<-|[<-|[]]]; split; (reflexivity || discriminate).
Defined.

(** ** Hints *)

Lemma matchLoop_commonPrefix : forall (cells sol : list (Z * Z)) (i m : Z),
  PathManager.matchLoop i cells sol m =
  match commonPrefix cells sol with
  | O => m
  | S j => i + Z.of_nat j
  end.
Proof.
  induction cells as [|c cells IH]; intros sol i m.
  - reflexivity.
  - destruct sol as [|x sol]; [reflexivity|].
    cbn [PathManager.matchLoop commonPrefix].
    rewrite posEquals_pos_eqb.
    destruct (pos_eqb c x); [|reflexivity].
    rewrite IH. destruct (commonPrefix cells sol) as [|j]; lia.
Qed.

Lemma slice_three : forall (A : Type) (l : list A) (a : nat),
  slice l (Z.of_nat a) (Z.of_nat a + 3) = firstn 3 (skipn a l).
Proof.
  intros A l a. unfold slice, relIndex.
  replace (Z.of_nat a <? 0) with false by (symmetry; apply Z.ltb_ge; lia).
  replace (Z.of_nat a + 3 <? 0) with false by (symmetry; apply Z.ltb_ge; lia).
  destruct (Nat.le_gt_cases (a + 3) (length l)) as [H|H].
  - replace (Z.to_nat (Z.min (Z.of_nat a + 3) (Z.of_nat (length l))) -
             Z.to_nat (Z.min (Z.of_nat a) (Z.of_nat (length l))))%nat
      with 3%nat by lia.
    replace (Z.to_nat (Z.min (Z.of_nat a) (Z.of_nat (length l)))) with a by lia.
    reflexivity.
  - rewrite (firstn_all2 (n := 3) (skipn a l)) by (rewrite length_skipn; lia).
    destruct (Nat.le_gt_cases a (length l)) as [H'|H'].
    + replace (Z.to_nat (Z.min (Z.of_nat a) (Z.of_nat (length l)))) with a
        by lia.
      apply firstn_all2. rewrite length_skipn. lia.
    + replace (Z.to_nat (Z.min (Z.of_nat a + 3) (Z.of_nat (length l))) -
               Z.to_nat (Z.min (Z.of_nat a) (Z.of_nat (length l))))%nat
        with 0%nat by lia.
      rewrite (skipn_all2 (n := a) l) by lia. reflexivity.
Qed.

Lemma getHint_idle : forall (s : Session) (lv : Level) (seg : Segment),
  GameState.levelData (gs s) = Some lv ->
  find (fun sg => seg_from sg =? GameState.currentNumber (gs s))
       (lv_solution lv) = Some seg ->
  GameState.currentPath (gs s) = None ->
  PathManager.getHint s = Some (firstn 3 (seg_path seg)).
Proof.
  intros s lv seg Hlv Hseg Hcp. unfold PathManager.getHint.
  rewrite Hlv, Hseg, Hcp. f_equal.
  change 0 with (Z.of_nat 0). change 3 with (Z.of_nat 0 + 3).
  apply slice_three.
Qed.

Lemma getHint_drawing : forall (s : Session) (lv : Level) (seg : Segment)
    (cp : Path),
  GameState.levelData (gs s) = Some lv ->
  find (fun sg => seg_from sg =? GameState.currentNumber (gs s))
       (lv_solution lv) = Some seg ->
  GameState.currentPath (gs s) = Some cp ->
  PathManager.getHint s =
  match firstn 3 (skipn (Nat.max 1 (commonPrefix (path_cells cp)
                                                 (seg_path seg)))
                        (seg_path seg)) with
  | [] => None
  | c :: rest => Some (c :: rest)
  end.
Proof.
  intros s lv seg cp Hlv Hseg Hcp. unfold PathManager.getHint.
  rewrite Hlv, Hseg, Hcp. rewrite matchLoop_commonPrefix.
  set (j := commonPrefix (path_cells cp) (seg_path seg)).
  replace (match j with O => 0 | S j0 => 0 + Z.of_nat j0 end + 1)
    with (Z.of_nat (Nat.max 1 j)) by (destruct j; lia).
  replace (match j with O => 0 | S j0 => 0 + Z.of_nat j0 end + 4)
    with (Z.of_nat (Nat.max 1 j) + 3) by (destruct j; lia).
  rewrite slice_three.
  destruct (firstn 3 (skipn (Nat.max 1 j) (seg_path seg))); reflexivity.
Qed.

(** X20.  What [getHint] shows, for the solution segment that starts at
    the current number.  When no path is being drawn it is the first three
    cells of the segment.  When one is, it is the up to three cells of the
    segment that come after the leading part that the stroke has in common
    with the segment, or after the first cell of the segment when the two
    have nothing in common; and [null] when no cell comes after. *)
Theorem getHint_next_cells : forall (s : Session) (lv : Level) (seg : Segment),
  GameState.levelData (gs s) = Some lv ->
  find (fun sg => seg_from sg =? GameState.currentNumber (gs s))
       (lv_solution lv) = Some seg ->
  (GameState.currentPath (gs s) = None ->
   PathManager.getHint s = Some (firstn 3 (seg_path seg))) /\
  (forall cp,
     GameState.currentPath (gs s) = Some cp ->
     PathManager.getHint s =
     match firstn 3 (skipn (Nat.max 1 (commonPrefix (path_cells cp)
                                                    (seg_path seg)))
                           (seg_path seg)) with
     | [] => None
     | c :: rest => Some (c :: rest)
     end).
Proof.
  intros s lv seg Hlv Hseg. split.
  - apply (getHint_idle s lv seg Hlv Hseg).
  - intros cp. apply (getHint_drawing s lv seg cp Hlv Hseg).
Qed.

Lemma getHint_next_cells_witness :
  GameState.levelData (gs hintSession) = Some hintLevel /\
  find (fun sg => seg_from sg =? GameState.currentNumber (gs hintSession))
       (lv_solution hintLevel) =
    Some (mkSegment 1 2 [(0, 0); (1, 0); (1, 1); (1, 2); (0, 2)]) /\
  PathManager.getHint hintSession = Some [(1, 1); (1, 2); (0, 2)].
Proof.
  split; [reflexivity|]. split; [reflexivity|].
  apply (proj2 (getHint_next_cells hintSession hintLevel
                  (mkSegment 1 2 [(0, 0); (1, 0); (1, 1); (1, 2); (0, 2)])
                  eq_refl eq_refl)
               (mkPath 1 [(0, 0); (1, 0)]) eq_refl).
Defined.

Lemma matchLoop_nonneg : forall (cells sol : list (Z * Z)),
  0 <= PathManager.matchLoop 0 cells sol 0.
Proof.
  intros cells sol. rewrite matchLoop_commonPrefix.
  destruct (commonPrefix cells sol); lia.
Qed.

(** X21.  The shape of a hint.  [getHint] answers [null] when no level is
    loaded or when no solution segment starts at the current number.  A
    hint that is given has at most three cells, and they are consecutive
    cells of the solution segment that starts at the current number;
    while a path is being drawn the hint is not empty and starts after
    the first cell of the segment. *)
Theorem getHint_shape : forall (s : Session),
  (GameState.levelData (gs s) = None -> PathManager.getHint s = None) /\
  (forall lv,
     GameState.levelData (gs s) = Some lv ->
     (forall sg, In sg (lv_solution lv) ->
                 seg_from sg <> GameState.currentNumber (gs s)) ->
     PathManager.getHint s = None) /\
  (forall cells,
     PathManager.getHint s = Some cells ->
     (length cells <= 3)%nat /\
     exists lv seg i,
       GameState.levelData (gs s) = Some lv /\
       In seg (lv_solution lv) /\
       seg_from seg = GameState.currentNumber (gs s) /\
       cells = firstn (length cells) (skipn i (seg_path seg)) /\
       (GameState.currentPath (gs s) <> None ->
        cells <> [] /\ (1 <= i)%nat)).
Proof.
  intros s. split; [|split].
  - intros H. unfold PathManager.getHint. rewrite H. reflexivity.
  - intros lv Hlv Hno. unfold PathManager.getHint. rewrite Hlv.
    destruct (find _ (lv_solution lv)) as [seg|] eqn:Ef; [|reflexivity].
    apply find_some in Ef. destruct Ef as [Hin Hb].
    apply Z.eqb_eq in Hb. exfalso. apply (Hno seg Hin Hb).
  - intros cells H.
    destruct (GameState.levelData (gs s)) as [lv|] eqn:Hlv.
    2:{ unfold PathManager.getHint in H. rewrite Hlv in H. discriminate. }
    destruct (find (fun sg => seg_from sg =? GameState.currentNumber (gs s))
                   (lv_solution lv)) as [seg|] eqn:Ef.
    2:{ unfold PathManager.getHint in H. rewrite Hlv, Ef in H. discriminate. }
    pose proof (getHint_idle s lv seg Hlv Ef) as Hidle.
    pose proof (fun cp => getHint_drawing s lv seg cp Hlv Ef) as Hdraw.
    pose proof (find_some _ _ Ef) as [Hin Hb]. apply Z.eqb_eq in Hb.
    destruct (GameState.currentPath (gs s)) as [cp|] eqn:Hcp.
    + rewrite (Hdraw cp eq_refl) in H.
      set (i := Nat.max 1 (commonPrefix (path_cells cp) (seg_path seg))) in *.
      destruct (firstn 3 (skipn i (seg_path seg))) as [|c rest] eqn:Eh;
        [discriminate|].
      assert (c :: rest = cells) as <- by congruence. rewrite <- Eh.
      split; [apply firstn_le_length|].
      exists lv, seg, i. split; [reflexivity|]. split; [exact Hin|].
      split; [exact Hb|]. split.
      * rewrite length_firstn, <- firstn_firstn, firstn_all. reflexivity.
      * intros _. split; [rewrite Eh; discriminate | unfold i; lia].
    + rewrite (Hidle eq_refl) in H.
      assert (firstn 3 (seg_path seg) = cells) as <- by congruence.
      split; [apply firstn_le_length|].
      exists lv, seg, 0%nat. split; [reflexivity|]. split; [exact Hin|].
      split; [exact Hb|]. split.
      * cbn [skipn]. rewrite length_firstn, <- firstn_firstn, firstn_all.
        reflexivity.
      * intros X. contradiction X. reflexivity.
Qed.

(** ** LevelGenerator.js: shuffling, sorting and the obstacles *)

Lemma upd_nth_const_perm : forall (A : Type) (x y : A) (l : list A) (j : nat),
  nth_error l j = Some y ->
  Permutation (y :: upd_nth j (fun _ => x) l) (x :: l).
Proof.
  intros A x y. induction l as [|z l IH]; intros [|j] H; cbn in H.
  - discriminate.
  - discriminate.
  - injection H as ->. cbn [upd_nth]. apply perm_swap.
  - cbn [upd_nth].
    apply (perm_trans (perm_swap z y (upd_nth j (fun _ => x) l))).
    apply (perm_trans (perm_skip z (IH j H))).
    apply perm_swap.
Qed.

Lemma swap_perm : forall (A : Type) (i j : nat) (l : list A),
  Permutation (swap i j l) l.
Proof.
  intros A i j l. revert i j. induction l as [|z l IH]; intros i j.
  - unfold swap. destruct i, j; reflexivity.
  - unfold swap.
    destruct (nth_error (z :: l) i) as [x|] eqn:Ei; [|reflexivity].
    destruct (nth_error (z :: l) j) as [y|] eqn:Ej; [|reflexivity].
    destruct i as [|i]; destruct j as [|j]; cbn in Ei, Ej.
    + injection Ei as <-. injection Ej as <-. reflexivity.
    + injection Ei as <-. cbn [upd_nth].
      apply upd_nth_const_perm. exact Ej.
    + injection Ej as <-. cbn [upd_nth].
      apply upd_nth_const_perm. exact Ei.
    + cbn [upd_nth]. apply perm_skip.
      specialize (IH i j). unfold swap in IH. rewrite Ei, Ej in IH. exact IH.
Qed.

Lemma shuffleFrom_perm : forall (random : nat -> nat) (A : Type) (i : nat)
    (l : list A) (k : nat),
  Permutation (fst (shuffleFrom random i l k)) l /\
  snd (shuffleFrom random i l k) = (k + i)%nat.
Proof.
  intros random A. induction i as [|i IH]; intros l k; cbn [shuffleFrom].
  - split; [reflexivity | cbn [snd]; lia].
  - destruct (IH (swap (S i)
                (Z.to_nat (randFloor (random k) (Z.of_nat (S i) + 1))) l)
                (S k)) as [H1 H2].
    split.
    + apply (perm_trans H1). apply swap_perm.
    + rewrite H2. lia.
Qed.

(** X22.  [_shuffle] only reorders: the result is a permutation of the
    array, whatever the draws are, and it takes one draw for every element
    but one. *)
Theorem shuffle_is_permutation : forall (random : nat -> nat) (A : Type)
    (array : list A) (k : nat),
  Permutation (fst (_shuffle random array k)) array /\
  snd (_shuffle random array k) = (k + (length array - 1))%nat.
Proof.
  intros random A array k. unfold _shuffle. apply shuffleFrom_perm.
Qed.

Lemma insertBy_perm : forall (A : Type) (key : A -> Z) (x : A) (l : list A),
  Permutation (insertBy key x l) (x :: l).
Proof.
  intros A key x. induction l as [|y l IH]; cbn [insertBy].
  - reflexivity.
  - destruct (key x <? key y); [reflexivity|].
    apply (perm_trans (perm_skip y IH)). apply perm_swap.
Qed.

Lemma ascending_insertBy : forall (A : Type) (key : A -> Z) (x : A)
    (l : list A),
  ascending key l -> ascending key (insertBy key x l).
Proof.
  intros A key x. induction l as [|y l IH]; intros H; cbn [insertBy].
  - exact I.
  - destruct (Z.ltb_spec (key x) (key y)) as [Hlt|Hge].
    + split; [lia | exact H].
    + destruct l as [|z l].
      * cbn [insertBy]. split; [lia | exact I].
      * destruct H as [Hyz H]. specialize (IH H). cbn [insertBy] in IH |- *.
        destruct (key x <? key z).
        -- split; [lia | exact IH].
        -- split; [exact Hyz | exact IH].
Qed.

Lemma sortBy_sorted : forall (A : Type) (key : A -> Z) (l : list A),
  Permutation (sortBy key l) l /\ ascending key (sortBy key l).
Proof.
  intros A key l. unfold sortBy.
  assert (forall (l acc : list A),
            ascending key acc ->
            Permutation (fold_left (fun s x => insertBy key x s) l acc)
                        (l ++ acc) /\
            ascending key (fold_left (fun s x => insertBy key x s) l acc))
    as H.
  { clear l. induction l as [|x l IH]; intros acc Ha; cbn [fold_left app].
    - split; [reflexivity | exact Ha].
    - destruct (IH (insertBy key x acc) (ascending_insertBy A key x acc Ha))
        as [H1 H2].
      split; [|exact H2].
      apply (perm_trans H1).
      apply (perm_trans (Permutation_app_head l (insertBy_perm A key x acc))).
      apply Permutation_sym. apply Permutation_middle. }
  destruct (H l [] I) as [H1 H2]. rewrite app_nil_r in H1. auto.
Qed.

(** X23.  The order in which a step of the search tries its candidates.
    The candidates are the free unvisited neighbours of the cell, each
    once.  Unless the step shuffles them (the draw is below 0.3 and there
    are at least two), they are tried in the order of their number of
    onward moves, fewest first; with at most one candidate no draw is
    taken. *)
Theorem candidates_in_degree_order :
  forall (random : nat -> nat) (grid : list (list Z)) (size row col : Z)
         (vis : list (Z * Z)) (k : nat),
  let degree := fun a : Z * Z =>
    Z.of_nat (length (_getNeighbors grid size (fst a) (snd a) vis)) in
  let r := orderedNeighbors random grid size row col vis k in
  Permutation (fst r) (_getNeighbors grid size row col vis) /\
  (randBelow03 (random k) = false -> ascending degree (fst r)) /\
  ((length (fst r) <= 1)%nat -> ascending degree (fst r) /\ snd r = k) /\
  ((1 < length (fst r))%nat ->
   snd r = if randBelow03 (random k) then (k + length (fst r))%nat
           else S k).
Proof.
  intros random grid size row col vis k degree r. subst r.
  unfold orderedNeighbors.
  set (nb := _getNeighbors grid size row col vis).
  destruct (sortBy_sorted _ degree nb) as [HP HA].
  fold degree.
  destruct (Nat.ltb_spec 1 (length (sortBy degree nb))) as [Hl|Hl].
  - destruct (randBelow03 (random k)) eqn:Er.
    + unfold _shuffle.
      destruct (shuffleFrom_perm random _ (length (sortBy degree nb) - 1)
                  (sortBy degree nb) (S k)) as [H1 H2].
      split; [apply (perm_trans H1); exact HP|].
      split; [discriminate|].
      pose proof (Permutation_length H1) as HL.
      split; [intros X; lia|]. intros _. rewrite H2, HL. lia.
    + cbn [fst snd]. split; [exact HP|]. split; [intros _; exact HA|].
      split; [intros X; lia | reflexivity].
  - cbn [fst snd]. split; [exact HP|]. split; [intros _; exact HA|].
    split; [auto | intros X; lia].
Qed.

Lemma obstacleLoop_interior :
  forall random size maxObstacles remaining obstacles k,
  2 <= size ->
  NoDup obstacles ->
  (forall o, In o obstacles ->
     1 <= fst o <= size - 2 /\ 1 <= snd o <= size - 2) ->
  let r := obstacleLoop random size maxObstacles remaining obstacles obstacles k in
  NoDup (fst r) /\
  (forall o, In o (fst r) ->
     1 <= fst o <= size - 2 /\ 1 <= snd o <= size - 2) /\
  Z.of_nat (length (fst r)) <= Z.max (Z.of_nat (length obstacles)) maxObstacles /\
  (k <= snd r <= k + 2 * remaining)%nat.
Proof.
  intros random size maxObstacles; induction remaining as [|rem IH];
    intros obstacles k Hsz Hnd Hin; cbn [obstacleLoop].
  - cbn [fst snd]. split; [exact Hnd|]. split; [exact Hin|]. lia.
  - cbv zeta.
    destruct (Z.ltb_spec (Z.of_nat (length obstacles)) maxObstacles) as [Hlt|Hge].
    2:{ cbn [fst snd]. split; [exact Hnd|]. split; [exact Hin|]. lia. }
    set (row := randFloor (random k) (size - 2) + 1).
    set (col := randFloor (random (S k)) (size - 2) + 1).
    destruct (set_has pos_eqb obstacles (row, col)) eqn:Ehas; cbn [negb andb].
    + destruct (IH obstacles (S (S k)) Hsz Hnd Hin) as (H1 & H2 & H3 & H4).
      split; [exact H1|]. split; [exact H2|]. split; [exact H3 | lia].
    + destruct (negb (set_has pos_eqb _ (row, col))) eqn:Eavoid.
      * apply set_has_false in Ehas.
        rewrite (set_add_fresh obstacles (row, col) Ehas).
        assert (1 <= row <= size - 2 /\ 1 <= col <= size - 2) as Hrc.
        { destruct (Z.eq_dec size 2) as [->|Hne].
          - exfalso. unfold row, col in Eavoid.
            change (2 - 2) with 0 in Eavoid.
            rewrite !randFloor_zero in Eavoid. vm_compute in Eavoid.
            discriminate.
          - unfold row, col.
            pose proof (randFloor_range (random k) (size - 2)).
            pose proof (randFloor_range (random (S k)) (size - 2)). lia. }
        destruct (IH (obstacles ++ [(row, col)]) (S (S k)) Hsz
                     (NoDup_snoc _ _ _ Hnd Ehas)) as (H1 & H2 & H3 & H4).
        { intros o Ho. apply in_app_or in Ho.
          destruct Ho as [Ho|[<-|[]]]; [apply Hin; exact Ho | exact Hrc]. }
        split; [exact H1|]. split; [exact H2|].
        rewrite length_app in H3. cbn [length] in H3. split; lia.
      * destruct (IH obstacles (S (S k)) Hsz Hnd Hin) as (H1 & H2 & H3 & H4).
        split; [exact H1|]. split; [exact H2|]. split; [exact H3 | lia].
Qed.

(** X24.  The obstacles of a level, for a grid of side 2 or more: they
    are pairwise different, no more than [maxObstacles], and none of them
    lies in the first or last row or column, so that no corner of the
    grid is an obstacle; choosing them takes at most 20 draws for each
    obstacle allowed.  With [maxObstacles] at most 0 there is none. *)
Theorem generateObstacles_interior :
  forall (random : nat -> nat) (size maxObstacles : Z) (k : nat),
  2 <= size ->
  let r := _generateObstacles random size maxObstacles k in
  NoDup (fst r) /\
  Z.of_nat (length (fst r)) <= Z.max 0 maxObstacles /\
  (forall o, In o (fst r) ->
     1 <= fst o <= size - 2 /\ 1 <= snd o <= size - 2) /\
  (k <= snd r <= k + 20 * Z.to_nat maxObstacles)%nat /\
  (maxObstacles <= 0 -> r = ([], k)).
Proof.
  intros random size maxObstacles k Hsz r. subst r.
  unfold _generateObstacles.
  destruct (obstacleLoop_interior random size maxObstacles
              (Z.to_nat (maxObstacles * 10)) [] k Hsz (NoDup_nil _))
    as (H1 & H2 & H3 & H4).
  { intros o []. }
  split; [exact H1|]. split; [exact H3|]. split; [exact H2|].
  split; [lia|].
  intros Hm. replace (Z.to_nat (maxObstacles * 10)) with 0%nat by lia.
  reflexivity.
Qed.

Lemma generateObstacles_interior_witness :
  2 <= 4 /\
  NoDup (fst (_generateObstacles alwaysFive 4 3 0)) /\
  Z.of_nat (length (fst (_generateObstacles alwaysFive 4 3 0))) <= Z.max 0 3.
Proof.
  split; [lia|].
  destruct (generateObstacles_interior alwaysFive 4 3 0 ltac:(lia))
    as (H1 & H2 & _).
  split; [exact H1 | exact H2].
Defined.

(** ** GameController.js and InputHandler.js *)

Lemma isStatus_eq : forall a b : GameState.Status,
  GameController.isStatus a b = true <-> a = b.
Proof.
  intros a b. destruct a, b; cbn; split; intros H;
    try reflexivity; discriminate.
Qed.

Lemma Result_eq_dec_completed : forall r : Result,
  r = SuccessCompleted \/ r <> SuccessCompleted.
Proof.
  intros r. destruct r; (left; reflexivity) || (right; discriminate).
Qed.

Lemma tryStartPath_status : forall s row col r s',
  PathManager.tryStartPath s row col = Ret (r, s') ->
  (GameState.gameState (gs s') = GameState.DRAWING \/ s' = s) /\
  GameState.isComplete (gs s') = GameState.isComplete (gs s).
Proof.
  intros s row col r s' H. unfold PathManager.tryStartPath in H.
  destruct (Grid.getPointAt (grid s) row col) as [point|];
    [|injection H as _ <-; split; [right|]; reflexivity].
  destruct (negb (point =? GameState.currentNumber (gs s)));
    [injection H as _ <-; split; [right|]; reflexivity|].
  destruct (GameState.currentPath (gs s));
    [injection H as _ <-; split; [right|]; reflexivity|].
  destruct (Grid.occupyCell (grid s) row col point) as [g'|];
    [|discriminate].
  cbn [bind] in H. injection H as _ <-. split; [left|]; reflexivity.
Qed.

Lemma tryExtendPath_status : forall lv s row col r s',
  Inv lv s ->
  PathManager.tryExtendPath s row col = Ret (r, s') ->
  r <> SuccessCompleted ->
  GameState.gameState (gs s') = GameState.gameState (gs s).
Proof.
  intros lv s row col r s' HI H Hr.
  destruct (tryExtendPath_cases lv s row col HI)
    as [[reason E]
       |[(cp & i & g' & Hcp & _ & _ & E & Ht & _)
        |[(cp & g' & _ & _ & _ & _ & E & _)
         |(cp & g' & Hcp & _ & _ & _ & _ & E & _)]]];
    rewrite E in H; injection H as <- <-.
  - reflexivity.
  - cbn [gs]. rewrite Ht. reflexivity.
  - contradiction Hr; reflexivity.
  - cbn [gs]. unfold GameState.extendPath. rewrite Hcp. reflexivity.
Qed.

Lemma cancelPath_effect : forall s s',
  PathManager.cancelPath s = Ret s' ->
  GameState.currentPath (gs s') = None /\
  (GameState.gameState (gs s') = GameState.IDLE \/ s' = s) /\
  GameState.isComplete (gs s') = GameState.isComplete (gs s).
Proof.
  intros s s' H. unfold PathManager.cancelPath in H.
  destruct (GameState.currentPath (gs s)) as [cp|] eqn:Hcp.
  - destruct (forEach _ _ _) as [g'|]; [|discriminate].
    cbn [bind] in H. injection H as <-. cbn [gs].
    unfold GameState.cancelPath. rewrite Hcp. cbn.
    split; [reflexivity|]. split; [left|]; reflexivity.
  - injection H as <-. split; [exact Hcp|]. split; [right|]; reflexivity.
Qed.

Lemma undo_effect : forall s r s',
  PathManager.undo s = Ret (r, s') ->
  s' = s \/
  (GameState.currentPath (gs s') = None /\
   GameState.gameState (gs s') = GameState.IDLE /\
   GameState.isComplete (gs s') = GameState.isComplete (gs s)).
Proof.
  intros s r s' H. unfold PathManager.undo in H.
  destruct (negb (GameState.canUndo (gs s)));
    [injection H as _ <-; left; reflexivity|].
  destruct (GameState.undo (gs s)) as [gs'|] eqn:Hu;
    [|injection H as _ <-; left; reflexivity].
  destruct (undo_fields _ _ Hu) as (snap & older & _ & ->).
  destruct (Grid.initializePoints _ _) as [g1|]; [|discriminate].
  cbn [bind] in H.
  destruct (Grid.rebuildFromPaths _ _) as [g2|]; [|discriminate].
  cbn [bind] in H. injection H as _ <-. right. cbn.
  split; [reflexivity|]. split; reflexivity.
Qed.

Lemma reset_effect : forall s s',
  PathManager.reset s = Ret s' ->
  GameState.currentPath (gs s') = None /\
  GameState.gameState (gs s') = GameState.IDLE.
Proof.
  intros s s' H. unfold PathManager.reset in H. cbv zeta in H.
  destruct (Grid.initializePoints _ _) as [g'|]; [|discriminate].
  cbn [bind] in H. injection H as <-. cbn. split; reflexivity.
Qed.

(** A session that is not being drawn in has no current path. *)
Lemma not_drawing_no_path : forall lv s,
  reachable lv s ->
  GameState.gameState (gs s) <> GameState.DRAWING ->
  GameState.currentPath (gs s) = None.
Proof.
  intros lv s Hr Hn.
  destruct (GameState.currentPath (gs s)) as [cp|] eqn:Hcp; [|reflexivity].
  exfalso. apply Hn.
  apply (pr_status _ _ (reachable_Progress lv s Hr)).
  rewrite Hcp. discriminate.
Qed.

Lemma Settled_start : forall lv a,
  GameController.start lv = Ret a -> Settled lv a.
Proof.
  intros lv a H. unfold GameController.start in H.
  destruct (loadLevel lv) as [s|] eqn:E; [|discriminate].
  cbn [bind] in H. injection H as <-.
  pose proof (loadLevel_grid lv s E) as ->.
  constructor; cbn.
  - apply reach_load. rewrite <- E. reflexivity.
  - intros _. reflexivity.
  - discriminate.
  - discriminate.
Qed.

Lemma Settled_handle : forall lv a e,
  Settled lv a ->
  exists a', GameController.handle a e = Ret a' /\ Settled lv a'.
Proof.
  intros lv a e [Hr Hrest Hcomp Hdis].
  pose proof (reachable_Inv lv _ Hr) as HI.
  destruct a as [s act lc en]. cbn [GameController.session
    GameController.isActive GameController.enabled] in *.
  assert (Settled lv (GameController.mkApp s act lc en)) as Hsame
    by (constructor; assumption).
  destruct e as [cell|cell| | |]; cbn [GameController.handle].
  - (* pointer down *)
    unfold GameController._handleStart.
    cbn [GameController.session GameController.enabled].
    destruct en; cbn [negb]; [|eauto].
    destruct cell as [c|]; [|eauto].
    unfold GameController._onDragStart.
    destruct (GameController.isStatus (GameState.gameState (gs s))
                                      GameState.COMPLETED) eqn:Est.
    { apply isStatus_eq in Est. specialize (Hcomp Est). discriminate. }
    destruct (tryStartPath_total lv s (fst c) (snd c) HI) as (r & s' & E).
    rewrite E. cbn [bind snd]. eexists. split; [reflexivity|].
    destruct (tryStartPath_status _ _ _ _ _ E) as [Hst Hic].
    constructor; cbn.
    + apply (reach_step lv s (OpStart (fst c) (snd c)) s' Hr).
      cbn [step]. rewrite E. reflexivity.
    + discriminate.
    + intros X. exfalso. destruct Hst as [Hst| ->].
      * rewrite Hst in X. discriminate.
      * apply isStatus_eq in X. rewrite X in Est. discriminate.
    + discriminate.
  - (* pointer move *)
    unfold GameController._handleMove.
    cbn [GameController.session GameController.enabled
         GameController.isActive GameController.lastCell].
    destruct act; cbn [negb orb]; [|eauto].
    destruct en; cbn [negb]; [|eauto].
    destruct cell as [c|]; [|eauto].
    destruct (match lc with
              | Some l => (fst c =? fst l) && (snd c =? snd l)
              | None => false
              end); [eauto|].
    unfold GameController._onDragMove.
    destruct (GameController.isStatus (GameState.gameState (gs s))
                                      GameState.DRAWING) eqn:Est;
      cbn [negb].
    2:{ cbn [bind snd fst]. eexists. split; [reflexivity|].
        constructor; cbn; try assumption; discriminate. }
    apply isStatus_eq in Est.
    destruct (tryExtendPath_returns lv s (fst c) (snd c) HI)
      as (r & s' & E).
    rewrite E. cbn [bind snd fst].
    assert (reachable lv s') as Hr'.
    { apply (reach_step lv s (OpExtend (fst c) (snd c)) s' Hr).
      cbn [step]. rewrite E. reflexivity. }
    destruct (match r with
              | SuccessCompleted =>
                  GameController.isStatus (GameState.gameState (gs s'))
                                          GameState.COMPLETED
              | _ => false
              end) eqn:Eflag.
    + (* the level is complete: the input is disabled *)
      eexists. split; [reflexivity|].
      assert (GameState.gameState (gs s') = GameState.COMPLETED) as Hc.
      { destruct r; try discriminate. apply isStatus_eq. exact Eflag. }
      constructor; cbn.
      * exact Hr'.
      * intros _. apply (not_drawing_no_path lv s' Hr').
        rewrite Hc. discriminate.
      * reflexivity.
      * intros _. split; [reflexivity|].
        apply (pr_completed _ _ (reachable_Progress lv s' Hr') Hc).
    + eexists. split; [reflexivity|].
      constructor; cbn.
      * exact Hr'.
      * discriminate.
      * intros X. exfalso.
        destruct (Result_eq_dec_completed r) as [->|Hn].
        -- apply isStatus_eq in X. rewrite X in Eflag. discriminate.
        -- rewrite (tryExtendPath_status lv s _ _ r s' HI E Hn), Est in X.
           discriminate.
      * discriminate.
  - (* pointer up *)
    unfold GameController._handleEnd.
    cbn [GameController.session GameController.enabled
         GameController.isActive].
    destruct act; cbn [negb]; [|eauto].
    unfold GameController._onDragEnd.
    destruct (GameController.isStatus (GameState.gameState (gs s))
                                      GameState.DRAWING) eqn:Est.
    + destruct (cancelPath_total lv s HI) as (s' & E).
      rewrite E. cbn [bind]. eexists. split; [reflexivity|].
      destruct (cancelPath_effect _ _ E) as (Hcp & Hst & Hic).
      destruct en; [|destruct (Hdis eq_refl); discriminate].
      constructor; cbn.
      * apply (reach_step lv s OpCancel s' Hr). exact E.
      * intros _. exact Hcp.
      * intros X. exfalso. apply isStatus_eq in Est.
        destruct Hst as [Hst| ->]; [rewrite Hst in X | rewrite Est in X];
          discriminate.
      * discriminate.
    + cbn [bind]. eexists. split; [reflexivity|].
      constructor; cbn.
      * exact Hr.
      * intros _. apply (not_drawing_no_path lv s Hr).
        intros X. apply isStatus_eq in X. rewrite X in Est. discriminate.
      * exact Hcomp.
      * intros X. destruct (Hdis X). discriminate.
  - (* the reset button *)
    unfold GameController.reset.
    cbn [GameController.session GameController.enabled
         GameController.isActive GameController.lastCell].
    destruct (reset_total lv s HI) as (s' & E).
    rewrite E. cbn [bind]. eexists. split; [reflexivity|].
    destruct (reset_effect _ _ E) as (Hcp & Hst).
    constructor; cbn.
    + apply (reach_step lv s OpReset s' Hr). exact E.
    + intros _. exact Hcp.
    + intros X. rewrite Hst in X. discriminate.
    + discriminate.
  - (* the undo button *)
    unfold GameController.undo.
    cbn [GameController.session GameController.enabled
         GameController.isActive GameController.lastCell].
    destruct (undo_total lv s HI) as (r & s' & E).
    rewrite E. cbn [bind snd]. eexists. split; [reflexivity|].
    assert (reachable lv s') as Hr'.
    { apply (reach_step lv s OpUndo s' Hr). cbn [step]. rewrite E.
      reflexivity. }
    destruct (undo_effect _ _ _ E) as [->|(Hcp & Hst & Hic)];
      [exact Hsame|].
    constructor; cbn.
    + exact Hr'.
    + intros _. exact Hcp.
    + intros X. rewrite Hst in X. discriminate.
    + intros X. destruct (Hdis X) as [Ha Hc]. split; [exact Ha|].
      rewrite Hic. exact Hc.
Qed.

Lemma Settled_handleAll : forall lv es a,
  Settled lv a ->
  exists a', GameController.handleAll a es = Ret a' /\ Settled lv a'.
Proof.
  intros lv es. induction es as [|e es IH]; intros a Ha;
    cbn [GameController.handleAll].
  - eauto.
  - destruct (Settled_handle lv a e Ha) as (a1 & E & Ha1).
    rewrite E. cbn [bind]. apply IH. exact Ha1.
Qed.

Lemma start_returns : forall lv : Level,
  exists a, GameController.start lv = Ret a /\ Settled lv a.
Proof.
  intros lv. destruct (GameController.start lv) as [a|] eqn:E.
  - exists a. split; [reflexivity|]. apply (Settled_start lv a E).
  - exfalso. unfold GameController.start, loadLevel in E.
    rewrite (loadedGrid_eq lv (Grid.new (lv_size lv)) eq_refl) in E.
    discriminate.
Qed.

(** X25.  The handlers of the pointer events and of the reset and undo
    buttons never throw, whatever the level and the events, and they leave
    no stroke behind: whenever no drag is active, no path is being drawn
    and the status is not [DRAWING].  The input handler is only ever
    disabled with no drag active and with the completion flag set. *)
Theorem controller_never_throws :
  forall (lv : Level) (es : list GameController.Event),
  exists a,
    (a0 <- GameController.start lv ;; GameController.handleAll a0 es) =
      Ret a /\
    reachable lv (GameController.session a) /\
    (GameController.isActive a = false ->
     GameState.currentPath (gs (GameController.session a)) = None /\
     GameState.gameState (gs (GameController.session a)) <>
       GameState.DRAWING) /\
    (GameController.enabled a = false ->
     GameController.isActive a = false /\
     GameState.isComplete (gs (GameController.session a)) = true).
Proof.
  intros lv es.
  destruct (start_returns lv) as (a0 & E0 & H0).
  destruct (Settled_handleAll lv es a0 H0) as (a & E & [Hr Hrest Hcomp Hdis]).
  exists a. rewrite E0. cbn [bind].
  split; [exact E|]. split; [exact Hr|].
  split; [|exact Hdis].
  intros Hact. pose proof (Hrest Hact) as Hcp. split; [exact Hcp|].
  intros Hd.
  apply (pr_status _ _ (reachable_Progress lv _ Hr)) in Hd.
  contradiction.
Qed.

(** X26.  A completed level takes no more pointer input.  After any
    events on a level, when the status is [COMPLETED] the input handler is
    disabled and no drag is active, so that pointer down, pointer move and
    pointer up change nothing, whatever the cell under the pointer. *)
Theorem completed_level_locks_input :
  forall (lv : Level) (es : list GameController.Event)
         (a : GameController.App),
  (a0 <- GameController.start lv ;; GameController.handleAll a0 es) =
    Ret a ->
  GameState.gameState (gs (GameController.session a)) =
    GameState.COMPLETED ->
  GameController.enabled a = false /\
  GameController.isActive a = false /\
  (forall cell,
     GameController.handle a (GameController.PointerDown cell) = Ret a) /\
  (forall cell,
     GameController.handle a (GameController.PointerMove cell) = Ret a) /\
  GameController.handle a GameController.PointerUp = Ret a.
Proof.
  intros lv es a H Hc.
  destruct (start_returns lv) as (a0 & E0 & H0).
  rewrite E0 in H. cbn [bind] in H.
  destruct (Settled_handleAll lv es a0 H0) as (a' & E & [Hr Hrest Hcomp Hdis]).
  rewrite E in H. injection H as ->.
  pose proof (Hcomp Hc) as Hen. destruct (Hdis Hen) as [Hact _].
  split; [exact Hen|]. split; [exact Hact|].
  cbn [GameController.handle].
  unfold GameController._handleStart, GameController._handleMove,
    GameController._handleEnd.
  rewrite Hen, Hact. cbn [negb orb].
  split; [reflexivity|]. split; reflexivity.
Qed.

Lemma completed_level_locks_input_witness :
  (a0 <- GameController.start plainLevel ;;
   GameController.handleAll a0 plainDrag) = Ret completedApp /\
  GameState.gameState (gs (GameController.session completedApp)) =
    GameState.COMPLETED /\
  GameController.enabled completedApp = false /\
  GameController.handle completedApp
    (GameController.PointerDown (Some (0, 2))) = Ret completedApp.
Proof.
  assert ((a0 <- GameController.start plainLevel ;;
           GameController.handleAll a0 plainDrag) = Ret completedApp) as H1
    by (vm_compute; reflexivity).
  assert (GameState.gameState (gs (GameController.session completedApp)) =
          GameState.COMPLETED) as H2 by reflexivity.
  split; [exact H1|]. split; [exact H2|].
  destruct (completed_level_locks_input plainLevel plainDrag completedApp
              H1 H2) as (Hen & _ & Hdown & _).
  split; [exact Hen | apply Hdown].
Defined.

(** ** Drawing the solution of a level *)

(** *** When an extension succeeds *)

Lemma tryExtendPath_new_cell : forall lv s cp row col,
  Inv lv s ->
  GameState.currentPath (gs s) = Some cp ->
  areAdjacent (last (path_cells cp) (0, 0)) (row, col) = true ->
  ~ In (row, col) (path_cells cp) ->
  inGrid lv (row, col) = true ->
  exists cell,
    cellAt (grid s) (row, col) = Some cell /\
    forall K : js (Result * Session),
      (let targetNumber := GameState.currentNumber (gs s) + 1 in
       if Grid.isPoint cell &&
          match Grid.pointNumber cell with
          | Some n => n =? targetNumber
          | None => false
          end
       then
         let gs' := GameState.completePath (gs s) row col in
         let n := match GameState.currentPath gs' with
                  | Some p => if path_number p =? 0
                              then targetNumber - 1
                              else path_number p
                  | None => targetNumber - 1
                  end in
         g' <- Grid.occupyCell (grid s) row col n ;;
         Ret (SuccessCompleted, mkSession gs' g')
       else if Grid.occupied cell ||
               (Grid.isPoint cell &&
                negb match Grid.pointNumber cell with
                     | Some n => n =? targetNumber
                     | None => false
                     end)
       then Ret (Failure cell_occupied, s)
       else
         let gs' := GameState.extendPath (gs s) row col in
         match GameState.currentPath gs' with
         | None => Throw
         | Some p =>
             g' <- Grid.occupyCell (grid s) row col (path_number p) ;;
             Ret (Success, mkSession gs' g')
         end) = K ->
      PathManager.tryExtendPath s row col = K.
Proof.
  intros lv s cp row col HI Hcp Hadj Hnin Hin.
  pose proof (inv_grid _ _ HI) as HG.
  pose proof (inv_active _ _ HI cp Hcp) as HA.
  pose proof (ActiveOK_nonempty _ _ _ _ HA) as Hne.
  pose proof (getCurrentPathEnd_last _ _ Hcp Hne) as Hend.
  assert (posEquals (last (path_cells cp) (0, 0)) (row, col) = false) as Heq.
  { rewrite posEquals_pos_eqb. apply pos_eqb_neq. intros E.
    apply Hnin. rewrite <- E.
    destruct (exists_last Hne) as [l [x El]]. rewrite El, last_last.
    apply in_or_app; right; left; reflexivity. }
  assert (GameState.findInCurrentPath (gs s) row col = -1) as Hfind.
  { unfold GameState.findInCurrentPath. rewrite Hcp. apply findIndex_none.
    intros [yr yc] Hy. cbn [fst snd].
    destruct (Z.eqb_spec yr row) as [->|]; [|reflexivity].
    destruct (Z.eqb_spec yc col) as [->|]; [|reflexivity].
    contradiction. }
  assert (valid (grid s) (row, col) = true) as Hv
    by (rewrite (GridOK_valid lv _ _ HG); exact Hin).
  destruct (cellAt_valid _ _ (gok_wf _ _ HG) Hv) as [cell Hc].
  exists cell. split; [exact Hc|].
  intros K HK. unfold PathManager.tryExtendPath.
  rewrite Hcp, Hend, Heq, Hadj, Hfind.
  rewrite getCell_wf by apply HG. rewrite Hv, Hc. exact HK.
Qed.

Lemma tryExtendPath_extends : forall lv s cp row col,
  Inv lv s ->
  GameState.currentPath (gs s) = Some cp ->
  areAdjacent (last (path_cells cp) (0, 0)) (row, col) = true ->
  ~ In (row, col) (path_cells cp) ->
  inGrid lv (row, col) = true ->
  isLevelPoint lv (row, col) = false ->
  occ (grid s) (row, col) = false ->
  exists g',
    PathManager.tryExtendPath s row col =
    Ret (Success, mkSession (GameState.extendPath (gs s) row col) g').
Proof.
  intros lv s cp row col HI Hcp Hadj Hnin Hin Hnp Hocc.
  pose proof (inv_grid _ _ HI) as HG.
  destruct (tryExtendPath_new_cell lv s cp row col HI Hcp Hadj Hnin Hin)
    as [cell [Hc Hred]].
  pose proof (isPt_cellAt _ _ _ Hc) as HP.
  rewrite (gok_isPt _ _ HG), Hnp in HP. cbn [andb] in HP.
  pose proof (occ_cellAt_true _ _ _ Hc) as HO. rewrite Hocc in HO.
  destruct (occupyCell_spec (grid s) row col (path_number cp) (gok_wf _ _ HG))
    as [g' [E _]].
  exists g'. apply Hred. cbv zeta.
  rewrite <- HP, <- HO. cbn [andb orb].
  rewrite (extendPath_fields _ _ _ _ Hcp).
  cbn [GameState.currentPath path_number]. rewrite E. reflexivity.
Qed.

Lemma tryExtendPath_completes : forall lv s cp row col,
  Inv lv s -> Progress lv s ->
  GameState.currentPath (gs s) = Some cp ->
  areAdjacent (last (path_cells cp) (0, 0)) (row, col) = true ->
  ~ In (row, col) (path_cells cp) ->
  map_get pos_eqb (Grid.points (loadedGrid lv)) (row, col) =
    Some (GameState.currentNumber (gs s) + 1) ->
  exists g',
    PathManager.tryExtendPath s row col =
    Ret (SuccessCompleted,
         mkSession (GameState.completePath (gs s) row col) g').
Proof.
  intros lv s cp row col HI HP Hcp Hadj Hnin Hmap.
  pose proof (inv_grid _ _ HI) as HG.
  destruct (loadedGrid_spec lv) as (W0 & _ & _ & HG0).
  destruct (gok_map _ _ HG0 _ _ Hmap) as [Hlp Hin].
  destruct (tryExtendPath_new_cell lv s cp row col HI Hcp Hadj Hnin Hin)
    as [cell [Hc Hred]].
  pose proof (isPt_cellAt _ _ _ Hc) as HPt.
  rewrite (gok_isPt _ _ HG), Hlp, Hin in HPt. cbn [andb] in HPt.
  assert (Grid.pointNumber cell = Some (GameState.currentNumber (gs s) + 1))
    as Hnum.
  { pose proof (pointLayer_cell (loadedGrid lv) (grid s) (row, col)
                  (pr_layer _ _ HP)) as Hl.
    rewrite Hc in Hl. cbn [option_map] in Hl.
    destruct (cellAt (loadedGrid lv) (row, col)) as [c0|] eqn:Hc0;
      [|discriminate].
    cbn [option_map] in Hl. injection Hl as _ Hl.
    rewrite Hl, (loadedGrid_numbers lv _ c0 Hc0). exact Hmap. }
  cbv zeta in Hred.
  rewrite <- HPt, Hnum, Z.eqb_refl in Hred. cbn [andb] in Hred.
  match type of Hred with
  | forall K, (g' <- Grid.occupyCell _ _ _ ?N ;; _) = K -> _ =>
      destruct (occupyCell_spec (grid s) row col N (gok_wf _ _ HG))
        as [g' [E _]]
  end.
  exists g'. apply Hred. rewrite E. reflexivity.
Qed.

(** *** Lists by index *)

Lemma nth_skipn_add : forall (A : Type) (l : list A) (a j : nat) (d : A),
  nth j (skipn a l) d = nth (a + j) l d.
Proof.
  intros A l a. revert l. induction a as [|a IH]; intros l j d.
  - reflexivity.
  - destruct l as [|x l]; [destruct j; reflexivity|]. cbn. apply IH.
Qed.

Lemma firstn_S_snoc : forall (A : Type) (l : list A) (n : nat) (d : A),
  (n < length l)%nat -> firstn (S n) l = firstn n l ++ [nth n l d].
Proof.
  intros A l. induction l as [|x l IH]; intros n d H; cbn [length] in H.
  - lia.
  - destruct n as [|n]; [reflexivity|].
    change (firstn (S (S n)) (x :: l)) with (x :: firstn (S n) l).
    change (firstn (S n) (x :: l)) with (x :: firstn n l).
    change (nth (S n) (x :: l) d) with (nth n l d).
    rewrite (IH n d) by lia. reflexivity.
Qed.

Lemma last_firstn_S : forall (A : Type) (l : list A) (n : nat) (d : A),
  (n < length l)%nat -> last (firstn (S n) l) d = nth n l d.
Proof.
  intros A l n d H. rewrite (firstn_S_snoc A l n d H). apply last_last.
Qed.

Lemma In_firstn_nth : forall (A : Type) (l : list A) (n : nat) (c d : A),
  In c (firstn n l) ->
  exists j, (j < n)%nat /\ (j < length l)%nat /\ c = nth j l d.
Proof.
  intros A l. induction l as [|x l IH]; intros n c d H.
  - destruct n; contradiction.
  - destruct n as [|n]; [contradiction|]. cbn [firstn] in H.
    destruct H as [<-|H].
    + exists 0%nat. cbn [length nth]. split; [lia|]. split; [lia | reflexivity].
    + destruct (IH n c d H) as [j [Hj [Hl E]]].
      exists (S j). cbn [length nth]. split; [lia|]. split; [lia | exact E].
Qed.

Lemma skipn_cons_nth : forall (A : Type) (l : list A) (a : nat) (d : A),
  (a < length l)%nat -> skipn a l = nth a l d :: skipn (S a) l.
Proof.
  intros A l. induction l as [|x l IH]; intros a d H; cbn [length] in H.
  - lia.
  - destruct a as [|a]; [reflexivity|].
    cbn [skipn nth]. apply IH. lia.
Qed.

Lemma chain_nth : forall (l : list (Z * Z)) (j : nat),
  chain l -> (S j < length l)%nat ->
  areAdjacent (nth j l (0, 0)) (nth (S j) l (0, 0)) = true.
Proof.
  induction l as [|a l IH]; intros j Hc Hj; cbn [length] in Hj; [lia|].
  destruct l as [|b l]; [cbn [length] in Hj; lia|].
  destruct Hc as [Hab Hc]. destruct j as [|j]; [exact Hab|].
  apply (IH j Hc). cbn [length] in *. lia.
Qed.

Lemma run_app : forall (ops1 ops2 : list Op) (s s1 : Session),
  run s ops1 = Ret s1 -> run s (ops1 ++ ops2) = run s1 ops2.
Proof.
  induction ops1 as [|op ops1 IH]; intros ops2 s s1 H; cbn [run app] in *.
  - injection H as <-. reflexivity.
  - destruct (step s op) as [s'|]; [|discriminate]. cbn [bind] in *.
    apply IH. exact H.
Qed.

Lemma tryStartPath_success : forall lv s row col,
  Inv lv s ->
  GameState.currentPath (gs s) = None ->
  Grid.getPointAt (grid s) row col = Some (GameState.currentNumber (gs s)) ->
  exists g',
    PathManager.tryStartPath s row col =
    Ret (Success,
         mkSession (GameState.startPath (gs s) row col
                      (GameState.currentNumber (gs s))) g').
Proof.
  intros lv s row col HI Hcp Hp. unfold PathManager.tryStartPath.
  rewrite Hp, Z.eqb_refl, Hcp. cbn [negb].
  destruct (occupyCell_spec (grid s) row col (GameState.currentNumber (gs s))
              (gok_wf _ _ (inv_grid _ _ HI))) as [g' [E _]].
  rewrite E. cbn [bind]. eauto.
Qed.

(** *** A path with the points of the level on it *)

Section PlaySolution.

Variable lv : Level.
Variable p : list (Z * Z).
Variable ix : nat -> nat.
Variable N : nat.

Hypothesis Hnodup : NoDup p.
Hypothesis Hchain : chain p.
Hypothesis HinGrid : forall c, In c p -> inGrid lv c = true.
Hypothesis Hix : forall i, (i < N)%nat -> (ix i < length p)%nat.
Hypothesis Hmono : forall i, (S i < N)%nat -> (ix i < ix (S i))%nat.
Hypothesis Hpoints : lv_points lv = map (pointOn p ix) (seq 0 N).

Lemma ix_le : forall i j, (i <= j)%nat -> (j < N)%nat -> (ix i <= ix j)%nat.
Proof.
  intros i j Hij. induction Hij as [|j Hij IH]; intros Hj; [lia|].
  specialize (IH ltac:(lia)). pose proof (Hmono j Hj). lia.
Qed.

Lemma ix_lt : forall i j, (i < j)%nat -> (j < N)%nat -> (ix i < ix j)%nat.
Proof.
  intros i j Hij Hj. destruct j as [|j]; [lia|].
  pose proof (ix_le i j ltac:(lia) ltac:(lia)). pose proof (Hmono j Hj). lia.
Qed.

Lemma ix_inj : forall i j,
  (i < N)%nat -> (j < N)%nat -> ix i = ix j -> i = j.
Proof.
  intros i j Hi Hj E.
  destruct (Nat.lt_trichotomy i j) as [H|[H|H]]; [|exact H|].
  - pose proof (ix_lt i j H Hj). lia.
  - pose proof (ix_lt j i H Hi). lia.
Qed.

Lemma nth_inj : forall a b,
  (a < length p)%nat -> (b < length p)%nat ->
  nth a p (0, 0) = nth b p (0, 0) -> a = b.
Proof.
  intros a b Ha Hb E.
  apply (proj1 (NoDup_nth p (0, 0)) Hnodup a b Ha Hb E).
Qed.

Lemma point_position : forall i,
  (p_row (pointOn p ix i), p_col (pointOn p ix i)) = nth (ix i) p (0, 0).
Proof.
  intros i. unfold pointOn. cbn [p_row p_col].
  symmetry. apply surjective_pairing.
Qed.

Lemma isLevelPoint_ix : forall c,
  isLevelPoint lv c = true ->
  exists i, (i < N)%nat /\ c = nth (ix i) p (0, 0).
Proof.
  intros c H. unfold isLevelPoint in H. apply existsb_exists in H.
  destruct H as [pt [Hpt Hc]]. rewrite Hpoints in Hpt.
  apply in_map_iff in Hpt. destruct Hpt as [i [<- Hi]].
  apply in_seq in Hi. apply pos_eqb_eq in Hc.
  rewrite point_position in Hc. exists i. split; [lia | congruence].
Qed.

Lemma points_NoDup :
  NoDup (map (fun pt => (p_row pt, p_col pt)) (lv_points lv)).
Proof.
  rewrite Hpoints, map_map.
  assert (forall l : list nat, NoDup l -> (forall i, In i l -> (i < N)%nat) ->
            NoDup (map (fun i => (p_row (pointOn p ix i),
                                  p_col (pointOn p ix i))) l)) as H.
  { induction l as [|i l IH]; intros Hnd Hl; cbn [map]; [constructor|].
    inversion Hnd as [|x l' Hni Hnd']; subst.
    constructor.
    - intros Hin. apply in_map_iff in Hin. destruct Hin as [j [E Hj]].
      rewrite !point_position in E.
      assert (j = i).
      { apply ix_inj; [apply Hl; right; exact Hj | apply Hl; left; reflexivity|].
        apply nth_inj; [apply Hix, Hl; right; exact Hj
                       | apply Hix, Hl; left; reflexivity | exact E]. }
      subst j. contradiction.
    - apply IH; [exact Hnd'|]. intros j Hj. apply Hl. right; exact Hj. }
  apply H; [apply seq_NoDup|]. intros i Hi. apply in_seq in Hi. lia.
Qed.

Lemma point_number : forall i,
  (i < N)%nat ->
  map_get pos_eqb (Grid.points (loadedGrid lv)) (nth (ix i) p (0, 0)) =
  Some (Z.of_nat i + 1).
Proof.
  intros i Hi.
  pose proof (loadedGrid_eq lv (Grid.new (lv_size lv)) eq_refl) as E.
  unfold Grid.initializePoints in E. cbn [Grid.size Grid.new] in E.
  assert (forall pt, In pt (lv_points lv) ->
            valid (Grid.mk (lv_size lv) (Grid._createGrid (lv_size lv)) [])
                  (p_row pt, p_col pt) = true) as Hv.
  { intros pt Hpt. rewrite Hpoints in Hpt. apply in_map_iff in Hpt.
    destruct Hpt as [j [<- Hj]]. apply in_seq in Hj.
    rewrite point_position.
    apply (HinGrid (nth (ix j) p (0, 0))). apply nth_In. apply Hix. lia. }
  rewrite (setPoints_map_get (lv_points lv) _ _
             (createGrid_wf (lv_size lv) []) Hv points_NoDup E).
  destruct (find _ (lv_points lv)) as [pt|] eqn:Ef.
  - apply find_some in Ef. destruct Ef as [Hpt Hb].
    rewrite Hpoints in Hpt. apply in_map_iff in Hpt.
    destruct Hpt as [j [<- Hj]]. apply in_seq in Hj.
    apply andb_true_iff in Hb. rewrite !Z.eqb_eq in Hb.
    assert (nth (ix j) p (0, 0) = nth (ix i) p (0, 0)) as En.
    { rewrite <- point_position.
      rewrite (surjective_pairing (nth (ix i) p (0, 0))).
      destruct Hb as [-> ->]. reflexivity. }
    assert (j = i).
    { apply ix_inj; [lia | exact Hi |].
      apply nth_inj; [apply Hix; lia | apply Hix; exact Hi | exact En]. }
    subst j. reflexivity.
  - exfalso.
    pose proof (find_none _ _ Ef (pointOn p ix i)) as Hn.
    rewrite Hpoints in Hn.
    specialize (Hn (in_map _ _ _ (proj2 (in_seq N 0 i) ltac:(lia)))).
    unfold pointOn in Hn. cbn [p_row p_col] in Hn.
    rewrite !Z.eqb_refl in Hn. discriminate.
Qed.

Lemma paths_length : forall m s,
  map path_cells (GameState.paths (gs s)) = map (segmentCells p ix) (seq 0 m) ->
  length (GameState.paths (gs s)) = m.
Proof.
  intros m s H. apply (f_equal (@length _)) in H.
  rewrite !length_map, length_seq in H. exact H.
Qed.

(** A cell of a committed segment lies at or before the end of the
    segment. *)
Lemma committed_cell_index : forall m s q c,
  (m < N)%nat ->
  map path_cells (GameState.paths (gs s)) = map (segmentCells p ix) (seq 0 m) ->
  In q (GameState.paths (gs s)) -> In c (path_cells q) ->
  exists j, (j <= ix m)%nat /\ c = nth j p (0, 0).
Proof.
  intros m s q c Hm Hps Hq Hc.
  assert (In (path_cells q) (map (segmentCells p ix) (seq 0 m))) as Hin
    by (rewrite <- Hps; apply in_map; exact Hq).
  apply in_map_iff in Hin. destruct Hin as [m' [E Hm']].
  apply in_seq in Hm'. rewrite <- E in Hc. unfold segmentCells in Hc.
  destruct (In_firstn_nth _ _ _ c (0, 0) Hc) as [j [Hj [Hl Ec]]].
  rewrite nth_skipn_add in Ec.
  exists (ix m' + j)%nat. split; [|exact Ec].
  pose proof (ix_le (S m') m ltac:(lia) Hm).
  pose proof (Hmono m' ltac:(lia)). lia.
Qed.

Lemma start_segment : forall m s,
  CommittedUpTo lv p ix m s -> (S m < N)%nat ->
  exists s1,
    step s (OpStart (fst (nth (ix m) p (0, 0))) (snd (nth (ix m) p (0, 0))))
      = Ret s1 /\
    DrawingAt lv p ix m 0 s1.
Proof.
  intros m s (Hr & Hcp & Hps) Hm.
  pose proof (reachable_Inv lv s Hr) as HI.
  pose proof (reachable_Progress lv s Hr) as HP.
  pose proof (cnt_current _ _ _ (pr_counted _ _ HP)) as Hn.
  rewrite (paths_length m s Hps) in Hn.
  set (c := nth (ix m) p (0, 0)).
  assert (Grid.getPointAt (grid s) (fst c) (snd c) =
          Some (GameState.currentNumber (gs s))) as Hp.
  { unfold Grid.getPointAt.
    rewrite (pointLayer_points _ _ (pr_layer _ _ HP)).
    rewrite <- (surjective_pairing c). unfold c.
    rewrite (point_number m ltac:(lia)), Hn.
    destruct (Z.eqb_spec (Z.of_nat m + 1) 0); [lia | reflexivity]. }
  destruct (tryStartPath_success lv s (fst c) (snd c) HI Hcp Hp) as [g' E].
  eexists. split; [cbn [step]; rewrite E; reflexivity|].
  cbn [snd]. split; [|split].
  - apply (reach_step lv s (OpStart (fst c) (snd c)) _ Hr).
    cbn [step]. rewrite E. reflexivity.
  - eexists. split; [reflexivity|]. cbn [path_cells].
    rewrite (skipn_cons_nth _ p (ix m) (0, 0)) by (apply Hix; lia).
    cbn [firstn]. fold c. rewrite <- surjective_pairing. reflexivity.
  - exact Hps.
Qed.

(** What the next cell of the segment looks like to a stroke that has
    covered the cells from [ix m] to [ix m + j]. *)
Lemma next_cell : forall m j s cp,
  reachable lv s -> (S m < N)%nat -> (ix m + S j <= ix (S m))%nat ->
  GameState.currentPath (gs s) = Some cp ->
  path_cells cp = firstn (S j) (skipn (ix m) p) ->
  map path_cells (GameState.paths (gs s)) = map (segmentCells p ix) (seq 0 m) ->
  let c := nth (ix m + S j) p (0, 0) in
  areAdjacent (last (path_cells cp) (0, 0)) c = true /\
  ~ In c (path_cells cp) /\
  inGrid lv c = true /\
  path_cells cp ++ [c] = firstn (S (S j)) (skipn (ix m) p) /\
  ((ix m + S j < ix (S m))%nat ->
   isLevelPoint lv c = false /\ occ (grid s) c = false).
Proof.
  intros m j s cp Hr Hm Hj Hcp Hcells Hps c.
  pose proof (Hix (S m) Hm) as Hlen.
  assert (ix m + S j < length p)%nat as Hjl by lia.
  assert (j < length (skipn (ix m) p))%nat as Hjs
    by (rewrite length_skipn; lia).
  split; [|split; [|split; [|split]]].
  - rewrite Hcells, (last_firstn_S _ _ j (0, 0) Hjs), nth_skipn_add.
    unfold c. replace (ix m + S j)%nat with (S (ix m + j)) by lia.
    apply chain_nth; [exact Hchain | lia].
  - rewrite Hcells. intros Hin.
    destruct (In_firstn_nth _ _ _ c (0, 0) Hin) as [j' [Hj' [_ Ec]]].
    rewrite nth_skipn_add in Ec. unfold c in Ec.
    apply nth_inj in Ec; lia.
  - apply HinGrid. apply nth_In. exact Hjl.
  - rewrite Hcells.
    rewrite (firstn_S_snoc _ (skipn (ix m) p) (S j) (0, 0))
      by (rewrite length_skipn; lia).
    rewrite nth_skipn_add. reflexivity.
  - intros Hlt.
    assert (isLevelPoint lv c = false) as Hnp.
    { destruct (isLevelPoint lv c) eqn:Hp; [|reflexivity]. exfalso.
      destruct (isLevelPoint_ix c Hp) as [i [Hi Ec]]. unfold c in Ec.
      apply nth_inj in Ec; [|exact Hjl | apply Hix; exact Hi].
      destruct (Nat.le_gt_cases i m) as [Hle|Hgt].
      - pose proof (ix_le i m Hle ltac:(lia)). lia.
      - pose proof (ix_le (S m) i Hgt Hi). lia. }
    split; [exact Hnp|].
    destruct (occ (grid s) c) eqn:Hocc; [|reflexivity]. exfalso.
    destruct (pr_occupied _ _ (reachable_Progress lv s Hr) c Hocc)
      as [_ [Hd|[[q [Hq Hc]]|[cp0 [Hcp0 Hc]]]]].
    + congruence.
    + destruct (committed_cell_index m s q c ltac:(lia) Hps Hq Hc)
        as [j' [Hj' Ec]].
      unfold c in Ec. apply nth_inj in Ec; lia.
    + rewrite Hcp in Hcp0. injection Hcp0 as <-. rewrite Hcells in Hc.
      destruct (In_firstn_nth _ _ _ c (0, 0) Hc) as [j' [Hj' [_ Ec]]].
      rewrite nth_skipn_add in Ec. unfold c in Ec.
      apply nth_inj in Ec; lia.
Qed.

Lemma extend_segment : forall m j s,
  DrawingAt lv p ix m j s -> (S m < N)%nat -> (ix m + S j < ix (S m))%nat ->
  exists s1,
    step s (OpExtend (fst (nth (ix m + S j) p (0, 0)))
                     (snd (nth (ix m + S j) p (0, 0)))) = Ret s1 /\
    DrawingAt lv p ix m (S j) s1.
Proof.
  intros m j s (Hr & (cp & Hcp & Hcells) & Hps) Hm Hj.
  pose proof (reachable_Inv lv s Hr) as HI.
  destruct (next_cell m j s cp Hr Hm ltac:(lia) Hcp Hcells Hps)
    as (Hadj & Hnin & Hin & Happ & Hfree).
  destruct (Hfree Hj) as [Hnp Hocc].
  set (c := nth (ix m + S j) p (0, 0)) in *.
  rewrite (surjective_pairing c) in Hadj, Hnin, Hin, Hnp, Hocc.
  destruct (tryExtendPath_extends lv s cp (fst c) (snd c) HI Hcp Hadj Hnin
              Hin Hnp Hocc) as [g' E].
  eexists. split; [cbn [step]; rewrite E; reflexivity|].
  cbn [snd]. split; [|split].
  - apply (reach_step lv s (OpExtend (fst c) (snd c)) _ Hr).
    cbn [step]. rewrite E. reflexivity.
  - rewrite (extendPath_fields _ _ _ _ Hcp). cbn [gs GameState.currentPath].
    eexists. split; [reflexivity|]. cbn [path_cells].
    rewrite <- surjective_pairing. exact Happ.
  - rewrite (extendPath_fields _ _ _ _ Hcp). cbn [gs GameState.paths].
    exact Hps.
Qed.

Lemma complete_segment : forall m j s,
  DrawingAt lv p ix m j s -> (S m < N)%nat -> (ix m + S j = ix (S m))%nat ->
  exists s1,
    step s (OpExtend (fst (nth (ix m + S j) p (0, 0)))
                     (snd (nth (ix m + S j) p (0, 0)))) = Ret s1 /\
    CommittedUpTo lv p ix (S m) s1 /\
    GameState.gameState (gs s1) =
      (if (S (S m) =? N)%nat then GameState.COMPLETED else GameState.IDLE).
Proof.
  intros m j s (Hr & (cp & Hcp & Hcells) & Hps) Hm Hj.
  pose proof (reachable_Inv lv s Hr) as HI.
  pose proof (reachable_Progress lv s Hr) as HP.
  destruct (next_cell m j s cp Hr Hm ltac:(lia) Hcp Hcells Hps)
    as (Hadj & Hnin & Hin & Happ & _).
  set (c := nth (ix m + S j) p (0, 0)) in *.
  pose proof (cnt_current _ _ _ (pr_counted _ _ HP)) as Hn.
  rewrite (paths_length m s Hps) in Hn.
  assert (map_get pos_eqb (Grid.points (loadedGrid lv)) (fst c, snd c) =
          Some (GameState.currentNumber (gs s) + 1)) as Hmap.
  { rewrite <- surjective_pairing. unfold c. rewrite Hj.
    rewrite (point_number (S m) Hm), Hn. f_equal. lia. }
  rewrite (surjective_pairing c) in Hadj, Hnin.
  destruct (tryExtendPath_completes lv s cp (fst c) (snd c) HI HP Hcp Hadj
              Hnin Hmap) as [g' E].
  destruct (commit_status lv s (fst c) (snd c) _ Hr E) as (Hr' & _ & Hs).
  eexists. split; [cbn [step]; rewrite E; reflexivity|].
  cbn [snd].
  destruct (completePath_fields (gs s) cp (fst c) (snd c) Hcp)
    as [Fp [Fc _]].
  assert (map path_cells
            (GameState.paths (GameState.completePath (gs s) (fst c) (snd c))) =
          map (segmentCells p ix) (seq 0 (S m))) as Hps'.
  { rewrite Fp, map_app, Hps, seq_S, map_app. cbn [map path_cells Nat.add].
    f_equal. f_equal. rewrite <- surjective_pairing, Happ.
    unfold segmentCells. f_equal. lia. }
  split; [split; [exact Hr' | split; [exact Fc | exact Hps']]|].
  pose proof (paths_length (S m)
                (mkSession (GameState.completePath (gs s) (fst c) (snd c)) g')
                Hps') as Hl.
  cbn [gs] in Hl. rewrite Hs. cbn [gs]. rewrite Hl.
  rewrite Hpoints, length_map, length_seq.
  replace (S m + 1)%nat with (S (S m)) by lia. reflexivity.
Qed.

(** The rest of a segment, from a stroke that has covered [j + 1] of its
    cells. *)
Lemma finish_segment : forall d m j s,
  DrawingAt lv p ix m j s -> (S m < N)%nat ->
  (ix m + j + S d = ix (S m))%nat ->
  exists s1,
    run s (map (fun c => OpExtend (fst c) (snd c))
               (firstn (S d) (skipn (S (ix m + j)) p))) = Ret s1 /\
    CommittedUpTo lv p ix (S m) s1 /\
    GameState.gameState (gs s1) =
      (if (S (S m) =? N)%nat then GameState.COMPLETED else GameState.IDLE).
Proof.
  induction d as [|d IH]; intros m j s HD Hm Hj.
  - destruct (complete_segment m j s HD Hm ltac:(lia)) as [s1 [E H]].
    exists s1. split; [|exact H].
    rewrite (skipn_cons_nth _ p (S (ix m + j)) (0, 0))
      by (pose proof (Hix (S m) Hm); lia).
    cbn [firstn map run].
    replace (S (ix m + j)) with (ix m + S j)%nat by lia.
    rewrite E. reflexivity.
  - destruct (extend_segment m j s HD Hm ltac:(lia)) as [s' [E HD']].
    destruct (IH m (S j) s' HD' Hm ltac:(lia)) as [s1 [E1 H]].
    exists s1. split; [|exact H].
    rewrite (skipn_cons_nth _ p (S (ix m + j)) (0, 0))
      by (pose proof (Hix (S m) Hm); lia).
    cbn [firstn map run].
    replace (S (ix m + j)) with (ix m + S j)%nat by lia.
    rewrite E. cbn [bind].
    replace (S (ix m + S j)) with (S (ix m + S j)) by lia. exact E1.
Qed.

Lemma play_segment : forall m s,
  CommittedUpTo lv p ix m s -> (S m < N)%nat ->
  exists s1,
    run s (playCells (segmentCells p ix m)) = Ret s1 /\
    CommittedUpTo lv p ix (S m) s1 /\
    GameState.gameState (gs s1) =
      (if (S (S m) =? N)%nat then GameState.COMPLETED else GameState.IDLE).
Proof.
  intros m s HC Hm.
  destruct (start_segment m s HC Hm) as [s0 [E0 HD]].
  pose proof (Hmono m Hm) as Hlt.
  destruct (finish_segment (ix (S m) - ix m - 1) m 0 s0 HD Hm ltac:(lia))
    as [s1 [E1 H]].
  exists s1. split; [|exact H].
  unfold segmentCells.
  rewrite (skipn_cons_nth _ p (ix m) (0, 0)) by (apply Hix; lia).
  replace (ix (S m) - ix m + 1)%nat with (S (S (ix (S m) - ix m - 1))) by lia.
  change (firstn (S (S (ix (S m) - ix m - 1)))
            (nth (ix m) p (0, 0) :: skipn (S (ix m)) p))
    with (nth (ix m) p (0, 0) ::
          firstn (S (ix (S m) - ix m - 1)) (skipn (S (ix m)) p)).
  cbn [playCells run]. rewrite E0. cbn [bind].
  rewrite Nat.add_0_r in E1. exact E1.
Qed.

Lemma play_segments : forall r m s,
  CommittedUpTo lv p ix m s -> (m + r + 1 = N)%nat ->
  exists s1,
    run s (flat_map playCells (map (segmentCells p ix) (seq m r))) = Ret s1 /\
    CommittedUpTo lv p ix (m + r) s1 /\
    ((1 <= r)%nat -> GameState.gameState (gs s1) = GameState.COMPLETED).
Proof.
  induction r as [|r IH]; intros m s HC Hm.
  - exists s. cbn [seq map flat_map run]. rewrite Nat.add_0_r.
    split; [reflexivity|]. split; [exact HC | lia].
  - destruct (play_segment m s HC ltac:(lia)) as [s' [E [HC' Hs]]].
    destruct (IH (S m) s' HC' ltac:(lia)) as [s1 [E1 [HC1 Hs1]]].
    exists s1. cbn [seq map flat_map].
    rewrite (run_app _ _ s s' E).
    split; [exact E1|].
    replace (m + S r)%nat with (S m + r)%nat by lia.
    split; [exact HC1|]. intros _.
    destruct r as [|r].
    + cbn [seq map flat_map run] in E1. injection E1 as <-.
      rewrite Hs. replace (S (S m) =? N)%nat with true; [reflexivity|].
      symmetry. apply Nat.eqb_eq. lia.
    + apply Hs1. lia.
Qed.

(** *** The same strokes as pointer events *)

Lemma drag_start : forall m a,
  Between lv p ix N m a -> (S m < N)%nat ->
  exists a1,
    GameController.handle a
      (GameController.PointerDown (Some (nth (ix m) p (0, 0)))) = Ret a1 /\
    Dragging lv p ix m 0 a1.
Proof.
  intros m [s act lc en] (HC & Hact & Hst & Hen) Hm.
  cbn [GameController.session GameController.isActive
       GameController.enabled] in *.
  destruct (Nat.eqb_spec (S m) N) as [X|_]; [lia|].
  cbn [negb] in Hen. subst en.
  destruct (start_segment m s HC Hm) as [s1 [E HD]]. cbn [step] in E.
  cbn [GameController.handle]. unfold GameController._handleStart.
  cbn [GameController.enabled GameController.session negb].
  unfold GameController._onDragStart. rewrite Hst.
  cbn [GameController.isStatus]. rewrite E. cbn [bind].
  eexists. split; [reflexivity|].
  split; [exact HD|]. cbn. rewrite Nat.add_0_r.
  split; [reflexivity|]. split; reflexivity.
Qed.

Lemma drawing_status : forall m j s,
  DrawingAt lv p ix m j s ->
  GameState.gameState (gs s) = GameState.DRAWING.
Proof.
  intros m j s (Hr & (cp & Hcp & _) & _).
  apply (pr_status _ _ (reachable_Progress lv s Hr)).
  rewrite Hcp. discriminate.
Qed.

Lemma moved_to_new_cell : forall m j,
  (S m < N)%nat -> (ix m + S j <= ix (S m))%nat ->
  let c := nth (ix m + S j) p (0, 0) in
  let l := nth (ix m + j) p (0, 0) in
  (fst c =? fst l) && (snd c =? snd l) = false.
Proof.
  intros m j Hm Hj c l.
  destruct ((fst c =? fst l) && (snd c =? snd l)) eqn:E; [|reflexivity].
  exfalso. apply andb_true_iff in E. rewrite !Z.eqb_eq in E.
  assert (c = l) as X
    by (rewrite (surjective_pairing c), (surjective_pairing l);
        destruct E as [-> ->]; reflexivity).
  pose proof (Hix (S m) Hm) as Hlt.
  pose proof (nth_inj (ix m + S j) (ix m + j) ltac:(lia) ltac:(lia) X).
  lia.
Qed.

Lemma drag_move : forall m j a,
  Dragging lv p ix m j a -> (S m < N)%nat ->
  (ix m + S j < ix (S m))%nat ->
  exists a1,
    GameController.handle a
      (GameController.PointerMove (Some (nth (ix m + S j) p (0, 0)))) =
      Ret a1 /\
    Dragging lv p ix m (S j) a1.
Proof.
  intros m j [s act lc en] (HD & Hact & Hen & Hlc) Hm Hj.
  cbn [GameController.session GameController.isActive
       GameController.enabled GameController.lastCell] in *.
  subst act en lc.
  destruct (extend_segment m j s HD Hm Hj) as [s1 [E HD1]]. cbn [step] in E.
  cbn [GameController.handle]. unfold GameController._handleMove.
  cbn [GameController.enabled GameController.session negb orb
       GameController.isActive GameController.lastCell].
  rewrite (moved_to_new_cell m j Hm ltac:(lia)).
  unfold GameController._onDragMove.
  rewrite (drawing_status m j s HD). cbn [GameController.isStatus negb].
  destruct (PathManager.tryExtendPath s _ _) as [[r s1']|] eqn:Et;
    [|discriminate].
  cbn [bind snd] in E. injection E as ->.
  cbn [bind snd fst]. rewrite (drawing_status m (S j) s1 HD1).
  assert (match r with
          | SuccessCompleted =>
              GameController.isStatus GameState.DRAWING GameState.COMPLETED
          | _ => false
          end = false) as -> by (destruct r; reflexivity).
  eexists. split; [reflexivity|].
  split; [exact HD1|]. cbn.
  split; [reflexivity|]. split; reflexivity.
Qed.

Lemma tryExtendPath_commits : forall s row col r s1,
  Inv lv s ->
  PathManager.tryExtendPath s row col = Ret (r, s1) ->
  GameState.currentPath (gs s) <> None ->
  GameState.currentPath (gs s1) = None ->
  r = SuccessCompleted.
Proof.
  intros s row col r s1 HI H Hcp Hnone.
  destruct (tryExtendPath_cases lv s row col HI)
    as [[reason E]
       |[(cp & i & g' & Hc & _ & _ & E & Ht & _)
        |[(cp & g' & _ & _ & _ & _ & E & _)
         |(cp & g' & Hc & _ & _ & _ & _ & E & _)]]];
    rewrite E in H; injection H as <- <-.
  - contradiction.
  - cbn [gs] in Hnone. rewrite Ht in Hnone. discriminate.
  - reflexivity.
  - cbn [gs] in Hnone. unfold GameState.extendPath in Hnone.
    rewrite Hc in Hnone. discriminate.
Qed.

(** The move that reaches the next point commits the segment; when it was
    the last one the level is complete and the input is disabled. *)
Lemma drag_complete : forall m j a,
  Dragging lv p ix m j a -> (S m < N)%nat ->
  (ix m + S j = ix (S m))%nat ->
  exists a1,
    GameController.handle a
      (GameController.PointerMove (Some (nth (ix m + S j) p (0, 0)))) =
      Ret a1 /\
    CommittedUpTo lv p ix (S m) (GameController.session a1) /\
    GameState.gameState (gs (GameController.session a1)) =
      (if (S (S m) =? N)%nat then GameState.COMPLETED else GameState.IDLE) /\
    GameController.isActive a1 = negb (S (S m) =? N)%nat /\
    GameController.enabled a1 = negb (S (S m) =? N)%nat.
Proof.
  intros m j [s act lc en] (HD & Hact & Hen & Hlc) Hm Hj.
  cbn [GameController.session GameController.isActive
       GameController.enabled GameController.lastCell] in *.
  subst act en lc.
  destruct (complete_segment m j s HD Hm Hj) as [s1 [E [HC Hst]]].
  cbn [step] in E.
  cbn [GameController.handle]. unfold GameController._handleMove.
  cbn [GameController.enabled GameController.session negb orb
       GameController.isActive GameController.lastCell].
  rewrite (moved_to_new_cell m j Hm ltac:(lia)).
  unfold GameController._onDragMove.
  rewrite (drawing_status m j s HD). cbn [GameController.isStatus negb].
  destruct (PathManager.tryExtendPath s _ _) as [[r s1']|] eqn:Et;
    [|discriminate].
  cbn [bind snd] in E. injection E as ->.
  cbn [bind snd fst].
  destruct HD as (Hr & (cp & Hcp & _) & _).
  assert (r = SuccessCompleted) as ->.
  { apply (tryExtendPath_commits s _ _ r s1 (reachable_Inv lv s Hr) Et).
    - rewrite Hcp. discriminate.
    - apply HC. }
  rewrite Hst.
  destruct (Nat.eqb (S (S m)) N); cbn [GameController.isStatus negb];
    (eexists; split; [reflexivity|]); cbn;
    (split; [exact HC|]); rewrite Hst;
    (split; [reflexivity|]); split; reflexivity.
Qed.

Lemma drag_end : forall m a,
  CommittedUpTo lv p ix (S m) (GameController.session a) ->
  GameState.gameState (gs (GameController.session a)) =
    (if (S (S m) =? N)%nat then GameState.COMPLETED else GameState.IDLE) ->
  GameController.isActive a = negb (S (S m) =? N)%nat ->
  GameController.enabled a = negb (S (S m) =? N)%nat ->
  exists a1,
    GameController.handle a GameController.PointerUp = Ret a1 /\
    Between lv p ix N (S m) a1.
Proof.
  intros m [s act lc en] HC Hst Hact Hen.
  cbn [GameController.session GameController.isActive
       GameController.enabled] in *.
  cbn [GameController.handle]. unfold GameController._handleEnd.
  cbn [GameController.enabled GameController.session
       GameController.isActive].
  subst act en. destruct (Nat.eqb (S (S m)) N) eqn:El; cbn [negb].
  - eexists. split; [reflexivity|].
    split; [exact HC|].
    cbn [GameController.session GameController.isActive
         GameController.enabled].
    rewrite El.
    split; [reflexivity|]. split; [exact Hst | reflexivity].
  - unfold GameController._onDragEnd. rewrite Hst.
    cbn [GameController.isStatus bind].
    eexists. split; [reflexivity|].
    split; [exact HC|].
    cbn [GameController.session GameController.isActive
         GameController.enabled].
    rewrite El.
    split; [reflexivity|]. split; [exact Hst | reflexivity].
Qed.

Lemma drag_rest : forall d m j a,
  Dragging lv p ix m j a -> (S m < N)%nat ->
  (ix m + j + S d = ix (S m))%nat ->
  exists a1,
    GameController.handleAll a
      (map (fun c => GameController.PointerMove (Some c))
           (firstn (S d) (skipn (S (ix m + j)) p)) ++
       [GameController.PointerUp]) = Ret a1 /\
    Between lv p ix N (S m) a1.
Proof.
  induction d as [|d IH]; intros m j a HD Hm Hj.
  - destruct (drag_complete m j a HD Hm ltac:(lia))
      as (a' & E & HC & Hst & Hact & Hen).
    destruct (drag_end m a' HC Hst Hact Hen) as (a1 & E1 & HB).
    exists a1. split; [|exact HB].
    rewrite (skipn_cons_nth _ p (S (ix m + j)) (0, 0))
      by (pose proof (Hix (S m) Hm); lia).
    cbn [firstn map app GameController.handleAll].
    replace (S (ix m + j)) with (ix m + S j)%nat by lia.
    rewrite E. cbn [bind]. rewrite E1. reflexivity.
  - destruct (drag_move m j a HD Hm ltac:(lia)) as (a' & E & HD').
    destruct (IH m (S j) a' HD' Hm ltac:(lia)) as (a1 & E1 & HB).
    exists a1. split; [|exact HB].
    rewrite (skipn_cons_nth _ p (S (ix m + j)) (0, 0))
      by (pose proof (Hix (S m) Hm); lia).
    cbn [firstn map app GameController.handleAll].
    replace (S (ix m + j)) with (ix m + S j)%nat by lia.
    rewrite E. cbn [bind]. exact E1.
Qed.

Lemma drag_segment : forall m a,
  Between lv p ix N m a -> (S m < N)%nat ->
  exists a1,
    GameController.handleAll a (dragCells (segmentCells p ix m)) = Ret a1 /\
    Between lv p ix N (S m) a1.
Proof.
  intros m a HB Hm.
  destruct (drag_start m a HB Hm) as (a0 & E0 & HD).
  pose proof (Hmono m Hm) as Hlt.
  destruct (drag_rest (ix (S m) - ix m - 1) m 0 a0 HD Hm ltac:(lia))
    as (a1 & E1 & HB1).
  exists a1. split; [|exact HB1].
  unfold segmentCells.
  rewrite (skipn_cons_nth _ p (ix m) (0, 0)) by (apply Hix; lia).
  replace (ix (S m) - ix m + 1)%nat with (S (S (ix (S m) - ix m - 1))) by lia.
  change (firstn (S (S (ix (S m) - ix m - 1)))
            (nth (ix m) p (0, 0) :: skipn (S (ix m)) p))
    with (nth (ix m) p (0, 0) ::
          firstn (S (ix (S m) - ix m - 1)) (skipn (S (ix m)) p)).
  cbn [dragCells GameController.handleAll]. rewrite E0. cbn [bind].
  rewrite Nat.add_0_r in E1. exact E1.
Qed.

Lemma handleAll_app : forall (es1 es2 : list GameController.Event)
    (a a1 : GameController.App),
  GameController.handleAll a es1 = Ret a1 ->
  GameController.handleAll a (es1 ++ es2) = GameController.handleAll a1 es2.
Proof.
  induction es1 as [|e es1 IH]; intros es2 a a1 H;
    cbn [GameController.handleAll app] in *.
  - injection H as <-. reflexivity.
  - destruct (GameController.handle a e) as [a'|]; [|discriminate].
    cbn [bind] in *. apply IH. exact H.
Qed.

Lemma drag_segments : forall r m a,
  Between lv p ix N m a -> (m + r + 1 = N)%nat ->
  exists a1,
    GameController.handleAll a
      (flat_map dragCells (map (segmentCells p ix) (seq m r))) = Ret a1 /\
    Between lv p ix N (m + r) a1.
Proof.
  induction r as [|r IH]; intros m a HB Hm.
  - exists a. cbn [seq map flat_map GameController.handleAll].
    rewrite Nat.add_0_r. split; [reflexivity | exact HB].
  - destruct (drag_segment m a HB ltac:(lia)) as (a' & E & HB').
    destruct (IH (S m) a' HB' ltac:(lia)) as (a1 & E1 & HB1).
    exists a1. cbn [seq map flat_map].
    rewrite (handleAll_app _ _ a a' E).
    split; [exact E1|].
    replace (m + S r)%nat with (S m + r)%nat by lia. exact HB1.
Qed.

End PlaySolution.

(** *** The solution of a generated level *)

Lemma flat_map_comp : forall (A B C : Type) (f : B -> list C) (g : A -> B)
    (l : list A),
  flat_map (fun x => f (g x)) l = flat_map f (map g l).
Proof.
  intros A B C f g. induction l as [|x l IH]; cbn [flat_map map].
  - reflexivity.
  - rewrite IH. reflexivity.
Qed.

Lemma In_nth_firstn : forall (A : Type) (l : list A) (n i : nat) (d : A),
  (i < n)%nat -> (i < length l)%nat -> In (nth i l d) (firstn n l).
Proof.
  intros A l. induction l as [|x l IH]; intros n i d Hn Hl;
    cbn [length] in Hl; [lia|].
  destruct n as [|n]; [lia|]. cbn [firstn].
  destruct i as [|i]; [left; reflexivity|].
  right. cbn [nth]. apply IH; lia.
Qed.

Lemma countOf_In : forall (c : Z * Z) (l : list (Z * Z)),
  countOf c l = 1%nat -> In c l.
Proof.
  intros c l H. unfold countOf in H.
  destruct (filter (pos_eqb c) l) as [|x r] eqn:E; [discriminate|].
  assert (In x (filter (pos_eqb c) l)) as Hx by (rewrite E; left; reflexivity).
  apply filter_In in Hx. destruct Hx as [Hx Hb].
  apply pos_eqb_eq in Hb. subst x. exact Hx.
Qed.

(** An index between the first and the last point lies on a segment. *)
Lemma index_on_segment : forall (ix : nat -> nat) (n j : nat),
  (1 <= n)%nat -> (ix 0 <= j <= ix n)%nat ->
  exists m, (m < n)%nat /\ (ix m <= j <= ix (S m))%nat.
Proof.
  intros ix. induction n as [|n IH]; intros j Hn Hj; [lia|].
  destruct (Nat.le_gt_cases j (ix n)) as [Hle|Hgt].
  - destruct n as [|n].
    + exists 0%nat. split; lia.
    + destruct (IH j ltac:(lia) ltac:(lia)) as [m [Hm Hjm]].
      exists m. split; [lia | exact Hjm].
  - exists n. split; lia.
Qed.

Lemma loadLevel_returns : forall lv : Level,
  loadLevel lv =
  Ret (mkSession (GameState.loadLevel GameState.new lv) (loadedGrid lv)).
Proof.
  intros lv. unfold loadLevel.
  rewrite (loadedGrid_eq lv (Grid.new (lv_size lv)) eq_refl). reflexivity.
Qed.

(** The path behind a generated level: the points lie on it at increasing
    indices, the first at its start and the last at its end, the solution
    segments are its stretches between two points, and it visits every
    cell that is not an obstacle. *)
Lemma generated_level_path :
  forall (random : nat -> nat) (size numPoints maxObstacles : Z) (k : nat)
         (lv : Level) (k' : nat),
  generate random size numPoints maxObstacles k = Ret (Some lv, k') ->
  2 <= numPoints ->
  numPoints <=
    lv_size lv * lv_size lv - Z.of_nat (length (lv_obstacles lv)) ->
  exists (p : list (Z * Z)) (ix : nat -> nat),
    NoDup p /\ chain p /\
    (forall c, In c p -> inGrid lv c = true) /\
    (forall i, (i < Z.to_nat numPoints)%nat -> (ix i < length p)%nat) /\
    (forall i, (S i < Z.to_nat numPoints)%nat -> (ix i < ix (S i))%nat) /\
    lv_points lv = map (pointOn p ix) (seq 0 (Z.to_nat numPoints)) /\
    map seg_path (lv_solution lv) =
      map (segmentCells p ix) (seq 0 (Z.to_nat numPoints - 1)) /\
    ix 0%nat = 0%nat /\
    ix (Z.to_nat numPoints - 1)%nat = (length p - 1)%nat /\
    (forall c, inBounds (lv_size lv) c = true ->
               set_has pos_eqb (lv_obstacles lv) c = false -> In c p).
Proof.
  intros random size numPoints maxObstacles k lv k' H Hn2 HnL.
  unfold generate in H.
  destruct (attemptLoop_some _ _ _ _ _ _ _ _ H) as [mo [k1 Ht]].
  destruct (tryGenerateLevel_spec _ _ _ _ _ _ _ Ht)
    as [p [[Hcount [Hcells [Hchain Hlen]]] [Hs [Hp [Hsol [Hnd Hl]]]]]].
  rewrite Hs in *.
  set (len := Z.of_nat (length p)) in *.
  set (idx := pointIndex numPoints len).
  set (N := Z.to_nat numPoints).
  set (ix := fun i : nat => Z.to_nat (idx (Z.of_nat i))).
  assert (numPoints <= len) as HnL' by lia.
  assert (forall i, 0 <= i < numPoints -> 0 <= idx i < len) as Hb
    by (intros i Hi; apply pointIndex_bounds; lia).
  assert (forall i j, 0 <= i -> i < j -> j < numPoints -> idx i < idx j)
    as Hinc by (intros i j Hi Hij Hj; apply pointIndex_increasing; lia).
  assert (forall i, (S i < N)%nat -> (ix i < ix (S i))%nat) as Hmono.
  { intros i Hi. unfold ix.
    pose proof (Hb (Z.of_nat i) ltac:(lia)).
    pose proof (Hinc (Z.of_nat i) (Z.of_nat (S i)) ltac:(lia) ltac:(lia)
                     ltac:(lia)). lia. }
  exists p, ix.
  split; [exact Hnd|]. split; [exact Hchain|].
  split.
  { intros c Hc. destruct (Hcells c Hc) as [Hbc _].
    unfold inGrid. rewrite Hs. exact Hbc. }
  split.
  { intros i Hi. unfold ix. pose proof (Hb (Z.of_nat i) ltac:(lia)). lia. }
  split; [exact Hmono|].
  split.
  { rewrite Hp. unfold pointsOn, range. rewrite map_map. reflexivity. }
  split.
  { rewrite Hsol, Hp.
    rewrite (createSolution_spec p numPoints Hnd ltac:(lia) Hl).
    unfold range. rewrite !map_map. cbn [seg_path].
    replace (Z.to_nat (numPoints - 1)) with (N - 1)%nat by lia.
    apply map_ext_in. intros m Hm. apply in_seq in Hm.
    fold len. fold idx. unfold segmentCells.
    pose proof (Hb (Z.of_nat m) ltac:(lia)) as Hbm.
    pose proof (Hb (Z.of_nat (S m)) ltac:(lia)) as HbS.
    pose proof (Hmono m ltac:(lia)) as Hlt. unfold ix in Hlt.
    replace (idx (Z.of_nat m)) with (Z.of_nat (ix m)) by (unfold ix; lia).
    replace (idx (Z.of_nat m + 1) + 1) with (Z.of_nat (ix (S m) + 1))
      by (unfold ix; replace (Z.of_nat m + 1) with (Z.of_nat (S m)) by lia;
          lia).
    rewrite slice_nat by (unfold ix; lia).
    f_equal. unfold ix. lia. }
  split; [reflexivity|].
  split.
  { unfold ix, idx, pointIndex.
    replace (Z.of_nat (N - 1)%nat) with (numPoints - 1) by lia.
    destruct (Z.eqb_spec (numPoints - 1) 0); [lia|].
    rewrite Z.eqb_refl. lia. }
  intros c Hbc Hno. apply countOf_In. apply (Hcount c Hbc Hno).
Qed.

(** X27.  Every generated level can be completed by drawing its own
    solution.  For a level returned by [generate] with at least two points
    and no more points than cells without an obstacle, loading the level and
    drawing the solution segments in turn, each from its first cell
    through its cells in order, never fails: every segment is committed
    as a path, the status ends as [COMPLETED], and every cell of the grid
    that is not an obstacle is then occupied. *)
Theorem generated_level_is_solvable :
  forall (random : nat -> nat) (size numPoints maxObstacles : Z) (k : nat)
         (lv : Level) (k' : nat),
  generate random size numPoints maxObstacles k = Ret (Some lv, k') ->
  2 <= numPoints ->
  numPoints <=
    lv_size lv * lv_size lv - Z.of_nat (length (lv_obstacles lv)) ->
  exists s,
    (s0 <- loadLevel lv ;; run s0 (playSolution lv)) = Ret s /\
    GameState.gameState (gs s) = GameState.COMPLETED /\
    GameState.isComplete (gs s) = true /\
    GameState.currentPath (gs s) = None /\
    map path_cells (GameState.paths (gs s)) = map seg_path (lv_solution lv) /\
    (forall c, inBounds (lv_size lv) c = true ->
               set_has pos_eqb (lv_obstacles lv) c = false ->
               occ (grid s) c = true).
Proof.
  intros random size numPoints maxObstacles k lv k' H Hn2 HnL.
  destruct (generated_level_path _ _ _ _ _ _ _ H Hn2 HnL)
    as (p & ix & Hnd & Hchain & HinGrid & Hix & Hmono & Hpoints & Hsegs &
        Hix0 & HixN & Hall).
  set (N := Z.to_nat numPoints) in *.
  rewrite loadLevel_returns. cbn [bind].
  set (s0 := mkSession (GameState.loadLevel GameState.new lv) (loadedGrid lv)).
  assert (CommittedUpTo lv p ix 0 s0) as HC0.
  { split; [apply reach_load; apply loadLevel_returns|].
    split; reflexivity. }
  destruct (play_segments lv p ix N Hnd Hchain HinGrid Hix Hmono Hpoints
              (N - 1) 0 s0 HC0 ltac:(lia)) as [s [E [HC Hst]]].
  exists s. unfold playSolution.
  rewrite (flat_map_comp _ _ _ playCells seg_path), Hsegs.
  split; [exact E|].
  specialize (Hst ltac:(lia)).
  destruct HC as (Hr & Hcp & Hps). cbn [Nat.add] in Hps.
  split; [exact Hst|].
  split; [apply (proj1 (completed_paths lv s Hr Hst))|].
  split; [exact Hcp|]. split; [exact Hps|].
  intros c Hbc Hno.
  pose proof (Hall c Hbc Hno) as Hc.
  destruct (In_nth p c (0, 0) Hc) as [j [Hj Ej]].
  destruct (index_on_segment ix (N - 1)%nat j ltac:(lia) ltac:(lia))
    as [m [Hm Hjm]].
  assert (In c (segmentCells p ix m)) as Hcm.
  { unfold segmentCells. rewrite <- Ej.
    replace j with (ix m + (j - ix m))%nat by lia.
    rewrite <- nth_skipn_add.
    apply In_nth_firstn; [lia | rewrite length_skipn; lia]. }
  assert (In (segmentCells p ix m)
             (map path_cells (GameState.paths (gs s)))) as Hin.
  { rewrite Hps. apply in_map. apply in_seq. lia. }
  apply in_map_iff in Hin. destruct Hin as [q [Eq Hq]].
  apply (inv_paths_occ _ _ (reachable_Inv lv s Hr) q c Hq).
  rewrite Eq. exact Hcm.
Qed.

Lemma generated_level_is_solvable_witness :
  generate alwaysFive 3 2 0 0 = Ret (Some level3, cursor3) /\
  2 <= 2 /\
  2 <= lv_size level3 * lv_size level3 -
       Z.of_nat (length (lv_obstacles level3)) /\
  exists s,
    (s0 <- loadLevel level3 ;; run s0 (playSolution level3)) = Ret s /\
    GameState.gameState (gs s) = GameState.COMPLETED.
Proof.
  assert (generate alwaysFive 3 2 0 0 = Ret (Some level3, cursor3)) as H
    by (vm_compute; reflexivity).
  split; [exact H|]. split; [lia|]. split; [vm_compute; discriminate|].
  destruct (generated_level_is_solvable alwaysFive 3 2 0 0 level3 cursor3 H)
    as [s [H1 [H2 _]]].
  - lia.
  - vm_compute. discriminate.
  - exists s. split; [exact H1 | exact H2].
Defined.

(** X28.  A player can complete every generated level with the pointer.
    On a level returned by [generate] with at least two points and no more
    points than cells without an obstacle, one drag along each segment in
    turn (pointer down on its first cell, a move over each further cell,
    pointer up) is handled without an error: every segment is committed as
    a path, the status ends as [COMPLETED], no drag is active any more and
    the input handler is disabled. *)
Theorem dragging_the_solution_completes :
  forall (random : nat -> nat) (size numPoints maxObstacles : Z) (k : nat)
         (lv : Level) (k' : nat),
  generate random size numPoints maxObstacles k = Ret (Some lv, k') ->
  2 <= numPoints ->
  numPoints <=
    lv_size lv * lv_size lv - Z.of_nat (length (lv_obstacles lv)) ->
  exists a,
    (a0 <- GameController.start lv ;;
     GameController.handleAll a0 (dragSolution lv)) = Ret a /\
    GameState.gameState (gs (GameController.session a)) =
      GameState.COMPLETED /\
    GameState.currentPath (gs (GameController.session a)) = None /\
    map path_cells (GameState.paths (gs (GameController.session a))) =
      map seg_path (lv_solution lv) /\
    GameController.isActive a = false /\
    GameController.enabled a = false.
Proof.
  intros random size numPoints maxObstacles k lv k' H Hn2 HnL.
  destruct (generated_level_path _ _ _ _ _ _ _ H Hn2 HnL)
    as (p & ix & Hnd & Hchain & HinGrid & Hix & Hmono & Hpoints & Hsegs & _).
  set (N := Z.to_nat numPoints) in *.
  unfold GameController.start. rewrite loadLevel_returns. cbn [bind].
  set (s0 := mkSession (GameState.loadLevel GameState.new lv) (loadedGrid lv)).
  assert (Between lv p ix N 0 (GameController.mkApp s0 false None true))
    as HB0.
  { split.
    - split; [apply reach_load; apply loadLevel_returns|].
      split; reflexivity.
    - cbn [GameController.session GameController.isActive
           GameController.enabled].
      destruct (Nat.eqb_spec 1 N) as [X|_]; [lia|].
      split; [reflexivity|]. split; reflexivity. }
  destruct (drag_segments lv p ix N Hnd Hchain HinGrid Hix Hmono Hpoints
              (N - 1) 0 _ HB0 ltac:(lia))
    as (a & E & (Hr & Hcp & Hps) & Hact & Hst & Hen).
  exists a. unfold dragSolution.
  rewrite (flat_map_comp _ _ _ dragCells seg_path), Hsegs.
  split; [exact E|].
  cbn [Nat.add] in *.
  destruct (Nat.eqb_spec (S (N - 1)) N) as [_|X]; [|lia].
  split; [exact Hst|]. split; [exact Hcp|]. split; [exact Hps|].
  split; [exact Hact | exact Hen].
Qed.

Lemma dragging_the_solution_completes_witness :
  generate alwaysFive 3 2 0 0 = Ret (Some level3, cursor3) /\
  2 <= 2 /\
  2 <= lv_size level3 * lv_size level3 -
       Z.of_nat (length (lv_obstacles level3)) /\
  exists a,
    (a0 <- GameController.start level3 ;;
     GameController.handleAll a0 (dragSolution level3)) = Ret a /\
    GameController.enabled a = false.
Proof.
  assert (generate alwaysFive 3 2 0 0 = Ret (Some level3, cursor3)) as H
    by (vm_compute; reflexivity).
  split; [exact H|]. split; [lia|]. split; [vm_compute; discriminate|].
  destruct (dragging_the_solution_completes alwaysFive 3 2 0 0 level3 cursor3
              H) as (a & H1 & _ & _ & _ & _ & H2).
  - lia.
  - vm_compute. discriminate.
  - exists a. split; [exact H1 | exact H2].
Defined.

(** ** LevelManager.js *)

Lemma getTotalLevels_fold : forall (packs : list LevelManager.Pack) (acc : Z),
  fold_left (fun sum pack =>
               sum + match LevelManager.levels pack with
                     | Some ls => Z.of_nat (length ls)
                     | None => 0
                     end) packs acc =
  acc + Z.of_nat (length (flat_map packLevels packs)).
Proof.
  induction packs as [|pk packs IH]; intros acc; cbn [fold_left flat_map].
  - cbn [length]. lia.
  - rewrite IH, length_app. unfold packLevels at 2.
    destruct (LevelManager.levels pk); cbn [length]; lia.
Qed.

Lemma getTotalLevels_flat : forall m : LevelManager.t,
  LevelManager.getTotalLevels m = Z.of_nat (length (flatLevels m)).
Proof.
  intros m. unfold LevelManager.getTotalLevels, flatLevels.
  rewrite getTotalLevels_fold. lia.
Qed.

Lemma at_index_split : forall (A : Type) (l : list A) (i : Z) (x : A),
  at_index l i = Some x ->
  0 <= i /\
  exists pre post,
    l = pre ++ x :: post /\ length pre = Z.to_nat i /\
    firstn (Z.to_nat i) l = pre.
Proof.
  intros A l i x H. unfold at_index in H.
  destruct (Z.ltb_spec i 0); [discriminate|]. split; [lia|].
  destruct (nth_error_split l (Z.to_nat i) H) as [pre [post [E Hl]]].
  exists pre, post. split; [exact E|]. split; [exact Hl|].
  rewrite E, <- Hl, firstn_app, Nat.sub_diag, firstn_all. cbn [firstn].
  apply app_nil_r.
Qed.

Lemma at_index_nth_error : forall (A : Type) (l : list A) (i : Z),
  0 <= i -> at_index l i = nth_error l (Z.to_nat i).
Proof.
  intros A l i H. unfold at_index.
  destruct (Z.ltb_spec i 0); [lia | reflexivity].
Qed.

Lemma getLevel_valid : forall (m : LevelManager.t) (pack : LevelManager.Pack)
    (pi li : Z),
  at_index (LevelManager.packs m) pi = Some pack ->
  0 <= li < Z.of_nat (length (packLevels pack)) ->
  LevelManager.getLevel m pi li =
  Ret (nth_error (packLevels pack) (Z.to_nat li)).
Proof.
  intros m pack pi li Hp Hl. unfold LevelManager.getLevel.
  pose proof Hp as Hp'. unfold at_index in Hp'.
  destruct (Z.ltb_spec pi 0) as [|Hpi]; [discriminate|].
  assert (Z.to_nat pi < length (LevelManager.packs m))%nat as Hlt
    by (apply nth_error_Some; congruence).
  destruct (Z.geb_spec pi (Z.of_nat (length (LevelManager.packs m))));
    [lia|].
  cbn [orb]. rewrite Hp. unfold packLevels in *.
  destruct (LevelManager.levels pack) as [ls|]; [|cbn [length] in Hl; lia].
  destruct (Z.ltb_spec li 0); [lia|].
  destruct (Z.geb_spec li (Z.of_nat (length ls))); [lia|].
  cbn [orb]. rewrite at_index_nth_error by lia. reflexivity.
Qed.

(** X29.  [getNextLevel] walks through the levels of all the packs in
    order.  When every pack has at least one level and the current
    position names a level, the total is the number of levels of all
    packs, the current level is the one of rank [flatIndex] among them,
    and [getNextLevel] moves to the level of the next rank and returns it,
    or returns [null] and stays where it is when the current level is the
    last one. *)
Theorem getNextLevel_in_order : forall m : LevelManager.t,
  (forall pack, In pack (LevelManager.packs m) -> packLevels pack <> []) ->
  validPosition m ->
  LevelManager.getTotalLevels m = Z.of_nat (length (flatLevels m)) /\
  0 <= flatIndex m < LevelManager.getTotalLevels m /\
  LevelManager.getCurrentLevel m =
    Ret (nth_error (flatLevels m) (Z.to_nat (flatIndex m))) /\
  (flatIndex m + 1 < LevelManager.getTotalLevels m ->
   exists lv m',
     LevelManager.getNextLevel m = Ret (Some lv, m') /\
     LevelManager.packs m' = LevelManager.packs m /\
     validPosition m' /\
     flatIndex m' = flatIndex m + 1 /\
     nth_error (flatLevels m) (Z.to_nat (flatIndex m + 1)) = Some lv) /\
  (flatIndex m + 1 = LevelManager.getTotalLevels m ->
   LevelManager.getNextLevel m = Ret (None, m)).
Proof.
  intros m Hne (pack & Hpack & Hli).
  destruct (at_index_split _ _ _ _ Hpack) as (Hpi & pre & post & E & Hlen & Hpre).
  assert (In pack (LevelManager.packs m)) as Hin
    by (rewrite E; apply in_or_app; right; left; reflexivity).
  pose proof (Hne pack Hin) as Hpne.
  assert (flatLevels m =
          flat_map packLevels pre ++ packLevels pack ++ flat_map packLevels post)
    as Hflat.
  { unfold flatLevels. rewrite E, flat_map_app. reflexivity. }
  assert (flatIndex m =
          Z.of_nat (length (flat_map packLevels pre)) +
          LevelManager.currentLevelIndex m) as Hfi.
  { unfold flatIndex. rewrite Hpre. reflexivity. }
  rewrite getTotalLevels_flat.
  split; [reflexivity|].
  assert (Z.of_nat (length (flatLevels m)) =
          Z.of_nat (length (flat_map packLevels pre)) +
          Z.of_nat (length (packLevels pack)) +
          Z.of_nat (length (flat_map packLevels post))) as Htot.
  { rewrite Hflat, !length_app. lia. }
  split; [lia|].
  assert (LevelManager.getCurrentLevel m =
          Ret (nth_error (flatLevels m) (Z.to_nat (flatIndex m)))) as Hcur.
  { unfold LevelManager.getCurrentLevel.
    rewrite (getLevel_valid m pack _ _ Hpack Hli). f_equal.
    rewrite Hflat, Hfi.
    replace (Z.to_nat (Z.of_nat (length (flat_map packLevels pre)) +
                       LevelManager.currentLevelIndex m))
      with (length (flat_map packLevels pre) +
            Z.to_nat (LevelManager.currentLevelIndex m))%nat by lia.
    rewrite nth_error_app2 by lia.
    replace (length (flat_map packLevels pre) +
             Z.to_nat (LevelManager.currentLevelIndex m) -
             length (flat_map packLevels pre))%nat
      with (Z.to_nat (LevelManager.currentLevelIndex m)) by lia.
    rewrite nth_error_app1 by lia. reflexivity. }
  split; [exact Hcur|].
  assert (LevelManager.levels pack = Some (packLevels pack)) as Hlv.
  { unfold packLevels in *. destruct (LevelManager.levels pack);
      [reflexivity | contradiction]. }
  assert (Z.of_nat (length (LevelManager.packs m)) =
          LevelManager.currentPackIndex m + 1 + Z.of_nat (length post))
    as Hnp.
  { rewrite E, length_app. cbn [length]. lia. }
  unfold LevelManager.getNextLevel. rewrite Hpack, Hlv.
  destruct (Z.ltb_spec (LevelManager.currentLevelIndex m + 1)
                       (Z.of_nat (length (packLevels pack)))) as [Hl|Hl].
  - (* the next level of the same pack *)
    set (m' := LevelManager.mk (LevelManager.packs m)
                 (LevelManager.currentPackIndex m)
                 (LevelManager.currentLevelIndex m + 1)).
    assert (validPosition m') as Hv'.
    { exists pack. split; [exact Hpack|]. cbn. lia. }
    assert (flatIndex m' = flatIndex m + 1) as Hfi'.
    { unfold flatIndex, m'. cbn. lia. }
    split.
    + intros _.
      destruct (nth_error (packLevels pack)
                  (Z.to_nat (LevelManager.currentLevelIndex m + 1)))
        as [lv|] eqn:En.
      2:{ apply nth_error_None in En. lia. }
      exists lv, m'. unfold LevelManager.getCurrentLevel.
      rewrite (getLevel_valid m' pack _ _ Hpack) by (cbn; lia).
      cbn [LevelManager.currentLevelIndex m' bind]. rewrite En.
      split; [reflexivity|]. split; [reflexivity|]. split; [exact Hv'|].
      split; [exact Hfi'|].
      rewrite Hflat, Hfi.
      replace (Z.to_nat (Z.of_nat (length (flat_map packLevels pre)) +
                         LevelManager.currentLevelIndex m + 1))
        with (length (flat_map packLevels pre) +
              Z.to_nat (LevelManager.currentLevelIndex m + 1))%nat by lia.
      rewrite nth_error_app2 by lia.
      replace (length (flat_map packLevels pre) +
               Z.to_nat (LevelManager.currentLevelIndex m + 1) -
               length (flat_map packLevels pre))%nat
        with (Z.to_nat (LevelManager.currentLevelIndex m + 1)) by lia.
      rewrite nth_error_app1 by lia. exact En.
    + intros X. lia.
  - destruct (Z.ltb_spec (LevelManager.currentPackIndex m + 1)
                         (Z.of_nat (length (LevelManager.packs m))))
      as [Hp|Hp].
    + (* the first level of the next pack *)
      destruct post as [|next post]; [cbn [length] in Hnp; lia|].
      assert (In next (LevelManager.packs m)) as Hin'
        by (rewrite E; apply in_or_app; right; right; left; reflexivity).
      pose proof (Hne next Hin') as Hnne.
      set (m' := LevelManager.mk (LevelManager.packs m)
                   (LevelManager.currentPackIndex m + 1) 0).
      assert (at_index (LevelManager.packs m)
                       (LevelManager.currentPackIndex m + 1) = Some next)
        as Hnext.
      { rewrite at_index_nth_error by lia. rewrite E.
        replace (Z.to_nat (LevelManager.currentPackIndex m + 1))
          with (length pre + 1)%nat by lia.
        rewrite nth_error_app2 by lia.
        replace (length pre + 1 - length pre)%nat with 1%nat by lia.
        reflexivity. }
      assert (0 < Z.of_nat (length (packLevels next))) as Hnl
        by (destruct (packLevels next); [contradiction | cbn [length]; lia]).
      assert (validPosition m') as Hv'.
      { exists next. split; [exact Hnext|]. cbn. lia. }
      assert (flatIndex m' = flatIndex m + 1) as Hfi'.
      { rewrite Hfi. unfold flatIndex, m'. cbn [LevelManager.packs
          LevelManager.currentPackIndex LevelManager.currentLevelIndex].
        rewrite E.
        replace (Z.to_nat (LevelManager.currentPackIndex m + 1))
          with (length (pre ++ [pack]) + 0)%nat
          by (rewrite length_app; cbn [length]; lia).
        replace (pre ++ pack :: next :: post)
          with ((pre ++ [pack]) ++ next :: post)
          by (rewrite <- app_assoc; reflexivity).
        rewrite firstn_app_2. cbn [firstn]. rewrite app_nil_r.
        rewrite flat_map_app, length_app. cbn [flat_map].
        rewrite app_nil_r. lia. }
      split.
      * intros _.
        pose proof (getLevel_valid m' next _ 0 Hnext ltac:(lia)) as Hget.
        destruct (packLevels next) as [|lv rest] eqn:En; [contradiction|].
        exists lv, m'. unfold LevelManager.getCurrentLevel.
        cbn [LevelManager.currentLevelIndex LevelManager.currentPackIndex m'].
        rewrite Hget. cbn [bind Z.to_nat nth_error].
        split; [reflexivity|]. split; [reflexivity|]. split; [exact Hv'|].
        split; [exact Hfi'|].
        rewrite Hflat, Hfi. cbn [flat_map]. rewrite En.
        replace (Z.to_nat (Z.of_nat (length (flat_map packLevels pre)) +
                           LevelManager.currentLevelIndex m + 1))
          with (length (flat_map packLevels pre) +
                length (packLevels pack))%nat by lia.
        rewrite nth_error_app2 by lia.
        rewrite nth_error_app2 by lia.
        replace (length (flat_map packLevels pre) + length (packLevels pack) -
                 length (flat_map packLevels pre) - length (packLevels pack))%nat
          with 0%nat by lia.
        reflexivity.
      * intros X. exfalso. rewrite Htot in X. cbn [flat_map] in X.
        rewrite length_app in X. lia.
    + (* the last level of the last pack *)
      split; [|reflexivity].
      intros X. exfalso.
      destruct post as [|next post]; [|cbn [length] in Hnp; lia].
      rewrite Htot in X. cbn [flat_map length] in X. lia.
Qed.

Lemma getNextLevel_in_order_witness :
  (forall pack, In pack (LevelManager.packs samplePacks) ->
                packLevels pack <> []) /\
  validPosition samplePacks /\
  exists m',
    LevelManager.getNextLevel samplePacks = Ret (Some hintLevel, m') /\
    flatIndex m' = 2.
Proof.
  assert (forall pack, In pack (LevelManager.packs samplePacks) ->
                       packLevels pack <> []) as H1.
  { intros pack [<-|[<-|[]]]; discriminate. }
  assert (validPosition samplePacks) as H2.
  { eexists. split; [reflexivity|]. cbn. lia. }
  split; [exact H1|]. split; [exact H2|].
  destruct (getNextLevel_in_order samplePacks H1 H2)
    as (_ & _ & _ & Hnext & _).
  destruct (Hnext ltac:(vm_compute; reflexivity))
    as (lv & m' & E & _ & _ & Hfi & Hn).
  exists m'. vm_compute in Hn. injection Hn as <-.
  split; [exact E | exact Hfi].
Defined.

(** X30.  The daily puzzle is one of the levels of the packs: when every
    pack has its [levels] array and there is at least one level, the
    puzzle of a date is the level whose rank among all levels is the hash
    of the date modulo their number.  With no level at all there is no
    puzzle data. *)
Theorem getDailyPuzzle_is_a_level :
  forall (m : LevelManager.t) (today : list Z),
  (forall pack, In pack (LevelManager.packs m) ->
                LevelManager.levels pack <> None) ->
  (flatLevels m <> [] ->
   exists lv,
     LevelManager.getDailyPuzzle m today = Some lv /\
     In lv (flatLevels m) /\
     nth_error (flatLevels m)
       (Z.to_nat (Helpers.dateHash today mod
                  LevelManager.getTotalLevels m)) = Some lv) /\
  (flatLevels m = [] -> LevelManager.getDailyPuzzle m today = None).
Proof.
  intros m today Hall.
  assert (LevelManager.allLevels m = map (@Some Level) (flatLevels m)) as Hal.
  { unfold LevelManager.allLevels, flatLevels.
    induction (LevelManager.packs m) as [|pk pks IH]; cbn [flat_map map].
    - reflexivity.
    - rewrite map_app, IH by (intros q Hq; apply Hall; right; exact Hq).
      f_equal. unfold packLevels.
      destruct (LevelManager.levels pk) eqn:El; [reflexivity|].
      exfalso. apply (Hall pk); [left; reflexivity | exact El]. }
  unfold LevelManager.getDailyPuzzle. cbv zeta.
  rewrite Hal, length_map, getTotalLevels_flat.
  split.
  - intros Hne.
    assert (0 < Z.of_nat (length (flatLevels m))) as Hpos
      by (destruct (flatLevels m); [contradiction | cbn [length]; lia]).
    destruct (Nat.eqb_spec (length (flatLevels m)) 0) as [X|_]; [lia|].
    assert (0 <= Helpers.dateHash today) as Hh
      by (unfold Helpers.dateHash; apply Z.abs_nonneg).
    rewrite Z.rem_mod_nonneg by lia.
    pose proof (Z.mod_pos_bound (Helpers.dateHash today)
                  (Z.of_nat (length (flatLevels m))) Hpos) as Hb.
    rewrite at_index_nth_error by lia. rewrite nth_error_map.
    destruct (nth_error (flatLevels m) _) as [lv|] eqn:En.
    + exists lv. cbn [option_map]. split; [reflexivity|].
      split; [apply (nth_error_In _ _ En) | reflexivity].
    + apply nth_error_None in En. lia.
  - intros ->. reflexivity.
Qed.

Lemma getDailyPuzzle_is_a_level_witness :
  (forall pack, In pack (LevelManager.packs samplePacks) ->
                LevelManager.levels pack <> None) /\
  exists lv,
    LevelManager.getDailyPuzzle samplePacks [50; 48; 50; 54] = Some lv /\
    In lv (flatLevels samplePacks).
Proof.
  assert (forall pack, In pack (LevelManager.packs samplePacks) ->
                       LevelManager.levels pack <> None) as H1.
  { intros pack [<-|[<-|[]]]; discriminate. }
  split; [exact H1|].
  destruct (proj1 (getDailyPuzzle_is_a_level samplePacks [50; 48; 50; 54] H1)
              ltac:(discriminate)) as (lv & E & Hin & _).
  exists lv. split; [exact E | exact Hin].
Defined.

